(** * HEVC CABAC residual decoding (libavcodec/hevc_cabac.c)

    A shallow embedding of the CABAC context initialisation, the
    Golomb-Rice remainder decoders, the motion-vector-difference decoder
    and the residual (transform coefficient) decoder of
    [libavcodec/hevc_cabac.c], followed by the properties of the
    specification that are stated about them.

    Conventions.
    - C [int] and [unsigned] values are integers in [Z]; where a value can
      leave its machine range the wrap-around is written with [int32],
      [uint32], [int16] or [uint8].  Index arithmetic that stays far inside
      the [int] range is written on [Z] directly.
    - Arrays are lists; [tab.[i]] reads with default 0 and [<[i:=v]>]
      writes (no effect out of range, where C is undefined).
    - The build modelled is the portable one: [RPI] and [ARCH_ARM] are not
      defined and [get_cabac_bypeek22] is not provided for the main
      decoder, so the C fallbacks are the code. *)

From stdpp Require Import base numbers list.
From Stdlib Require Import ZArith Lia Bool List.
Import ListNotations.
Local Open Scope Z_scope.

(** ** Machine integers *)

Definition uint8 (z : Z) : Z := z mod 256.
Definition uint32 (z : Z) : Z := z mod 2 ^ 32.
Definition int16 (z : Z) : Z := (z + 2 ^ 15) mod 2 ^ 16 - 2 ^ 15.
Definition int32 (z : Z) : Z := (z + 2 ^ 31) mod 2 ^ 32 - 2 ^ 31.

(** [av_clip], [FFMIN], [FFMAX] of libavutil/common.h. *)
Definition av_clip (a amin amax : Z) : Z :=
  if a <? amin then amin else if a >? amax then amax else a.
Definition FFMIN (a b : Z) : Z := if a >? b then b else a.
Definition FFMAX (a b : Z) : Z := if a >? b then a else b.

(** [__builtin_clz] on a 32-bit word (32 stands for the undefined case 0). *)
Definition clz32 (x : Z) : Z := if x <=? 0 then 32 else 31 - Z.log2 x.

Definition b2z (b : bool) : Z := if b then 1 else 0.

(** Array read with C's zero default for the missing trailing initialisers. *)
Definition zth (l : list Z) (i : Z) : Z := nth (Z.to_nat i) l 0.
Notation "l .[ i ]" := (zth l i) (at level 1, left associativity, format "l .[ i ]").

(** Array write [a[i] = v]. *)
Definition zset (l : list Z) (i v : Z) : list Z := <[Z.to_nat i := v]> l.

(** [for (i = i0; n iterations; i++) s = body i s]. *)
Fixpoint for_loop {S : Type} (n : nat) (i : Z) (body : Z -> S -> S) (s : S) : S :=
  match n with
  | O => s
  | Datatypes.S n' => for_loop n' (i + 1) body (body i s)
  end.

(** ** Syntax elements and the context tables *)

Definition CABAC_MAX_BIN : Z := 31.

(** Modelled from the spec: [enum SyntaxElement] of hevc.h, which is not
    among the sources; the order is the one of the comments of
    [num_bins_in_se] and [elem_offset]. *)
Inductive SyntaxElement : Set :=
  | SAO_MERGE_FLAG | SAO_TYPE_IDX | SAO_EO_CLASS | SAO_BAND_POSITION
  | SAO_OFFSET_ABS | SAO_OFFSET_SIGN | END_OF_SLICE_FLAG
  | SPLIT_CODING_UNIT_FLAG | CU_TRANSQUANT_BYPASS_FLAG | SKIP_FLAG
  | CU_QP_DELTA | PRED_MODE_FLAG | PART_MODE | PCM_FLAG
  | PREV_INTRA_LUMA_PRED_FLAG | MPM_IDX | REM_INTRA_LUMA_PRED_MODE
  | INTRA_CHROMA_PRED_MODE | MERGE_FLAG | MERGE_IDX | INTER_PRED_IDC
  | REF_IDX_L0 | REF_IDX_L1 | ABS_MVD_GREATER0_FLAG | ABS_MVD_GREATER1_FLAG
  | ABS_MVD_MINUS2 | MVD_SIGN_FLAG | MVP_LX_FLAG | NO_RESIDUAL_DATA_FLAG
  | SPLIT_TRANSFORM_FLAG | CBF_LUMA | CBF_CB_CR | TRANSFORM_SKIP_FLAG
  | EXPLICIT_RDPCM_FLAG | EXPLICIT_RDPCM_DIR_FLAG
  | LAST_SIGNIFICANT_COEFF_X_PREFIX | LAST_SIGNIFICANT_COEFF_Y_PREFIX
  | LAST_SIGNIFICANT_COEFF_X_SUFFIX | LAST_SIGNIFICANT_COEFF_Y_SUFFIX
  | SIGNIFICANT_COEFF_GROUP_FLAG | SIGNIFICANT_COEFF_FLAG
  | COEFF_ABS_LEVEL_GREATER1_FLAG | COEFF_ABS_LEVEL_GREATER2_FLAG
  | COEFF_ABS_LEVEL_REMAINING | COEFF_SIGN_FLAG | LOG2_RES_SCALE_ABS
  | RES_SCALE_SIGN_FLAG | CU_CHROMA_QP_OFFSET_FLAG | CU_CHROMA_QP_OFFSET_IDX.

Definition all_syntax_elements : list SyntaxElement :=
  [ SAO_MERGE_FLAG; SAO_TYPE_IDX; SAO_EO_CLASS; SAO_BAND_POSITION;
    SAO_OFFSET_ABS; SAO_OFFSET_SIGN; END_OF_SLICE_FLAG;
    SPLIT_CODING_UNIT_FLAG; CU_TRANSQUANT_BYPASS_FLAG; SKIP_FLAG;
    CU_QP_DELTA; PRED_MODE_FLAG; PART_MODE; PCM_FLAG;
    PREV_INTRA_LUMA_PRED_FLAG; MPM_IDX; REM_INTRA_LUMA_PRED_MODE;
    INTRA_CHROMA_PRED_MODE; MERGE_FLAG; MERGE_IDX; INTER_PRED_IDC;
    REF_IDX_L0; REF_IDX_L1; ABS_MVD_GREATER0_FLAG; ABS_MVD_GREATER1_FLAG;
    ABS_MVD_MINUS2; MVD_SIGN_FLAG; MVP_LX_FLAG; NO_RESIDUAL_DATA_FLAG;
    SPLIT_TRANSFORM_FLAG; CBF_LUMA; CBF_CB_CR; TRANSFORM_SKIP_FLAG;
    EXPLICIT_RDPCM_FLAG; EXPLICIT_RDPCM_DIR_FLAG;
    LAST_SIGNIFICANT_COEFF_X_PREFIX; LAST_SIGNIFICANT_COEFF_Y_PREFIX;
    LAST_SIGNIFICANT_COEFF_X_SUFFIX; LAST_SIGNIFICANT_COEFF_Y_SUFFIX;
    SIGNIFICANT_COEFF_GROUP_FLAG; SIGNIFICANT_COEFF_FLAG;
    COEFF_ABS_LEVEL_GREATER1_FLAG; COEFF_ABS_LEVEL_GREATER2_FLAG;
    COEFF_ABS_LEVEL_REMAINING; COEFF_SIGN_FLAG; LOG2_RES_SCALE_ABS;
    RES_SCALE_SIGN_FLAG; CU_CHROMA_QP_OFFSET_FLAG; CU_CHROMA_QP_OFFSET_IDX ].

(** The enumerator value of a syntax element (its position in the enum). *)
Definition se_index (e : SyntaxElement) : Z :=
  match e with
  | SAO_MERGE_FLAG => 0 | SAO_TYPE_IDX => 1 | SAO_EO_CLASS => 2
  | SAO_BAND_POSITION => 3 | SAO_OFFSET_ABS => 4 | SAO_OFFSET_SIGN => 5
  | END_OF_SLICE_FLAG => 6 | SPLIT_CODING_UNIT_FLAG => 7
  | CU_TRANSQUANT_BYPASS_FLAG => 8 | SKIP_FLAG => 9 | CU_QP_DELTA => 10
  | PRED_MODE_FLAG => 11 | PART_MODE => 12 | PCM_FLAG => 13
  | PREV_INTRA_LUMA_PRED_FLAG => 14 | MPM_IDX => 15
  | REM_INTRA_LUMA_PRED_MODE => 16 | INTRA_CHROMA_PRED_MODE => 17
  | MERGE_FLAG => 18 | MERGE_IDX => 19 | INTER_PRED_IDC => 20
  | REF_IDX_L0 => 21 | REF_IDX_L1 => 22 | ABS_MVD_GREATER0_FLAG => 23
  | ABS_MVD_GREATER1_FLAG => 24 | ABS_MVD_MINUS2 => 25 | MVD_SIGN_FLAG => 26
  | MVP_LX_FLAG => 27 | NO_RESIDUAL_DATA_FLAG => 28
  | SPLIT_TRANSFORM_FLAG => 29 | CBF_LUMA => 30 | CBF_CB_CR => 31
  | TRANSFORM_SKIP_FLAG => 32 | EXPLICIT_RDPCM_FLAG => 33
  | EXPLICIT_RDPCM_DIR_FLAG => 34 | LAST_SIGNIFICANT_COEFF_X_PREFIX => 35
  | LAST_SIGNIFICANT_COEFF_Y_PREFIX => 36
  | LAST_SIGNIFICANT_COEFF_X_SUFFIX => 37
  | LAST_SIGNIFICANT_COEFF_Y_SUFFIX => 38
  | SIGNIFICANT_COEFF_GROUP_FLAG => 39 | SIGNIFICANT_COEFF_FLAG => 40
  | COEFF_ABS_LEVEL_GREATER1_FLAG => 41 | COEFF_ABS_LEVEL_GREATER2_FLAG => 42
  | COEFF_ABS_LEVEL_REMAINING => 43 | COEFF_SIGN_FLAG => 44
  | LOG2_RES_SCALE_ABS => 45 | RES_SCALE_SIGN_FLAG => 46
  | CU_CHROMA_QP_OFFSET_FLAG => 47 | CU_CHROMA_QP_OFFSET_IDX => 48
  end.

(** number of bin by SyntaxElement. *)
Definition num_bins_in_se : list Z :=
  [ 1; 1; 0; 0; 0; 0; 0; 3; 1; 3; 3; 1; 4; 0; 1; 0; 0; 2; 1; 1; 5; 2; 2; 2;
    2; 0; 0; 1; 1; 3; 2; 4; 2; 2; 2; 18; 18; 0; 0; 4; 44; 24; 6; 0; 0; 8; 2;
    1; 1 ].

(** Offset to ctxIdx 0 in init_values and states, indexed by SyntaxElement. *)
Definition elem_offset_tab : list Z :=
  [ 0; 1; 2; 2; 2; 2; 2; 2; 5; 6; 9; 12; 13; 17; 17; 18; 18; 18; 20; 21; 22;
    27; 29; 31; 33; 35; 35; 35; 36; 37; 40; 42; 46; 48; 50; 52; 70; 88; 88;
    88; 92; 136; 160; 166; 166; 166; 174; 176; 177 ].

Definition elem_offset (e : SyntaxElement) : Z := elem_offset_tab.[se_index e].
Definition num_bins (e : SyntaxElement) : Z := num_bins_in_se.[se_index e].

(** Modelled from the spec: [HEVC_CONTEXTS] of hevc.h, which is not among
    the sources; the spec gives the context table 188 one-byte states. *)
Definition HEVC_CONTEXTS : Z := 188.

(** Indexed by init_type.  Each row lists the initialisers written in the
    source; C zero-fills a row up to [HEVC_CONTEXTS]. *)
Definition init_values : list (list Z) :=
  [ [ 153; 200; 139; 141; 157; 154; 154; 154; 154; 154; 154; 154; 154; 184; 154; 154;
      154; 184; 63; 139; 154; 154; 154; 154; 154; 154; 154; 154; 154; 154; 154; 154;
      154; 154; 154; 154; 154; 153; 138; 138; 111; 141; 94; 138; 182; 154; 139; 139;
      139; 139; 139; 139; 110; 110; 124; 125; 140; 153; 125; 127; 140; 109; 111; 143;
      127; 111; 79; 108; 123; 63; 110; 110; 124; 125; 140; 153; 125; 127; 140; 109;
      111; 143; 127; 111; 79; 108; 123; 63; 91; 171; 134; 141; 111; 111; 125; 110;
      110; 94; 124; 108; 124; 107; 125; 141; 179; 153; 125; 107; 125; 141; 179; 153;
      125; 107; 125; 141; 179; 153; 125; 140; 139; 182; 182; 152; 136; 152; 136; 153;
      136; 139; 111; 136; 139; 111; 141; 111; 140; 92; 137; 138; 140; 152; 138; 139;
      153; 74; 149; 92; 139; 107; 122; 152; 140; 179; 166; 182; 140; 227; 122; 197;
      138; 153; 136; 167; 152; 152; 154; 154; 154; 154; 154; 154; 154; 154; 154; 154;
      154; 154 ];
    [ 153; 185; 107; 139; 126; 154; 197; 185; 201; 154; 154; 154; 149; 154; 139; 154;
      154; 154; 152; 139; 110; 122; 95; 79; 63; 31; 31; 153; 153; 153; 153; 140;
      198; 140; 198; 168; 79; 124; 138; 94; 153; 111; 149; 107; 167; 154; 139; 139;
      139; 139; 139; 139; 125; 110; 94; 110; 95; 79; 125; 111; 110; 78; 110; 111;
      111; 95; 94; 108; 123; 108; 125; 110; 94; 110; 95; 79; 125; 111; 110; 78;
      110; 111; 111; 95; 94; 108; 123; 108; 121; 140; 61; 154; 155; 154; 139; 153;
      139; 123; 123; 63; 153; 166; 183; 140; 136; 153; 154; 166; 183; 140; 136; 153;
      154; 166; 183; 140; 136; 153; 154; 170; 153; 123; 123; 107; 121; 107; 121; 167;
      151; 183; 140; 151; 183; 140; 140; 140; 154; 196; 196; 167; 154; 152; 167; 182;
      182; 134; 149; 136; 153; 121; 136; 137; 169; 194; 166; 167; 154; 167; 137; 182;
      107; 167; 91; 122; 107; 167; 154; 154; 154; 154; 154; 154; 154; 154; 154; 154;
      154; 154 ];
    [ 153; 160; 107; 139; 126; 154; 197; 185; 201; 154; 154; 154; 134; 154; 139; 154;
      154; 183; 152; 139; 154; 137; 95; 79; 63; 31; 31; 153; 153; 153; 153; 169;
      198; 169; 198; 168; 79; 224; 167; 122; 153; 111; 149; 92; 167; 154; 139; 139;
      139; 139; 139; 139; 125; 110; 124; 110; 95; 94; 125; 111; 111; 79; 125; 126;
      111; 111; 79; 108; 123; 93; 125; 110; 124; 110; 95; 94; 125; 111; 111; 79;
      125; 126; 111; 111; 79; 108; 123; 93; 121; 140; 61; 154; 170; 154; 139; 153;
      139; 123; 123; 63; 124; 166; 183; 140; 136; 153; 154; 166; 183; 140; 136; 153;
      154; 166; 183; 140; 136; 153; 154; 170; 153; 138; 138; 122; 121; 122; 121; 167;
      151; 183; 140; 151; 183; 140; 140; 140; 154; 196; 167; 167; 154; 152; 167; 182;
      182; 134; 149; 136; 153; 121; 136; 122; 169; 208; 166; 167; 154; 152; 167; 182;
      107; 167; 91; 107; 107; 167; 154; 154; 154; 154; 154; 154; 154; 154; 154; 154;
      154; 154 ] ].

Definition init_value_at (init_type i : Z) : Z :=
  (nth (Z.to_nat init_type) init_values []).[i].

(** ** Context initialisation *)

(** Modelled from the spec: [enum SliceType] of hevc.h, which is not among
    the sources.  The numbering B = 0, P = 1, I = 2 is the one under which
    [2 - slice_type] gives an I slice init type 0. *)
Inductive SliceType : Set := B_SLICE | P_SLICE | I_SLICE.

Definition slice_type_val (t : SliceType) : Z :=
  match t with B_SLICE => 0 | P_SLICE => 1 | I_SLICE => 2 end.

Definition is_I_SLICE (t : SliceType) : bool :=
  match t with I_SLICE => true | _ => false end.

(** The per-slice decoder state written by [cabac_init_state]. *)
Record CabacTables : Type := mkCabacTables {
  cabac_state : list Z;     (* uint8_t cabac_state[HEVC_CONTEXTS] *)
  stat_coeff : list Z       (* uint8_t stat_coeff[4] *)
}.

Definition init_type_of (slice_type : SliceType) (cabac_init_flag : bool) : Z :=
  let init_type := 2 - slice_type_val slice_type in
  if cabac_init_flag && negb (is_I_SLICE slice_type)
  then Z.lxor init_type 3
  else init_type.

(** The body of the first loop of [cabac_init_state] for one [i]. *)
Definition init_state_value (init_value slice_qp : Z) : Z :=
  let m := (init_value ≫ 4) * 5 - 45 in
  let n := ((Z.land init_value 15) ≪ 3) - 16 in
  let pre := 2 * (((m * av_clip slice_qp 0 51) ≫ 4) + n) - 127 in
  let pre := Z.lxor pre (pre ≫ 31) in
  let pre := if pre >? 124 then 124 + Z.land pre 1 else pre in
  uint8 pre.

Definition cabac_init_state (slice_type : SliceType) (cabac_init_flag : bool)
    (slice_qp : Z) (t : CabacTables) : CabacTables :=
  let init_type := init_type_of slice_type cabac_init_flag in
  let st :=
    for_loop (Z.to_nat HEVC_CONTEXTS) 0
      (fun i st => zset st i (init_state_value (init_value_at init_type i) slice_qp))
      (cabac_state t) in
  let sc := for_loop 4 0 (fun i sc => zset sc i 0) (stat_coeff t) in
  mkCabacTables st sc.

(** [ff_hevc_save_states]: the copy is [memcpy(.., HEVC_CONTEXTS)]. *)
Definition memcpy (dst src : list Z) (n : Z) : list Z :=
  firstn (Z.to_nat n) src ++ skipn (Z.to_nat n) dst.

Definition ff_hevc_save_states (entropy_coding_sync_enabled_flag : bool)
    (ctb_width ctb_addr_ts : Z) (saved live : list Z) : list Z :=
  if entropy_coding_sync_enabled_flag &&
     ((Z.rem ctb_addr_ts ctb_width =? 2) ||
      ((ctb_width =? 2) && (Z.rem ctb_addr_ts ctb_width =? 0)))
  then memcpy saved live HEVC_CONTEXTS
  else saved.

Definition load_states (saved live : list Z) : list Z :=
  memcpy live saved HEVC_CONTEXTS.

(** ** The arithmetic engine, seen from the syntax-element decoders *)

(** Modelled from the spec: the arithmetic engine of cabac_functions.h
    ([get_cabac], [get_cabac_bypass], [get_cabac_bypass_sign] and the
    peek/flush pair of the alternative bypass reader), which is not among
    the sources.  The engine is abstracted to the sequence of bins it
    yields: each decode takes the next bin (0 once the sequence is
    exhausted).  [ctx_trace] records the context index of every
    context-coded bin (most recent first) and [av_log_errors] the
    arguments of the [av_log(.., AV_LOG_ERROR, "CABAC_MAX_BIN : %d")]
    calls made while decoding. *)
Record CABACContext : Type := mkCABAC {
  bins : list bool;
  ctx_trace : list Z;
  av_log_errors : list Z
}.

Definition Dec (A : Type) : Type := CABACContext -> A * CABACContext.

Definition ret {A : Type} (a : A) : Dec A := fun c => (a, c).
Definition bind {A B : Type} (m : Dec A) (f : A -> Dec B) : Dec B :=
  fun c => let (a, c') := m c in f a c'.

Notation "'let*' x := m 'in' k" := (bind m (fun x => k))
  (at level 10, x name, m at level 100, k at level 200).
Notation "'let*' ' p := m 'in' k" := (bind m (fun p => k))
  (at level 10, p pattern, m at level 100, k at level 200).
Notation "m ;;; k" := (bind m (fun _ => k))
  (at level 100, k at level 200, right associativity).

Fixpoint for_loopM {S : Type} (n : nat) (i : Z) (body : Z -> S -> Dec S) (s : S)
    : Dec S :=
  match n with
  | O => ret s
  | Datatypes.S n' => let* s' := body i s in for_loopM n' (i + 1) body s'
  end.

Definition next_bin (c : CABACContext) : Z * list bool :=
  match bins c with
  | [] => (0, [])
  | b :: r => (b2z b, r)
  end.

Definition get_cabac (ctx : Z) : Dec Z := fun c =>
  let (b, r) := next_bin c in
  (b, mkCABAC r (ctx :: ctx_trace c) (av_log_errors c)).

Definition get_cabac_bypass : Dec Z := fun c =>
  let (b, r) := next_bin c in
  (b, mkCABAC r (ctx_trace c) (av_log_errors c)).

(** [get_cabac_bypass_sign(c, val)]: [val] on a 1 bin, [-val] on a 0 bin. *)
Definition get_cabac_bypass_sign (val : Z) : Dec Z :=
  let* b := get_cabac_bypass in
  ret (if b =? 0 then - val else val).

Definition av_log_CABAC_MAX_BIN (k : Z) : Dec unit := fun c =>
  (tt, mkCABAC (bins c) (ctx_trace c) (k :: av_log_errors c)).

(** [get_alt1cabac_bypeek22]: the next 22 bypass bins, first bin in bit 31,
    the low ten bits clear. *)
Fixpoint peek_bits (n : nat) (bit : Z) (l : list bool) : Z :=
  match n, l with
  | Datatypes.S n', b :: r => Z.lor (b2z b ≪ bit) (peek_bits n' (bit - 1) r)
  | _, _ => 0
  end.

Definition get_alt1cabac_bypeek22 : Dec Z := fun c => (peek_bits 22 31 (bins c), c).

(** [get_alt1cabac_byflush22(c, n, y, x)]: consume [n] of the peeked bins. *)
Definition get_alt1cabac_byflush22 (n : Z) : Dec unit := fun c =>
  (tt, mkCABAC (skipn (Z.to_nat n) (bins c)) (ctx_trace c) (av_log_errors c)).

(** [lmbd1]: the number of leading zero bits of a 32-bit word. *)
Definition lmbd1 (x : Z) : Z := clz32 (uint32 x).

(** [LSR32M(x, n)]: the top [n] bits of the 32-bit word [x] (0 for n = 0). *)
Definition LSR32M (x n : Z) : Z := uint32 x ≫ (32 - n).

(** ** Syntax-element decoders *)

(** [while (k < CABAC_MAX_BIN && get_cabac_bypass()) k++], with [n] the
    number of bins the loop may still read ([CABAC_MAX_BIN - k]). *)
Fixpoint unary_bypass (n : nat) (k : Z) : Dec Z :=
  match n with
  | O => ret k
  | Datatypes.S n' =>
      let* b := get_cabac_bypass in
      if b =? 0 then ret k else unary_bypass n' (k + 1)
  end.

(** [for (i = 0; i < n; i++) suffix = (suffix << 1) | get_cabac_bypass()]. *)
Fixpoint read_suffix (n : nat) (suffix : Z) : Dec Z :=
  match n with
  | O => ret suffix
  | Datatypes.S n' =>
      let* b := get_cabac_bypass in
      read_suffix n' (int32 (Z.lor (suffix ≪ 1) b))
  end.

(** The C fallback (the [#else] branch). *)
Definition coeff_abs_level_remaining_decode (rc_rice_param : Z) : Dec Z :=
  let* prefix := unary_bypass (Z.to_nat CABAC_MAX_BIN) 0 in
  if prefix =? CABAC_MAX_BIN then
    av_log_CABAC_MAX_BIN prefix ;;; ret 0
  else if prefix <? 3 then
    let* suffix := read_suffix (Z.to_nat rc_rice_param) 0 in
    ret (int32 ((prefix ≪ rc_rice_param) + suffix))
  else
    let prefix_minus3 := prefix - 3 in
    let* suffix := read_suffix (Z.to_nat (prefix_minus3 + rc_rice_param)) 0 in
    ret (int32 ((((1 ≪ prefix_minus3) + 3 - 1) ≪ rc_rice_param) + suffix)).

Definition coeff_abs_level_remaining_decode_alt1 (rc_rice_param : Z) : Dec Z :=
  let* y := get_alt1cabac_bypeek22 in
  let prefix := lmbd1 (Z.lnot y) in
  if prefix <? 3 then
    let suffix := LSR32M (y ≪ (prefix + 1)) rc_rice_param in
    get_alt1cabac_byflush22 (prefix + 1 + rc_rice_param) ;;;
    ret (int32 ((prefix ≪ rc_rice_param) + suffix))
  else if prefix + 1 + prefix - 3 + rc_rice_param <=? 22 then
    let prefix_minus3 := prefix - 3 in
    let y2 := uint32 (y ≪ (prefix + 1)) in
    let suffix := LSR32M y2 (prefix_minus3 + rc_rice_param) in
    get_alt1cabac_byflush22 (prefix + 1 + prefix - 3 + rc_rice_param) ;;;
    ret (int32 ((((1 ≪ prefix_minus3) + 3 - 1) ≪ rc_rice_param) + suffix))
  else
    let prefix_minus3 := prefix - 3 in
    get_alt1cabac_byflush22 (prefix + 1) ;;;
    let* y := get_alt1cabac_bypeek22 in
    let suffix := LSR32M y (prefix_minus3 + rc_rice_param) in
    get_alt1cabac_byflush22 (prefix_minus3 + rc_rice_param) ;;;
    ret (int32 ((((1 ≪ prefix_minus3) + 3 - 1) ≪ rc_rice_param) + suffix)).

Definition coeff_sign_flag_decode_alt1 (nb : Z) : Dec Z :=
  let* y := get_alt1cabac_bypeek22 in
  get_alt1cabac_byflush22 nb ;;;
  ret (Z.land y (uint32 (Z.lnot (4294967295 ≫ nb)))).

(** [mvd_decode]: the first loop, on the pair [(ret, k)]; [ret] is
    advanced in unsigned arithmetic ([ret += 1U << k]). *)
Fixpoint mvd_prefix (n : nat) (r k : Z) : Dec (Z * Z) :=
  match n with
  | O => ret (r, k)
  | Datatypes.S n' =>
      let* b := get_cabac_bypass in
      if b =? 0 then ret (r, k) else mvd_prefix n' (uint32 (r + (1 ≪ k))) (k + 1)
  end.

(** [while (k--) ret += get_cabac_bypass() << k]. *)
Fixpoint mvd_suffix (n : nat) (r : Z) : Dec Z :=
  match n with
  | O => ret r
  | Datatypes.S n' =>
      let* b := get_cabac_bypass in
      mvd_suffix n' (int32 (r + (b ≪ Z.of_nat n')))
  end.

Definition mvd_decode : Dec Z :=
  let* '(r, k) := mvd_prefix (Z.to_nat (CABAC_MAX_BIN - 1)) 2 1 in
  if k =? CABAC_MAX_BIN then
    av_log_CABAC_MAX_BIN k ;;; ret 0
  else
    let* r := mvd_suffix (Z.to_nat k) (int32 r) in
    get_cabac_bypass_sign (- r).

Definition mvd_sign_flag_decode : Dec Z := get_cabac_bypass_sign (-1).

Definition abs_mvd_greater0_flag_decode : Dec Z :=
  get_cabac (elem_offset ABS_MVD_GREATER0_FLAG).

Definition abs_mvd_greater1_flag_decode : Dec Z :=
  get_cabac (elem_offset ABS_MVD_GREATER1_FLAG + 1).

(** One [switch] of [ff_hevc_hls_mvd_coding]. *)
Definition mvd_component (v : Z) : Dec Z :=
  if v =? 2 then mvd_decode
  else if v =? 1 then mvd_sign_flag_decode
  else ret 0.

(** [ff_hevc_hls_mvd_coding]; the result is [lc->pu.mvd] as [(x, y)]. *)
Definition ff_hevc_hls_mvd_coding : Dec (Z * Z) :=
  let* x := abs_mvd_greater0_flag_decode in
  let* y := abs_mvd_greater0_flag_decode in
  let* x := (if x =? 0 then ret x
             else let* g := abs_mvd_greater1_flag_decode in ret (x + g)) in
  let* y := (if y =? 0 then ret y
             else let* g := abs_mvd_greater1_flag_decode in ret (y + g)) in
  let* mx := mvd_component x in
  let* my := mvd_component y in
  ret (mx, my).

(** ** Scan tables *)

Definition zth2 (t : list (list Z)) (i j : Z) : Z := (nth (Z.to_nat i) t []).[j].

Definition scan_1x1 : list Z := [ 0 ].
Definition horiz_scan2x2_x : list Z := [ 0; 1; 0; 1 ].
Definition horiz_scan2x2_y : list Z := [ 0; 0; 1; 1 ].
Definition horiz_scan4x4_x : list Z := [ 0; 1; 2; 3; 0; 1; 2; 3; 0; 1; 2; 3; 0; 1; 2; 3 ].
Definition horiz_scan4x4_y : list Z := [ 0; 0; 0; 0; 1; 1; 1; 1; 2; 2; 2; 2; 3; 3; 3; 3 ].

Definition horiz_scan8x8_inv : list (list Z) :=
  [ [  0;  1;  2;  3; 16; 17; 18; 19 ];
    [  4;  5;  6;  7; 20; 21; 22; 23 ];
    [  8;  9; 10; 11; 24; 25; 26; 27 ];
    [ 12; 13; 14; 15; 28; 29; 30; 31 ];
    [ 32; 33; 34; 35; 48; 49; 50; 51 ];
    [ 36; 37; 38; 39; 52; 53; 54; 55 ];
    [ 40; 41; 42; 43; 56; 57; 58; 59 ];
    [ 44; 45; 46; 47; 60; 61; 62; 63 ] ].

Definition diag_scan2x2_x : list Z := [ 0; 0; 1; 1 ].
Definition diag_scan2x2_y : list Z := [ 0; 1; 0; 1 ].
Definition diag_scan2x2_inv : list (list Z) := [ [ 0; 2 ]; [ 1; 3 ] ].

Definition diag_scan4x4_inv : list (list Z) :=
  [ [ 0;  2;  5;  9 ];
    [ 1;  4;  8; 12 ];
    [ 3;  7; 11; 14 ];
    [ 6; 10; 13; 15 ] ].

Definition diag_scan8x8_inv : list (list Z) :=
  [ [  0;  2;  5;  9; 14; 20; 27; 35 ];
    [  1;  4;  8; 13; 19; 26; 34; 42 ];
    [  3;  7; 12; 18; 25; 33; 41; 48 ];
    [  6; 11; 17; 24; 32; 40; 47; 53 ];
    [ 10; 16; 23; 31; 39; 46; 52; 57 ];
    [ 15; 22; 30; 38; 45; 51; 56; 60 ];
    [ 21; 29; 37; 44; 50; 55; 59; 62 ];
    [ 28; 36; 43; 49; 54; 58; 61; 63 ] ].

(** Modelled from the spec: the diagonal scans [ff_hevc_diag_scan4x4_x/y]
    and [ff_hevc_diag_scan8x8_x/y], declared in hevc.h and defined outside
    the sources.  They are the scans whose inverses are [diag_scan4x4_inv]
    and [diag_scan8x8_inv] above (see [diag_scan4x4_inverse] and
    [diag_scan8x8_inverse]). *)
Definition ff_hevc_diag_scan4x4_x : list Z :=
  [ 0; 0; 1; 0; 1; 2; 0; 1; 2; 3; 1; 2; 3; 2; 3; 3 ].
Definition ff_hevc_diag_scan4x4_y : list Z :=
  [ 0; 1; 0; 2; 1; 0; 3; 2; 1; 0; 3; 2; 1; 3; 2; 3 ].
Definition ff_hevc_diag_scan8x8_x : list Z :=
  [ 0; 0; 1; 0; 1; 2; 0; 1; 2; 3; 0; 1; 2; 3; 4; 0; 1; 2; 3; 4; 5; 0; 1; 2;
    3; 4; 5; 6; 0; 1; 2; 3; 4; 5; 6; 7; 1; 2; 3; 4; 5; 6; 7; 2; 3; 4; 5; 6;
    7; 3; 4; 5; 6; 7; 4; 5; 6; 7; 5; 6; 7; 6; 7; 7 ].
Definition ff_hevc_diag_scan8x8_y : list Z :=
  [ 0; 1; 0; 2; 1; 0; 3; 2; 1; 0; 4; 3; 2; 1; 0; 5; 4; 3; 2; 1; 0; 6; 5; 4;
    3; 2; 1; 0; 7; 6; 5; 4; 3; 2; 1; 0; 7; 6; 5; 4; 3; 2; 1; 7; 6; 5; 4; 3;
    2; 7; 6; 5; 4; 3; 7; 6; 5; 4; 7; 6; 5; 7; 6; 7 ].

(** [ctx_idx_maps_ts2] and [ctx_idx_maps], with the [D4x4], [H4x4] and
    [V4x4] macros expanded. *)
Definition ctx_idx_maps_ts2 : list (list Z) :=
  [ [ 0; 2; 1; 6; 3; 4; 7; 6; 4; 5; 7; 8; 5; 8; 8; 8 ];
    [ 0; 1; 4; 5; 2; 3; 4; 5; 6; 6; 8; 8; 7; 7; 8; 8 ];
    [ 0; 2; 6; 7; 1; 3; 6; 7; 4; 4; 8; 8; 5; 5; 8; 8 ] ].

Definition ctx_idx_maps : list (list (list Z)) :=
  [ [ [ 1; 1; 1; 1; 1; 1; 0; 0; 0; 0; 0; 0; 0; 0; 0; 0 ];
      [ 2; 1; 2; 0; 1; 2; 0; 0; 1; 2; 0; 0; 1; 0; 0; 0 ];
      [ 2; 2; 1; 2; 1; 0; 2; 1; 0; 0; 1; 0; 0; 0; 0; 0 ];
      [ 2; 2; 2; 2; 2; 2; 2; 2; 2; 2; 2; 2; 2; 2; 2; 2 ] ];
    [ [ 1; 1; 1; 0; 1; 1; 0; 0; 1; 0; 0; 0; 0; 0; 0; 0 ];
      [ 2; 2; 2; 2; 1; 1; 1; 1; 0; 0; 0; 0; 0; 0; 0; 0 ];
      [ 2; 1; 0; 0; 2; 1; 0; 0; 2; 1; 0; 0; 2; 1; 0; 0 ];
      [ 2; 2; 2; 2; 2; 2; 2; 2; 2; 2; 2; 2; 2; 2; 2; 2 ] ];
    [ [ 1; 1; 1; 0; 1; 1; 0; 0; 1; 0; 0; 0; 0; 0; 0; 0 ];
      [ 2; 1; 0; 0; 2; 1; 0; 0; 2; 1; 0; 0; 2; 1; 0; 0 ];
      [ 2; 2; 2; 2; 1; 1; 1; 1; 0; 0; 0; 0; 0; 0; 0; 0 ];
      [ 2; 2; 2; 2; 2; 2; 2; 2; 2; 2; 2; 2; 2; 2; 2; 2 ] ] ].

Definition ctx_idx_map_at (scan prev_sig : Z) : list Z :=
  nth (Z.to_nat prev_sig) (nth (Z.to_nat scan) ctx_idx_maps []) [].

(** ** Decoder parameters *)

(** Modelled from the spec: the parameter structures of hevc.h (SPS, PPS,
    slice header, coding and transform unit, DSP function table), which
    are not among the sources; each record lists the fields that
    [ff_hevc_hls_residual_coding] reads, flags as booleans. *)
Inductive PredMode : Set := MODE_INTER | MODE_INTRA | MODE_SKIP.
Inductive ScanType : Set := SCAN_DIAG | SCAN_HORIZ | SCAN_VERT.

Definition scan_val (t : ScanType) : Z :=
  match t with SCAN_DIAG => 0 | SCAN_HORIZ => 1 | SCAN_VERT => 2 end.
Definition is_INTRA (m : PredMode) : bool :=
  match m with MODE_INTRA => true | _ => false end.
Definition is_INTER (m : PredMode) : bool :=
  match m with MODE_INTER => true | _ => false end.

Record ScalingList : Type := mkScalingList {
  sl : list (list (list Z));      (* uint8_t sl[4][6][64] *)
  sl_dc : list (list Z)           (* uint8_t sl_dc[2][6] *)
}.

Record HEVCSPS : Type := mkSPS {
  bit_depth : Z;
  qp_bd_offset : Z;
  chroma_format_idc : Z;
  scaling_list_enable_flag : bool;
  sps_scaling_list : ScalingList;
  transform_skip_context_enabled_flag : bool;
  explicit_rdpcm_enabled_flag : bool;
  implicit_rdpcm_enabled_flag : bool;
  persistent_rice_adaptation_enabled_flag : bool;
  transform_skip_rotation_enabled_flag : bool
}.

Record HEVCPPS : Type := mkPPS {
  transform_skip_enabled_flag : bool;
  log2_max_transform_skip_block_size : Z;
  sign_data_hiding_flag : bool;
  cb_qp_offset : Z;
  cr_qp_offset : Z;
  scaling_list_data_present_flag : bool;
  pps_scaling_list : ScalingList
}.

Record SliceHeader : Type := mkSH {
  slice_cb_qp_offset : Z;
  slice_cr_qp_offset : Z
}.

Record CodingUnit : Type := mkCU {
  pred_mode : PredMode;
  cu_transquant_bypass_flag : bool
}.

Record TransformUnit : Type := mkTU {
  intra_pred_mode : Z;
  intra_pred_mode_c : Z;
  cu_qp_offset_cb : Z;
  cu_qp_offset_cr : Z;
  cross_pf : bool;
  res_scale_val : Z
}.

(** The inverse-transform collaborators reached through [s->hevcdsp]. *)
Record HEVCDSPContext : Type := mkDSP {
  transform_rdpcm : list Z -> Z -> Z -> list Z;
  transform_skip : list Z -> Z -> list Z;
  idct_4x4_luma : list Z -> list Z;
  idct_dc : Z -> list Z -> list Z;
  idct : Z -> list Z -> Z -> list Z
}.

Record HEVCContext : Type := mkHEVC {
  sps : HEVCSPS;
  pps : HEVCPPS;
  sh : SliceHeader;
  cu : CodingUnit;
  tu : TransformUnit;
  qp_y : Z;
  hevcdsp : HEVCDSPContext
}.

(** ** Dequantisation *)

Definition trans_scale_sat (level scale scale_m shift : Z) : Z :=
  let trans_coeff_level :=
    int32 (int32 (int32 (level * int32 (uint32 (uint32 scale * uint32 scale_m)))
                  ≫ shift) + 1) ≫ 1 in
  if trans_coeff_level <? -32768 then -32768
  else if trans_coeff_level >? 32767 then 32767
  else trans_coeff_level.

(** [update_rice] returns the new value of [*stat_coeff]. *)
Definition update_rice (stat_coeff last_coeff_abs_level_remaining c_rice_param : Z)
    : Z :=
  let x := uint32 last_coeff_abs_level_remaining ≫ c_rice_param in
  if x >=? 3 then uint8 (stat_coeff + 1)
  else if (x =? 0) && (stat_coeff >? 0) then uint8 (stat_coeff - 1)
  else stat_coeff.

Definition level_scale : list Z := [ 40; 45; 51; 57; 64; 72 ].
Definition qp_c : list Z := [ 29; 30; 31; 32; 33; 33; 34; 34; 35; 35; 36; 36; 37; 37 ].
Definition rem6 : list Z :=
  [ 0; 1; 2; 3; 4; 5; 0; 1; 2; 3; 4; 5; 0; 1; 2; 3; 4; 5; 0; 1; 2;
    3; 4; 5; 0; 1; 2; 3; 4; 5; 0; 1; 2; 3; 4; 5; 0; 1; 2; 3; 4; 5;
    0; 1; 2; 3; 4; 5; 0; 1; 2; 3; 4; 5; 0; 1; 2; 3; 4; 5; 0; 1; 2; 3;
    4; 5; 0; 1; 2; 3; 4; 5; 0; 1 ].
Definition div6 : list Z :=
  [ 0; 0; 0; 0; 0; 0; 1; 1; 1; 1; 1; 1; 2; 2; 2; 2; 2; 2; 3;  3;  3;
    3; 3; 3; 4; 4; 4; 4; 4; 4; 5; 5; 5; 5; 5; 5; 6; 6; 6; 6;  6;  6;
    7; 7; 7; 7; 7; 7; 8; 8; 8; 8; 8; 8; 9; 9; 9; 9; 9; 9; 10; 10; 10; 10;
    10; 10; 11; 11; 11; 11; 11; 11; 12; 12 ].
Definition sixteen_scale : list Z := repeat 16 64.
Definition unit_scale : list Z := repeat 1 64.

Record Dequant : Type := mkDequant {
  scale : Z;
  shift : Z;
  scale_matrix : list Z;
  dc_scale : Z
}.

Definition hevc_transform_skip_flag_decode (c_idx : Z) : Dec Z :=
  get_cabac (elem_offset TRANSFORM_SKIP_FLAG + b2z (negb (c_idx =? 0))).
Definition explicit_rdpcm_flag_decode (c_idx : Z) : Dec Z :=
  get_cabac (elem_offset EXPLICIT_RDPCM_FLAG + b2z (negb (c_idx =? 0))).
Definition explicit_rdpcm_dir_flag_decode (c_idx : Z) : Dec Z :=
  get_cabac (elem_offset EXPLICIT_RDPCM_DIR_FLAG + b2z (negb (c_idx =? 0))).

(** "Derive QP for dequant": the QP of the channel. *)
Definition derive_qp (s : HEVCContext) (c_idx : Z) : Z :=
  if c_idx =? 0 then qp_y s + qp_bd_offset (sps s)
  else
    let offset :=
      if c_idx =? 1
      then cb_qp_offset (pps s) + slice_cb_qp_offset (sh s) + cu_qp_offset_cb (tu s)
      else cr_qp_offset (pps s) + slice_cr_qp_offset (sh s) + cu_qp_offset_cr (tu s) in
    let qp_i := av_clip (qp_y s + offset) (- qp_bd_offset (sps s)) 57 in
    let qp :=
      if chroma_format_idc (sps s) =? 1 then
        if qp_i <? 30 then qp_i
        else if qp_i >? 43 then qp_i - 6
        else qp_c.[qp_i - 30]
      else
        if qp_i >? 51 then 51 else qp_i in
    qp + qp_bd_offset (sps s).

(** The first part of [ff_hevc_hls_residual_coding]: transform-skip flag
    and the dequantisation parameters; the result is
    [(trans_skip_or_bypass, (scale, shift, scale_matrix, dc_scale))]. *)
Definition derive_dequant (s : HEVCContext) (log2_trafo_size c_idx : Z)
    : Dec (bool * Dequant) :=
  let trans_skip_or_bypass := cu_transquant_bypass_flag (cu s) in
  if negb (cu_transquant_bypass_flag (cu s)) then
    let* trans_skip_or_bypass :=
      (if transform_skip_enabled_flag (pps s) &&
          (log2_trafo_size <=? log2_max_transform_skip_block_size (pps s))
       then
         let* transform_skip_flag := hevc_transform_skip_flag_decode c_idx in
         ret (if transform_skip_flag =? 0 then trans_skip_or_bypass else true)
       else ret trans_skip_or_bypass) in
    let qp := derive_qp s c_idx in
    let shift := bit_depth (sps s) + log2_trafo_size - 6 in
    let scale := level_scale.[rem6.[qp]] in
    let '(scale, shift) :=
      if div6.[qp] >=? shift
      then (int32 (scale ≪ (div6.[qp] - shift)), 0)
      else (scale, shift - div6.[qp]) in
    if scaling_list_enable_flag (sps s) &&
       negb (trans_skip_or_bypass && (log2_trafo_size >? 2))
    then
      let sl_ := if scaling_list_data_present_flag (pps s)
                 then pps_scaling_list (pps s) else sps_scaling_list (sps s) in
      let matrix_id := b2z (negb (is_INTRA (pred_mode (cu s)))) in
      let matrix_id := 3 * matrix_id + c_idx in
      let scale_matrix :=
        nth (Z.to_nat matrix_id) (nth (Z.to_nat (log2_trafo_size - 2)) (sl sl_) []) [] in
      let dc_scale := scale_matrix.[0] in
      let dc_scale :=
        if log2_trafo_size >=? 4
        then zth2 (sl_dc sl_) (log2_trafo_size - 4) matrix_id
        else dc_scale in
      ret (trans_skip_or_bypass, mkDequant scale shift scale_matrix dc_scale)
    else
      ret (trans_skip_or_bypass, mkDequant scale shift sixteen_scale 16)
  else
    ret (trans_skip_or_bypass, mkDequant 2 0 unit_scale 1).

(** ** Last significant coefficient position *)

(** [while (i < max && GET_CABAC(base + (i >> ctx_shift) + ctx_offset)) i++],
    with [n = max - i] the number of bins the loop may still read. *)
Fixpoint last_prefix_loop (n : nat) (i base ctx_offset ctx_shift : Z) : Dec Z :=
  match n with
  | O => ret i
  | Datatypes.S n' =>
      let* b := get_cabac (base + (i ≫ ctx_shift) + ctx_offset) in
      if b =? 0 then ret i
      else last_prefix_loop n' (i + 1) base ctx_offset ctx_shift
  end.

Definition last_significant_coeff_xy_prefix_decode (c_idx log2_size : Z)
    : Dec (Z * Z) :=
  let max := (log2_size ≪ 1) - 1 in
  let '(ctx_offset, ctx_shift) :=
    if c_idx =? 0
    then (3 * (log2_size - 2) + ((log2_size - 1) ≫ 2), (log2_size + 1) ≫ 2)
    else (15, log2_size - 2) in
  let* last_scx_prefix :=
    last_prefix_loop (Z.to_nat max) 0
      (elem_offset LAST_SIGNIFICANT_COEFF_X_PREFIX) ctx_offset ctx_shift in
  let* last_scy_prefix :=
    last_prefix_loop (Z.to_nat max) 0
      (elem_offset LAST_SIGNIFICANT_COEFF_Y_PREFIX) ctx_offset ctx_shift in
  ret (last_scx_prefix, last_scy_prefix).

Definition last_significant_coeff_suffix_decode (last_significant_coeff_prefix : Z)
    : Dec Z :=
  let length := (last_significant_coeff_prefix ≫ 1) - 1 in
  let* value := get_cabac_bypass in
  read_suffix (Z.to_nat (length - 1)) value.

(** The prefix/suffix combination of one coordinate. *)
Definition last_significant_coeff (prefix : Z) : Dec Z :=
  if prefix >? 3 then
    let* suffix := last_significant_coeff_suffix_decode prefix in
    ret ((1 ≪ ((prefix ≫ 1) - 1)) * (2 + Z.land prefix 1) + suffix)
  else ret prefix.

Definition significant_coeff_group_flag_decode (c_idx ctx_cg : Z) : Dec Z :=
  let inc := FFMIN ctx_cg 1 + (if c_idx >? 0 then 2 else 0) in
  get_cabac (elem_offset SIGNIFICANT_COEFF_GROUP_FLAG + inc).

Definition significant_coeff_flag_decode_0 (c_idx offset : Z) : Dec Z :=
  get_cabac (elem_offset SIGNIFICANT_COEFF_FLAG + offset).

(** [get_sig_coeff_flag_idxs]: [do { if (bin) *p++ = n; } while (--n != 0)];
    the result is the list of entries written through [p]. *)
Fixpoint get_sig_coeff_flag_idxs (n : nat) (state0 : Z) (ctx_map : list Z)
    : Dec (list Z) :=
  match n with
  | O => ret []
  | Datatypes.S n' =>
      let* b := get_cabac (state0 + ctx_map.[Z.of_nat n]) in
      let* r := get_sig_coeff_flag_idxs n' state0 ctx_map in
      ret (if b =? 0 then r else Z.of_nat n :: r)
  end.

(** [get_greaterx_bits]; the result is
    [(rv, levels, prev_subset_coded, eq2)], with [state0] and [state_gt2]
    given as context indices. *)
Definition get_greaterx_bits (n_end : Z) (levels : list Z) (state0 state_gt2 : Z)
    : Dec (Z * list Z * Z * Z) :=
  let n := if n_end >? 8 then 8 else n_end in
  let* '(rv, levels) :=
    for_loopM (Z.to_nat n) 0
      (fun i '(rv, levels) =>
         let idx := if negb (rv =? 0) then 0 else if i <? 3 then i + 1 else 3 in
         let* b := get_cabac (state0 + idx) in
         ret (uint32 (Z.lor (rv ≪ 1) b), zset levels i (1 + b)))
      (0, levels) in
  let rv := uint32 (rv ≪ (32 - n)) in
  let* '(rv, levels, prev_subset_coded, eq2) :=
    (if negb (rv =? 0) then
       let i := clz32 rv in
       let levels := zset levels i 3 in
       let* g := get_cabac state_gt2 in
       if g =? 0
       then ret (Z.land rv (uint32 (Z.lnot (2147483648 ≫ i))), zset levels i 2, 1, 1)
       else ret (rv, levels, 1, 0)
     else ret (rv, levels, 0, 0)) in
  if n_end >? 8 then
    let g8 := n_end - 8 in
    let rv := Z.lor rv (uint32 (((1 ≪ g8) - 1) ≪ (24 - g8))) in
    let levels := for_loop (Z.to_nat g8) 0 (fun i l => zset l (i + 8) 1) levels in
    ret (rv, levels, prev_subset_coded, eq2)
  else ret (rv, levels, prev_subset_coded, eq2).

(** ** Coefficient levels of one subblock *)

(** The dequantised store of one coefficient: the block shared by the
    single-coefficient branch and the loop of the general branch. *)
Definition t_offset_of (log2_trafo_size x_cg y_cg : Z) (scan_x_off scan_y_off : list Z)
    (pos : Z) : Z :=
  let x_c := (x_cg ≪ 2) + scan_x_off.[pos] in
  let y_c := (y_cg ≪ 2) + scan_y_off.[pos] in
  (y_c ≪ log2_trafo_size) + x_c.

Definition scale_m_of (dq : Dequant) (log2_trafo_size x_cg y_cg : Z)
    (scan_x_off scan_y_off : list Z) (pos : Z) : Z :=
  let x_c := (x_cg ≪ 2) + scan_x_off.[pos] in
  let y_c := (y_cg ≪ 2) + scan_y_off.[pos] in
  let t_offset := (y_c ≪ log2_trafo_size) + x_c in
  if negb (t_offset =? 0) then
    let n_shr := log2_trafo_size - 3 in
    let pos := ((y_c ≫ n_shr) ≪ 3) + (x_c ≫ n_shr) in
    (scale_matrix dq).[if n_shr >=? 0 then pos else t_offset]
  else dc_scale dq.

Definition store_coeff (dq : Dequant) (log2_trafo_size x_cg y_cg : Z)
    (scan_x_off scan_y_off : list Z) (pos trans_coeff_level : Z) (coeffs : list Z)
    : list Z :=
  let scale_m := scale_m_of dq log2_trafo_size x_cg y_cg scan_x_off scan_y_off pos in
  let t_offset := t_offset_of log2_trafo_size x_cg y_cg scan_x_off scan_y_off pos in
  zset coeffs t_offset
    (int16 (trans_scale_sat trans_coeff_level (scale dq) scale_m (shift dq))).

(** The index of the [stat_coeff] entry of the block. *)
Definition stat_coeff_idx (c_idx : Z) (trans_skip_or_bypass : bool) : Z :=
  (if c_idx =? 0 then 2 else 0) + b2z trans_skip_or_bypass.

(** The Rice parameter passed to the next remainder of the subblock. *)
Definition next_rice_param (rice_adaptation_enabled : bool)
    (c_rice_param trans_coeff_level : Z) : Z :=
  if trans_coeff_level >? (3 ≪ c_rice_param)
  then if rice_adaptation_enabled then c_rice_param + 1
       else FFMIN (c_rice_param + 1) 4
  else c_rice_param.

(** The state of the [do ... while (coded_vals != 0)] loop; [level] is the
    index of [*level] in [levels] (the pointer starts at [levels - 1]) and
    [rm_stat_ptr] is the [stat_coeff] pointer ([None] for NULL). *)
Record RemState : Type := mkRem {
  rm_coded_vals : Z;
  rm_level : Z;
  rm_c_rice_param : Z;
  rm_stat_ptr : option Z;
  rm_stat_coeff : list Z;
  rm_levels : list Z;
  rm_sum_abs : Z
}.

(** One pass of the loop body. *)
Definition remaining_step (rice_adaptation_enabled : bool) (r : RemState)
    : Dec RemState :=
  let z := clz32 (rm_coded_vals r) + 1 in
  let level := rm_level r + z in
  let coded_vals := uint32 (rm_coded_vals r ≪ z) in
  let c_rice_param := rm_c_rice_param r in
  let* last_coeff_abs_level_remaining :=
    coeff_abs_level_remaining_decode_alt1 c_rice_param in
  let trans_coeff_level :=
    int32 ((rm_levels r).[level] + last_coeff_abs_level_remaining) in
  let stat_coeff :=
    match rm_stat_ptr r with
    | Some p =>
        zset (rm_stat_coeff r) p
          (update_rice (rm_stat_coeff r).[p] last_coeff_abs_level_remaining c_rice_param)
    | None => rm_stat_coeff r
    end in
  ret (mkRem coded_vals level
         (next_rice_param rice_adaptation_enabled c_rice_param trans_coeff_level)
         None stat_coeff
         (zset (rm_levels r) level trans_coeff_level)
         (int32 (rm_sum_abs r + trans_coeff_level - 1))).

(** The loop; [fuel] bounds the passes, and 32 passes empty every 32-bit
    [coded_vals] (see [remaining_loop_terminates]). *)
Fixpoint remaining_loop (fuel : nat) (rice_adaptation_enabled : bool) (r : RemState)
    : Dec RemState :=
  match fuel with
  | O => ret r
  | Datatypes.S fuel' =>
      let* r' := remaining_step rice_adaptation_enabled r in
      if negb (rm_coded_vals r' =? 0)
      then remaining_loop fuel' rice_adaptation_enabled r'
      else ret r'
  end.

(** The test that decides [sign_hidden]. *)
Definition sign_hidden_of (s : HEVCContext) (c_idx : Z) (trans_skip_or_bypass : bool)
    (explicit_rdpcm_flag : Z) (significant_coeff_flag_idx : list Z) (n_end : Z)
    : bool :=
  let pred_mode_intra :=
    if c_idx =? 0 then intra_pred_mode (tu s) else intra_pred_mode_c (tu s) in
  if negb (sign_data_hiding_flag (pps s)) || cu_transquant_bypass_flag (cu s) ||
     (is_INTRA (pred_mode (cu s)) && implicit_rdpcm_enabled_flag (sps s) &&
      trans_skip_or_bypass &&
      ((pred_mode_intra =? 10) || (pred_mode_intra =? 26))) ||
     negb (explicit_rdpcm_flag =? 0)
  then false
  else significant_coeff_flag_idx.[0] - significant_coeff_flag_idx.[n_end - 1] >? 3.

(** The general branch ([n_end > 1]) up to the end of the remainder loop:
    greater-1/greater-2 flags, sign bits and remainders.  The result is
    [(levels, sum_abs, sign_hidden, coeff_sign_flags, prev_subset_coded,
    stat_coeff)]. *)
Definition decode_abs_levels (s : HEVCContext) (c_idx : Z) (trans_skip_or_bypass : bool)
    (explicit_rdpcm_flag : Z) (ctx_set : Z) (significant_coeff_flag_idx : list Z)
    (stat_coeff : list Z) : Dec (list Z * Z * bool * Z * Z * list Z) :=
  let n_end := Z.of_nat (length significant_coeff_flag_idx) in
  let idx_delta := (if c_idx >? 0 then 4 else 0) + ctx_set in
  let idx0 := elem_offset COEFF_ABS_LEVEL_GREATER1_FLAG + (idx_delta ≪ 2) in
  let idx_gt2 := elem_offset COEFF_ABS_LEVEL_GREATER2_FLAG + idx_delta in
  let* '(coded_vals, levels, prev_subset_coded, eq2) :=
    get_greaterx_bits n_end (repeat 0 16) idx0 idx_gt2 in
  let sign_hidden :=
    sign_hidden_of s c_idx trans_skip_or_bypass explicit_rdpcm_flag
      significant_coeff_flag_idx n_end in
  let* coeff_sign_flags := coeff_sign_flag_decode_alt1 (uint8 (n_end - b2z sign_hidden)) in
  let sum_abs := n_end + eq2 in
  if negb (coded_vals =? 0) then
    let rice_adaptation_enabled := persistent_rice_adaptation_enabled_flag (sps s) in
    let stat_ptr :=
      if negb rice_adaptation_enabled then None
      else Some (stat_coeff_idx c_idx trans_skip_or_bypass) in
    let c_rice_param :=
      match stat_ptr with
      | None => 0
      | Some p => stat_coeff.[p] ≫ 2
      end in
    let* r := remaining_loop 32 rice_adaptation_enabled
                (mkRem coded_vals (-1) c_rice_param stat_ptr stat_coeff levels sum_abs) in
    ret (rm_levels r, rm_sum_abs r, sign_hidden, coeff_sign_flags, prev_subset_coded,
         rm_stat_coeff r)
  else
    ret (levels, sum_abs, sign_hidden, coeff_sign_flags, prev_subset_coded, stat_coeff).

(** [if (sign_hidden && (sum_abs & 1) != 0) levels[n_end - 1] = -levels[n_end - 1]]. *)
Definition hide_sign (sign_hidden : bool) (sum_abs n_end : Z) (levels : list Z) : list Z :=
  if sign_hidden && negb (Z.land sum_abs 1 =? 0)
  then zset levels (n_end - 1) (int32 (- levels.[n_end - 1]))
  else levels.

(** The levels of the general branch; the result is
    [(levels, coeff_sign_flags, prev_subset_coded, stat_coeff)]. *)
Definition decode_levels (s : HEVCContext) (c_idx : Z) (trans_skip_or_bypass : bool)
    (explicit_rdpcm_flag : Z) (ctx_set : Z) (significant_coeff_flag_idx : list Z)
    (stat_coeff : list Z) : Dec (list Z * Z * Z * list Z) :=
  let* '(levels, sum_abs, sign_hidden, coeff_sign_flags, prev_subset_coded, stat_coeff) :=
    decode_abs_levels s c_idx trans_skip_or_bypass explicit_rdpcm_flag ctx_set
      significant_coeff_flag_idx stat_coeff in
  let n_end := Z.of_nat (length significant_coeff_flag_idx) in
  ret (hide_sign sign_hidden sum_abs n_end levels, coeff_sign_flags, prev_subset_coded,
       stat_coeff).

(** The level passed to [trans_scale_sat] in pass [m] of the store loop:
    [coeff_sign_flags] has been shifted left [m] times. *)
Definition signed_level (levels : list Z) (coeff_sign_flags m : Z) : Z :=
  let flags := uint32 (coeff_sign_flags ≪ m) in
  if negb (Z.land flags 2147483648 =? 0) then int32 (- levels.[m]) else levels.[m].

(** [for (m = 0; m < n_end; m++) coeffs[t_offset] = trans_scale_sat(..)]. *)
Definition store_levels (dq : Dequant) (log2_trafo_size x_cg y_cg : Z)
    (scan_x_off scan_y_off : list Z) (significant_coeff_flag_idx levels : list Z)
    (coeff_sign_flags : Z) (coeffs : list Z) : list Z :=
  for_loop (length significant_coeff_flag_idx) 0
    (fun m coeffs =>
       store_coeff dq log2_trafo_size x_cg y_cg scan_x_off scan_y_off
         significant_coeff_flag_idx.[m] (signed_level levels coeff_sign_flags m) coeffs)
    coeffs.

(** The single-coefficient branch ([n_end == 1]) up to the level and its
    sign; the result is [(trans_coeff_level, prev_subset_coded, stat_coeff)]
    with the sign applied. *)
Definition decode_single_level (s : HEVCContext) (c_idx : Z)
    (trans_skip_or_bypass : bool) (ctx_set : Z) (stat_coeff : list Z)
    : Dec (Z * Z * list Z) :=
  let idx_delta := (if c_idx >? 0 then 4 else 0) + ctx_set in
  let idx0 := elem_offset COEFF_ABS_LEVEL_GREATER1_FLAG + (idx_delta ≪ 2) in
  let idx_gt2 := elem_offset COEFF_ABS_LEVEL_GREATER2_FLAG + idx_delta in
  let* g1 := get_cabac (idx0 + 1) in
  let* '(trans_coeff_level, prev_subset_coded, coded_val) :=
    (if negb (g1 =? 0) then
       let* coded_val := get_cabac idx_gt2 in ret (2, 1, coded_val)
     else ret (1, 0, 0)) in
  let* coeff_sign_flag := get_cabac_bypass in
  let* '(trans_coeff_level, stat_coeff) :=
    (if negb (coded_val =? 0) then
       if negb (persistent_rice_adaptation_enabled_flag (sps s)) then
         let* r := coeff_abs_level_remaining_decode 0 in
         ret (int32 (3 + r), stat_coeff)
       else
         let p := stat_coeff_idx c_idx trans_skip_or_bypass in
         let c_rice_param := stat_coeff.[p] ≫ 2 in
         let* last_coeff_abs_level_remaining :=
           coeff_abs_level_remaining_decode c_rice_param in
         ret (int32 (3 + last_coeff_abs_level_remaining),
              zset stat_coeff p
                (update_rice stat_coeff.[p] last_coeff_abs_level_remaining c_rice_param))
     else ret (trans_coeff_level, stat_coeff)) in
  let trans_coeff_level :=
    if negb (coeff_sign_flag =? 0) then int32 (- trans_coeff_level)
    else trans_coeff_level in
  ret (trans_coeff_level, prev_subset_coded, stat_coeff).

(** ** The subblock loop *)

(** The scan tables and count chosen by the [switch (scan_idx)]. *)
Record ScanSel : Type := mkScan {
  scan_x_cg : list Z;
  scan_y_cg : list Z;
  scan_x_off : list Z;
  scan_y_off : list Z;
  num_coeff : Z
}.

Definition select_scan (scan_idx : ScanType) (log2_trafo_size : Z)
    (last_significant_coeff_x last_significant_coeff_y : Z) : ScanSel :=
  let trafo_size := 1 ≪ log2_trafo_size in
  let x_cg_last_sig := last_significant_coeff_x ≫ 2 in
  let y_cg_last_sig := last_significant_coeff_y ≫ 2 in
  let sel :=
    match scan_idx with
    | SCAN_DIAG =>
        let last_x_c := Z.land last_significant_coeff_x 3 in
        let last_y_c := Z.land last_significant_coeff_y 3 in
        let num_coeff := zth2 diag_scan4x4_inv last_y_c last_x_c in
        if trafo_size =? 4 then
          mkScan scan_1x1 scan_1x1 ff_hevc_diag_scan4x4_x ff_hevc_diag_scan4x4_y
            num_coeff
        else if trafo_size =? 8 then
          mkScan diag_scan2x2_x diag_scan2x2_y
            ff_hevc_diag_scan4x4_x ff_hevc_diag_scan4x4_y
            (num_coeff + (zth2 diag_scan2x2_inv y_cg_last_sig x_cg_last_sig ≪ 4))
        else if trafo_size =? 16 then
          mkScan ff_hevc_diag_scan4x4_x ff_hevc_diag_scan4x4_y
            ff_hevc_diag_scan4x4_x ff_hevc_diag_scan4x4_y
            (num_coeff + (zth2 diag_scan4x4_inv y_cg_last_sig x_cg_last_sig ≪ 4))
        else
          mkScan ff_hevc_diag_scan8x8_x ff_hevc_diag_scan8x8_y
            ff_hevc_diag_scan4x4_x ff_hevc_diag_scan4x4_y
            (num_coeff + (zth2 diag_scan8x8_inv y_cg_last_sig x_cg_last_sig ≪ 4))
    | SCAN_HORIZ =>
        mkScan horiz_scan2x2_x horiz_scan2x2_y horiz_scan4x4_x horiz_scan4x4_y
          (zth2 horiz_scan8x8_inv last_significant_coeff_y last_significant_coeff_x)
    | SCAN_VERT =>
        mkScan horiz_scan2x2_y horiz_scan2x2_x horiz_scan4x4_y horiz_scan4x4_x
          (zth2 horiz_scan8x8_inv last_significant_coeff_x last_significant_coeff_y)
    end in
  mkScan (scan_x_cg sel) (scan_y_cg sel) (scan_x_off sel) (scan_y_off sel)
    (num_coeff sel + 1).

(** What the subblock loop carries from one pass to the next;
    [significant_coeff_group_flag] is the 8x8 array, entry [[x][y]] at
    [8 * x + y].  [rs_assigned] is a ghost field, not a variable of the
    source: the offsets [t_offset] of the stores [coeffs[t_offset] = ..]
    made so far. *)
Record ResidualState : Type := mkRS {
  significant_coeff_group_flag : list Z;
  rs_prev_subset_coded : Z;
  rs_stat_coeff : list Z;
  rs_coeffs : list Z;
  rs_assigned : list Z
}.

Definition cg_flag (g : list Z) (x y : Z) : Z := g.[8 * x + y].
Definition cg_set (g : list Z) (x y v : Z) : list Z := zset g (8 * x + y) v.

(** The context offset and map of the significance flags of a subblock. *)
Definition sig_ctx (s : HEVCContext) (log2_trafo_size : Z) (scan_idx : ScanType)
    (c_idx : Z) (trans_skip_or_bypass : bool) (x_cg y_cg prev_sig : Z)
    : Z * list Z :=
  if transform_skip_context_enabled_flag (sps s) && trans_skip_or_bypass then
    (if c_idx =? 0 then 40 else 14 + 27, ctx_idx_map_at 0 3)
  else
    let scf_offset := if negb (c_idx =? 0) then 27 else 0 in
    if log2_trafo_size =? 2 then
      (scf_offset, nth (Z.to_nat (scan_val scan_idx)) ctx_idx_maps_ts2 [])
    else
      let scf_offset :=
        if c_idx =? 0 then
          let scf_offset :=
            if (x_cg >? 0) || (y_cg >? 0) then scf_offset + 3 else scf_offset in
          if log2_trafo_size =? 3
          then scf_offset + (match scan_idx with SCAN_DIAG => 9 | _ => 15 end)
          else scf_offset + 21
        else
          if log2_trafo_size =? 3 then scf_offset + 9 else scf_offset + 12 in
      (scf_offset, ctx_idx_map_at (scan_val scan_idx) prev_sig).

(** The context offset of the significance flag of position 0. *)
Definition sig_ctx_dc (s : HEVCContext) (c_idx : Z) (trans_skip_or_bypass : bool)
    (i scf_offset : Z) : Z :=
  if transform_skip_context_enabled_flag (sps s) && trans_skip_or_bypass then
    if c_idx =? 0 then 42 else 16 + 27
  else if i =? 0 then
    if c_idx =? 0 then 0 else 27
  else 2 + scf_offset.

(** The significance map of subblock [i]: the list
    [significant_coeff_flag_idx[0 .. nb_significant_coeff_flag - 1]]. *)
Definition decode_sig_flags (s : HEVCContext) (log2_trafo_size : Z)
    (scan_idx : ScanType) (c_idx : Z) (trans_skip_or_bypass : bool)
    (i x_cg y_cg prev_sig n_end implicit_non_zero_coeff : Z) (idxs : list Z)
    : Dec (list Z) :=
  let '(scf_offset, ctx_idx_map_p) :=
    sig_ctx s log2_trafo_size scan_idx c_idx trans_skip_or_bypass x_cg y_cg prev_sig in
  let* '(idxs, implicit_non_zero_coeff) :=
    (if n_end >? 0 then
       let* found :=
         get_sig_coeff_flag_idxs (Z.to_nat n_end)
           (elem_offset SIGNIFICANT_COEFF_FLAG + scf_offset) ctx_idx_map_p in
       ret (idxs ++ found,
            if negb (Z.of_nat (length found) =? 0) then 0 else implicit_non_zero_coeff)
     else ret (idxs, implicit_non_zero_coeff)) in
  if implicit_non_zero_coeff =? 0 then
    let scf_offset := sig_ctx_dc s c_idx trans_skip_or_bypass i scf_offset in
    let* f := significant_coeff_flag_decode_0 c_idx scf_offset in
    ret (if f =? 1 then idxs ++ [0] else idxs)
  else ret (idxs ++ [0]).

(** One pass of [for (i = num_last_subset; i >= 0; i--)]. *)
Definition residual_subblock (s : HEVCContext) (log2_trafo_size : Z)
    (scan_idx : ScanType) (c_idx : Z) (trans_skip_or_bypass : bool)
    (explicit_rdpcm_flag : Z) (dq : Dequant) (sc : ScanSel) (num_last_subset : Z)
    (i : Z) (st : ResidualState) : Dec ResidualState :=
  let offset := i ≪ 4 in
  let x_cg := (scan_x_cg sc).[i] in
  let y_cg := (scan_y_cg sc).[i] in
  let g := significant_coeff_group_flag st in
  let* '(g, implicit_non_zero_coeff) :=
    (if (i <? num_last_subset) && (i >? 0) then
       let ctx_cg := 0 in
       let ctx_cg :=
         if x_cg <? (1 ≪ (log2_trafo_size - 2)) - 1
         then ctx_cg + cg_flag g (x_cg + 1) y_cg else ctx_cg in
       let ctx_cg :=
         if y_cg <? (1 ≪ (log2_trafo_size - 2)) - 1
         then ctx_cg + cg_flag g x_cg (y_cg + 1) else ctx_cg in
       let* f := significant_coeff_group_flag_decode c_idx ctx_cg in
       ret (cg_set g x_cg y_cg f, 1)
     else ret (cg_set g x_cg y_cg 1, 0)) in
  let last_scan_pos := num_coeff sc - offset - 1 in
  let '(n_end, idxs) :=
    if i =? num_last_subset then (last_scan_pos - 1, [last_scan_pos])
    else (15, []) in
  let prev_sig := 0 in
  let prev_sig :=
    if x_cg <? ((1 ≪ log2_trafo_size) - 1) ≫ 2
    then b2z (negb (cg_flag g (x_cg + 1) y_cg =? 0)) else prev_sig in
  let prev_sig :=
    if y_cg <? ((1 ≪ log2_trafo_size) - 1) ≫ 2
    then prev_sig + (b2z (negb (cg_flag g x_cg (y_cg + 1) =? 0)) ≪ 1) else prev_sig in
  let* idxs :=
    (if negb (cg_flag g x_cg y_cg =? 0) && (n_end >=? 0)
     then decode_sig_flags s log2_trafo_size scan_idx c_idx trans_skip_or_bypass
            i x_cg y_cg prev_sig n_end implicit_non_zero_coeff idxs
     else ret idxs) in
  let n_end := Z.of_nat (length idxs) in
  if negb (n_end =? 0) then
    let ctx_set :=
      (if (i >? 0) && (c_idx =? 0) then 2 else 0) +
      b2z (negb (i =? num_last_subset) && negb (rs_prev_subset_coded st =? 0)) in
    if n_end =? 1 then
      let* '(trans_coeff_level, prev_subset_coded, stat_coeff) :=
        decode_single_level s c_idx trans_skip_or_bypass ctx_set (rs_stat_coeff st) in
      ret (mkRS g prev_subset_coded stat_coeff
             (store_coeff dq log2_trafo_size x_cg y_cg (scan_x_off sc) (scan_y_off sc)
                idxs.[0] trans_coeff_level (rs_coeffs st))
             (t_offset_of log2_trafo_size x_cg y_cg (scan_x_off sc) (scan_y_off sc)
                idxs.[0] :: rs_assigned st))
    else
      let* '(levels, coeff_sign_flags, prev_subset_coded, stat_coeff) :=
        decode_levels s c_idx trans_skip_or_bypass explicit_rdpcm_flag ctx_set idxs
          (rs_stat_coeff st) in
      ret (mkRS g prev_subset_coded stat_coeff
             (store_levels dq log2_trafo_size x_cg y_cg (scan_x_off sc) (scan_y_off sc)
                idxs levels coeff_sign_flags (rs_coeffs st))
             (map (t_offset_of log2_trafo_size x_cg y_cg (scan_x_off sc) (scan_y_off sc))
                idxs ++ rs_assigned st))
  else ret (mkRS g (rs_prev_subset_coded st) (rs_stat_coeff st) (rs_coeffs st)
              (rs_assigned st)).

(** [for (i = num_last_subset; i >= 0; i--)], with [n = i + 1]. *)
Fixpoint subblock_loop (n : nat) (body : Z -> ResidualState -> Dec ResidualState)
    (st : ResidualState) : Dec ResidualState :=
  match n with
  | O => ret st
  | Datatypes.S n' =>
      let* st' := body (Z.of_nat n') st in
      subblock_loop n' body st'
  end.

(** ** The residual decoder *)

(** [memset(coeffs, 0, n * sizeof(int16_t))]. *)
Definition memset0 (coeffs : list Z) (n : Z) : list Z :=
  for_loop (Z.to_nat n) 0 (fun i l => zset l i 0) coeffs.

(** What the coefficient-decoding part hands to the post-residual part. *)
Record Decoded : Type := mkDecoded {
  d_coeffs : list Z;
  d_stat_coeff : list Z;
  d_assigned : list Z;            (* ghost: the offsets stored *)
  d_trans_skip_or_bypass : bool;
  d_explicit_rdpcm_flag : Z;
  d_explicit_rdpcm_dir_flag : Z;
  d_last_significant_coeff_x : Z;
  d_last_significant_coeff_y : Z;
  d_dequant : Dequant
}.

(** [ff_hevc_hls_residual_coding] from its entry to the end of the subblock
    loop.  [coeffs] is the block's coefficient buffer as it is on entry
    and [stat_coeff] is [lc->stat_coeff]. *)
Definition residual_decode (s : HEVCContext) (log2_trafo_size : Z)
    (scan_idx : ScanType) (c_idx : Z) (stat_coeff coeffs : list Z) : Dec Decoded :=
  let trafo_size := 1 ≪ log2_trafo_size in
  let coeffs := memset0 coeffs (trafo_size * trafo_size) in
  let* '(trans_skip_or_bypass, dq) := derive_dequant s log2_trafo_size c_idx in
  let* '(explicit_rdpcm_flag, explicit_rdpcm_dir_flag) :=
    (if is_INTER (pred_mode (cu s)) && explicit_rdpcm_enabled_flag (sps s) &&
        trans_skip_or_bypass
     then
       let* explicit_rdpcm_flag := explicit_rdpcm_flag_decode c_idx in
       if negb (explicit_rdpcm_flag =? 0) then
         let* explicit_rdpcm_dir_flag := explicit_rdpcm_dir_flag_decode c_idx in
         ret (explicit_rdpcm_flag, explicit_rdpcm_dir_flag)
       else ret (explicit_rdpcm_flag, 0)
     else ret (0, 0)) in
  let* '(last_significant_coeff_x, last_significant_coeff_y) :=
    last_significant_coeff_xy_prefix_decode c_idx log2_trafo_size in
  let* last_significant_coeff_x := last_significant_coeff last_significant_coeff_x in
  let* last_significant_coeff_y := last_significant_coeff last_significant_coeff_y in
  let '(last_significant_coeff_x, last_significant_coeff_y) :=
    match scan_idx with
    | SCAN_VERT => (last_significant_coeff_y, last_significant_coeff_x)
    | _ => (last_significant_coeff_x, last_significant_coeff_y)
    end in
  let sc := select_scan scan_idx log2_trafo_size
              last_significant_coeff_x last_significant_coeff_y in
  let num_last_subset := (num_coeff sc - 1) ≫ 4 in
  let* st :=
    subblock_loop (Z.to_nat (num_last_subset + 1))
      (residual_subblock s log2_trafo_size scan_idx c_idx trans_skip_or_bypass
         explicit_rdpcm_flag dq sc num_last_subset)
      (mkRS (repeat 0 64) 0 stat_coeff coeffs []) in
  ret (mkDecoded (rs_coeffs st) (rs_stat_coeff st) (rs_assigned st) trans_skip_or_bypass
         explicit_rdpcm_flag explicit_rdpcm_dir_flag
         last_significant_coeff_x last_significant_coeff_y dq).

(** [for (i = 0; i < 8; i++) FFSWAP(int16_t, coeffs[i], coeffs[16 - i - 1])]. *)
Definition rotate_4x4 (coeffs : list Z) : list Z :=
  for_loop 8 0
    (fun i l => zset (zset l i l.[16 - i - 1]) (16 - i - 1) l.[i]) coeffs.

(** The choice of inverse transform after the subblock loop. *)
Definition apply_transform (s : HEVCContext) (log2_trafo_size c_idx : Z)
    (d : Decoded) : list Z :=
  let dsp := hevcdsp s in
  let coeffs := d_coeffs d in
  let pred_mode_intra :=
    if c_idx =? 0 then intra_pred_mode (tu s) else intra_pred_mode_c (tu s) in
  let explicit := negb (d_explicit_rdpcm_flag d =? 0) in
  let pm_10_26 := (pred_mode_intra =? 10) || (pred_mode_intra =? 26) in
  if cu_transquant_bypass_flag (cu s) then
    if explicit || (implicit_rdpcm_enabled_flag (sps s) && pm_10_26) then
      let mode :=
        if implicit_rdpcm_enabled_flag (sps s) then b2z (pred_mode_intra =? 26)
        else d_explicit_rdpcm_dir_flag d in
      transform_rdpcm dsp coeffs log2_trafo_size mode
    else coeffs
  else if d_trans_skip_or_bypass d then
    let rot := transform_skip_rotation_enabled_flag (sps s) &&
               (log2_trafo_size =? 2) && is_INTRA (pred_mode (cu s)) in
    let coeffs := if rot then rotate_4x4 coeffs else coeffs in
    let coeffs := transform_skip dsp coeffs log2_trafo_size in
    if explicit || (implicit_rdpcm_enabled_flag (sps s) &&
                    is_INTRA (pred_mode (cu s)) && pm_10_26)
    then
      let mode := if explicit then d_explicit_rdpcm_dir_flag d
                  else b2z (pred_mode_intra =? 26) in
      transform_rdpcm dsp coeffs log2_trafo_size mode
    else coeffs
  else if is_INTRA (pred_mode (cu s)) && (c_idx =? 0) && (log2_trafo_size =? 2) then
    idct_4x4_luma dsp coeffs
  else
    let max_xy := FFMAX (d_last_significant_coeff_x d) (d_last_significant_coeff_y d) in
    if max_xy =? 0 then idct_dc dsp (log2_trafo_size - 2) coeffs
    else
      let col_limit := d_last_significant_coeff_x d + d_last_significant_coeff_y d + 4 in
      let col_limit :=
        if max_xy <? 4 then FFMIN 4 col_limit
        else if max_xy <? 8 then FFMIN 8 col_limit
        else if max_xy <? 12 then FFMIN 24 col_limit
        else col_limit in
      idct dsp (log2_trafo_size - 2) coeffs col_limit.

(** The cross-component-prediction loop. *)
Definition cross_component_add (res_scale_val : Z) (n : nat) (coeffs coeffs_y : list Z)
    : list Z :=
  for_loop n 0
    (fun i l => zset l i (int16 (l.[i] + (int32 (res_scale_val * coeffs_y.[i]) ≫ 3))))
    coeffs.

(** [ff_hevc_hls_residual_coding].  [edge_emu_buffer] and [edge_emu_buffer2]
    are the two buffers of the local context, read as [int16_t] arrays; the
    block's coefficients live in the first one for luma and in the second
    one for chroma.  The result is
    [(edge_emu_buffer, edge_emu_buffer2, stat_coeff)] on return; the final
    [transform_add] into the frame reads the coefficients only and is left
    out. *)
Definition ff_hevc_hls_residual_coding (s : HEVCContext) (log2_trafo_size : Z)
    (scan_idx : ScanType) (c_idx : Z) (stat_coeff : list Z)
    (edge_emu_buffer edge_emu_buffer2 : list Z)
    : Dec (list Z * list Z * list Z) :=
  let coeffs := if negb (c_idx =? 0) then edge_emu_buffer2 else edge_emu_buffer in
  let* d := residual_decode s log2_trafo_size scan_idx c_idx stat_coeff coeffs in
  let coeffs := apply_transform s log2_trafo_size c_idx d in
  let coeffs :=
    if cross_pf (tu s) then
      let coeffs_y := if negb (c_idx =? 0) then edge_emu_buffer else coeffs in
      let trafo_size := 1 ≪ log2_trafo_size in
      cross_component_add (res_scale_val (tu s)) (Z.to_nat (trafo_size * trafo_size))
        coeffs coeffs_y
    else coeffs in
  if negb (c_idx =? 0)
  then ret (edge_emu_buffer, coeffs, d_stat_coeff d)
  else ret (coeffs, edge_emu_buffer2, d_stat_coeff d).

(** ** The wording of the specification, for comparison *)

(** The context state as the specification words it, with [|pre|]. *)
Definition spec_init_state_value (init_value slice_qp : Z) : Z :=
  let m := (init_value ≫ 4) * 5 - 45 in
  let n := ((Z.land init_value 15) ≪ 3) - 16 in
  let pre := 2 * (((m * av_clip slice_qp 0 51) ≫ 4) + n) - 127 in
  let pre := Z.abs pre in
  if pre >? 124 then 124 + Z.land pre 1 else pre.

(** "k = min(k+1, 4) whenever remainder > (3<<k)". *)
Definition spec_next_rice_param (k remainder : Z) : Z :=
  if remainder >? (3 ≪ k) then Z.min (k + 1) 4 else k.

(** "if remainder >> k >= 3 increment, else if k>0 and remainder==0
    decrement; clamp to [0,255]". *)
Definition spec_update_stat_coeff (stat_coeff remainder k : Z) : Z :=
  if (remainder ≫ k) >=? 3 then Z.min (stat_coeff + 1) 255
  else if (k >? 0) && (remainder =? 0) then Z.max (stat_coeff - 1) 0
  else stat_coeff.

(** ** Predicates of the statements *)

Definition in_int16 (z : Z) : Prop := -32768 <= z <= 32767.

(** The number of context states that [elem_offset] and [num_bins_in_se]
    lay out. *)
Definition CONTEXTS_LAID_OUT : Z := 178.

Definition ctx_ok (c : CABACContext) : Prop :=
  Forall (fun i => 0 <= i < CONTEXTS_LAID_OUT) (ctx_trace c).

(** Hoare triples over the decoding monad. *)
Definition triple {A : Type} (P : CABACContext -> Prop) (m : Dec A)
    (Q : A -> CABACContext -> Prop) : Prop :=
  forall c, P c -> Q (fst (m c)) (snd (m c)).

(** [m] keeps every context index in range and returns a value in [Q]. *)
Definition keeps_ctx {A : Type} (m : Dec A) (Q : A -> Prop) : Prop :=
  triple ctx_ok m (fun a c => Q a /\ ctx_ok c).

(** [m] returns a value in [Q] whatever the engine yields. *)
Definition always {A : Type} (m : Dec A) (Q : A -> Prop) : Prop :=
  triple (fun _ => True) m (fun a _ => Q a).


Definition is_bit (b : Z) : Prop := b = 0 \/ b = 1.

(** The sum [f from + ... + f (from + n - 1)]. *)
Fixpoint Zsum (f : Z -> Z) (n : nat) (from : Z) : Z :=
  match n with
  | O => 0
  | Datatypes.S n' => f from + Zsum f n' (from + 1)
  end.

(** Bit [j] of a 32-bit flag word, counted from the most significant bit
    as [get_greaterx_bits] and the sign reader fill it. *)
Definition msb_bit (w j : Z) : bool := Z.testbit w (31 - j).


(** The block's buffer among the two buffers of the local context. *)
Definition block_coeffs (c_idx : Z) (r : list Z * list Z * list Z) : list Z :=
  let '(edge_emu_buffer, edge_emu_buffer2, _) := r in
  if negb (c_idx =? 0) then edge_emu_buffer2 else edge_emu_buffer.

(** ** Example inputs *)

(** Collaborators that leave the buffer as it is. *)
Definition ex_dsp : HEVCDSPContext :=
  mkDSP (fun c _ _ => c) (fun c _ => c) (fun c => c) (fun _ c => c) (fun _ c _ => c).

Definition ex_scaling_list : ScalingList := mkScalingList [] [].

(** 8-bit video, no scaling list, no range-extension tool. *)
Definition ex_sps : HEVCSPS :=
  mkSPS 8 0 1 false ex_scaling_list false false false false false.
Definition ex_pps : HEVCPPS := mkPPS false 2 false 0 0 false ex_scaling_list.

(** An intra coding unit at [qp_y = 26]. *)
Definition ex_intra : HEVCContext :=
  mkHEVC ex_sps ex_pps (mkSH 0 0) (mkCU MODE_INTRA false) (mkTU 0 0 0 0 false 0) 26 ex_dsp.

(** The same with persistent Rice adaptation. *)
Definition ex_intra_persistent : HEVCContext :=
  mkHEVC (mkSPS 8 0 1 false ex_scaling_list false false false true false)
    ex_pps (mkSH 0 0) (mkCU MODE_INTRA false) (mkTU 0 0 0 0 false 0) 26 ex_dsp.

(** A transquant-bypass coding unit of 4:4:4 video with cross-component
    prediction at [res_scale_val = 8]. *)
Definition ex_bypass_cross : HEVCContext :=
  mkHEVC (mkSPS 8 0 3 false ex_scaling_list false false false false false)
    ex_pps (mkSH 0 0) (mkCU MODE_INTRA true) (mkTU 0 0 0 0 true 8) 26 ex_dsp.

(** An intra coding unit with sign data hiding. *)
Definition ex_intra_sdh : HEVCContext :=
  mkHEVC ex_sps (mkPPS false 2 true 0 0 false ex_scaling_list)
    (mkSH 0 0) (mkCU MODE_INTRA false) (mkTU 0 0 0 0 false 0) 26 ex_dsp.

(** A remainder-loop state with one pending remainder, for the first
    coefficient, whose greater-1 and greater-2 flags are set. *)
Definition ex_rem_state (c_rice_param : Z) : RemState :=
  mkRem 2147483648 (-1) c_rice_param None [0; 0; 0; 0] (3 :: repeat 1 15) 2.

(** An engine that will yield the given bins. *)
Definition engine_of (l : list bool) : CABACContext := mkCABAC l [] [].

(** Bins of a 4x4 block whose only coefficient is the DC one:
    last = (0,0), greater-1 flag 0, sign 0. *)
Definition ex_bins_dc : list bool := [ false; false; false; false ].


(** Bins of a 4x4 block with two coefficients, at scan positions 1 and 0:
    last = (0,1), the DC coefficient significant, greater-1 set for the
    first coefficient decoded and clear for the second, greater-2 set,
    both signs 0, and a remainder prefix of 31 one-bins followed by 0
    bins. *)
Definition ex_bins_overflow2 : list bool :=
  [ false; true; false; true; true; false; true; false; false ] ++
  repeat true 31 ++ repeat false 30.

(** The group flags are bits. *)
Definition cg_bits (g : list Z) : Prop := Forall (fun v => 0 <= v <= 1) g.

(** What position [j] of a subblock counts for in [sum_abs] while the
    remainder loop stands at index [p]: its level once the loop has passed
    it or when no remainder is pending for it, and 1 while a remainder is
    pending ([rv] is the word of pending remainders the loop started from). *)
Definition coded_weight (rv : Z) (levels : list Z) (p j : Z) : Z :=
  if j <=? p then levels.[j]
  else if msb_bit rv j then 1 else levels.[j].

(** The invariant of the remainder loop over a subblock of [n]
    significant coefficients. *)
Definition loop_inv (rv n : Z) (r : RemState) : Prop :=
  -1 <= rm_level r /\
  rm_coded_vals r = uint32 (rv ≪ (rm_level r + 1)) /\
  length (rm_levels r) = 16%nat /\
  Z.odd (rm_sum_abs r) =
    Z.odd (Zsum (coded_weight rv (rm_levels r) (rm_level r)) (Z.to_nat n) 0).

(** What [get_greaterx_bits] establishes for a subblock of [n]
    significant coefficients. *)
Definition greaterx_post (n : Z) (res : Z * list Z * Z * Z) : Prop :=
  let '(rv, levels, prev_subset_coded, eq2) := res in
  0 <= rv < 2 ^ 32 /\
  (forall j, n <= j -> msb_bit rv j = false) /\
  length levels = 16%nat /\
  Zsum (coded_weight rv levels (-1)) (Z.to_nat n) 0 = n + eq2.

(** The engine when the sign bits of the general branch are read. *)
Definition sign_engine (c_idx ctx_set n_end : Z) (c : CABACContext) : CABACContext :=
  let idx_delta := (if c_idx >? 0 then 4 else 0) + ctx_set in
  let idx0 := elem_offset COEFF_ABS_LEVEL_GREATER1_FLAG + (idx_delta ≪ 2) in
  let idx_gt2 := elem_offset COEFF_ABS_LEVEL_GREATER2_FLAG + idx_delta in
  snd (get_greaterx_bits n_end (repeat 0 16) idx0 idx_gt2 c).

(** The first loop: after [k] bins, [levels[j] = 1 + bin j] and bin [j]
    is bit [k - 1 - j] of [rv]. *)
Definition gt1_inv (k : Z) (st : Z * list Z) : Prop :=
  length (snd st) = 16%nat /\
  forall j, 0 <= j < k -> (snd st).[j] = 1 + b2z (Z.testbit (fst st) (k - 1 - j)).

(** * The syntax elements of the coding tree *)

(** [av_mod_uintp2(a, p)] of libavutil/common.h: the low [p] bits of [a]. *)
Definition av_mod_uintp2 (a p : Z) : Z := Z.land a ((1 ≪ p) - 1).

(** [SAMPLE_CTB(tab, x, y)] of hevc.h, [(tab)[(y) * min_cb_width + (x)]];
    the functions that use it declare [min_cb_width] for it. *)
Definition SAMPLE_CTB (min_cb_width : Z) (tab : list Z) (x y : Z) : Z :=
  tab.[y * min_cb_width + x].

(** [while (i < max && GET_CABAC(ctx(i))) i++], with [n = max - i] the
    number of bins the loop may still read. *)
Fixpoint unary_ctx (n : nat) (i : Z) (ctx : Z -> Z) : Dec Z :=
  match n with
  | O => ret i
  | Datatypes.S n' =>
      let* b := get_cabac (ctx i) in
      if b =? 0 then ret i else unary_ctx n' (i + 1) ctx
  end.

Definition ff_hevc_sao_merge_flag_decode : Dec Z :=
  get_cabac (elem_offset SAO_MERGE_FLAG).

(** [SAO_BAND] and [SAO_EDGE] are enumerators of hevc.h, taken as
    parameters. *)
Definition ff_hevc_sao_type_idx_decode (SAO_BAND SAO_EDGE : Z) : Dec Z :=
  let* b := get_cabac (elem_offset SAO_TYPE_IDX) in
  if b =? 0 then ret 0
  else
    let* b := get_cabac_bypass in
    if b =? 0 then ret SAO_BAND else ret SAO_EDGE.

Definition ff_hevc_sao_band_position_decode : Dec Z :=
  let* value := get_cabac_bypass in
  read_suffix 4 value.

Definition ff_hevc_sao_offset_abs_decode (bit_depth : Z) : Dec Z :=
  let length := (1 ≪ (FFMIN bit_depth 10 - 5)) - 1 in
  unary_bypass (Z.to_nat length) 0.

Definition ff_hevc_sao_offset_sign_decode : Dec Z := get_cabac_bypass.

Definition ff_hevc_sao_eo_class_decode : Dec Z :=
  let* b1 := get_cabac_bypass in
  let r := b1 ≪ 1 in
  let* b0 := get_cabac_bypass in
  ret (Z.lor r b0).

Definition ff_hevc_cu_transquant_bypass_flag_decode : Dec Z :=
  get_cabac (elem_offset CU_TRANSQUANT_BYPASS_FLAG).

(** [skip_flag] is [s->skip_flag]; [ctb_left_flag] and [ctb_up_flag] are
    the flags of the local context. *)
Definition ff_hevc_skip_flag_decode (log2_ctb_size min_cb_width : Z)
    (skip_flag : list Z) (ctb_left_flag ctb_up_flag : Z) (x0 y0 x_cb y_cb : Z)
    : Dec Z :=
  let inc := 0 in
  let x0b := av_mod_uintp2 x0 log2_ctb_size in
  let y0b := av_mod_uintp2 y0 log2_ctb_size in
  let inc :=
    if negb (ctb_left_flag =? 0) || negb (x0b =? 0)
    then b2z (negb (SAMPLE_CTB min_cb_width skip_flag (x_cb - 1) y_cb =? 0))
    else inc in
  let inc :=
    if negb (ctb_up_flag =? 0) || negb (y0b =? 0)
    then inc + b2z (negb (SAMPLE_CTB min_cb_width skip_flag x_cb (y_cb - 1) =? 0))
    else inc in
  get_cabac (elem_offset SKIP_FLAG + inc).

(** [ff_hevc_cu_qp_delta_abs]: the prefix loop, on [(prefix_val, inc)]. *)
Fixpoint cu_qp_delta_prefix (n : nat) (prefix_val inc : Z) : Dec Z :=
  match n with
  | O => ret prefix_val
  | Datatypes.S n' =>
      let* b := get_cabac (elem_offset CU_QP_DELTA + inc) in
      if b =? 0 then ret prefix_val
      else cu_qp_delta_prefix n' (prefix_val + 1) 1
  end.

(** [while (k < CABAC_MAX_BIN && get_cabac_bypass()) { suffix_val += 1 << k; k++; }],
    on [(suffix_val, k)]. *)
Fixpoint cu_qp_delta_exp (n : nat) (suffix_val k : Z) : Dec (Z * Z) :=
  match n with
  | O => ret (suffix_val, k)
  | Datatypes.S n' =>
      let* b := get_cabac_bypass in
      if b =? 0 then ret (suffix_val, k)
      else cu_qp_delta_exp n' (int32 (suffix_val + (1 ≪ k))) (k + 1)
  end.

(** [while (k--) suffix_val += get_cabac_bypass() << k], with [n = k]. *)
Fixpoint cu_qp_delta_bits (n : nat) (suffix_val : Z) : Dec Z :=
  match n with
  | O => ret suffix_val
  | Datatypes.S n' =>
      let* b := get_cabac_bypass in
      cu_qp_delta_bits n' (int32 (suffix_val + (b ≪ Z.of_nat n')))
  end.

Definition ff_hevc_cu_qp_delta_abs : Dec Z :=
  let* prefix_val := cu_qp_delta_prefix 5 0 0 in
  if prefix_val >=? 5 then
    let* '(suffix_val, k) := cu_qp_delta_exp (Z.to_nat CABAC_MAX_BIN) 0 0 in
    (if k =? CABAC_MAX_BIN then av_log_CABAC_MAX_BIN k else ret tt) ;;;
    let* suffix_val := cu_qp_delta_bits (Z.to_nat k) suffix_val in
    ret (int32 (prefix_val + suffix_val))
  else ret prefix_val.

Definition ff_hevc_cu_qp_delta_sign_flag : Dec Z := get_cabac_bypass.

Definition ff_hevc_cu_chroma_qp_offset_flag : Dec Z :=
  get_cabac (elem_offset CU_CHROMA_QP_OFFSET_FLAG).

Definition ff_hevc_cu_chroma_qp_offset_idx (chroma_qp_offset_list_len_minus1 : Z)
    : Dec Z :=
  let c_max := FFMAX 5 chroma_qp_offset_list_len_minus1 in
  unary_ctx (Z.to_nat c_max) 0 (fun _ => elem_offset CU_CHROMA_QP_OFFSET_IDX).

Definition ff_hevc_pred_mode_decode : Dec Z :=
  get_cabac (elem_offset PRED_MODE_FLAG).

(** [tab_ct_depth] is [s->tab_ct_depth]. *)
Definition ff_hevc_split_coding_unit_flag_decode
    (log2_ctb_size log2_min_cb_size min_cb_width : Z) (tab_ct_depth : list Z)
    (ctb_left_flag ctb_up_flag : Z) (ct_depth x0 y0 : Z) : Dec Z :=
  let x0b := av_mod_uintp2 x0 log2_ctb_size in
  let y0b := av_mod_uintp2 y0 log2_ctb_size in
  let x_cb := x0 ≫ log2_min_cb_size in
  let y_cb := y0 ≫ log2_min_cb_size in
  let depth_left :=
    if negb (ctb_left_flag =? 0) || negb (x0b =? 0)
    then tab_ct_depth.[y_cb * min_cb_width + x_cb - 1] else 0 in
  let depth_top :=
    if negb (ctb_up_flag =? 0) || negb (y0b =? 0)
    then tab_ct_depth.[(y_cb - 1) * min_cb_width + x_cb] else 0 in
  let inc := 0 + b2z (depth_left >? ct_depth) in
  let inc := inc + b2z (depth_top >? ct_depth) in
  get_cabac (elem_offset SPLIT_CODING_UNIT_FLAG + inc).

(** [enum PartMode] of hevc.h, by its enumerators. *)
Inductive PartMode : Set :=
  | PART_2Nx2N | PART_2NxN | PART_Nx2N | PART_NxN
  | PART_2NxnU | PART_2NxnD | PART_nLx2N | PART_nRx2N.

Definition ff_hevc_part_mode_decode (log2_min_cb_size : Z) (amp_enabled_flag : bool)
    (cu_pred_mode : PredMode) (log2_cb_size : Z) : Dec PartMode :=
  let* b := get_cabac (elem_offset PART_MODE) in
  if negb (b =? 0) then ret PART_2Nx2N
  else if log2_cb_size =? log2_min_cb_size then
    if is_INTRA cu_pred_mode then ret PART_NxN
    else
      let* b := get_cabac (elem_offset PART_MODE + 1) in
      if negb (b =? 0) then ret PART_2NxN
      else if log2_cb_size =? 3 then ret PART_Nx2N
      else
        let* b := get_cabac (elem_offset PART_MODE + 2) in
        if negb (b =? 0) then ret PART_Nx2N else ret PART_NxN
  else if negb amp_enabled_flag then
    let* b := get_cabac (elem_offset PART_MODE + 1) in
    if negb (b =? 0) then ret PART_2NxN else ret PART_Nx2N
  else
    let* b := get_cabac (elem_offset PART_MODE + 1) in
    if negb (b =? 0) then
      let* b := get_cabac (elem_offset PART_MODE + 3) in
      if negb (b =? 0) then ret PART_2NxN
      else
        let* b := get_cabac_bypass in
        if negb (b =? 0) then ret PART_2NxnD else ret PART_2NxnU
    else
      let* b := get_cabac (elem_offset PART_MODE + 3) in
      if negb (b =? 0) then ret PART_Nx2N
      else
        let* b := get_cabac_bypass in
        if negb (b =? 0) then ret PART_nRx2N else ret PART_nLx2N.

Definition ff_hevc_prev_intra_luma_pred_flag_decode : Dec Z :=
  get_cabac (elem_offset PREV_INTRA_LUMA_PRED_FLAG).

Definition ff_hevc_mpm_idx_decode : Dec Z := unary_bypass 2 0.

Definition ff_hevc_rem_intra_luma_pred_mode_decode : Dec Z :=
  let* value := get_cabac_bypass in
  read_suffix 4 value.

Definition ff_hevc_intra_chroma_pred_mode_decode : Dec Z :=
  let* b := get_cabac (elem_offset INTRA_CHROMA_PRED_MODE) in
  if b =? 0 then ret 4
  else
    let* b1 := get_cabac_bypass in
    let r := b1 ≪ 1 in
    let* b0 := get_cabac_bypass in
    ret (Z.lor r b0).

Definition ff_hevc_merge_idx_decode (max_num_merge_cand : Z) : Dec Z :=
  let* i := get_cabac (elem_offset MERGE_IDX) in
  if negb (i =? 0)
  then unary_bypass (Z.to_nat (max_num_merge_cand - 1 - i)) i
  else ret i.

Definition ff_hevc_merge_flag_decode : Dec Z :=
  get_cabac (elem_offset MERGE_FLAG).

(** [PRED_BI] is an enumerator of hevc.h, taken as a parameter;
    [ct_depth] is [s->HEVClc->ct_depth]. *)
Definition ff_hevc_inter_pred_idc_decode (PRED_BI ct_depth nPbW nPbH : Z) : Dec Z :=
  if nPbW + nPbH =? 12 then get_cabac (elem_offset INTER_PRED_IDC + 4)
  else
    let* b := get_cabac (elem_offset INTER_PRED_IDC + ct_depth) in
    if negb (b =? 0) then ret PRED_BI
    else get_cabac (elem_offset INTER_PRED_IDC + 4).

Definition ff_hevc_ref_idx_lx_decode (num_ref_idx_lx : Z) : Dec Z :=
  let max := num_ref_idx_lx - 1 in
  let max_ctx := FFMIN max 2 in
  let* i := unary_ctx (Z.to_nat max_ctx) 0 (fun i => elem_offset REF_IDX_L0 + i) in
  if i =? 2 then unary_bypass (Z.to_nat (max - i)) i else ret i.

Definition ff_hevc_mvp_lx_flag_decode : Dec Z :=
  get_cabac (elem_offset MVP_LX_FLAG).

Definition ff_hevc_no_residual_syntax_flag_decode : Dec Z :=
  get_cabac (elem_offset NO_RESIDUAL_DATA_FLAG).

Definition ff_hevc_split_transform_flag_decode (log2_trafo_size : Z) : Dec Z :=
  get_cabac (elem_offset SPLIT_TRANSFORM_FLAG + 5 - log2_trafo_size).

Definition ff_hevc_cbf_cb_cr_decode (trafo_depth : Z) : Dec Z :=
  get_cabac (elem_offset CBF_CB_CR + trafo_depth).

Definition ff_hevc_cbf_luma_decode (trafo_depth : Z) : Dec Z :=
  get_cabac (elem_offset CBF_LUMA + b2z (trafo_depth =? 0)).

Definition ff_hevc_log2_res_scale_abs (idx : Z) : Dec Z :=
  unary_ctx 4 0 (fun i => elem_offset LOG2_RES_SCALE_ABS + 4 * idx + i).

Definition ff_hevc_res_scale_sign_flag (idx : Z) : Dec Z :=
  get_cabac (elem_offset RES_SCALE_SIGN_FLAG + idx).

(** The context slots of a syntax element. *)
Definition elem_range (e : SyntaxElement) (i : Z) : Prop :=
  elem_offset e <= i < elem_offset e + num_bins e.

(** [m] decodes with contexts of the element [e] only: the context
    indices it adds to the trace are slots of [e]; its value is in [Q]. *)
Definition stays_in (e : SyntaxElement) {A : Type} (m : Dec A) (Q : A -> Prop) : Prop :=
  forall c, exists new,
    ctx_trace (snd (m c)) = new ++ ctx_trace c /\
    Forall (elem_range e) new /\ Q (fst (m c)).

(** The number read from bins, most significant first, after [acc]. *)
Fixpoint bits_value (l : list bool) (acc : Z) : Z :=
  match l with
  | [] => acc
  | b :: r => bits_value r (2 * acc + b2z b)
  end.

(** The number of 1 bins a sequence starts with. *)
Fixpoint leading_ones (l : list bool) : nat :=
  match l with
  | true :: r => Datatypes.S (leading_ones r)
  | _ => O
  end.

(** The code of one component of a motion-vector difference, as
    [ff_hevc_hls_mvd_coding] reads it: a greater-0 flag alone
    ([MvdZero]); greater-0 set, greater-1 clear and a sign bin
    ([MvdOne]); or both flags set and the bins of [mvd_decode]: [j] 1
    bins, a 0 bin, the bits [l] and a sign bin ([MvdBig]). *)
Inductive MvdCode : Type :=
  | MvdZero
  | MvdOne (s : bool)
  | MvdBig (j : nat) (l : list bool) (s : bool).

Definition mvd_g0 (m : MvdCode) : bool :=
  match m with MvdZero => false | _ => true end.

Definition mvd_g1 (m : MvdCode) : list bool :=
  match m with MvdZero => [] | MvdOne _ => [false] | MvdBig _ _ _ => [true] end.

Definition mvd_tail (m : MvdCode) : list bool :=
  match m with
  | MvdZero => []
  | MvdOne s => [s]
  | MvdBig j l s => repeat true j ++ false :: l ++ [s]
  end.

Definition mvd_value (m : MvdCode) : Z :=
  match m with
  | MvdZero => 0
  | MvdOne s => if s then -1 else 1
  | MvdBig j l s =>
      let v := 2 ^ (Z.of_nat j + 1) + bits_value l 0 in if s then - v else v
  end.

Definition mvd_code_ok (m : MvdCode) : Prop :=
  match m with
  | MvdBig j l _ => (j <= 29)%nat /\ length l = Datatypes.S j
  | _ => True
  end.

Definition is_amp (m : PartMode) : bool :=
  match m with
  | PART_2NxnU | PART_2NxnD | PART_nLx2N | PART_nRx2N => true
  | _ => false
  end.

(** The next [n] bins of a sequence, 0 bins once it is exhausted. *)
Fixpoint take_pad (n : nat) (l : list bool) : list bool :=
  match n with
  | O => []
  | Datatypes.S n' =>
      match l with
      | [] => false :: take_pad n' []
      | b :: r => b :: take_pad n' r
      end
  end.

(** * [ff_hevc_cabac_init] *)

(** The calls into the arithmetic engine and the bit reader, which are not
    among the sources, are recorded in the order they are made:
    [cabac_init_decoder] (skip a bit, align, [ff_init_cabac_decoder]),
    [cabac_reinit] ([skip_bytes]) and [get_cabac_terminate]. *)
Inductive EngineCall : Set :=
  | CALL_cabac_init_decoder | CALL_cabac_reinit | CALL_get_cabac_terminate.

(** What [ff_hevc_cabac_init] reads from the parameter sets, the slice
    header and the context. *)
Record CabacInitParams : Type := mkCabacInitParams {
  slice_ctb_addr_ts : Z;       (* pps->ctb_addr_rs_to_ts[sh.slice_ctb_addr_rs] *)
  dependent_slice_segment_flag : Z;
  first_slice_in_pic_flag : bool;
  tiles_enabled_flag : bool;
  tile_id : list Z;
  entropy_coding_sync_enabled_flag : bool;
  ctb_width : Z;
  threads_number : Z;
  ci_slice_type : SliceType;
  ci_cabac_init_flag : bool;
  ci_slice_qp : Z
}.

(** The state it works on: the tables of the local context, the saved
    context table [s->cabac_state], and the engine calls made so far (most
    recent first). *)
Record CabacInitState : Type := mkCabacInitState {
  local_tables : CabacTables;
  saved_cabac_state : list Z;
  engine_calls : list EngineCall
}.

Definition engine_call (e : EngineCall) (st : CabacInitState) : CabacInitState :=
  mkCabacInitState (local_tables st) (saved_cabac_state st) (e :: engine_calls st).

Definition cabac_init_state_st (p : CabacInitParams) (st : CabacInitState)
    : CabacInitState :=
  mkCabacInitState
    (cabac_init_state (ci_slice_type p) (ci_cabac_init_flag p) (ci_slice_qp p)
       (local_tables st))
    (saved_cabac_state st) (engine_calls st).

Definition load_states_st (st : CabacInitState) : CabacInitState :=
  mkCabacInitState
    (mkCabacTables (load_states (saved_cabac_state st) (cabac_state (local_tables st)))
       (stat_coeff (local_tables st)))
    (saved_cabac_state st) (engine_calls st).

(** [ff_hevc_save_states] on the same state. *)
Definition ff_hevc_save_states_st (p : CabacInitParams) (ctb_addr_ts : Z)
    (st : CabacInitState) : CabacInitState :=
  mkCabacInitState (local_tables st)
    (ff_hevc_save_states (entropy_coding_sync_enabled_flag p) (ctb_width p) ctb_addr_ts
       (saved_cabac_state st) (cabac_state (local_tables st)))
    (engine_calls st).

Definition tile_boundary (p : CabacInitParams) (ctb_addr_ts : Z) : bool :=
  tiles_enabled_flag p &&
  negb ((tile_id p).[ctb_addr_ts] =? (tile_id p).[ctb_addr_ts - 1]).

Definition ff_hevc_cabac_init (p : CabacInitParams) (ctb_addr_ts : Z)
    (st : CabacInitState) : CabacInitState :=
  if ctb_addr_ts =? slice_ctb_addr_ts p then
    let st := engine_call CALL_cabac_init_decoder st in
    let st :=
      if (dependent_slice_segment_flag p =? 0) || tile_boundary p ctb_addr_ts
      then cabac_init_state_st p st else st in
    if negb (first_slice_in_pic_flag p) && entropy_coding_sync_enabled_flag p then
      if Z.rem ctb_addr_ts (ctb_width p) =? 0 then
        if ctb_width p =? 1 then cabac_init_state_st p st
        else if dependent_slice_segment_flag p =? 1 then load_states_st st
        else st
      else st
    else st
  else
    let st :=
      if tile_boundary p ctb_addr_ts then
        let st :=
          if threads_number p =? 1 then engine_call CALL_cabac_reinit st
          else engine_call CALL_cabac_init_decoder st in
        cabac_init_state_st p st
      else st in
    if entropy_coding_sync_enabled_flag p then
      if Z.rem ctb_addr_ts (ctb_width p) =? 0 then
        let st := engine_call CALL_get_cabac_terminate st in
        let st :=
          if threads_number p =? 1 then engine_call CALL_cabac_reinit st
          else engine_call CALL_cabac_init_decoder st in
        if ctb_width p =? 1 then cabac_init_state_st p st
        else load_states_st st
      else st
    else st.

(** * Scan positions *)

(** A strictly decreasing list with every entry in [[lo, hi]]. *)
Fixpoint chain (lo hi : Z) (l : list Z) : Prop :=
  match l with
  | [] => True
  | a :: r => lo <= a <= hi /\ chain lo (a - 1) r
  end.

Fixpoint nodupb (l : list Z) : bool :=
  match l with
  | [] => true
  | a :: r => negb (existsb (Z.eqb a) r) && nodupb r
  end.

(** The offset [t_offset] at which the residual decoder stores the
    coefficient of scan position [pos] of subblock [i], as a function of
    the position [k = 16 * i + pos] in the scan of the whole block; the
    tables are those [select_scan] picks for [scan_idx] and
    [log2_trafo_size]. *)
Definition scan_offset (scan_idx : ScanType) (log2_trafo_size k : Z) : Z :=
  let sc := select_scan scan_idx log2_trafo_size 0 0 in
  t_offset_of log2_trafo_size (scan_x_cg sc).[k / 16] (scan_y_cg sc).[k / 16]
    (scan_x_off sc) (scan_y_off sc) (k mod 16).

(** The checks on the scan tables of one block size, by enumeration. *)
Definition scan_tables_check (scan_idx : ScanType) (L : Z) : bool :=
  let ks := map Z.of_nat (seq 0 (Z.to_nat (4 ^ L))) in
  forallb (fun k => (0 <=? scan_offset scan_idx L k) && (scan_offset scan_idx L k <? 4 ^ L)) ks &&
  nodupb (map (scan_offset scan_idx L) ks) &&
  forallb (fun m =>
             let lx := m mod 2 ^ L in
             let ly := m / 2 ^ L in
             let nc := num_coeff (select_scan scan_idx L lx ly) in
             (1 <=? nc) && (nc <=? 4 ^ L) &&
             (scan_offset scan_idx L (nc - 1) =? (ly ≪ L) + lx)) ks.

(** * v4l2_m2m_dec.c: the PTS tracking of [v4l2_receive_frame] *)

Definition int64 (z : Z) : Z := (z + 2 ^ 63) mod 2 ^ 64 - 2 ^ 63.

Record AVRational : Type := mkAVRational { num : Z; den : Z }.

(** The fields of [AVCodecContext] the tracking reads. *)
Record AVCodecContext : Type := mkAVCodecContext {
  pkt_timebase : AVRational;
  time_base : AVRational;
  reordered_opaque : Z
}.

(** [AVPacket]: [size], [pts] and [dts]. *)
Record AVPacket : Type := mkAVPacket {
  avpkt_size : Z;
  avpkt_pts : Z;
  avpkt_dts : Z
}.

(** [AVFrame]: [pts], [pkt_pts], [pkt_dts] and [reordered_opaque]. *)
Record AVFrame : Type := mkAVFrame {
  frame_pts : Z;
  frame_pkt_pts : Z;
  frame_pkt_dts : Z;
  frame_reordered_opaque : Z
}.

(** [V4L2m2mTrackEl]. *)
Record V4L2m2mTrackEl : Type := mkTrackEl {
  el_pts : Z;
  el_opaque_reorder : Z;
  el_track_pts : Z
}.

(** The fields of [V4L2m2mContext] that [v4l2_receive_frame] reads and
    writes itself; [track_no] is an [unsigned int]. *)
Record V4L2m2mContext : Type := mkV4L2m2mContext {
  buf_pkt : AVPacket;
  track_no : Z;
  last_pkt_dts : Z;
  last_opaque : Z;
  track_els : list V4L2m2mTrackEl;
  extdata_sent : Z
}.

Definition timebase_of (avctx : AVCodecContext) : AVRational :=
  if negb (num (pkt_timebase avctx) =? 0) then pkt_timebase avctx else time_base avctx.

(** [track_to_pts]; the products are taken in [int64_t]. *)
Definition track_to_pts (avctx : AVCodecContext) (n : Z) : Z :=
  let t := timebase_of avctx in
  if (num t =? 0) || (den t =? 0) then int64 (n * 1000000)
  else Z.quot (int64 (n * den t)) (num t).

(** [pts_to_track]; the result is cast to [unsigned int]. *)
Definition pts_to_track (avctx : AVCodecContext) (pts : Z) : Z :=
  let t := timebase_of avctx in
  uint32 (if (num t =? 0) || (den t =? 0) then Z.quot pts 1000000
          else Z.quot (int64 (pts * num t)) (den t)).

(** What the calls made by one [v4l2_receive_frame] give back; the
    functions called are not among the sources. *)
Record ReceiveCalls : Type := mkReceiveCalls {
  get_packet_ret : Z;          (* ff_decode_get_packet(avctx, &avpkt) *)
  get_packet_pkt : AVPacket;   (*   and the packet it fills in *)
  enqueue_packet_ret : Z;      (* ff_v4l2_context_enqueue_packet(output, &avpkt, ..) *)
  try_start_ret : Z;           (* v4l2_try_start(avctx) *)
  dequeue_frame_ret : Z;       (* ff_v4l2_context_dequeue_frame(capture, frame, -1) *)
  dequeue_frame_out : AVFrame  (*   and the frame as the call leaves it *)
}.

Section V4L2Dec.
(** [FF_V4L2_M2M_TRACK_SIZE] of v4l2_m2m.h, [AV_NOPTS_VALUE] of
    libavutil/avutil.h and the error codes [AVERROR_EOF],
    [AVERROR(EAGAIN)] and [AVERROR(ENOMEM)] are not among the sources and
    are parameters here. *)
Variable FF_V4L2_M2M_TRACK_SIZE : Z.
Variable AV_NOPTS_VALUE : Z.
Variables AVERROR_EOF AVERROR_EAGAIN AVERROR_ENOMEM : Z.

(** [if (++s->track_no == 0) s->track_no = 1]. *)
Definition next_track_no (track_no : Z) : Z :=
  let n := uint32 (track_no + 1) in
  if n =? 0 then 1 else n.

Definition el_at (els : list V4L2m2mTrackEl) (n : Z) : V4L2m2mTrackEl :=
  nth (Z.to_nat n) els (mkTrackEl 0 0 0).

(** The packet of the call and the bookkeeping for a new one: the first
    part of [v4l2_receive_frame], up to [if (ret) goto dequeue].  The
    result is [inl ret] for [return ret] and [inr (ret, avpkt, s)]
    otherwise.  [av_packet_move_ref] leaves [s->buf_pkt] empty. *)
Definition receive_packet (avctx : AVCodecContext) (k : ReceiveCalls)
    (s : V4L2m2mContext) : Z + Z * AVPacket * V4L2m2mContext :=
  if negb (avpkt_size (buf_pkt s) =? 0) then
    inr (0, buf_pkt s,
         mkV4L2m2mContext (mkAVPacket 0 AV_NOPTS_VALUE AV_NOPTS_VALUE) (track_no s)
           (last_pkt_dts s) (last_opaque s) (track_els s) (extdata_sent s))
  else
    let ret := get_packet_ret k in
    if (ret <? 0) && negb (ret =? AVERROR_EOF) && negb (ret =? AVERROR_EAGAIN) then
      inl ret
    else if ret =? 0 then
      let avpkt := get_packet_pkt k in
      let track_no := next_track_no (track_no s) in
      let track_pts := track_to_pts avctx track_no in
      inr (ret, mkAVPacket (avpkt_size avpkt) track_pts (avpkt_dts avpkt),
           mkV4L2m2mContext (buf_pkt s) track_no (avpkt_dts avpkt) (last_opaque s)
             (<[Z.to_nat (track_no mod FF_V4L2_M2M_TRACK_SIZE) :=
                  mkTrackEl (avpkt_pts avpkt) (reordered_opaque avctx) track_pts]>
                (track_els s))
             (extdata_sent s))
    else inr (ret, mkAVPacket 0 0 0, s).

(** From the enqueue to the label [dequeue]: [(Some ret, s)] for
    [return ret], [(None, s)] when control reaches [dequeue]. *)
Definition send_packet (k : ReceiveCalls) (avpkt : AVPacket) (s : V4L2m2mContext)
    : option Z * V4L2m2mContext :=
  let ret := enqueue_packet_ret k in
  let s := mkV4L2m2mContext (buf_pkt s) (track_no s) (last_pkt_dts s) (last_opaque s)
             (track_els s) 1 in
  if (ret <? 0) && negb (ret =? AVERROR_EAGAIN) then (Some ret, s)
  else
    let s :=
      if ret <? 0
      then mkV4L2m2mContext avpkt (track_no s) (last_pkt_dts s) (last_opaque s)
             (track_els s) (extdata_sent s)
      else s in
    if negb (avpkt_size avpkt =? 0) then
      let ret := try_start_ret k in
      if negb (ret =? 0) then
        if ret =? AVERROR_ENOMEM then (Some ret, s) else (Some 0, s)
      else (None, s)
    else (None, s).

(** From the label [dequeue] to the end. *)
Definition dequeue_frame (avctx : AVCodecContext) (k : ReceiveCalls)
    (s : V4L2m2mContext) : Z * AVFrame * V4L2m2mContext :=
  let ret := dequeue_frame_ret k in
  let frame := dequeue_frame_out k in
  if ret =? 0 then
    let n := pts_to_track avctx (frame_pts frame) mod FF_V4L2_M2M_TRACK_SIZE in
    if (frame_pts frame =? AV_NOPTS_VALUE) ||
       negb (frame_pts frame =? el_track_pts (el_at (track_els s) n))
    then
      (ret, mkAVFrame AV_NOPTS_VALUE AV_NOPTS_VALUE (last_pkt_dts s) (last_opaque s), s)
    else
      let el := el_at (track_els s) n in
      (ret,
       mkAVFrame (el_pts el) (el_pts el) (last_pkt_dts s) (el_opaque_reorder el),
       mkV4L2m2mContext (buf_pkt s) (track_no s) (last_pkt_dts s) (el_opaque_reorder el)
         (<[Z.to_nat n := mkTrackEl AV_NOPTS_VALUE (el_opaque_reorder el) (el_track_pts el)]>
            (track_els s))
         (extdata_sent s))
  else (ret, frame, s).

(** [v4l2_receive_frame]: the value returned, the frame and the context
    on return; on the early returns the caller's frame is untouched. *)
Definition v4l2_receive_frame (avctx : AVCodecContext) (k : ReceiveCalls)
    (s : V4L2m2mContext) (frame : AVFrame) : Z * AVFrame * V4L2m2mContext :=
  match receive_packet avctx k s with
  | inl ret => (ret, frame, s)
  | inr (ret, avpkt, s1) =>
      if negb (ret =? 0) then dequeue_frame avctx k s1
      else
        match send_packet k avpkt s1 with
        | (Some ret, s2) => (ret, frame, s2)
        | (None, s2) => dequeue_frame avctx k s2
        end
  end.

End V4L2Dec.

(** * Context-coded and bypass bins *)

(** [m] decodes bypass bins only: it passes no context to the engine. *)
Definition bypass_only {A : Type} (m : Dec A) : Prop :=
  forall c, ctx_trace (snd (m c)) = ctx_trace c.

(** [m] decodes at most [N] context-coded bins, each with a context of
    the syntax element [e]. *)
Definition ctx_bins (e : SyntaxElement) (N : nat) {A : Type} (m : Dec A) : Prop :=
  forall c, exists new,
    ctx_trace (snd (m c)) = new ++ ctx_trace c /\
    Forall (elem_range e) new /\ (length new <= N)%nat.

(** [m] decodes at most [N1] bins with contexts of [e1] and then at most
    [N2] with contexts of [e2]. *)
Definition ctx_bins2 (e1 : SyntaxElement) (N1 : nat) (e2 : SyntaxElement) (N2 : nat)
    {A : Type} (m : Dec A) : Prop :=
  forall c, exists n1 n2,
    ctx_trace (snd (m c)) = n2 ++ n1 ++ ctx_trace c /\
    Forall (elem_range e1) n1 /\ (length n1 <= N1)%nat /\
    Forall (elem_range e2) n2 /\ (length n2 <= N2)%nat.

(** * Lemmas *)

(** ** Arrays *)

Lemma length_zset (l : list Z) i v : length (zset l i v) = length l.
Proof. unfold zset. apply length_insert. Qed.

Lemma zth_zset_eq (l : list Z) i v :
  0 <= i -> (Z.to_nat i < length l)%nat -> (zset l i v).[i] = v.
Proof.
  intros Hi Hl. unfold zth, zset.
  rewrite nth_lookup, list_lookup_insert_eq by exact Hl. reflexivity.
Qed.

Lemma zth_zset_ne (l : list Z) i j v :
  0 <= i -> 0 <= j -> i <> j -> (zset l i v).[j] = l.[j].
Proof.
  intros Hi Hj Hne. unfold zth, zset.
  rewrite !nth_lookup, list_lookup_insert_ne; [reflexivity | lia].
Qed.

Lemma zth_zset_cases (l : list Z) i j v :
  0 <= i -> 0 <= j ->
  (zset l i v).[j] = if (i =? j) && (j <? Z.of_nat (length l)) then v else l.[j].
Proof.
  intros Hi Hj. destruct (Z.eqb_spec i j) as [->|Hne]; simpl.
  - destruct (Z.ltb_spec j (Z.of_nat (length l))).
    + apply zth_zset_eq; lia.
    + unfold zth, zset. rewrite list_insert_ge by lia. reflexivity.
  - apply zth_zset_ne; assumption.
Qed.

Lemma zth_overflow (l : list Z) i : Z.of_nat (length l) <= i -> l.[i] = 0.
Proof. intros H. unfold zth. apply nth_overflow. lia. Qed.

Lemma Forall_zset (P : Z -> Prop) (l : list Z) i v :
  Forall P l -> P v -> Forall P (zset l i v).
Proof.
  intros Hl Hv. unfold zset. revert l Hl. generalize (Z.to_nat i) as n.
  induction n as [|n IH]; intros [|x l] Hl; simpl; try constructor;
    inversion Hl; subst; auto.
Qed.

(** ** Loops *)


Lemma for_loop_zset_length n i (f : Z -> list Z -> Z) l :
  length (for_loop n i (fun j t => zset t j (f j t)) l) = length l.
Proof.
  revert i l. induction n as [|n IH]; intros i l; simpl; [reflexivity|].
  rewrite IH. apply length_zset.
Qed.

(** A loop that stores [f j] at index [j] leaves [f j] there. *)
Lemma for_loop_zset_zth n i (f : Z -> Z) l j :
  0 <= i -> i <= j < i + Z.of_nat n -> j < Z.of_nat (length l) ->
  (for_loop n i (fun k t => zset t k (f k)) l).[j] = f j.
Proof.
  revert i l. induction n as [|n IH]; intros i l Hi Hj Hl; simpl; [lia|].
  destruct (Z.eq_dec i j) as [->|Hne].
  - clear IH. 
    assert (Hkeep : forall m k t, j < k -> 0 <= j ->
              (for_loop m k (fun k t => zset t k (f k)) t).[j] = t.[j]).
    { induction m as [|m IHm]; intros k t Hk Hj0; simpl; [reflexivity|].
      rewrite IHm by lia. apply zth_zset_ne; lia. }
    rewrite Hkeep by lia. apply zth_zset_eq; lia.
  - apply IH; [lia | lia | rewrite length_zset; exact Hl].
Qed.

Lemma for_loop_zset_keep n i (f : Z -> list Z -> Z) l j :
  0 <= i -> 0 <= j -> (j < i \/ i + Z.of_nat n <= j) ->
  (for_loop n i (fun k t => zset t k (f k t)) l).[j] = l.[j].
Proof.
  revert i l. induction n as [|n IH]; intros i l Hi Hj Hout; simpl; [reflexivity|].
  rewrite IH by lia. apply zth_zset_ne; lia.
Qed.

(** ** Machine integers *)

Lemma uint8_small z : 0 <= z < 256 -> uint8 z = z.
Proof. intros H. unfold uint8. apply Z.mod_small. exact H. Qed.


Lemma int16_small z : -32768 <= z <= 32767 -> int16 z = z.
Proof. intros H. unfold int16. rewrite Z.mod_small; lia. Qed.


Lemma int32_small z : - 2 ^ 31 <= z < 2 ^ 31 -> int32 z = z.
Proof. intros H. unfold int32. rewrite Z.mod_small; lia. Qed.

Lemma uint32_small z : 0 <= z < 2 ^ 32 -> uint32 z = z.
Proof. intros H. unfold uint32. apply Z.mod_small. exact H. Qed.

Lemma uint32_range z : 0 <= uint32 z < 2 ^ 32.
Proof. unfold uint32. apply Z.mod_pos_bound. lia. Qed.


Lemma int32_range z : - 2 ^ 31 <= int32 z < 2 ^ 31.
Proof. unfold int32. pose proof (Z.mod_pos_bound (z + 2 ^ 31) (2 ^ 32)). lia. Qed.

Lemma av_clip_range a lo hi : lo <= hi -> lo <= av_clip a lo hi <= hi.
Proof.
  intros H. unfold av_clip.
  destruct (Z.ltb_spec a lo); [lia|]. destruct (Z.gtb_spec a hi); lia.
Qed.

(** [pre ^= pre >> 31] is the bitwise complement of a negative [pre]. *)
Lemma lxor_sign_mask pre :
  - 2 ^ 31 <= pre < 2 ^ 31 ->
  Z.lxor pre (pre ≫ 31) = if pre <? 0 then - pre - 1 else pre.
Proof.
  intros H. rewrite Z.shiftr_div_pow2 by lia.
  destruct (Z.ltb_spec pre 0).
  - replace (pre / 2 ^ 31) with (-1) by (apply Z.div_unique with (r := pre + 2 ^ 31); lia).
    rewrite Z.lxor_m1_r. unfold Z.lnot. lia.
  - rewrite Z.div_small by lia. apply Z.lxor_0_r.
Qed.

Lemma Zland_1_range z : 0 <= Z.land z 1 <= 1.
Proof.
  replace (Z.land z 1) with (z mod 2).
  - pose proof (Z.mod_pos_bound z 2). lia.
  - change 1 with (Z.ones 1). rewrite Z.land_ones by lia. reflexivity.
Qed.

(** ** Context initialisation *)

Lemma init_values_bytes :
  forallb (forallb (fun v => (0 <=? v) && (v <=? 255))) init_values = true.
Proof. vm_compute. reflexivity. Qed.

Lemma nth_forallb {A : Type} (p : A -> bool) (l : list A) (d : A) n :
  forallb p l = true -> p d = true -> p (nth n l d) = true.
Proof.
  revert n. induction l as [|x l IH]; intros [|n] Hl Hd; simpl in *; auto;
    apply andb_prop in Hl as [Hx Hl]; auto.
Qed.

Lemma init_value_at_byte t i : 0 <= init_value_at t i <= 255.
Proof.
  unfold init_value_at, zth.
  set (p := fun v => (0 <=? v) && (v <=? 255)).
  assert (Hrow : forallb p (nth (Z.to_nat t) init_values []) = true).
  { apply (nth_forallb (forallb p)); [exact init_values_bytes | reflexivity]. }
  pose proof (nth_forallb p _ 0 (Z.to_nat i) Hrow eq_refl) as H.
  unfold p in H. lia.
Qed.

Lemma init_type_of_cases st flag :
  init_type_of st flag =
  match st with
  | I_SLICE => 0
  | P_SLICE => if flag then 2 else 1
  | B_SLICE => if flag then 1 else 2
  end.
Proof. destruct st, flag; reflexivity. Qed.

Lemma init_state_value_formula init_value slice_qp :
  0 <= init_value <= 255 ->
  init_state_value init_value slice_qp =
  let m := (init_value ≫ 4) * 5 - 45 in
  let n := ((Z.land init_value 15) ≪ 3) - 16 in
  let pre := 2 * (((m * av_clip slice_qp 0 51) ≫ 4) + n) - 127 in
  let pre := if pre <? 0 then - pre - 1 else pre in
  if pre >? 124 then 124 + Z.land pre 1 else pre.
Proof.
  intros Hv. unfold init_state_value. cbv zeta.
  set (m := (init_value ≫ 4) * 5 - 45).
  set (n := (Z.land init_value 15 ≪ 3) - 16).
  set (q := av_clip slice_qp 0 51).
  assert (Hq : 0 <= q <= 51) by (apply av_clip_range; lia).
  assert (Hm : -45 <= m <= 30).
  { unfold m. rewrite Z.shiftr_div_pow2 by lia.
    assert (0 <= init_value / 2 ^ 4 <= 15); [|lia].
    split; [apply Z.div_pos; lia|]. apply Z.lt_succ_r, Z.div_lt_upper_bound; lia. }
  assert (Hn : -16 <= n <= 104).
  { unfold n. rewrite Z.shiftl_mul_pow2 by lia.
    change 15 with (Z.ones 4). rewrite Z.land_ones by lia.
    change (2 ^ 4) with 16. change (2 ^ 3) with 8.
    pose proof (Z.mod_pos_bound init_value 16). lia. }
  set (x := (m * q) ≫ 4).
  assert (Hx : -144 <= x <= 96).
  { unfold x. rewrite Z.shiftr_div_pow2 by lia.
    assert (-2295 <= m * q <= 1530) by nia.
    split; [apply Z.div_le_lower_bound; lia|].
    apply Z.lt_succ_r, Z.div_lt_upper_bound; lia. }
  rewrite lxor_sign_mask by lia.
  set (pre := 2 * (x + n) - 127).
  assert (Hp : -447 <= pre <= 273) by (unfold pre; lia).
  apply uint8_small.
  pose proof (Zland_1_range (if pre <? 0 then - pre - 1 else pre)).
  destruct (pre <? 0) eqn:E; [apply Z.ltb_lt in E | apply Z.ltb_ge in E];
    match goal with |- context [?a >? 124] => destruct (Z.gtb_spec a 124) end; lia.
Qed.

Lemma cabac_init_state_zth st flag qp t i :
  length (cabac_state t) = Z.to_nat HEVC_CONTEXTS -> 0 <= i < HEVC_CONTEXTS ->
  (cabac_state (cabac_init_state st flag qp t)).[i] =
  init_state_value (init_value_at (init_type_of st flag) i) qp.
Proof.
  intros Hl Hi. unfold cabac_init_state. cbn [cabac_state].
  rewrite (for_loop_zset_zth _ 0
             (fun k => init_state_value (init_value_at (init_type_of st flag) k) qp));
    [reflexivity | lia | lia | lia].
Qed.

Lemma cabac_init_state_stat_coeff st flag qp t i :
  length (stat_coeff t) = 4%nat -> 0 <= i < 4 ->
  (stat_coeff (cabac_init_state st flag qp t)).[i] = 0.
Proof.
  intros Hl Hi. unfold cabac_init_state. cbn [stat_coeff].
  rewrite (for_loop_zset_zth 4 0 (fun _ => 0)); [reflexivity | lia | lia | lia].
Qed.

(** ** trans_scale_sat *)


Lemma round_shift P sh :
  0 <= sh -> (P / 2 ^ sh + 1) / 2 = (P + 2 ^ sh) / 2 ^ (sh + 1).
Proof.
  intros Hs. assert (0 < 2 ^ sh) by (apply Z.pow_pos_nonneg; lia).
  rewrite Z.pow_add_r by lia. change (2 ^ 1) with 2.
  rewrite <- Z.div_div by lia. f_equal.
  replace (P + 2 ^ sh) with (P + 1 * 2 ^ sh) by lia.
  rewrite Z.div_add by lia. reflexivity.
Qed.

(** The level after scaling and the two shifts, before the clip. *)
Lemma trans_coeff_level_rounded level scale scale_m shift :
  0 <= shift -> 0 <= scale < 2 ^ 32 -> 0 <= scale_m < 2 ^ 32 ->
  scale * scale_m < 2 ^ 31 ->
  - 2 ^ 31 <= level * (scale * scale_m) < 2 ^ 31 - 1 ->
  int32 (int32 (int32 (level * int32 (uint32 (uint32 scale * uint32 scale_m))) ≫ shift) + 1)
    ≫ 1 =
  (level * scale * scale_m + 2 ^ shift) / 2 ^ (shift + 1).
Proof.
  intros Hs Hsc Hm Hsm HP.
  change (2 ^ 31) with 2147483648 in *. change (2 ^ 32) with 4294967296 in *.
  rewrite (uint32_small scale) by (change (2 ^ 32) with 4294967296; lia).
  rewrite (uint32_small scale_m) by (change (2 ^ 32) with 4294967296; lia).
  rewrite uint32_small by (change (2 ^ 32) with 4294967296; nia).
  rewrite (int32_small (scale * scale_m)) by (change (2 ^ 31) with 2147483648; nia).
  set (P := level * (scale * scale_m)) in *.
  rewrite (int32_small P) by (change (2 ^ 31) with 2147483648; lia).
  rewrite (Z.shiftr_div_pow2 P shift) by exact Hs.
  assert (Hp : 0 < 2 ^ shift) by (apply Z.pow_pos_nonneg; lia).
  assert (Hq : -2147483648 <= P / 2 ^ shift < 2147483647).
  { split.
    - apply Z.div_le_lower_bound; [lia|]. nia.
    - apply Z.div_lt_upper_bound; [lia|]. nia. }
  rewrite (int32_small (P / 2 ^ shift)) by (change (2 ^ 31) with 2147483648; lia).
  rewrite (int32_small (P / 2 ^ shift + 1)) by (change (2 ^ 31) with 2147483648; lia).
  rewrite Z.shiftr_div_pow2 by lia. change (2 ^ 1) with 2.
  rewrite round_shift by exact Hs.
  replace (level * scale * scale_m) with P by (unfold P; ring).
  reflexivity.
Qed.

Lemma trans_scale_sat_bypass level :
  in_int16 level -> trans_scale_sat level 2 1 0 = level.
Proof.
  unfold in_int16. intros H. unfold trans_scale_sat.
  change (uint32 (uint32 2 * uint32 1)) with 2. change (int32 2) with 2.
  rewrite (int32_small (level * 2)) by lia.
  rewrite Z.shiftr_0_r. rewrite (int32_small (level * 2)) by lia.
  rewrite (int32_small (level * 2 + 1)) by lia.
  replace ((level * 2 + 1) ≫ 1) with level.
  - cbv zeta. destruct (Z.ltb_spec level (-32768)); [lia|].
    destruct (Z.gtb_spec level 32767); lia.
  - rewrite Z.shiftr_div_pow2 by lia.
    apply Z.div_unique with (r := 1); lia.
Qed.

(** ** Hoare rules of the decoding monad *)

Lemma triple_ret {A : Type} (P : CABACContext -> Prop) (a : A) Q :
  (forall c, P c -> Q a c) -> triple P (ret a) Q.
Proof. intros H c Hc. simpl. auto. Qed.

Lemma triple_bind {A B : Type} P (m : Dec A) (f : A -> Dec B) R Q :
  triple P m R -> (forall a, triple (R a) (f a) Q) -> triple P (bind m f) Q.
Proof.
  intros Hm Hf c Hc. unfold bind. specialize (Hm c Hc).
  destruct (m c) as [a c']. simpl in Hm. apply Hf. exact Hm.
Qed.

Lemma triple_conseq {A : Type} (P P' : CABACContext -> Prop) (m : Dec A) Q Q' :
  triple P' m Q' -> (forall c, P c -> P' c) -> (forall a c, Q' a c -> Q a c) ->
  triple P m Q.
Proof. intros Hm HP HQ c Hc. apply HQ, Hm, HP, Hc. Qed.

Lemma keeps_ctx_ret {A : Type} (a : A) (Q : A -> Prop) : Q a -> keeps_ctx (ret a) Q.
Proof. intros H. apply triple_ret. auto. Qed.

Lemma keeps_ctx_bind {A B : Type} (m : Dec A) (f : A -> Dec B) (R : A -> Prop) Q :
  keeps_ctx m R -> (forall a, R a -> keeps_ctx (f a) Q) -> keeps_ctx (bind m f) Q.
Proof.
  intros Hm Hf. eapply triple_bind; [exact Hm|].
  intros a c [Ha Hc]. apply (Hf a Ha c Hc).
Qed.

Lemma keeps_ctx_weaken {A : Type} (m : Dec A) (Q Q' : A -> Prop) :
  keeps_ctx m Q -> (forall a, Q a -> Q' a) -> keeps_ctx m Q'.
Proof. intros Hm H c Hc. destruct (Hm c Hc). auto. Qed.

Lemma always_ret {A : Type} (a : A) (Q : A -> Prop) : Q a -> always (ret a) Q.
Proof. intros H. apply triple_ret. auto. Qed.

Lemma always_bind {A B : Type} (m : Dec A) (f : A -> Dec B) Q :
  (forall a, always (f a) Q) -> always (bind m f) Q.
Proof.
  intros Hf. apply triple_bind with (R := fun _ _ => True).
  - intros c _. exact I.
  - exact Hf.
Qed.

Lemma always_bind_with {A B : Type} (m : Dec A) (f : A -> Dec B) (R : A -> Prop) Q :
  always m R -> (forall a, R a -> always (f a) Q) -> always (bind m f) Q.
Proof.
  intros Hm Hf c _. unfold bind. specialize (Hm c I).
  destruct (m c) as [a c']. simpl in Hm. apply (Hf a Hm c' I).
Qed.

(** *** The engine primitives *)

Lemma next_bin_is_bit c : is_bit (fst (next_bin c)).
Proof. unfold next_bin. destruct (bins c) as [|[] r]; simpl; [left|right|left]; reflexivity. Qed.

Lemma keeps_ctx_get_cabac ctx :
  0 <= ctx < CONTEXTS_LAID_OUT -> keeps_ctx (get_cabac ctx) is_bit.
Proof.
  intros H c Hc. unfold get_cabac. pose proof (next_bin_is_bit c).
  destruct (next_bin c) as [b r]. simpl in *. split; [assumption|].
  constructor; assumption.
Qed.

Lemma keeps_ctx_bypass : keeps_ctx get_cabac_bypass is_bit.
Proof.
  intros c Hc. unfold get_cabac_bypass. pose proof (next_bin_is_bit c).
  destruct (next_bin c) as [b r]. simpl in *. split; assumption.
Qed.

Lemma keeps_ctx_bypass_sign v : keeps_ctx (get_cabac_bypass_sign v) (fun _ => True).
Proof.
  unfold get_cabac_bypass_sign. eapply keeps_ctx_bind; [apply keeps_ctx_bypass|].
  intros b _. apply keeps_ctx_ret. exact I.
Qed.

Lemma keeps_ctx_av_log k : keeps_ctx (av_log_CABAC_MAX_BIN k) (fun _ => True).
Proof. intros c Hc. split; [exact I | exact Hc]. Qed.

Lemma keeps_ctx_bypeek22 : keeps_ctx get_alt1cabac_bypeek22 (fun _ => True).
Proof. intros c Hc. split; [exact I | exact Hc]. Qed.

Lemma keeps_ctx_byflush22 n : keeps_ctx (get_alt1cabac_byflush22 n) (fun _ => True).
Proof. intros c Hc. split; [exact I | exact Hc]. Qed.

Ltac ctx_step :=
  match goal with
  | |- keeps_ctx (ret _) _ => apply keeps_ctx_ret
  | |- keeps_ctx (bind get_cabac_bypass _) _ =>
      eapply keeps_ctx_bind; [apply keeps_ctx_bypass | intros ? ?]
  | |- keeps_ctx (bind (get_cabac _) _) _ =>
      eapply keeps_ctx_bind; [apply keeps_ctx_get_cabac | intros ? ?]
  | |- keeps_ctx (bind (av_log_CABAC_MAX_BIN _) _) _ =>
      eapply keeps_ctx_bind; [apply keeps_ctx_av_log | intros ? _]
  | |- keeps_ctx (bind get_alt1cabac_bypeek22 _) _ =>
      eapply keeps_ctx_bind; [apply keeps_ctx_bypeek22 | intros ? _]
  | |- keeps_ctx (bind (get_alt1cabac_byflush22 _) _) _ =>
      eapply keeps_ctx_bind; [apply keeps_ctx_byflush22 | intros ? _]
  | |- keeps_ctx (if ?b then _ else _) _ => destruct b
  | |- keeps_ctx (get_cabac_bypass_sign _) _ =>
      eapply keeps_ctx_weaken; [apply keeps_ctx_bypass_sign | intros; exact I]
  end.

(** *** Bypass-coded decoders *)

Lemma keeps_ctx_unary_bypass n k : keeps_ctx (unary_bypass n k) (fun _ => True).
Proof.
  revert k. induction n as [|n IH]; intros k; simpl; repeat ctx_step; auto.
  all: try apply IH.
Qed.

Lemma keeps_ctx_read_suffix n v : keeps_ctx (read_suffix n v) (fun _ => True).
Proof.
  revert v. induction n as [|n IH]; intros v; simpl; repeat ctx_step; auto.
  all: try apply IH.
Qed.

Lemma keeps_ctx_remaining rice :
  keeps_ctx (coeff_abs_level_remaining_decode rice) (fun _ => True).
Proof.
  unfold coeff_abs_level_remaining_decode.
  eapply keeps_ctx_bind; [apply keeps_ctx_unary_bypass|]. intros prefix _.
  repeat ctx_step; auto;
    (eapply keeps_ctx_bind; [apply keeps_ctx_read_suffix|]; intros ? _;
     apply keeps_ctx_ret; exact I).
Qed.

Lemma keeps_ctx_remaining_alt1 rice :
  keeps_ctx (coeff_abs_level_remaining_decode_alt1 rice) (fun _ => True).
Proof.
  unfold coeff_abs_level_remaining_decode_alt1. repeat ctx_step; auto.
Qed.

Lemma keeps_ctx_sign_alt1 nb : keeps_ctx (coeff_sign_flag_decode_alt1 nb) (fun _ => True).
Proof. unfold coeff_sign_flag_decode_alt1. repeat ctx_step; auto. Qed.

Lemma keeps_ctx_mvd_prefix n r k : keeps_ctx (mvd_prefix n r k) (fun _ => True).
Proof.
  revert r k. induction n as [|n IH]; intros r k; simpl; repeat ctx_step; auto.
  all: try apply IH.
Qed.

Lemma keeps_ctx_mvd_suffix n r : keeps_ctx (mvd_suffix n r) (fun _ => True).
Proof.
  revert r. induction n as [|n IH]; intros r; simpl; repeat ctx_step; auto.
  all: try apply IH.
Qed.

Lemma keeps_ctx_mvd_decode : keeps_ctx mvd_decode (fun _ => True).
Proof.
  unfold mvd_decode.
  eapply keeps_ctx_bind; [apply keeps_ctx_mvd_prefix|]. intros [r k] _.
  repeat ctx_step; auto.
  eapply keeps_ctx_bind; [apply keeps_ctx_mvd_suffix|]. intros ? _.
  ctx_step.
Qed.

Lemma keeps_ctx_mvd_component v : keeps_ctx (mvd_component v) (fun _ => True).
Proof.
  unfold mvd_component, mvd_sign_flag_decode. repeat ctx_step; auto.
  apply keeps_ctx_mvd_decode.
Qed.

Lemma keeps_ctx_abs_mvd_flags :
  keeps_ctx abs_mvd_greater0_flag_decode is_bit /\
  keeps_ctx abs_mvd_greater1_flag_decode is_bit.
Proof.
  unfold abs_mvd_greater0_flag_decode, abs_mvd_greater1_flag_decode.
  change (elem_offset ABS_MVD_GREATER0_FLAG) with 31.
  change (elem_offset ABS_MVD_GREATER1_FLAG) with 33.
  split; apply keeps_ctx_get_cabac; unfold CONTEXTS_LAID_OUT; lia.
Qed.

Lemma keeps_ctx_mvd_coding : keeps_ctx ff_hevc_hls_mvd_coding (fun _ => True).
Proof.
  destruct keeps_ctx_abs_mvd_flags as [H0 H1].
  assert (Hg : forall v, keeps_ctx
            (if v =? 0 then ret v
             else bind abs_mvd_greater1_flag_decode (fun g => ret (v + g)))
            (fun _ => True)).
  { intros v. destruct (v =? 0); [apply keeps_ctx_ret; exact I|].
    eapply keeps_ctx_bind; [exact H1|]. intros; apply keeps_ctx_ret; exact I. }
  unfold ff_hevc_hls_mvd_coding.
  eapply keeps_ctx_bind; [exact H0|]. intros x _.
  eapply keeps_ctx_bind; [exact H0|]. intros y _.
  eapply keeps_ctx_bind; [apply Hg|]. intros x' _.
  eapply keeps_ctx_bind; [apply Hg|]. intros y' _.
  eapply keeps_ctx_bind; [apply keeps_ctx_mvd_component|]. intros mx _.
  eapply keeps_ctx_bind; [apply keeps_ctx_mvd_component|]. intros my _.
  apply keeps_ctx_ret. exact I.
Qed.

(** ** Context indices of the residual decoder *)

Ltac offsets :=
  change (elem_offset TRANSFORM_SKIP_FLAG) with 46 in *;
  change (elem_offset EXPLICIT_RDPCM_FLAG) with 48 in *;
  change (elem_offset EXPLICIT_RDPCM_DIR_FLAG) with 50 in *;
  change (elem_offset LAST_SIGNIFICANT_COEFF_X_PREFIX) with 52 in *;
  change (elem_offset LAST_SIGNIFICANT_COEFF_Y_PREFIX) with 70 in *;
  change (elem_offset SIGNIFICANT_COEFF_GROUP_FLAG) with 88 in *;
  change (elem_offset SIGNIFICANT_COEFF_FLAG) with 92 in *;
  change (elem_offset COEFF_ABS_LEVEL_GREATER1_FLAG) with 136 in *;
  change (elem_offset COEFF_ABS_LEVEL_GREATER2_FLAG) with 160 in *;
  change CONTEXTS_LAID_OUT with 178 in *.

Lemma b2z_range b : 0 <= b2z b <= 1.
Proof. destruct b; simpl; lia. Qed.

Lemma shiftr_range i k : 0 <= i -> 0 <= k -> 0 <= i ≫ k <= i.
Proof.
  intros Hi Hk. rewrite Z.shiftr_div_pow2 by lia.
  assert (0 < 2 ^ k) by (apply Z.pow_pos_nonneg; lia).
  split; [apply Z.div_pos; lia|].
  apply Z.div_le_upper_bound; [lia|]. nia.
Qed.

Lemma keeps_ctx_flag_decoders c_idx :
  keeps_ctx (hevc_transform_skip_flag_decode c_idx) is_bit /\
  keeps_ctx (explicit_rdpcm_flag_decode c_idx) is_bit /\
  keeps_ctx (explicit_rdpcm_dir_flag_decode c_idx) is_bit.
Proof.
  unfold hevc_transform_skip_flag_decode, explicit_rdpcm_flag_decode,
    explicit_rdpcm_dir_flag_decode.
  pose proof (b2z_range (negb (c_idx =? 0))).
  split; [|split]; apply keeps_ctx_get_cabac; offsets; lia.
Qed.

Lemma keeps_ctx_derive_dequant s L c_idx :
  keeps_ctx (derive_dequant s L c_idx) (fun _ => True).
Proof.
  unfold derive_dequant. destruct (keeps_ctx_flag_decoders c_idx) as (Hts & _ & _).
  destruct (negb (cu_transquant_bypass_flag (cu s))); [|apply keeps_ctx_ret; exact I].
  eapply keeps_ctx_bind with (R := fun _ => True).
  - destruct (_ && _); [|apply keeps_ctx_ret; exact I].
    eapply keeps_ctx_bind; [exact Hts|]. intros; apply keeps_ctx_ret; exact I.
  - intros tsb _. destruct (_ >=? _); destruct (_ && _); apply keeps_ctx_ret; exact I.
Qed.

Lemma keeps_ctx_last_prefix_loop n i base off sh :
  0 <= i -> 0 <= sh -> 0 <= base + off ->
  base + off + i + Z.of_nat n <= CONTEXTS_LAID_OUT ->
  keeps_ctx (last_prefix_loop n i base off sh) (fun _ => True).
Proof.
  revert i. induction n as [|n IH]; intros i Hi Hsh Hlo Hhi; simpl.
  - apply keeps_ctx_ret. exact I.
  - pose proof (shiftr_range i sh Hi Hsh).
    eapply keeps_ctx_bind; [apply keeps_ctx_get_cabac; lia|]. intros b _.
    destruct (b =? 0); [apply keeps_ctx_ret; exact I|]. apply IH; lia.
Qed.

Lemma keeps_ctx_last_xy_prefix c_idx L :
  2 <= L <= 5 ->
  keeps_ctx (last_significant_coeff_xy_prefix_decode c_idx L) (fun _ => True).
Proof.
  intros HL. unfold last_significant_coeff_xy_prefix_decode.
  assert (Hmax : (L ≪ 1) - 1 = 2 * L - 1) by (rewrite Z.shiftl_mul_pow2; lia).
  rewrite Hmax.
  assert (Hs1 : 0 <= (L - 1) ≫ 2 <= L - 1) by (apply shiftr_range; lia).
  assert (Hs2 : 0 <= (L + 1) ≫ 2 <= L + 1) by (apply shiftr_range; lia).
  destruct (c_idx =? 0); offsets.
  - eapply keeps_ctx_bind; [apply keeps_ctx_last_prefix_loop; offsets; lia|]. intros x _.
    eapply keeps_ctx_bind; [apply keeps_ctx_last_prefix_loop; offsets; lia|]. intros y _.
    apply keeps_ctx_ret. exact I.
  - eapply keeps_ctx_bind; [apply keeps_ctx_last_prefix_loop; offsets; lia|]. intros x _.
    eapply keeps_ctx_bind; [apply keeps_ctx_last_prefix_loop; offsets; lia|]. intros y _.
    apply keeps_ctx_ret. exact I.
Qed.

Lemma keeps_ctx_last_suffix p :
  keeps_ctx (last_significant_coeff_suffix_decode p) (fun _ => True).
Proof.
  unfold last_significant_coeff_suffix_decode.
  eapply keeps_ctx_bind; [apply keeps_ctx_bypass|]. intros v _.
  apply keeps_ctx_read_suffix.
Qed.

Lemma keeps_ctx_last_significant_coeff p :
  keeps_ctx (last_significant_coeff p) (fun _ => True).
Proof.
  unfold last_significant_coeff.
  destruct (p >? 3); [|apply keeps_ctx_ret; exact I].
  eapply keeps_ctx_bind; [apply keeps_ctx_last_suffix|].
  intros; apply keeps_ctx_ret; exact I.
Qed.

Lemma FFMIN_range a b : a <= FFMIN a b \/ b <= FFMIN a b.
Proof. unfold FFMIN. destruct (Z.gtb_spec a b); lia. Qed.

Lemma FFMIN_le a b : FFMIN a b <= a /\ FFMIN a b <= b.
Proof. unfold FFMIN. destruct (Z.gtb_spec a b); lia. Qed.

Lemma keeps_ctx_sig_group c_idx ctx_cg :
  0 <= ctx_cg ->
  keeps_ctx (significant_coeff_group_flag_decode c_idx ctx_cg) is_bit.
Proof.
  intros H. unfold significant_coeff_group_flag_decode.
  apply keeps_ctx_get_cabac. offsets.
  pose proof (FFMIN_le ctx_cg 1). pose proof (FFMIN_range ctx_cg 1).
  destruct (c_idx >? 0); lia.
Qed.

Lemma keeps_ctx_sig_idxs n state0 ctx_map lo hi :
  (forall k, lo <= ctx_map.[k] <= hi) ->
  0 <= state0 + lo -> state0 + hi < CONTEXTS_LAID_OUT ->
  keeps_ctx (get_sig_coeff_flag_idxs n state0 ctx_map)
    (Forall (fun k => 1 <= k <= Z.of_nat n)).
Proof.
  intros Hmap Hlo Hhi. induction n as [|n IH].
  - simpl. apply keeps_ctx_ret. constructor.
  - cbn [get_sig_coeff_flag_idxs].
    pose proof (Hmap (Z.of_nat (Datatypes.S n))).
    eapply keeps_ctx_bind; [apply keeps_ctx_get_cabac; lia|]. intros b _.
    eapply keeps_ctx_bind; [exact IH|]. intros r Hr.
    apply keeps_ctx_ret.
    assert (Hr' : Forall (fun k => 1 <= k <= Z.of_nat (Datatypes.S n)) r).
    { eapply List.Forall_impl; [|exact Hr]. simpl. intros; lia. }
    destruct (b =? 0); [exact Hr'|]. constructor; [lia | exact Hr'].
Qed.

(** The context maps hold values between 0 and 8. *)
Lemma nth_Forall_default {A : Type} (P : A -> Prop) (l : list A) d n :
  Forall P l -> P d -> P (nth n l d).
Proof.
  intros Hl Hd. revert n. induction Hl; intros [|n]; simpl; auto.
Qed.

Lemma zth_Forall (P : Z -> Prop) (l : list Z) k : Forall P l -> P 0 -> P l.[k].
Proof. intros. unfold zth. apply nth_Forall_default; assumption. Qed.

Lemma ctx_idx_maps_range :
  Forall (Forall (Forall (fun v => 0 <= v <= 8))) ctx_idx_maps /\
  Forall (Forall (fun v => 0 <= v <= 8)) ctx_idx_maps_ts2.
Proof. split; repeat constructor; lia. Qed.

Lemma sig_ctx_range s L scan c_idx tsb x_cg y_cg prev_sig :
  let '(scf_offset, map) := sig_ctx s L scan c_idx tsb x_cg y_cg prev_sig in
  0 <= scf_offset <= 41 /\ forall k, 0 <= map.[k] <= 8.
Proof.
  destruct ctx_idx_maps_range as [Hm Hts].
  assert (Hat : forall a b k, 0 <= (ctx_idx_map_at a b).[k] <= 8).
  { intros a b k. unfold ctx_idx_map_at.
    apply (zth_Forall (fun v => 0 <= v <= 8)); [|lia].
    apply (nth_Forall_default (Forall (fun v => 0 <= v <= 8))); [|constructor].
    apply (nth_Forall_default (Forall (Forall (fun v => 0 <= v <= 8)))); [exact Hm|constructor]. }
  assert (Hts2 : forall a k, 0 <= (nth a ctx_idx_maps_ts2 []).[k] <= 8).
  { intros a k. apply (zth_Forall (fun v => 0 <= v <= 8)); [|lia].
    apply (nth_Forall_default (Forall (fun v => 0 <= v <= 8))); [exact Hts|constructor]. }
  unfold sig_ctx.
  destruct (_ && _).
  - split; [destruct (c_idx =? 0); lia | apply Hat].
  - destruct (L =? 2); [split; [destruct (negb _); lia | apply Hts2]|].
    split; [|apply Hat].
    destruct (c_idx =? 0); simpl; destruct (L =? 3); try lia;
      destruct (_ || _); try destruct scan; lia.
Qed.

Lemma sig_ctx_dc_range s c_idx tsb i scf_offset :
  0 <= scf_offset <= 41 -> 0 <= sig_ctx_dc s c_idx tsb i scf_offset <= 43.
Proof.
  intros H. unfold sig_ctx_dc.
  destruct (_ && _); destruct (c_idx =? 0); destruct (i =? 0); lia.
Qed.

Lemma Forall_app_2 {A : Type} (P : A -> Prop) (l1 l2 : list A) :
  Forall P l1 -> Forall P l2 -> Forall P (l1 ++ l2).
Proof. intros H1 H2. apply Forall_app. split; assumption. Qed.

Lemma keeps_ctx_decode_sig_flags s L scan c_idx tsb i x_cg y_cg prev_sig n_end inz idxs :
  keeps_ctx (decode_sig_flags s L scan c_idx tsb i x_cg y_cg prev_sig n_end inz idxs)
    (fun _ => True).
Proof.
  unfold decode_sig_flags.
  pose proof (sig_ctx_range s L scan c_idx tsb x_cg y_cg prev_sig) as Hsc.
  destruct (sig_ctx s L scan c_idx tsb x_cg y_cg prev_sig) as [scf map].
  destruct Hsc as [Hscf Hmap].
  eapply keeps_ctx_bind with (R := fun _ => True).
  - destruct (Z.gtb_spec n_end 0); [|apply keeps_ctx_ret; exact I].
    eapply keeps_ctx_bind;
      [apply (keeps_ctx_sig_idxs _ _ _ 0 8 Hmap); offsets; lia|].
    intros found Hf. apply keeps_ctx_ret. exact I.
  - intros [idxs' inz'] _.
    destruct (inz' =? 0); [|apply keeps_ctx_ret; exact I].
    pose proof (sig_ctx_dc_range s c_idx tsb i scf Hscf).
    unfold significant_coeff_flag_decode_0.
    eapply keeps_ctx_bind; [apply keeps_ctx_get_cabac; offsets; lia|].
    intros f _. apply keeps_ctx_ret. exact I.
Qed.

Lemma keeps_ctx_for_loopM {S : Type} n i (body : Z -> S -> Dec S) (Inv : S -> Prop) s :
  (forall j t, i <= j -> Inv t -> keeps_ctx (body j t) Inv) -> Inv s ->
  keeps_ctx (for_loopM n i body s) Inv.
Proof.
  revert i s. induction n as [|n IH]; intros i s Hb Hs; simpl.
  - apply keeps_ctx_ret. exact Hs.
  - eapply keeps_ctx_bind; [apply Hb; [lia | exact Hs]|]. intros s' Hs'.
    apply IH; [|exact Hs']. intros j t Hj. apply Hb. lia.
Qed.

Lemma keeps_ctx_greaterx n_end levels state0 state_gt2 :
  0 <= state0 -> state0 + 3 < CONTEXTS_LAID_OUT ->
  0 <= state_gt2 < CONTEXTS_LAID_OUT ->
  keeps_ctx (get_greaterx_bits n_end levels state0 state_gt2) (fun _ => True).
Proof.
  intros H0 H3 Hg. unfold get_greaterx_bits.
  eapply keeps_ctx_bind with (R := fun _ => True).
  - apply keeps_ctx_for_loopM with (Inv := fun _ : Z * list Z => True); [|exact I].
    intros j [rv lv] Hj _.
    eapply keeps_ctx_bind.
    + apply keeps_ctx_get_cabac.
      destruct (negb (rv =? 0)); [lia|]. destruct (Z.ltb_spec j 3); lia.
    + intros b _. apply keeps_ctx_ret. exact I.
  - intros [rv lv] _.
    eapply keeps_ctx_bind with (R := fun _ => True).
    + destruct (negb _); [|apply keeps_ctx_ret; exact I].
      eapply keeps_ctx_bind; [apply keeps_ctx_get_cabac; exact Hg|].
      intros g _. destruct (g =? 0); apply keeps_ctx_ret; exact I.
    + intros [[[rv' lv'] p] e] _. destruct (n_end >? 8); apply keeps_ctx_ret; exact I.
Qed.

Lemma keeps_ctx_remaining_step pers r :
  keeps_ctx (remaining_step pers r) (fun _ => True).
Proof.
  unfold remaining_step.
  eapply keeps_ctx_bind; [apply keeps_ctx_remaining_alt1|].
  intros; apply keeps_ctx_ret; exact I.
Qed.

Lemma keeps_ctx_remaining_loop fuel pers r :
  keeps_ctx (remaining_loop fuel pers r) (fun _ => True).
Proof.
  revert r. induction fuel as [|fuel IH]; intros r; simpl.
  - apply keeps_ctx_ret. exact I.
  - eapply keeps_ctx_bind; [apply keeps_ctx_remaining_step|]. intros r' _.
    destruct (negb _); [apply IH | apply keeps_ctx_ret; exact I].
Qed.

Lemma gt_ctx_range c_idx ctx_set :
  0 <= ctx_set <= 3 ->
  let idx_delta := (if c_idx >? 0 then 4 else 0) + ctx_set in
  0 <= 136 + (idx_delta ≪ 2) /\ 136 + (idx_delta ≪ 2) + 3 < 178 /\
  0 <= 160 + idx_delta < 178.
Proof.
  intros H. cbv zeta. rewrite Z.shiftl_mul_pow2 by lia.
  destruct (c_idx >? 0); lia.
Qed.

Lemma keeps_ctx_decode_abs_levels s c_idx tsb erf ctx_set idxs stat :
  0 <= ctx_set <= 3 ->
  keeps_ctx (decode_abs_levels s c_idx tsb erf ctx_set idxs stat) (fun _ => True).
Proof.
  intros H. unfold decode_abs_levels. offsets.
  destruct (gt_ctx_range c_idx ctx_set H) as (A & B & C).
  eapply keeps_ctx_bind; [apply keeps_ctx_greaterx; offsets; lia|].
  intros [[[cv lv] p] e] _.
  eapply keeps_ctx_bind; [apply keeps_ctx_sign_alt1|]. intros fl _.
  destruct (negb (cv =? 0)); [|apply keeps_ctx_ret; exact I].
  eapply keeps_ctx_bind; [apply keeps_ctx_remaining_loop|].
  intros; apply keeps_ctx_ret; exact I.
Qed.

Lemma keeps_ctx_decode_levels s c_idx tsb erf ctx_set idxs stat :
  0 <= ctx_set <= 3 ->
  keeps_ctx (decode_levels s c_idx tsb erf ctx_set idxs stat) (fun _ => True).
Proof.
  intros H. unfold decode_levels.
  eapply keeps_ctx_bind; [apply keeps_ctx_decode_abs_levels; exact H|].
  intros [[[[[lv sa] sh] fl] p] st] _. apply keeps_ctx_ret. exact I.
Qed.

Lemma keeps_ctx_decode_single_level s c_idx tsb ctx_set stat :
  0 <= ctx_set <= 3 ->
  keeps_ctx (decode_single_level s c_idx tsb ctx_set stat) (fun _ => True).
Proof.
  intros H. unfold decode_single_level. offsets.
  destruct (gt_ctx_range c_idx ctx_set H) as (A & B & C).
  eapply keeps_ctx_bind; [apply keeps_ctx_get_cabac; offsets; lia|]. intros g1 _.
  eapply keeps_ctx_bind with (R := fun _ => True).
  { destruct (negb (g1 =? 0)); [|apply keeps_ctx_ret; exact I].
    eapply keeps_ctx_bind; [apply keeps_ctx_get_cabac; offsets; lia|].
    intros; apply keeps_ctx_ret; exact I. }
  intros [[lvl p] cv] _.
  eapply keeps_ctx_bind; [apply keeps_ctx_bypass|]. intros sg _.
  eapply keeps_ctx_bind with (R := fun _ => True).
  { destruct (negb (cv =? 0)); [|apply keeps_ctx_ret; exact I].
    destruct (negb _);
      (eapply keeps_ctx_bind; [apply keeps_ctx_remaining|];
       intros; apply keeps_ctx_ret; exact I). }
  intros [lvl' st'] _. apply keeps_ctx_ret. exact I.
Qed.


Lemma cg_flag_range g x y : cg_bits g -> 0 <= cg_flag g x y <= 1.
Proof. intros H. unfold cg_flag. apply (zth_Forall (fun v => 0 <= v <= 1)); [exact H | lia]. Qed.

Lemma cg_set_bits g x y v : cg_bits g -> 0 <= v <= 1 -> cg_bits (cg_set g x y v).
Proof. intros. unfold cg_set. apply Forall_zset; assumption. Qed.

Lemma keeps_ctx_residual_subblock s L scan c_idx tsb erf dq sc nls i st :
  cg_bits (significant_coeff_group_flag st) ->
  keeps_ctx (residual_subblock s L scan c_idx tsb erf dq sc nls i st)
    (fun st' => cg_bits (significant_coeff_group_flag st')).
Proof.
  intros Hg. unfold residual_subblock.
  set (x_cg := (scan_x_cg sc).[i]). set (y_cg := (scan_y_cg sc).[i]).
  set (g := significant_coeff_group_flag st) in *.
  eapply keeps_ctx_bind with (R := fun p => cg_bits (fst p)).
  { destruct (_ && _).
    - eapply keeps_ctx_bind.
      + apply keeps_ctx_sig_group.
        pose proof (cg_flag_range g (x_cg + 1) y_cg Hg).
        pose proof (cg_flag_range g x_cg (y_cg + 1) Hg).
        destruct (_ <? _); destruct (_ <? _); lia.
      + intros f [Hf|Hf]; apply keeps_ctx_ret; simpl; apply cg_set_bits; auto; lia.
    - apply keeps_ctx_ret. simpl. apply cg_set_bits; auto; lia. }
  intros [g' inz] Hg'. simpl in Hg'.
  destruct (i =? nls).
  - eapply keeps_ctx_bind with (R := fun _ => True).
    { destruct (_ && _); [apply keeps_ctx_decode_sig_flags | apply keeps_ctx_ret; exact I]. }
    intros idxs _.
    destruct (negb (Z.of_nat (length idxs) =? 0)); [|apply keeps_ctx_ret; exact Hg'].
    match goal with |- context [decode_single_level _ _ _ ?cs _] =>
      assert (Hcs : 0 <= cs <= 3) by
        (destruct (_ && _); match goal with |- context [b2z ?b] =>
           pose proof (b2z_range b) end; lia) end.
    destruct (_ =? 1).
    + eapply keeps_ctx_bind; [apply keeps_ctx_decode_single_level; exact Hcs|].
      intros [[a b] c] _. apply keeps_ctx_ret. exact Hg'.
    + eapply keeps_ctx_bind; [apply keeps_ctx_decode_levels; exact Hcs|].
      intros [[[a b] c] d] _. apply keeps_ctx_ret. exact Hg'.
  - eapply keeps_ctx_bind with (R := fun _ => True).
    { destruct (_ && _); [apply keeps_ctx_decode_sig_flags | apply keeps_ctx_ret; exact I]. }
    intros idxs _.
    destruct (negb (Z.of_nat (length idxs) =? 0)); [|apply keeps_ctx_ret; exact Hg'].
    match goal with |- context [decode_single_level _ _ _ ?cs _] =>
      assert (Hcs : 0 <= cs <= 3) by
        (destruct (_ && _); match goal with |- context [b2z ?b] =>
           pose proof (b2z_range b) end; lia) end.
    destruct (_ =? 1).
    + eapply keeps_ctx_bind; [apply keeps_ctx_decode_single_level; exact Hcs|].
      intros [[a b] c] _. apply keeps_ctx_ret. exact Hg'.
    + eapply keeps_ctx_bind; [apply keeps_ctx_decode_levels; exact Hcs|].
      intros [[[a b] c] d] _. apply keeps_ctx_ret. exact Hg'.
Qed.

Lemma keeps_ctx_subblock_loop n body (Inv : ResidualState -> Prop) st :
  (forall i t, Inv t -> keeps_ctx (body i t) Inv) -> Inv st ->
  keeps_ctx (subblock_loop n body st) Inv.
Proof.
  intros Hb. revert st. induction n as [|n IH]; intros st Hst; simpl.
  - apply keeps_ctx_ret. exact Hst.
  - eapply keeps_ctx_bind; [apply Hb; exact Hst|]. intros st' Hst'. apply IH. exact Hst'.
Qed.

Lemma keeps_ctx_residual_decode s L scan c_idx stat coeffs :
  2 <= L <= 5 ->
  keeps_ctx (residual_decode s L scan c_idx stat coeffs) (fun _ => True).
Proof.
  intros HL. unfold residual_decode. destruct (keeps_ctx_flag_decoders c_idx) as (_ & He & Hd).
  eapply keeps_ctx_bind; [apply keeps_ctx_derive_dequant|]. intros [tsb dq] _.
  eapply keeps_ctx_bind with (R := fun _ => True).
  { destruct (_ && _); [|apply keeps_ctx_ret; exact I].
    eapply keeps_ctx_bind; [exact He|]. intros e _.
    destruct (negb _); [|apply keeps_ctx_ret; exact I].
    eapply keeps_ctx_bind; [exact Hd|]. intros; apply keeps_ctx_ret; exact I. }
  intros [erf erd] _.
  eapply keeps_ctx_bind; [apply keeps_ctx_last_xy_prefix; exact HL|]. intros [px py] _.
  eapply keeps_ctx_bind; [apply keeps_ctx_last_significant_coeff|]. intros lx _.
  eapply keeps_ctx_bind; [apply keeps_ctx_last_significant_coeff|]. intros ly _.
  destruct scan; cbv beta iota.
  all: match goal with |- context [select_scan ?a ?b ?x ?y] =>
    generalize (select_scan a b x y) end; intros sc.
  all: eapply keeps_ctx_bind;
    [apply keeps_ctx_subblock_loop with
       (Inv := fun st => cg_bits (significant_coeff_group_flag st));
     [intros; apply keeps_ctx_residual_subblock; assumption
     | cbn [significant_coeff_group_flag]; unfold cg_bits;
       apply Forall_forall; intros v Hv; apply repeat_spec in Hv; lia]
    | intros; apply keeps_ctx_ret; exact I].
Qed.

(** ** What the subblock loop does to the coefficient buffer *)

(** A property of the loop state that every store keeps. *)
Section StoreInvariant.
Variable Inv : list Z -> list Z -> Prop.   (* coefficients, assigned offsets *)
Variables (dq : Dequant) (L x_cg y_cg : Z) (sxo syo : list Z).

Hypothesis Inv_store : forall coeffs assigned pos v,
  Inv coeffs assigned ->
  Inv (zset coeffs (t_offset_of L x_cg y_cg sxo syo pos) (int16 v))
      (t_offset_of L x_cg y_cg sxo syo pos :: assigned).
Hypothesis Inv_more : forall coeffs assigned t,
  Inv coeffs assigned -> Inv coeffs (t :: assigned).
Hypothesis Inv_perm : forall coeffs a1 a2,
  (forall t, In t a1 <-> In t a2) -> Inv coeffs a1 -> Inv coeffs a2.

Lemma Inv_app coeffs assigned ts :
  Inv coeffs assigned -> Inv coeffs (ts ++ assigned).
Proof. intros H. induction ts as [|t ts IH]; simpl; auto. Qed.

Lemma store_coeff_Inv coeffs assigned pos lvl :
  Inv coeffs assigned ->
  Inv (store_coeff dq L x_cg y_cg sxo syo pos lvl coeffs)
      (t_offset_of L x_cg y_cg sxo syo pos :: assigned).
Proof. intros H. unfold store_coeff. apply Inv_store. exact H. Qed.

Lemma store_levels_Inv idxs levels flags coeffs assigned :
  Inv coeffs assigned ->
  Inv (store_levels dq L x_cg y_cg sxo syo idxs levels flags coeffs)
      (map (t_offset_of L x_cg y_cg sxo syo) idxs ++ assigned).
Proof.
  intros H. unfold store_levels.
  set (body := fun m c => store_coeff dq L x_cg y_cg sxo syo idxs.[m]
                            (signed_level levels flags m) c).
  assert (G : forall n i c,
    Inv c (map (t_offset_of L x_cg y_cg sxo syo) idxs ++ assigned) ->
    (Z.to_nat i + n <= length idxs)%nat -> 0 <= i ->
    Inv (for_loop n i body c)
        (map (t_offset_of L x_cg y_cg sxo syo) idxs ++ assigned)).
  { induction n as [|n IH]; intros i c Hc Hn Hi; simpl; [exact Hc|].
    apply IH; [|lia|lia].
    unfold body.
    apply (Inv_perm _ (t_offset_of L x_cg y_cg sxo syo idxs.[i] ::
                       map (t_offset_of L x_cg y_cg sxo syo) idxs ++ assigned)).
    - intros t. simpl. split; [|tauto]. intros [<-|Ht]; [|exact Ht].
      apply in_or_app. left. apply in_map. unfold zth. apply nth_In. lia.
    - apply store_coeff_Inv. exact Hc. }
  apply G; [apply Inv_app; exact H | simpl; lia | lia].
Qed.
End StoreInvariant.

(** The loop state after one subblock, whatever the engine yields. *)
Lemma residual_subblock_Inv (Inv : list Z -> list Z -> Prop)
    s L scan c_idx tsb erf dq sc nls i st :
  (forall coeffs assigned pos v,
     Inv coeffs assigned ->
     let t := t_offset_of L (scan_x_cg sc).[i] (scan_y_cg sc).[i]
                (scan_x_off sc) (scan_y_off sc) pos in
     Inv (zset coeffs t (int16 v)) (t :: assigned)) ->
  (forall coeffs assigned t, Inv coeffs assigned -> Inv coeffs (t :: assigned)) ->
  (forall coeffs a1 a2, (forall t, In t a1 <-> In t a2) -> Inv coeffs a1 -> Inv coeffs a2) ->
  Inv (rs_coeffs st) (rs_assigned st) ->
  always (residual_subblock s L scan c_idx tsb erf dq sc nls i st)
    (fun st' => Inv (rs_coeffs st') (rs_assigned st')).
Proof.
  intros Hstore Hmore Hperm Hst. unfold residual_subblock.
  apply always_bind. intros [g inz].
  destruct (i =? nls).
  all: apply always_bind; intros idxs.
  all: destruct (negb (Z.of_nat (length idxs) =? 0)); [|apply always_ret; exact Hst].
  all: destruct (_ =? 1).
  all: apply always_bind.
  all: try (intros [[lvl p] stc]; apply always_ret; cbn [rs_coeffs rs_assigned];
            apply store_coeff_Inv; [exact Hstore | exact Hst]).
  all: intros [[[lv fl] p] stc]; apply always_ret; cbn [rs_coeffs rs_assigned];
       apply store_levels_Inv; [exact Hstore | exact Hmore | exact Hperm | exact Hst].
Qed.

Lemma always_subblock_loop n body (Inv : ResidualState -> Prop) st :
  (forall i t, 0 <= i -> Inv t -> always (body i t) Inv) -> Inv st ->
  always (subblock_loop n body st) Inv.
Proof.
  intros Hb. revert st. induction n as [|n IH]; intros st Hst; simpl.
  - apply always_ret. exact Hst.
  - eapply always_bind_with; [apply Hb; [lia | exact Hst]|]. intros st' Hst'.
    apply IH. exact Hst'.
Qed.

(** The decoded buffer, for an invariant that every store keeps whatever
    the position stored. *)
Lemma residual_decode_Inv (Inv : list Z -> list Z -> Prop) s L scan c_idx stat coeffs :
  (forall lx ly i coeffs assigned pos v,
     0 <= i -> Inv coeffs assigned ->
     let sc := select_scan scan L lx ly in
     let t := t_offset_of L (scan_x_cg sc).[i] (scan_y_cg sc).[i]
                (scan_x_off sc) (scan_y_off sc) pos in
     Inv (zset coeffs t (int16 v)) (t :: assigned)) ->
  (forall coeffs assigned t, Inv coeffs assigned -> Inv coeffs (t :: assigned)) ->
  (forall coeffs a1 a2, (forall t, In t a1 <-> In t a2) -> Inv coeffs a1 -> Inv coeffs a2) ->
  Inv (memset0 coeffs ((1 ≪ L) * (1 ≪ L))) [] ->
  always (residual_decode s L scan c_idx stat coeffs)
    (fun d => Inv (d_coeffs d) (d_assigned d)).
Proof.
  intros Hstore Hmore Hperm H0. unfold residual_decode.
  apply always_bind. intros [tsb dq].
  apply always_bind. intros [erf erd].
  apply always_bind. intros [px py].
  apply always_bind. intros lx.
  apply always_bind. intros ly.
  assert (G : forall lx ly,
    always
      (let sc := select_scan scan L lx ly in
       let num_last_subset := (num_coeff sc - 1) ≫ 4 in
       bind (subblock_loop (Z.to_nat (num_last_subset + 1))
               (residual_subblock s L scan c_idx tsb erf dq sc num_last_subset)
               (mkRS (repeat 0 64) 0 stat (memset0 coeffs ((1 ≪ L) * (1 ≪ L))) []))
            (fun st => ret (mkDecoded (rs_coeffs st) (rs_stat_coeff st) (rs_assigned st)
                              tsb erf erd lx ly dq)))
      (fun d => Inv (d_coeffs d) (d_assigned d))).
  { intros x y. cbv zeta.
    eapply always_bind_with.
    - apply always_subblock_loop with
        (Inv := fun st => Inv (rs_coeffs st) (rs_assigned st)); [|exact H0].
      intros i t Hi Ht. apply residual_subblock_Inv; auto.
      intros c a pos v Hc. apply Hstore; assumption.
    - intros st Hst. apply always_ret. exact Hst. }
  destruct scan; apply G.
Qed.

(** ** Saturation of the stored coefficients *)






(** ** The zeroed buffer *)

Lemma memset0_zth coeffs n p : 0 <= p < n -> (memset0 coeffs n).[p] = 0.
Proof.
  intros Hp. unfold memset0.
  destruct (Z.ltb_spec p (Z.of_nat (length coeffs))) as [Hl|Hl].
  - apply (for_loop_zset_zth (Z.to_nat n) 0 (fun _ => 0)); lia.
  - apply zth_overflow. rewrite (for_loop_zset_length _ _ (fun _ _ => 0)). exact Hl.
Qed.

Lemma memset0_keep coeffs n p : 0 <= n <= p -> (memset0 coeffs n).[p] = coeffs.[p].
Proof.
  intros Hp. unfold memset0.
  apply (for_loop_zset_keep (Z.to_nat n) 0 (fun _ _ => 0)); lia.
Qed.

Lemma scan_tables_nonneg scan L lx ly k :
  let sc := select_scan scan L lx ly in
  0 <= (scan_x_cg sc).[k] /\ 0 <= (scan_y_cg sc).[k] /\
  0 <= (scan_x_off sc).[k] /\ 0 <= (scan_y_off sc).[k].
Proof.
  assert (T : forall l, forallb (fun v => 0 <=? v) l = true -> 0 <= l.[k]).
  { intros l Hl. unfold zth.
    apply Z.leb_le.
    exact (nth_forallb (fun v => 0 <=? v) l 0 (Z.to_nat k) Hl eq_refl). }
  cbv zeta. unfold select_scan.
  destruct scan; [destruct (_ =? 4); [|destruct (_ =? 8); [|destruct (_ =? 16)]]| |];
    cbn [scan_x_cg scan_y_cg scan_x_off scan_y_off];
    repeat split; apply T; reflexivity.
Qed.

Lemma t_offset_nonneg scan L lx ly i pos :
  let sc := select_scan scan L lx ly in
  0 <= t_offset_of L (scan_x_cg sc).[i] (scan_y_cg sc).[i]
         (scan_x_off sc) (scan_y_off sc) pos.
Proof.
  cbv zeta. unfold t_offset_of.
  destruct (scan_tables_nonneg scan L lx ly i) as (A & B & _ & _).
  destruct (scan_tables_nonneg scan L lx ly pos) as (_ & _ & C & D).
  cbv zeta in *.
  assert (0 <= (scan_x_cg (select_scan scan L lx ly)).[i] ≪ 2)
    by (apply Z.shiftl_nonneg; assumption).
  assert (0 <= (scan_y_cg (select_scan scan L lx ly)).[i] ≪ 2)
    by (apply Z.shiftl_nonneg; assumption).
  match goal with |- 0 <= (?y ≪ L) + ?x =>
    assert (0 <= y ≪ L) by (apply Z.shiftl_nonneg; lia) end.
  lia.
Qed.

Lemma residual_decode_zero s L scan c_idx stat coeffs :
  always (residual_decode s L scan c_idx stat coeffs)
    (fun d => forall p, 0 <= p < (1 ≪ L) * (1 ≪ L) ->
                ~ In p (d_assigned d) -> (d_coeffs d).[p] = 0).
Proof.
  apply (residual_decode_Inv
           (fun c a => forall p, 0 <= p < (1 ≪ L) * (1 ≪ L) -> ~ In p a -> c.[p] = 0)).
  - intros lx ly i c a pos v Hi Hc. cbv zeta. intros p Hp Hn.
    pose proof (t_offset_nonneg scan L lx ly i pos) as Ht. cbv zeta in Ht.
    rewrite zth_zset_ne; [apply Hc; [exact Hp|] | exact Ht | lia |].
    + intros Hin. apply Hn. right. exact Hin.
    + intros Heq. apply Hn. left. exact Heq.
  - intros c a t Hc p Hp Hn. apply Hc; [exact Hp|]. intros Hin. apply Hn. right. exact Hin.
  - intros c a1 a2 Heq Hc p Hp Hn. apply Hc; [exact Hp|]. intros Hin. apply Hn, Heq, Hin.
  - intros p Hp _. apply memset0_zth. exact Hp.
Qed.

(** Every offset logged as assigned was stored by [store_coeff], and the
    decoded buffer does not depend on what the buffer held inside the
    block on entry. *)
Lemma residual_decode_outside s L scan c_idx stat coeffs :
  always (residual_decode s L scan c_idx stat coeffs)
    (fun d => forall p, 0 <= p -> ~ In p (d_assigned d) ->
                (d_coeffs d).[p] = (memset0 coeffs ((1 ≪ L) * (1 ≪ L))).[p]).
Proof.
  apply (residual_decode_Inv
           (fun c a => forall p, 0 <= p -> ~ In p a ->
                         c.[p] = (memset0 coeffs ((1 ≪ L) * (1 ≪ L))).[p])).
  - intros lx ly i c a pos v Hi Hc. cbv zeta. intros p Hp Hn.
    pose proof (t_offset_nonneg scan L lx ly i pos) as Ht. cbv zeta in Ht.
    rewrite zth_zset_ne; [apply Hc; [exact Hp|] | exact Ht | lia |].
    + intros Hin. apply Hn. right. exact Hin.
    + intros Heq. apply Hn. left. exact Heq.
  - intros c a t Hc p Hp Hn. apply Hc; [exact Hp|]. intros Hin. apply Hn. right. exact Hin.
  - intros c a1 a2 Heq Hc p Hp Hn. apply Hc; [exact Hp|]. intros Hin. apply Hn, Heq, Hin.
  - intros p Hp _. reflexivity.
Qed.

(** ** Unary prefixes that reach CABAC_MAX_BIN *)

Lemma firstn_repeat_cons (n : nat) (l : list bool) :
  firstn (Datatypes.S n) l = repeat true (Datatypes.S n) ->
  exists r, l = true :: r /\ firstn n r = repeat true n.
Proof.
  destruct l as [|b r]; simpl; intros H; [discriminate|].
  injection H as -> H. exists r. split; [reflexivity | exact H].
Qed.








(** ** Decoders that log nothing *)
















(** ** The peeking decoder on a prefix of 22 or more 1 bins *)




(** ** Rice parameter and stat_coeff in the remainder loop *)

Lemma FFMIN_min a b : FFMIN a b = Z.min a b.
Proof. unfold FFMIN. destruct (Z.gtb_spec a b); lia. Qed.

Lemma next_rice_param_cases pers k level :
  next_rice_param pers k level =
  if level >? (3 ≪ k) then (if pers then k + 1 else Z.min (k + 1) 4) else k.
Proof. unfold next_rice_param. rewrite FFMIN_min. reflexivity. Qed.

Lemma next_rice_param_mono pers k level :
  (pers = true -> k <= next_rice_param pers k level <= k + 1) /\
  (pers = false -> k <= 4 -> k <= next_rice_param pers k level <= 4).
Proof.
  rewrite next_rice_param_cases.
  destruct (level >? 3 ≪ k), pers; split; intros; try discriminate; lia.
Qed.

(** One pass, in terms of the remainder it decodes. *)
Lemma remaining_step_eq pers r c :
  let k := rm_c_rice_param r in
  let rem := fst (coeff_abs_level_remaining_decode_alt1 k c) in
  let z := clz32 (rm_coded_vals r) + 1 in
  let p := rm_level r + z in
  let level := int32 ((rm_levels r).[p] + rem) in
  remaining_step pers r c =
  (mkRem (uint32 (rm_coded_vals r ≪ z)) p (next_rice_param pers k level) None
     (match rm_stat_ptr r with
      | Some q => zset (rm_stat_coeff r) q (update_rice (rm_stat_coeff r).[q] rem k)
      | None => rm_stat_coeff r
      end)
     (zset (rm_levels r) p level)
     (int32 (rm_sum_abs r + level - 1)),
   snd (coeff_abs_level_remaining_decode_alt1 k c)).
Proof.
  cbv zeta. unfold remaining_step, bind.
  destruct (coeff_abs_level_remaining_decode_alt1 (rm_c_rice_param r) c) as [rem c1].
  reflexivity.
Qed.

Lemma remaining_loop_rice fuel pers r :
  always (remaining_loop fuel pers r)
    (fun r' => (pers = true -> rm_c_rice_param r <= rm_c_rice_param r') /\
               (pers = false -> rm_c_rice_param r <= 4 ->
                rm_c_rice_param r <= rm_c_rice_param r' <= 4)).
Proof.
  revert r. induction fuel as [|fuel IH]; intros r; simpl.
  - apply always_ret. split; intros; lia.
  - intros c _. unfold bind. rewrite remaining_step_eq. cbv zeta.
    set (r1 := mkRem _ _ _ _ _ _ _). set (c1 := snd _).
    assert (H1 : (pers = true -> rm_c_rice_param r <= rm_c_rice_param r1) /\
                 (pers = false -> rm_c_rice_param r <= 4 ->
                  rm_c_rice_param r <= rm_c_rice_param r1 <= 4)).
    { unfold r1. cbn [rm_c_rice_param].
      match goal with |- context [next_rice_param pers ?k ?l] =>
        pose proof (next_rice_param_mono pers k l) as [A B] end.
      split; [intros Hp; exact (proj1 (A Hp)) | intros Hp Hk; exact (B Hp Hk)]. }
    destruct (negb (rm_coded_vals r1 =? 0)); [|exact H1].
    pose proof (IH r1 c1 I) as H2. cbv beta in H2. destruct H2 as [A B].
    destruct H1 as [A1 B1].
    split.
    + intros Hp. specialize (A Hp). specialize (A1 Hp). lia.
    + intros Hp Hk. specialize (B1 Hp Hk). specialize (B Hp ltac:(lia)). lia.
Qed.

(** After the first pass the [stat_coeff] pointer is NULL and the
    statistics stay as they are. *)
Lemma remaining_loop_stat_null fuel pers r :
  rm_stat_ptr r = None ->
  always (remaining_loop fuel pers r) (fun r' => rm_stat_coeff r' = rm_stat_coeff r).
Proof.
  revert r. induction fuel as [|fuel IH]; intros r Hr; simpl.
  - apply always_ret. reflexivity.
  - intros c _. unfold bind. rewrite remaining_step_eq. cbv zeta. rewrite Hr.
    set (r1 := mkRem _ _ _ _ _ _ _). set (c1 := snd _).
    destruct (negb (rm_coded_vals r1 =? 0)); [|reflexivity].
    apply (IH r1 eq_refl c1 I).
Qed.

Lemma remaining_loop_stat fuel pers r c :
  let k := rm_c_rice_param r in
  let rem := fst (coeff_abs_level_remaining_decode_alt1 k c) in
  rm_stat_coeff (fst (remaining_loop (Datatypes.S fuel) pers r c)) =
  match rm_stat_ptr r with
  | Some q => zset (rm_stat_coeff r) q (update_rice (rm_stat_coeff r).[q] rem k)
  | None => rm_stat_coeff r
  end.
Proof.
  cbv zeta. cbn [remaining_loop]. unfold bind. rewrite remaining_step_eq. cbv zeta.
  set (r1 := mkRem _ _ _ _ _ _ _). set (c1 := snd _).
  destruct (negb (rm_coded_vals r1 =? 0)); [|reflexivity].
  rewrite (remaining_loop_stat_null fuel pers r1 eq_refl c1 I). reflexivity.
Qed.

Lemma update_rice_cases stat rem k :
  0 <= stat <= 255 ->
  let x := uint32 rem ≫ k in
  update_rice stat rem k =
    (if x >=? 3 then (stat + 1) mod 256
     else if (x =? 0) && (stat >? 0) then stat - 1
     else stat) /\
  0 <= update_rice stat rem k <= 255.
Proof.
  intros H. cbv zeta. unfold update_rice, uint8.
  destruct (_ >=? 3).
  - split; [reflexivity|]. pose proof (Z.mod_pos_bound (stat + 1) 256). lia.
  - destruct (_ =? 0); simpl; [|split; [reflexivity | lia]].
    destruct (Z.gtb_spec stat 0); [|split; [reflexivity | lia]].
    rewrite Z.mod_small by lia. split; [reflexivity | lia].
Qed.

(** With the Rice parameter seeded from the statistic, an increment
    cannot leave the byte: a 32-bit remainder reaches [3 << k] only for
    [k <= 30]. *)
Lemma update_rice_seeded stat rem :
  0 <= stat <= 255 ->
  let k := stat ≫ 2 in
  let x := uint32 rem ≫ k in
  update_rice stat rem k =
    (if x >=? 3 then stat + 1
     else if (x =? 0) && (stat >? 0) then stat - 1
     else stat) /\
  (3 <= x -> stat <= 123) /\
  0 <= update_rice stat rem k <= 255.
Proof.
  intros H. cbv zeta.
  assert (Hk : 0 <= stat ≫ 2) by (apply Z.shiftr_nonneg; lia).
  assert (Hinc : 3 <= uint32 rem ≫ (stat ≫ 2) -> stat <= 123).
  { intros Hx. rewrite Z.shiftr_div_pow2 in Hx by exact Hk.
    destruct (Z.le_gt_cases stat 123) as [Hle|Hgt]; [exact Hle | exfalso].
    assert (H31 : 31 <= stat ≫ 2).
    { rewrite Z.shiftr_div_pow2 by lia. change (2 ^ 2) with 4.
      apply Z.div_le_lower_bound; lia. }
    assert (Hpw : 2 ^ 31 <= 2 ^ (stat ≫ 2)) by (apply Z.pow_le_mono_r; lia).
    assert (Hu : 0 <= uint32 rem < 2 ^ 32) by (apply Z.mod_pos_bound; lia).
    change (2 ^ 31) with 2147483648 in Hpw. change (2 ^ 32) with 4294967296 in Hu.
    assert (Hlt : uint32 rem / 2 ^ (stat ≫ 2) < 3).
    { apply Z.div_lt_upper_bound; lia. }
    lia. }
  split; [|split; [exact Hinc|]].
  - unfold update_rice, uint8.
    destruct (Z.geb_spec (uint32 rem ≫ (stat ≫ 2)) 3) as [Hx|Hx].
    + specialize (Hinc ltac:(lia)). apply Z.mod_small. lia.
    + destruct (_ =? 0); cbn [andb]; [|reflexivity].
      destruct (Z.gtb_spec stat 0); [|reflexivity]. apply Z.mod_small. lia.
  - apply update_rice_cases. exact H.
Qed.

(** ** Bits of 32-bit flag words *)

Lemma testbit_uint32 x i : Z.testbit (uint32 x) i = (i <? 32) && Z.testbit x i.
Proof.
  unfold uint32. destruct (Z.ltb_spec i 32); simpl.
  - destruct (Z.neg_nonneg_cases i).
    + rewrite !Z.testbit_neg_r by assumption. reflexivity.
    + apply Z.mod_pow2_bits_low. lia.
  - apply Z.mod_pow2_bits_high. lia.
Qed.

Lemma msb_bit_neg w j : 31 < j -> msb_bit w j = false.
Proof. intros H. unfold msb_bit. apply Z.testbit_neg_r. lia. Qed.

Lemma msb_bit_shiftl rv s j :
  0 <= s -> 0 <= j -> msb_bit (uint32 (rv ≪ s)) j = msb_bit rv (j + s).
Proof.
  intros Hs Hj. unfold msb_bit. rewrite testbit_uint32.
  replace (31 - j <? 32) with true by (symmetry; apply Z.ltb_lt; lia). simpl.
  destruct (Z.neg_nonneg_cases (31 - j)).
  - rewrite !Z.testbit_neg_r by lia. reflexivity.
  - rewrite Z.shiftl_spec by assumption. f_equal. lia.
Qed.

Lemma clz32_spec x :
  0 < x < 2 ^ 32 ->
  0 <= clz32 x <= 31 /\ msb_bit x (clz32 x) = true /\
  forall j, 0 <= j < clz32 x -> msb_bit x j = false.
Proof.
  intros Hx. unfold clz32, msb_bit.
  destruct (Z.leb_spec x 0); [lia|].
  assert (Hl : 0 <= Z.log2 x < 32).
  { split; [apply Z.log2_nonneg|]. apply Z.log2_lt_pow2; lia. }
  split; [lia|]. split.
  - replace (31 - (31 - Z.log2 x)) with (Z.log2 x) by lia. apply Z.bit_log2. lia.
  - intros j Hj. apply Z.bits_above_log2; lia.
Qed.

Lemma uint32_shiftl_ge32 rv s : 32 <= s -> uint32 (rv ≪ s) = 0.
Proof.
  intros Hs. unfold uint32. rewrite Z.shiftl_mul_pow2 by lia.
  replace s with ((s - 32) + 32) by lia. rewrite Z.pow_add_r by lia.
  rewrite Z.mul_assoc. apply Z.mod_mul. lia.
Qed.

Lemma uint32_shiftl_idem a n : 0 <= n -> uint32 (uint32 a ≪ n) = uint32 (a ≪ n).
Proof.
  intros Hn. unfold uint32. rewrite !Z.shiftl_mul_pow2 by lia.
  apply Z.mul_mod_idemp_l. lia.
Qed.

Lemma uint32_shiftl_shiftl rv a b :
  0 <= a -> 0 <= b -> uint32 (uint32 (rv ≪ a) ≪ b) = uint32 (rv ≪ (a + b)).
Proof.
  intros Ha Hb. rewrite uint32_shiftl_idem by assumption.
  rewrite Z.shiftl_shiftl by assumption. reflexivity.
Qed.

Lemma odd_int32 x : Z.odd (int32 x) = Z.odd x.
Proof.
  assert (H : int32 x = x + 2 * (- 2 ^ 31 * ((x + 2 ^ 31) / 2 ^ 32))).
  { unfold int32. pose proof (Z.div_mod (x + 2 ^ 31) (2 ^ 32)). lia. }
  rewrite H. apply Z.odd_add_mul_2.
Qed.

(** ** Sums *)

Lemma Zsum_ext f g n from :
  (forall j, from <= j < from + Z.of_nat n -> f j = g j) ->
  Zsum f n from = Zsum g n from.
Proof.
  revert from. induction n as [|n IH]; intros from H; simpl; [reflexivity|].
  rewrite H by lia. rewrite IH; [reflexivity|]. intros j Hj. apply H. lia.
Qed.

Lemma Zsum_single_diff f g n from q :
  (forall j, from <= j < from + Z.of_nat n -> j <> q -> f j = g j) ->
  from <= q < from + Z.of_nat n ->
  Zsum f n from = Zsum g n from + f q - g q.
Proof.
  revert from. induction n as [|n IH]; intros from H Hq; simpl; [lia|].
  destruct (Z.eq_dec from q) as [->|Hne].
  - rewrite (Zsum_ext f g n (q + 1)); [lia|].
    intros j Hj. apply H; lia.
  - rewrite (IH (from + 1)); [rewrite (H from) by lia; lia | | lia].
    intros j Hj. apply H. lia.
Qed.

Lemma Zsum_const c n from : Zsum (fun _ => c) n from = c * Z.of_nat n.
Proof. revert from. induction n as [|n IH]; intros from; simpl; [lia|]. rewrite IH. lia. Qed.

Lemma Zsum_split f n m from :
  Zsum f (n + m) from = Zsum f n from + Zsum f m (from + Z.of_nat n).
Proof.
  revert from. induction n as [|n IH]; intros from.
  - cbn [Nat.add Zsum]. rewrite Z.add_0_r. reflexivity.
  - cbn [Nat.add Zsum]. rewrite IH, Nat2Z.inj_succ.
    replace (from + Z.succ (Z.of_nat n)) with (from + 1 + Z.of_nat n) by lia. lia.
Qed.

(** ** The remainder loop and the sum of the absolute levels *)

Section RemainderLoop.
Variables (rv n : Z) (pers : bool).
Hypothesis n_range : 0 <= n <= 16.
Hypothesis rv_tail : forall j, n <= j -> msb_bit rv j = false.

Lemma coded_bits r j :
  -1 <= rm_level r -> rm_coded_vals r = uint32 (rv ≪ (rm_level r + 1)) ->
  0 <= j -> msb_bit (rm_coded_vals r) j = msb_bit rv (j + rm_level r + 1).
Proof.
  intros Hp Hc Hj. rewrite Hc, msb_bit_shiftl by lia. f_equal. lia.
Qed.

Lemma remaining_step_inv r :
  loop_inv rv n r -> rm_coded_vals r <> 0 ->
  always (remaining_step pers r)
    (fun r' => loop_inv rv n r' /\ rm_level r < rm_level r' < n).
Proof.
  intros (Hp & Hc & Hlen & Hodd) Hne c _. rewrite remaining_step_eq. cbv zeta.
  cbn [fst].
  set (rem := fst (coeff_abs_level_remaining_decode_alt1 (rm_c_rice_param r) c)).
  set (z := clz32 (rm_coded_vals r)).
  set (p := rm_level r) in *.
  assert (Hcr : 0 < rm_coded_vals r < 2 ^ 32).
  { pose proof (uint32_range (rv ≪ (p + 1))). rewrite <- Hc in *. lia. }
  destruct (clz32_spec _ Hcr) as (Hz & Hbit & Hlow). fold z in Hz, Hbit, Hlow.
  assert (Hset : msb_bit rv (p + (z + 1)) = true).
  { rewrite <- Hbit. rewrite (coded_bits r z) by (fold p; lia || assumption).
    fold p. f_equal. lia. }
  assert (Hpn : p + (z + 1) < n).
  { destruct (Z.lt_ge_cases (p + (z + 1)) n) as [|Hge]; [assumption|].
    rewrite (rv_tail _ Hge) in Hset. discriminate. }
  assert (Hgap : forall j, p < j < p + (z + 1) -> msb_bit rv j = false).
  { intros j Hj. rewrite <- (Hlow (j - p - 1)) by lia.
    rewrite (coded_bits r (j - p - 1)) by (fold p; lia || assumption).
    fold p. f_equal. lia. }
  set (p' := p + (z + 1)) in *.
  set (T := int32 ((rm_levels r).[p'] + rem)).
  split; [|cbn [rm_level]; lia].
  unfold loop_inv. cbn [rm_level rm_coded_vals rm_levels rm_sum_abs].
  split; [lia|]. split.
  { rewrite Hc. fold p. rewrite uint32_shiftl_shiftl by lia. f_equal. f_equal.
    unfold p'. lia. }
  split; [rewrite length_zset; exact Hlen|].
  rewrite odd_int32.
  rewrite (Zsum_single_diff
             (coded_weight rv (zset (rm_levels r) p' T) p')
             (coded_weight rv (rm_levels r) p) (Z.to_nat n) 0 p').
  - unfold coded_weight at 2 3.
    replace (p' <=? p') with true by (symmetry; apply Z.leb_le; lia).
    replace (p' <=? p) with false by (symmetry; apply Z.leb_gt; lia).
    rewrite Hset. rewrite zth_zset_eq by lia.
    replace (rm_sum_abs r + T - 1) with (rm_sum_abs r + (T - 1)) by lia.
    replace (Zsum (coded_weight rv (rm_levels r) p) (Z.to_nat n) 0 + T - 1)
      with (Zsum (coded_weight rv (rm_levels r) p) (Z.to_nat n) 0 + (T - 1)) by lia.
    rewrite !Z.odd_add, Hodd. reflexivity.
  - intros j Hj Hjp. unfold coded_weight.
    rewrite zth_zset_ne by lia.
    destruct (Z.leb_spec j p'), (Z.leb_spec j p); try reflexivity; try lia.
    rewrite Hgap by lia. reflexivity.
  - lia.
Qed.

Lemma remaining_loop_sum fuel r :
  loop_inv rv n r -> rm_coded_vals r <> 0 -> 31 <= Z.of_nat fuel + rm_level r ->
  always (remaining_loop fuel pers r)
    (fun r' => Z.odd (rm_sum_abs r') = Z.odd (Zsum (zth (rm_levels r')) (Z.to_nat n) 0) /\
               length (rm_levels r') = 16%nat /\ rm_coded_vals r' = 0).
Proof.
  revert r. induction fuel as [|fuel IH]; intros r Hinv Hne Hfuel.
  - exfalso. apply Hne. destruct Hinv as (Hp & Hc & _). rewrite Hc.
    apply uint32_shiftl_ge32. lia.
  - cbn [remaining_loop].
    eapply always_bind_with; [apply remaining_step_inv; assumption|].
    intros r1 [Hinv1 Hlt].
    destruct (Z.eqb_spec (rm_coded_vals r1) 0) as [H0|H1]; cbn [negb].
    + apply always_ret. destruct Hinv1 as (Hp1 & Hc1 & Hlen1 & Hodd1).
      split; [|split; assumption]. rewrite Hodd1. f_equal.
      apply Zsum_ext. intros j Hj. unfold coded_weight.
      destruct (Z.leb_spec j (rm_level r1)); [reflexivity|].
      replace (msb_bit rv j) with false; [reflexivity|].
      replace j with (j - rm_level r1 - 1 + (rm_level r1 + 1)) by lia.
      rewrite <- (msb_bit_shiftl rv (rm_level r1 + 1) (j - rm_level r1 - 1)) by lia.
      rewrite <- Hc1, H0. unfold msb_bit. rewrite Z.bits_0. reflexivity.
    + apply IH; [exact Hinv1 | exact H1 | lia].
Qed.
End RemainderLoop.

(** With 32 passes the remainder loop leaves through its exit test. *)
Lemma remaining_loop_terminates rv n pers r :
  0 <= n <= 16 -> (forall j, n <= j -> msb_bit rv j = false) ->
  loop_inv rv n r -> rm_coded_vals r <> 0 ->
  always (remaining_loop 32 pers r) (fun r' => rm_coded_vals r' = 0).
Proof.
  intros Hn Htail Hinv Hne c _.
  assert (Hfuel : 31 <= Z.of_nat 32 + rm_level r) by (destruct Hinv as (Hp & _); lia).
  exact (proj2 (proj2 (remaining_loop_sum rv n pers Hn Htail 32 r Hinv Hne Hfuel c I))).
Qed.

(** The modelled diagonal scans are the ones the inverse tables of the
    source invert. *)
Lemma diag_scan4x4_inverse k :
  0 <= k < 16 ->
  zth2 diag_scan4x4_inv ff_hevc_diag_scan4x4_y.[k] ff_hevc_diag_scan4x4_x.[k] = k.
Proof.
  intros Hk.
  assert (H : forallb (fun j => zth2 diag_scan4x4_inv ff_hevc_diag_scan4x4_y.[j]
                                  ff_hevc_diag_scan4x4_x.[j] =? j)
                (map Z.of_nat (seq 0 16)) = true) by reflexivity.
  rewrite forallb_forall in H. apply Z.eqb_eq, H.
  apply in_map_iff. exists (Z.to_nat k). split; [lia|]. apply in_seq. lia.
Qed.

Lemma diag_scan8x8_inverse k :
  0 <= k < 64 ->
  zth2 diag_scan8x8_inv ff_hevc_diag_scan8x8_y.[k] ff_hevc_diag_scan8x8_x.[k] = k.
Proof.
  intros Hk.
  assert (H : forallb (fun j => zth2 diag_scan8x8_inv ff_hevc_diag_scan8x8_y.[j]
                                  ff_hevc_diag_scan8x8_x.[j] =? j)
                (map Z.of_nat (seq 0 64)) = true) by reflexivity.
  rewrite forallb_forall in H. apply Z.eqb_eq, H.
  apply in_map_iff. exists (Z.to_nat k). split; [lia|]. apply in_seq. lia.
Qed.

(** ** The flag word of get_greaterx_bits *)

Lemma lt_pow2_of_bits x n :
  0 <= x -> 0 <= n -> (forall m, n <= m -> Z.testbit x m = false) -> x < 2 ^ n.
Proof.
  intros Hx Hn Hb. destruct (Z.lt_ge_cases x (2 ^ n)) as [|Hge]; [assumption|].
  assert (0 < x) by (pose proof (Z.pow_pos_nonneg 2 n); lia).
  assert (n <= Z.log2 x) by (apply Z.log2_le_pow2; assumption).
  pose proof (Z.bit_log2 x ltac:(lia)) as Hs. rewrite Hb in Hs by assumption. discriminate.
Qed.

Lemma bits_above_uint32 x m : 0 <= x < 2 ^ 32 -> 32 <= m -> Z.testbit x m = false.
Proof.
  intros Hx Hm. rewrite <- (uint32_small x Hx), testbit_uint32.
  replace (m <? 32) with false by (symmetry; apply Z.ltb_ge; lia). reflexivity.
Qed.

Lemma lor_uint32 a b : 0 <= a < 2 ^ 32 -> 0 <= b < 2 ^ 32 -> 0 <= Z.lor a b < 2 ^ 32.
Proof.
  intros Ha Hb. assert (0 <= Z.lor a b) by (apply Z.lor_nonneg; lia).
  split; [assumption|]. apply lt_pow2_of_bits; [assumption | lia |].
  intros m Hm. rewrite Z.lor_spec, !bits_above_uint32 by assumption. reflexivity.
Qed.

Lemma land_uint32 a b : 0 <= a < 2 ^ 32 -> 0 <= Z.land a b < 2 ^ 32.
Proof.
  intros Ha. assert (0 <= Z.land a b) by (apply Z.land_nonneg; lia).
  split; [assumption|]. apply lt_pow2_of_bits; [assumption | lia |].
  intros m Hm. rewrite Z.land_spec, bits_above_uint32 by assumption. reflexivity.
Qed.

Lemma msb_bit_lor a b j : msb_bit (Z.lor a b) j = msb_bit a j || msb_bit b j.
Proof. apply Z.lor_spec. Qed.

Lemma msb_bit_land a b j : msb_bit (Z.land a b) j = msb_bit a j && msb_bit b j.
Proof. apply Z.land_spec. Qed.

(** [~(0x80000000U >> i)] clears flag [i] and nothing else. *)
Lemma msb_bit_clear_mask i j :
  0 <= i -> 0 <= j <= 31 ->
  msb_bit (uint32 (Z.lnot (2147483648 ≫ i))) j = negb (j =? i).
Proof.
  intros Hi Hj. unfold msb_bit. rewrite testbit_uint32.
  replace (31 - j <? 32) with true by (symmetry; apply Z.ltb_lt; lia). simpl.
  rewrite Z.lnot_spec by lia. f_equal.
  rewrite Z.shiftr_spec by lia. change 2147483648 with (2 ^ 31).
  rewrite Z.pow2_bits_eqb by lia.
  destruct (Z.eqb_spec 31 (31 - j + i)), (Z.eqb_spec j i); try reflexivity; lia.
Qed.

(** [((1 << g8) - 1) << (24 - g8)] sets the flags 8 .. 8 + g8 - 1. *)
Lemma msb_bit_g8_mask g8 j :
  1 <= g8 <= 8 -> 0 <= j <= 31 ->
  msb_bit (uint32 (((1 ≪ g8) - 1) ≪ (24 - g8))) j = (8 <=? j) && (j <? 8 + g8).
Proof.
  intros Hg Hj. unfold msb_bit. rewrite testbit_uint32.
  replace (31 - j <? 32) with true by (symmetry; apply Z.ltb_lt; lia). simpl.
  rewrite Z.shiftl_spec by lia.
  replace ((1 ≪ g8) - 1) with (Z.ones g8)
    by (rewrite Z.ones_equiv, Z.shiftl_mul_pow2 by lia; lia).
  destruct (Z.leb_spec 8 j), (Z.ltb_spec j (8 + g8)); simpl.
  - apply Z.ones_spec_low. lia.
  - rewrite Z.testbit_neg_r by lia. reflexivity.
  - apply Z.ones_spec_high. lia.
  - apply Z.ones_spec_high. lia.
Qed.

Lemma is_bit_testbit b m :
  is_bit b -> 0 <= m -> Z.testbit b m = (m =? 0) && (b =? 1).
Proof.
  intros [->| ->] Hm; [rewrite Z.bits_0; destruct (m =? 0); reflexivity|].
  change 1 with (2 ^ 0). rewrite Z.pow2_bits_eqb by lia.
  rewrite Z.eqb_sym. destruct (m =? 0); reflexivity.
Qed.

Lemma always_get_cabac ctx : always (get_cabac ctx) is_bit.
Proof.
  intros c _. unfold get_cabac. pose proof (next_bin_is_bit c).
  destruct (next_bin c). assumption.
Qed.

Lemma always_for_loopM {S : Type} n i (body : Z -> S -> Dec S) (Inv : Z -> S -> Prop) s :
  (forall j t, i <= j -> Inv j t -> always (body j t) (Inv (j + 1))) -> Inv i s ->
  always (for_loopM n i body s) (Inv (i + Z.of_nat n)).
Proof.
  revert i s. induction n as [|n IH]; intros i s Hb Hs.
  - cbn [for_loopM]. apply always_ret. rewrite Z.add_0_r. exact Hs.
  - cbn [for_loopM]. eapply always_bind_with; [apply Hb; [lia | exact Hs]|].
    intros s' Hs'. rewrite Nat2Z.inj_succ.
    replace (i + Z.succ (Z.of_nat n)) with (i + 1 + Z.of_nat n) by lia.
    apply IH; [|exact Hs']. intros j t Hj. apply Hb. lia.
Qed.

Lemma always_weaken {A : Type} (m : Dec A) (Q Q' : A -> Prop) :
  always m Q -> (forall a, Q a -> Q' a) -> always m Q'.
Proof. intros Hm H c Hc. apply H, (Hm c Hc). Qed.

Lemma gt1_loop n state0 levels :
  length levels = 16%nat -> (n <= 16)%nat ->
  always
    (for_loopM n 0
       (fun i '(rv, levels) =>
          let idx := if negb (rv =? 0) then 0 else if i <? 3 then i + 1 else 3 in
          bind (get_cabac (state0 + idx))
            (fun b => ret (uint32 (Z.lor (rv ≪ 1) b), zset levels i (1 + b))))
       (0, levels))
    (gt1_inv (Z.of_nat n)).
Proof.
  intros Hlen Hn.
  eapply always_weaken;
    [apply (always_for_loopM n 0 _ (fun k st => k <= 16 -> gt1_inv k st))
    | cbv beta; intros a Ha; apply Ha; lia].
  2:{ intros _. split; [exact Hlen|]. intros; lia. }
  intros k [rv lv] Hk Hinv.
  eapply always_bind_with; [apply always_get_cabac|]. intros b Hb.
  apply always_ret. intros Hk1. destruct (Hinv ltac:(lia)) as [Hl Hlv].
  unfold gt1_inv. cbn [fst snd] in *. split; [rewrite length_zset; exact Hl|].
  intros j Hj.
  assert (Hbit : forall m, 0 <= m < 32 ->
            Z.testbit (uint32 (Z.lor (rv ≪ 1) b)) m =
            if m =? 0 then (b =? 1) else Z.testbit rv (m - 1)).
  { intros m Hm. rewrite testbit_uint32.
    replace (m <? 32) with true by (symmetry; apply Z.ltb_lt; lia).
    rewrite andb_true_l, Z.lor_spec, (is_bit_testbit b m Hb) by lia.
    destruct (Z.eqb_spec m 0) as [->|Hne].
    - rewrite Z.shiftl_spec_low by lia. reflexivity.
    - rewrite Z.shiftl_spec by lia. rewrite andb_false_l. apply orb_false_r. }
  rewrite Hbit by lia.
  destruct (Z.eq_dec j k) as [->|Hne].
  - rewrite zth_zset_eq by lia.
    replace (k + 1 - 1 - k =? 0) with true by (symmetry; apply Z.eqb_eq; lia).
    destruct Hb as [->| ->]; reflexivity.
  - rewrite zth_zset_ne by lia. rewrite Hlv by lia.
    replace (k + 1 - 1 - j =? 0) with false by (symmetry; apply Z.eqb_neq; lia).
    replace (k + 1 - 1 - j - 1) with (k - 1 - j) by lia. reflexivity.
Qed.

Lemma g8_levels_keep m i (l : list Z) j :
  0 <= i -> 0 <= j < i + 8 ->
  (for_loop m i (fun i l => zset l (i + 8) 1) l).[j] = l.[j].
Proof.
  revert i l. induction m as [|m IH]; intros i l Hi Hj; simpl; [reflexivity|].
  rewrite IH by lia. apply zth_zset_ne; lia.
Qed.

Lemma g8_levels_length m i (l : list Z) :
  length (for_loop m i (fun i l => zset l (i + 8) 1) l) = length l.
Proof.
  revert i l. induction m as [|m IH]; intros i l; simpl; [reflexivity|].
  rewrite IH. apply length_zset.
Qed.

Lemma coded_weight_start rv lv j :
  0 <= j -> coded_weight rv lv (-1) j = if msb_bit rv j then 1 else lv.[j].
Proof.
  intros Hj. unfold coded_weight.
  replace (j <=? -1) with false by (symmetry; apply Z.leb_gt; lia). reflexivity.
Qed.

Lemma greaterx_bits_post n_end levels state0 state_gt2 :
  1 <= n_end <= 16 -> length levels = 16%nat ->
  always (get_greaterx_bits n_end levels state0 state_gt2) (greaterx_post n_end).
Proof.
  intros Hn Hlen. unfold get_greaterx_bits.
  set (n' := if n_end >? 8 then 8 else n_end).
  assert (Hn' : 1 <= n' <= 8 /\ n' <= n_end /\ (n_end <= 8 -> n' = n_end) /\
                (8 < n_end -> n' = 8)).
  { unfold n'. destruct (Z.gtb_spec n_end 8); lia. }
  eapply always_bind_with; [apply (gt1_loop (Z.to_nat n') state0 levels Hlen); lia|].
  intros [rv lv] [Hl Hlv]. cbn [fst snd] in Hl, Hlv. rewrite Z2Nat.id in Hlv by lia.
  set (rv1 := uint32 (rv ≪ (32 - n'))).
  assert (F1 : 0 <= rv1 < 2 ^ 32) by apply uint32_range.
  assert (F2 : forall j, 0 <= j -> msb_bit rv1 j = Z.testbit rv (n' - 1 - j)).
  { intros j Hj. unfold rv1. rewrite msb_bit_shiftl by lia. unfold msb_bit. f_equal. lia. }
  assert (F3 : forall j, n' <= j -> msb_bit rv1 j = false).
  { intros j Hj. rewrite F2 by lia. apply Z.testbit_neg_r. lia. }
  assert (F4 : forall j, 0 <= j < n' -> lv.[j] = 1 + b2z (msb_bit rv1 j)).
  { intros j Hj. rewrite F2 by lia. apply Hlv. exact Hj. }
  assert (Fsum : Zsum (coded_weight rv1 lv (-1)) (Z.to_nat n') 0 = n').
  { rewrite (Zsum_ext _ (fun _ => 1)); [rewrite Zsum_const; lia|].
    intros j Hj. rewrite coded_weight_start by lia.
    destruct (msb_bit rv1 j) eqn:E; [reflexivity|]. rewrite F4, E by lia. reflexivity. }
  eapply always_bind_with with
    (R := fun res => let '(rv2, lv2, prev, eq2) := res in
            0 <= rv2 < 2 ^ 32 /\ (forall j, n' <= j -> msb_bit rv2 j = false) /\
            length lv2 = 16%nat /\
            Zsum (coded_weight rv2 lv2 (-1)) (Z.to_nat n') 0 = n' + eq2).
  - destruct (Z.eqb_spec rv1 0) as [H0|Hne]; cbn [negb].
    + apply always_ret. repeat split; try assumption; try lia.
    + destruct (clz32_spec rv1 ltac:(lia)) as (Hz & Hbit & Hlow).
      set (i := clz32 rv1) in *.
      assert (Hi : i < n').
      { destruct (Z.lt_ge_cases i n') as [|Hge]; [assumption|].
        rewrite (F3 _ Hge) in Hbit. discriminate. }
      eapply always_bind_with; [apply always_get_cabac|]. intros g _.
      destruct (g =? 0); apply always_ret.
      * split; [apply land_uint32; exact F1|]. split.
        { intros j Hj. rewrite msb_bit_land, F3 by assumption. reflexivity. }
        split; [rewrite !length_zset; exact Hl|].
        rewrite (Zsum_single_diff _ (coded_weight rv1 lv (-1)) _ 0 i); [|  |lia].
        -- rewrite Fsum, !coded_weight_start by lia.
           rewrite msb_bit_land, msb_bit_clear_mask by lia.
           rewrite Z.eqb_refl, andb_false_r, Hbit.
           rewrite zth_zset_eq by (rewrite ?length_zset; lia). lia.
        -- intros j Hj Hji. rewrite !coded_weight_start by lia.
           rewrite msb_bit_land, msb_bit_clear_mask by lia.
           replace (j =? i) with false by (symmetry; apply Z.eqb_neq; lia).
           rewrite andb_true_r, !zth_zset_ne by lia. reflexivity.
      * split; [exact F1|]. split; [exact F3|].
        split; [rewrite length_zset; exact Hl|].
        rewrite Z.add_0_r. etransitivity; [|exact Fsum]. apply Zsum_ext. intros j Hj.
        rewrite !coded_weight_start by lia.
        destruct (Z.eq_dec j i) as [->|Hji]; [rewrite Hbit; reflexivity|].
        rewrite zth_zset_ne by lia. reflexivity.
  - intros [[[rv2 lv2] prev] eq2] (R1 & R2 & R3 & R4).
    destruct (Z.gtb_spec n_end 8) as [Hgt|Hle]; apply always_ret; unfold greaterx_post.
    + destruct Hn' as (_ & _ & _ & H8). specialize (H8 Hgt). rewrite H8 in *.
      set (g8 := n_end - 8) in *.
      assert (Hmask : forall j, 0 <= j <= 31 ->
                msb_bit (uint32 (((1 ≪ g8) - 1) ≪ (24 - g8))) j
                = (8 <=? j) && (j <? 8 + g8))
        by (intros; apply msb_bit_g8_mask; unfold g8; lia).
      split; [apply lor_uint32; [exact R1 | apply uint32_range]|]. split.
      { intros j Hj. rewrite msb_bit_lor, R2 by lia.
        destruct (Z.le_gt_cases j 31); [|rewrite msb_bit_neg by lia; reflexivity].
        rewrite Hmask by lia.
        replace (j <? 8 + g8) with false by (symmetry; apply Z.ltb_ge; unfold g8; lia).
        rewrite andb_false_r. reflexivity. }
      split; [rewrite g8_levels_length; exact R3|].
      replace (Z.to_nat n_end) with (Z.to_nat 8 + Z.to_nat g8)%nat by (unfold g8; lia).
      rewrite Zsum_split.
      rewrite (Zsum_ext _ (coded_weight rv2 lv2 (-1)) (Z.to_nat 8) 0).
      2:{ intros j Hj. rewrite !coded_weight_start by lia.
          rewrite msb_bit_lor, Hmask by lia.
          replace (8 <=? j) with false by (symmetry; apply Z.leb_gt; lia).
          rewrite andb_false_l, orb_false_r, g8_levels_keep by lia. reflexivity. }
      rewrite R4.
      rewrite (Zsum_ext _ (fun _ => 1) (Z.to_nat g8)).
      2:{ intros j Hj. rewrite coded_weight_start by lia.
          rewrite msb_bit_lor, Hmask by (unfold g8 in *; lia).
          replace (8 <=? j) with true by (symmetry; apply Z.leb_le; lia).
          replace (j <? 8 + g8) with true by (symmetry; apply Z.ltb_lt; lia).
          rewrite orb_true_r. reflexivity. }
      rewrite Zsum_const. unfold g8. lia.
    + destruct Hn' as (_ & _ & He & _). specialize (He Hle). rewrite He in *.
      repeat split; assumption || lia.
Qed.

(** ** Sign bits *)

Lemma land_pow2_eqb x n : 0 <= n -> (Z.land x (2 ^ n) =? 0) = negb (Z.testbit x n).
Proof.
  intros Hn. destruct (Z.testbit x n) eqn:E; simpl.
  - apply Z.eqb_neq. intros H0.
    assert (Hb : Z.testbit (Z.land x (2 ^ n)) n = true).
    { rewrite Z.land_spec, E, Z.pow2_bits_true by lia. reflexivity. }
    rewrite H0, Z.bits_0 in Hb. discriminate.
  - apply Z.eqb_eq. apply Z.bits_inj'. intros k Hk.
    rewrite Z.land_spec, Z.bits_0, Z.pow2_bits_eqb by lia.
    destruct (Z.eqb_spec n k) as [->|]; [rewrite E|]; auto using andb_false_r.
Qed.

Lemma peek_bits_testbit n bit l i :
  0 <= i -> Z.of_nat n <= bit + 1 ->
  Z.testbit (peek_bits n bit l) i =
  (i <=? bit) && (bit - i <? Z.of_nat n) && nth (Z.to_nat (bit - i)) l false.
Proof.
  revert bit l. induction n as [|n IH]; intros bit l Hi Hb.
  - cbn [peek_bits]. rewrite Z.bits_0.
    destruct (Z.leb_spec i bit); [|reflexivity].
    replace (bit - i <? Z.of_nat 0) with false by (symmetry; apply Z.ltb_ge; lia).
    reflexivity.
  - destruct l as [|b r].
    + cbn [peek_bits]. rewrite Z.bits_0.
      destruct (Z.to_nat (bit - i)); simpl; rewrite andb_false_r; reflexivity.
    + cbn [peek_bits]. rewrite Z.lor_spec, IH by lia.
      rewrite Z.shiftl_spec by lia.
      destruct (Z.lt_trichotomy i bit) as [Hlt|[->|Hgt]].
      * rewrite Z.testbit_neg_r by lia. cbn [orb].
        replace (i <=? bit - 1) with true by (symmetry; apply Z.leb_le; lia).
        replace (i <=? bit) with true by (symmetry; apply Z.leb_le; lia).
        replace (bit - 1 - i <? Z.of_nat n) with (bit - i <? Z.of_nat (Datatypes.S n))
          by (destruct (Z.ltb_spec (bit - i) (Z.of_nat (Datatypes.S n)));
              symmetry; [apply Z.ltb_lt | apply Z.ltb_ge]; lia).
        replace (Z.to_nat (bit - i)) with (Datatypes.S (Z.to_nat (bit - 1 - i))) by lia.
        reflexivity.
      * rewrite Z.sub_diag.
        replace (bit <=? bit - 1) with false by (symmetry; apply Z.leb_gt; lia).
        rewrite Z.leb_refl. cbn [andb Z.to_nat nth].
        replace (0 <? Z.of_nat (Datatypes.S n)) with true by (symmetry; apply Z.ltb_lt; lia).
        rewrite orb_false_r. destruct b; reflexivity.
      * replace (i <=? bit - 1) with false by (symmetry; apply Z.leb_gt; lia).
        replace (i <=? bit) with false by (symmetry; apply Z.leb_gt; lia).
        cbn [andb]. rewrite orb_false_r.
        rewrite (is_bit_testbit (b2z b) (i - bit));
          [| destruct b; [right|left]; reflexivity | lia].
        replace (i - bit =? 0) with false by (symmetry; apply Z.eqb_neq; lia).
        reflexivity.
Qed.

(** Flag [m] of the word [coeff_sign_flag_decode_alt1] returns is the
    [m]-th of the next [nb] bins, and 0 from [nb] on. *)
Lemma sign_flags_bits nb c m :
  0 <= nb <= 22 -> 0 <= m <= 31 ->
  msb_bit (fst (coeff_sign_flag_decode_alt1 nb c)) m =
  (m <? nb) && nth (Z.to_nat m) (bins c) false.
Proof.
  intros Hnb Hm. unfold coeff_sign_flag_decode_alt1, bind, get_alt1cabac_bypeek22,
    get_alt1cabac_byflush22, ret. cbn [fst].
  rewrite msb_bit_land. unfold msb_bit at 1. rewrite peek_bits_testbit by lia.
  replace (31 - (31 - m)) with m by lia.
  replace (31 - m <=? 31) with true by (symmetry; apply Z.leb_le; lia). cbn [andb].
  assert (Hmask : msb_bit (uint32 (Z.lnot (4294967295 ≫ nb))) m = (m <? nb)).
  { unfold msb_bit. rewrite testbit_uint32.
    replace (31 - m <? 32) with true by (symmetry; apply Z.ltb_lt; lia). cbn [andb].
    rewrite Z.lnot_spec, Z.shiftr_spec by lia.
    change 4294967295 with (Z.ones 32).
    destruct (Z.ltb_spec m nb).
    - rewrite Z.ones_spec_high by lia. reflexivity.
    - rewrite Z.ones_spec_low by lia. reflexivity. }
  rewrite Hmask.
  destruct (Z.ltb_spec m nb); [|rewrite andb_false_r; reflexivity].
  replace (m <? Z.of_nat 22) with true by (symmetry; apply Z.ltb_lt; lia).
  rewrite andb_true_r. reflexivity.
Qed.

Lemma sign_flags_range nb c :
  0 <= fst (coeff_sign_flag_decode_alt1 nb c) < 2 ^ 32.
Proof.
  unfold coeff_sign_flag_decode_alt1, bind, get_alt1cabac_bypeek22,
    get_alt1cabac_byflush22, ret. cbn [fst].
  rewrite Z.land_comm. apply land_uint32. apply uint32_range.
Qed.

Lemma signed_level_flag levels flags m :
  0 <= m ->
  signed_level levels flags m =
  if msb_bit flags m then int32 (- levels.[m]) else levels.[m].
Proof.
  intros Hm. unfold signed_level. cbv zeta.
  change 2147483648 with (2 ^ 31). rewrite land_pow2_eqb, negb_involutive by lia.
  change (Z.testbit (uint32 (flags ≪ m)) 31) with (msb_bit (uint32 (flags ≪ m)) 0).
  rewrite msb_bit_shiftl by lia. reflexivity.
Qed.

(** ** The levels of a subblock *)

Lemma land_1_odd x : (Z.land x 1 =? 0) = negb (Z.odd x).
Proof. change 1 with (2 ^ 0). rewrite land_pow2_eqb by lia. rewrite Z.bit0_odd. reflexivity. Qed.

Lemma hide_sign_cases hidden sum_abs n_end levels :
  hide_sign hidden sum_abs n_end levels =
  if hidden && Z.odd sum_abs
  then zset levels (n_end - 1) (int32 (- levels.[n_end - 1]))
  else levels.
Proof. unfold hide_sign. rewrite land_1_odd, negb_involutive. reflexivity. Qed.

Lemma sign_hidden_of_iff s c_idx tsb erf idxs n_end :
  let pred_mode_intra :=
    if c_idx =? 0 then intra_pred_mode (tu s) else intra_pred_mode_c (tu s) in
  sign_hidden_of s c_idx tsb erf idxs n_end = true <->
  sign_data_hiding_flag (pps s) = true /\
  cu_transquant_bypass_flag (cu s) = false /\
  ~ (pred_mode (cu s) = MODE_INTRA /\ implicit_rdpcm_enabled_flag (sps s) = true /\
     tsb = true /\ (pred_mode_intra = 10 \/ pred_mode_intra = 26)) /\
  erf = 0 /\
  idxs.[0] - idxs.[n_end - 1] > 3.
Proof.
  cbv zeta. unfold sign_hidden_of.
  set (pmi := if c_idx =? 0 then intra_pred_mode (tu s) else intra_pred_mode_c (tu s)).
  destruct (sign_data_hiding_flag (pps s)), (cu_transquant_bypass_flag (cu s));
    cbn [negb orb]; try (split; [discriminate | intros (A & B & _); discriminate]).
  assert (Hi : is_INTRA (pred_mode (cu s)) = true <-> pred_mode (cu s) = MODE_INTRA)
    by (destruct (pred_mode (cu s)); simpl; split; congruence).
  destruct (is_INTRA (pred_mode (cu s)) && implicit_rdpcm_enabled_flag (sps s) && tsb &&
            ((pmi =? 10) || (pmi =? 26))) eqn:E1; cbn [orb].
  - split; [discriminate|]. intros (_ & _ & Hn & _). exfalso. apply Hn.
    apply andb_prop in E1 as [E1 E4]. apply andb_prop in E1 as [E1 E3].
    apply andb_prop in E1 as [E1 E2]. apply orb_prop in E4.
    repeat split; [apply Hi; exact E1 | exact E2 | exact E3 |].
    destruct E4 as [E4|E4]; apply Z.eqb_eq in E4; auto.
  - destruct (Z.eqb_spec erf 0) as [->|Hne]; cbn [negb].
    + rewrite Z.gtb_lt. split.
      * intros H. repeat split; try lia.
        intros (A & B & C & D). apply Hi in A. rewrite A, B, C in E1. cbn [andb] in E1.
        destruct D as [D|D]; rewrite D in E1; discriminate.
      * intros (_ & _ & _ & _ & H). lia.
    + split; [discriminate|]. intros (_ & _ & _ & H & _). contradiction.
Qed.

(** [decode_abs_levels] with its binds spelled out. *)
Lemma decode_abs_levels_eq s c_idx tsb erf ctx_set idxs stat c :
  let n_end := Z.of_nat (length idxs) in
  let idx_delta := (if c_idx >? 0 then 4 else 0) + ctx_set in
  let idx0 := elem_offset COEFF_ABS_LEVEL_GREATER1_FLAG + (idx_delta ≪ 2) in
  let idx_gt2 := elem_offset COEFF_ABS_LEVEL_GREATER2_FLAG + idx_delta in
  let g := get_greaterx_bits n_end (repeat 0 16) idx0 idx_gt2 c in
  let '(cv, lv, prev, eq2) := fst g in
  let hidden := sign_hidden_of s c_idx tsb erf idxs n_end in
  let f := coeff_sign_flag_decode_alt1 (uint8 (n_end - b2z hidden)) (snd g) in
  let pers := persistent_rice_adaptation_enabled_flag (sps s) in
  let ptr := if negb pers then None else Some (stat_coeff_idx c_idx tsb) in
  let k := match ptr with None => 0 | Some p => stat.[p] ≫ 2 end in
  let l := remaining_loop 32 pers (mkRem cv (-1) k ptr stat lv (n_end + eq2)) (snd f) in
  decode_abs_levels s c_idx tsb erf ctx_set idxs stat c =
  if negb (cv =? 0)
  then ((rm_levels (fst l), rm_sum_abs (fst l), hidden, fst f, prev,
         rm_stat_coeff (fst l)), snd l)
  else ((lv, n_end + eq2, hidden, fst f, prev, stat), snd f).
Proof.
  cbv zeta. unfold decode_abs_levels, bind.
  destruct (get_greaterx_bits _ _ _ _ c) as [[[[cv lv] prev] eq2] c0]. cbn [fst snd].
  destruct (coeff_sign_flag_decode_alt1 _ c0) as [fl c1]. cbn [fst snd].
  destruct (negb (cv =? 0)); [|reflexivity].
  destruct (remaining_loop _ _ _ c1) as [r c2]. reflexivity.
Qed.

Lemma decode_abs_levels_sum s c_idx tsb erf ctx_set idxs stat :
  1 <= Z.of_nat (length idxs) <= 16 ->
  always (decode_abs_levels s c_idx tsb erf ctx_set idxs stat)
    (fun '(levels, sum_abs, _, _, _, _) =>
       length levels = 16%nat /\
       Z.odd sum_abs = Z.odd (Zsum (zth levels) (length idxs) 0)).
Proof.
  intros Hn c _.
  pose proof (decode_abs_levels_eq s c_idx tsb erf ctx_set idxs stat c) as E.
  cbv zeta in E.
  match type of E with context [get_greaterx_bits ?n ?l ?a ?b c] =>
    pose proof (greaterx_bits_post n l a b Hn (repeat_length 0 16) c I) as HG;
    destruct (get_greaterx_bits n l a b c) as [[[[cv lv] prev] eq2] c0] end.
  cbn [fst snd] in E, HG. destruct HG as (R1 & R2 & R3 & R4).
  rewrite E. clear E.
  destruct (Z.eqb_spec cv 0) as [->|Hne]; cbn [negb fst snd].
  - split; [exact R3|]. rewrite <- R4. f_equal. rewrite Nat2Z.id.
    apply Zsum_ext. intros j Hj. rewrite coded_weight_start by lia.
    unfold msb_bit. rewrite Z.bits_0. reflexivity.
  - match goal with |- context [remaining_loop 32 ?pers ?r ?c1] =>
      pose proof (remaining_loop_sum cv (Z.of_nat (length idxs)) pers
                    ltac:(lia) R2 32 r) as HL;
      specialize (HL) end.
    match type of HL with ?A -> ?B -> ?C -> _ =>
      assert (HA : A); [|assert (HC : C) by (cbn [rm_level]; lia)] end.
    { unfold loop_inv. cbn [rm_level rm_coded_vals rm_levels rm_sum_abs].
      split; [lia|]. split; [rewrite Z.shiftl_0_r, uint32_small by lia; reflexivity|].
      split; [exact R3|]. rewrite R4. reflexivity. }
    match goal with |- context [remaining_loop 32 ?pers ?r ?c1] =>
      specialize (HL HA Hne HC c1 I) end.
    cbv beta in HL. rewrite Nat2Z.id in HL. destruct HL as (H1 & H2 & _).
    split; assumption.
Qed.

(** * The properties of the specification *)

(** ** C1: context initialisation *)

(** C1, counterexample.  For an I slice at [slice_qp = 26] the first context
    (init value 153) has [pre = -15]: the code stores [pre ^ (pre >> 31) = 14]
    where the claim's [|pre|] is 15. *)
Lemma cabac_init_state_is_not_abs :
  (cabac_state (cabac_init_state I_SLICE false 26
                  (mkCabacTables (repeat 0 188) (repeat 0 4)))).[0] = 14 /\
  spec_init_state_value (init_value_at 0 0) 26 = 15 /\
  (cabac_state (cabac_init_state I_SLICE false 26
                  (mkCabacTables (repeat 0 188) (repeat 0 4)))).[0]
  <> spec_init_state_value (init_value_at 0 0) 26.
Proof. split; [|split]; [reflexivity | reflexivity | discriminate]. Qed.

(** C1, amended.  For every slice type, [cabac_init_flag] and [slice_qp],
    context initialisation picks init type I -> 0, P -> 2 if flag else 1,
    B -> 1 if flag else 2, and sets every context state [i] to the value of
    the formula with [m = (initValue>>4)*5-45], [n = ((initValue&15)<<3)-16],
    [pre = 2*(((m*clamp(slice_qp,0,51))>>4)+n)-127], where a negative [pre]
    is replaced by its bitwise complement [-pre-1] (not by [|pre|]) and a
    result above 124 is capped to [124+(pre&1)]. *)
Theorem cabac_init_state_formula (slice_type : SliceType) (cabac_init_flag : bool)
    (slice_qp : Z) (t : CabacTables) (i : Z) :
  length (cabac_state t) = Z.to_nat HEVC_CONTEXTS ->
  0 <= i < HEVC_CONTEXTS ->
  let init_type :=
    match slice_type with
    | I_SLICE => 0
    | P_SLICE => if cabac_init_flag then 2 else 1
    | B_SLICE => if cabac_init_flag then 1 else 2
    end in
  init_type_of slice_type cabac_init_flag = init_type /\
  let init_value := init_value_at init_type i in
  let m := (init_value ≫ 4) * 5 - 45 in
  let n := ((Z.land init_value 15) ≪ 3) - 16 in
  let pre := 2 * (((m * av_clip slice_qp 0 51) ≫ 4) + n) - 127 in
  let pre := if pre <? 0 then - pre - 1 else pre in
  let pre := if pre >? 124 then 124 + Z.land pre 1 else pre in
  (cabac_state (cabac_init_state slice_type cabac_init_flag slice_qp t)).[i] = pre.
Proof.
  intros Hlen Hi. cbv zeta. split; [apply init_type_of_cases|].
  rewrite cabac_init_state_zth by assumption.
  rewrite init_type_of_cases.
  apply init_state_value_formula, init_value_at_byte.
Qed.

Lemma cabac_init_state_formula_witness :
  length (repeat 0 188) = Z.to_nat HEVC_CONTEXTS /\ 0 <= 1 < HEVC_CONTEXTS /\
  (cabac_state (cabac_init_state P_SLICE true 30
                  (mkCabacTables (repeat 0 188) (repeat 0 4)))).[1] = 124.
Proof.
  split; [reflexivity|]. split; [split; [discriminate | reflexivity]|].
  apply (proj2 (cabac_init_state_formula P_SLICE true 30
                  (mkCabacTables (repeat 0 188) (repeat 0 4)) 1 eq_refl
                  ltac:(split; [discriminate | reflexivity]))).
Defined.

(** ** C2: the Rice parameter inside a subblock *)

(** C2, counterexample.  In the default configuration, with [k = 0] and a
    coefficient whose baseline is 3, the remainder 1 is not greater than
    [3<<0] but the code raises [k] to 1, because it compares the whole
    level [3 + 1]; with persistent Rice adaptation, [k = 4] and remainder
    49, the code moves to [k = 5], above the claim's cap of 4. *)
Lemma rice_update_is_not_on_remainder :
  (fst (coeff_abs_level_remaining_decode_alt1 0 (engine_of [true; false])) = 1 /\
   rm_c_rice_param
     (fst (remaining_step false (ex_rem_state 0) (engine_of [true; false]))) = 1 /\
   spec_next_rice_param 0 1 = 0) /\
  (fst (coeff_abs_level_remaining_decode_alt1 4
          (engine_of [true; true; true; false; false; false; false; true])) = 49 /\
   rm_c_rice_param
     (fst (remaining_step true (ex_rem_state 4)
             (engine_of [true; true; true; false; false; false; false; true]))) = 5 /\
   spec_next_rice_param 4 49 = 4).
Proof. repeat split; reflexivity. Qed.

(** C2, amended.  In the remainder loop the Rice parameter [k] is updated
    exactly when the coefficient's level (its baseline plus the decoded
    remainder) is greater than [3<<k]: to [min(k+1, 4)] in the default
    configuration and to [k+1], without a cap, with persistent Rice
    adaptation.  So over every sequence of remainders of a subblock [k]
    never decreases, and in the default configuration it stays at most 4. *)
Theorem rice_parameter_update (pers : bool) (r : RemState) (c : CABACContext)
    (fuel : nat) :
  let k := rm_c_rice_param r in
  let remainder := fst (coeff_abs_level_remaining_decode_alt1 k c) in
  let baseline := (rm_levels r).[rm_level r + (clz32 (rm_coded_vals r) + 1)] in
  let level := int32 (baseline + remainder) in
  rm_c_rice_param (fst (remaining_step pers r c)) =
    (if level >? (3 ≪ k)
     then if pers then k + 1 else Z.min (k + 1) 4
     else k) /\
  (pers = true -> k <= rm_c_rice_param (fst (remaining_loop fuel pers r c))) /\
  (pers = false -> k <= 4 ->
   k <= rm_c_rice_param (fst (remaining_loop fuel pers r c)) <= 4).
Proof.
  cbv zeta. split.
  - rewrite remaining_step_eq. cbv zeta. cbn [fst rm_c_rice_param].
    apply next_rice_param_cases.
  - exact (remaining_loop_rice fuel pers r c I).
Qed.

Lemma rice_parameter_update_witness :
  0 <= 4 /\
  0 <= rm_c_rice_param
         (fst (remaining_loop 32 false (ex_rem_state 0) (engine_of [true; false]))) <= 4.
Proof.
  split; [discriminate|].
  apply (proj2 (proj2 (rice_parameter_update false (ex_rem_state 0)
                         (engine_of [true; false]) 32)));
    [reflexivity | discriminate].
Defined.

(** ** C3: unary prefixes that reach CABAC_MAX_BIN *)


(** The same prefix in a block with two coefficients, where the
    remainders are decoded by [coeff_abs_level_remaining_decode_alt1]:
    nothing is logged, the remainder read from the 31 one-bins is 1046530,
    and the coefficient is stored with level 3 + 1046530, saturated to
    32767. *)
Lemma overflow_is_not_noticed :
  let r := residual_decode ex_intra 2 SCAN_DIAG 0 [0; 0; 0; 0] (repeat 0 16)
             (engine_of ex_bins_overflow2) in
  av_log_errors (snd r) = [] /\
  d_assigned (fst r) = [4; 0] /\
  fst (coeff_abs_level_remaining_decode_alt1 0
         (engine_of (repeat true 31 ++ repeat false 30))) = 1046530 /\
  (d_coeffs (fst r)).[4] = trans_scale_sat (3 + 1046530) 51 16 0 /\
  (d_coeffs (fst r)).[4] = 32767.
Proof. repeat split; vm_compute; reflexivity. Qed.



(** ** C4: the size of the context table *)

(** C4, counterexample.  The offsets and context counts of the source lay
    out 178 states, not 188: the last element starts at 177 and has one
    context, and the counts sum to 178. *)
Lemma context_layout_is_not_188 :
  elem_offset CU_CHROMA_QP_OFFSET_IDX + num_bins CU_CHROMA_QP_OFFSET_IDX = 178 /\
  Zsum (zth num_bins_in_se) (length num_bins_in_se) 0 = 178 /\
  Zsum (zth num_bins_in_se) (length num_bins_in_se) 0 <> 188.
Proof. split; [|split]; [reflexivity | reflexivity | discriminate]. Qed.

Lemma elem_offset_prefix_sum e :
  elem_offset e = Zsum (zth num_bins_in_se) (Z.to_nat (se_index e)) 0.
Proof. destruct e; reflexivity. Qed.

Lemma elem_offset_in_table e j :
  0 <= j < num_bins e -> 0 <= elem_offset e + j < CONTEXTS_LAID_OUT.
Proof.
  unfold CONTEXTS_LAID_OUT.
  destruct e;
    match goal with |- context [num_bins ?x] =>
      let v := eval vm_compute in (num_bins x) in change (num_bins x) with v end;
    match goal with |- context [elem_offset ?x] =>
      let v := eval vm_compute in (elem_offset x) in change (elem_offset x) with v end;
    lia.
Qed.

Lemma memcpy_all (dst src : list Z) n :
  length dst = Z.to_nat n -> length src = Z.to_nat n -> memcpy dst src n = src.
Proof.
  intros Hd Hs. unfold memcpy.
  rewrite firstn_all2 by lia. rewrite skipn_all2 by lia. apply app_nil_r.
Qed.

(** C4, amended.  The context table has [HEVC_CONTEXTS] one-byte states
    (188 in the specification; the constant is declared outside the
    sources), of which the per-element offsets and context counts lay out
    178: each offset is the sum of the counts of the elements before it,
    the counts sum to 178, each init type has 178 initialisers, every index
    [elem_offset[e] + j] with [j] below the element's count is below 178,
    every context index the residual decoder and the motion-vector
    difference decoder pass to the engine is below 178, and the WPP
    save/load snapshot copies [HEVC_CONTEXTS] bytes. *)
Theorem context_table_layout (e : SyntaxElement) (j : Z) (s : HEVCContext)
    (log2_trafo_size : Z) (scan_idx : ScanType) (c_idx : Z)
    (stat_coeff coeffs : list Z) (c : CABACContext)
    (ctb_width ctb_addr_ts : Z) (saved live : list Z) :
  0 <= j < num_bins e ->
  2 <= log2_trafo_size <= 5 ->
  ctx_ok c ->
  length saved = Z.to_nat HEVC_CONTEXTS -> length live = Z.to_nat HEVC_CONTEXTS ->
  Z.rem ctb_addr_ts ctb_width = 2 \/ (ctb_width = 2 /\ Z.rem ctb_addr_ts ctb_width = 0) ->
  HEVC_CONTEXTS = 188 /\ CONTEXTS_LAID_OUT = 178 /\
  elem_offset e = Zsum (zth num_bins_in_se) (Z.to_nat (se_index e)) 0 /\
  Zsum (zth num_bins_in_se) (length num_bins_in_se) 0 = CONTEXTS_LAID_OUT /\
  Forall (fun row => Z.of_nat (length row) = CONTEXTS_LAID_OUT) init_values /\
  0 <= elem_offset e + j < CONTEXTS_LAID_OUT /\
  ctx_ok (snd (residual_decode s log2_trafo_size scan_idx c_idx stat_coeff coeffs c)) /\
  ctx_ok (snd (ff_hevc_hls_mvd_coding c)) /\
  ff_hevc_save_states true ctb_width ctb_addr_ts saved live = live /\
  load_states saved live = saved.
Proof.
  intros Hj HL Hc Hs Hl Hw.
  split; [reflexivity|]. split; [reflexivity|].
  split; [apply elem_offset_prefix_sum|]. split; [reflexivity|].
  split; [repeat constructor|].
  split; [apply elem_offset_in_table; exact Hj|].
  split; [apply (keeps_ctx_residual_decode s _ scan_idx c_idx stat_coeff coeffs HL c Hc)|].
  split; [apply (keeps_ctx_mvd_coding c Hc)|].
  split; [|apply memcpy_all; assumption].
  unfold ff_hevc_save_states. cbn [andb].
  replace ((Z.rem ctb_addr_ts ctb_width =? 2) ||
           ((ctb_width =? 2) && (Z.rem ctb_addr_ts ctb_width =? 0))) with true.
  - apply memcpy_all; assumption.
  - symmetry. apply orb_true_iff. destruct Hw as [Hw|[Hw1 Hw2]].
    + left. apply Z.eqb_eq. exact Hw.
    + right. rewrite Hw1 in *. rewrite Hw2. reflexivity.
Qed.

Lemma context_table_layout_witness :
  0 <= 1 < num_bins SKIP_FLAG /\ 2 <= 2 <= 5 /\ ctx_ok (engine_of ex_bins_dc) /\
  0 <= elem_offset SKIP_FLAG + 1 < CONTEXTS_LAID_OUT /\
  ff_hevc_save_states true 4 2 (repeat 0 188) (repeat 1 188) = repeat 1 188.
Proof.
  assert (H1 : 0 <= 1 < num_bins SKIP_FLAG) by (split; [discriminate | reflexivity]).
  assert (H2 : 2 <= 2 <= 5) by (split; discriminate).
  assert (H3 : ctx_ok (engine_of ex_bins_dc)) by constructor.
  split; [exact H1|]. split; [exact H2|]. split; [exact H3|].
  pose proof (context_table_layout SKIP_FLAG 1 ex_intra 2 SCAN_DIAG 0 [0; 0; 0; 0]
                (repeat 0 16) (engine_of ex_bins_dc) 4 2 (repeat 0 188) (repeat 1 188)
                H1 H2 H3 eq_refl eq_refl (or_introl eq_refl)) as H.
  split; [apply H | apply H].
Defined.

(** ** C5: sign data hiding *)

Lemma decode_abs_levels_flags s c_idx tsb erf ctx_set idxs stat c :
  let n_end := Z.of_nat (length idxs) in
  let '(_, _, sign_hidden, coeff_sign_flags, _, _) :=
    fst (decode_abs_levels s c_idx tsb erf ctx_set idxs stat c) in
  sign_hidden = sign_hidden_of s c_idx tsb erf idxs n_end /\
  coeff_sign_flags =
    fst (coeff_sign_flag_decode_alt1 (uint8 (n_end - b2z sign_hidden))
           (sign_engine c_idx ctx_set n_end c)).
Proof.
  cbv zeta.
  pose proof (decode_abs_levels_eq s c_idx tsb erf ctx_set idxs stat c) as E.
  cbv zeta in E. unfold sign_engine.
  destruct (get_greaterx_bits _ _ _ _ c) as [[[[cv lv] prev] eq2] c0].
  cbn [fst snd] in E |- *. rewrite E.
  destruct (negb (cv =? 0)); cbn [fst]; split; reflexivity.
Qed.

(** C5.  For every subblock with at least two significant coefficients the
    sign of the last coefficient is hidden exactly when
    [sign_data_hiding_flag] is set, the CU is not transquant-bypass, it is
    not (intra with implicit RDPCM and transform-skip/bypass and intra
    prediction mode 10 or 26), [explicit_rdpcm_flag] is 0 and the first
    significant scan position minus the last one is greater than 3.  Then
    the last level is negated exactly when [sum_abs] is odd, and [sum_abs]
    has the parity of the sum of the absolute levels; one sign bin fewer is
    read.  Every sign that is not hidden is the corresponding bypass bin. *)
Theorem sign_data_hiding_rule (s : HEVCContext) (c_idx : Z)
    (trans_skip_or_bypass : bool) (explicit_rdpcm_flag ctx_set : Z)
    (significant_coeff_flag_idx stat_coeff : list Z) (c : CABACContext) :
  let n_end := Z.of_nat (length significant_coeff_flag_idx) in
  2 <= n_end <= 16 ->
  let pred_mode_intra :=
    if c_idx =? 0 then intra_pred_mode (tu s) else intra_pred_mode_c (tu s) in
  let '(abs_levels, sum_abs, sign_hidden, coeff_sign_flags, _, _) :=
    fst (decode_abs_levels s c_idx trans_skip_or_bypass explicit_rdpcm_flag ctx_set
           significant_coeff_flag_idx stat_coeff c) in
  let '(levels, coeff_sign_flags', _, _) :=
    fst (decode_levels s c_idx trans_skip_or_bypass explicit_rdpcm_flag ctx_set
           significant_coeff_flag_idx stat_coeff c) in
  let sign_bins := bins (sign_engine c_idx ctx_set n_end c) in
  (sign_hidden = true <->
   sign_data_hiding_flag (pps s) = true /\
   cu_transquant_bypass_flag (cu s) = false /\
   ~ (pred_mode (cu s) = MODE_INTRA /\ implicit_rdpcm_enabled_flag (sps s) = true /\
      trans_skip_or_bypass = true /\ (pred_mode_intra = 10 \/ pred_mode_intra = 26)) /\
   explicit_rdpcm_flag = 0 /\
   significant_coeff_flag_idx.[0] - significant_coeff_flag_idx.[n_end - 1] > 3) /\
  Z.odd sum_abs = Z.odd (Zsum (zth abs_levels) (length significant_coeff_flag_idx) 0) /\
  levels = (if sign_hidden && Z.odd sum_abs
            then zset abs_levels (n_end - 1) (int32 (- abs_levels.[n_end - 1]))
            else abs_levels) /\
  coeff_sign_flags' = coeff_sign_flags /\
  forall m, 0 <= m < n_end ->
    signed_level levels coeff_sign_flags m =
    if (m <? n_end - b2z sign_hidden) && nth (Z.to_nat m) sign_bins false
    then int32 (- levels.[m]) else levels.[m].
Proof.
  cbv zeta. intros Hn.
  pose proof (decode_abs_levels_sum s c_idx trans_skip_or_bypass explicit_rdpcm_flag
                ctx_set significant_coeff_flag_idx stat_coeff ltac:(lia) c I) as HS.
  pose proof (decode_abs_levels_flags s c_idx trans_skip_or_bypass explicit_rdpcm_flag
                ctx_set significant_coeff_flag_idx stat_coeff c) as HF.
  cbv zeta beta in HS, HF. unfold decode_levels, bind.
  destruct (decode_abs_levels s c_idx trans_skip_or_bypass explicit_rdpcm_flag ctx_set
              significant_coeff_flag_idx stat_coeff c)
    as [[[[[[lv sa] hd] fl] pv] st] c'].
  cbn [fst snd ret] in *. destruct HS as [Hlen Hodd]. destruct HF as [Hhd Hfl].
  split; [rewrite Hhd; apply sign_hidden_of_iff|].
  split; [exact Hodd|].
  split; [apply hide_sign_cases|].
  split; [reflexivity|].
  intros m Hm. rewrite signed_level_flag by lia.
  assert (Hnb : uint8 (Z.of_nat (length significant_coeff_flag_idx) - b2z hd) =
                Z.of_nat (length significant_coeff_flag_idx) - b2z hd).
  { apply uint8_small. pose proof (b2z_range hd). lia. }
  rewrite Hfl at 1. rewrite Hnb.
  rewrite sign_flags_bits by (pose proof (b2z_range hd); lia). reflexivity.
Qed.

Lemma sign_data_hiding_rule_witness :
  2 <= Z.of_nat (length [5; 0]) <= 16 /\
  fst (fst (fst (fst (decode_levels ex_intra_sdh 0 false 0 0 [5; 0] [0; 0; 0; 0]
         (engine_of [true; true; true; true; false; false; true]))))) =
  [3; -2; 0; 0; 0; 0; 0; 0; 0; 0; 0; 0; 0; 0; 0; 0].
Proof.
  assert (H : 2 <= Z.of_nat (length [5; 0]) <= 16) by (split; discriminate).
  split; [exact H|].
  pose proof (sign_data_hiding_rule ex_intra_sdh 0 false 0 0 [5; 0] [0; 0; 0; 0]
                (engine_of [true; true; true; true; false; false; true]) H) as R.
  match type of R with context [decode_abs_levels ?a ?b ?c ?d ?e ?f ?g ?h] =>
    let v := eval vm_compute in (decode_abs_levels a b c d e f g h) in
    change (decode_abs_levels a b c d e f g h) with v in R end.
  match type of R with context [decode_levels ?a ?b ?c ?d ?e ?f ?g ?h] =>
    let v := eval vm_compute in (decode_levels a b c d e f g h) in
    change (decode_levels a b c d e f g h) with v in R end.
  cbv beta iota zeta delta [fst] in R.
  destruct R as (_ & _ & R & _). vm_compute. exact R.
Defined.

(** ** C6: a single DC coefficient *)

(** C6, counterexample.  A 4x4 luma intra block of 8-bit video at qp 26
    whose bins encode last = (0,0), greater-1 flag 0, sign 0: the
    dequantisation parameters are scale 51 and shift 0, and the
    coefficient is 408, where the claim has 40, 2 and 80. *)
Lemma single_dc_is_not_80 :
  let d := fst (residual_decode ex_intra 2 SCAN_DIAG 0 [0; 0; 0; 0] (repeat 0 16)
                  (engine_of ex_bins_dc)) in
  scale (d_dequant d) = 51 /\ scale (d_dequant d) <> 40 /\
  shift (d_dequant d) = 0 /\ shift (d_dequant d) <> 2 /\
  (d_coeffs d).[0] = 408 /\ (d_coeffs d).[0] <> 80.
Proof. repeat split; try reflexivity; discriminate. Qed.

(** C6, amended.  For a 4x4 luma intra block of 8-bit video at qp = 26
    with flat (non-scaling-list) dequantisation, a bitstream encoding
    last = (0,0), sig = 1, gt1 = 0, sign = 0 produces the dequantisation
    parameters scale = 51 ([level_scale[26 % 6]]), shift = 0, dc_scale = 16,
    and coefficient[0] = sat16(((1*51*16)>>0 + 1)>>1) = 408 with every
    other coefficient zero. *)
Theorem single_dc_coefficient (s : HEVCContext) (scan_idx : ScanType)
    (stat_coeff coeffs : list Z) (rest : list bool) (tr er : list Z) :
  bit_depth (sps s) = 8 -> qp_bd_offset (sps s) = 0 -> qp_y s = 26 ->
  cu_transquant_bypass_flag (cu s) = false ->
  transform_skip_enabled_flag (pps s) = false ->
  scaling_list_enable_flag (sps s) = false ->
  pred_mode (cu s) = MODE_INTRA ->
  length coeffs = 16%nat ->
  let d := fst (residual_decode s 2 scan_idx 0 stat_coeff coeffs
                  (mkCABAC (false :: false :: false :: false :: rest) tr er)) in
  d_dequant d = mkDequant 51 0 sixteen_scale 16 /\
  trans_scale_sat 1 51 16 0 = 408 /\
  d_coeffs d = 408 :: repeat 0 15 /\
  d_assigned d = [0].
Proof.
  intros H1 H2 H3 H4 H5 H6 H7 Hl.
  destruct s as [sp pp shh cuu tuu qy dsp]. destruct sp, pp, cuu.
  cbn in H1, H2, H3, H4, H5, H6, H7. subst.
  do 17 (destruct coeffs as [|? coeffs]; try discriminate Hl). clear Hl.
  destruct scan_idx; vm_compute; repeat split; reflexivity.
Qed.

Lemma single_dc_coefficient_witness :
  d_coeffs (fst (residual_decode ex_intra 2 SCAN_DIAG 0 [0; 0; 0; 0] (repeat 7 16)
                   (engine_of ex_bins_dc))) = 408 :: repeat 0 15.
Proof.
  exact (proj1 (proj2 (proj2
    (single_dc_coefficient ex_intra SCAN_DIAG [0; 0; 0; 0] (repeat 7 16) [] [] []
       eq_refl eq_refl eq_refl eq_refl eq_refl eq_refl eq_refl eq_refl)))).
Defined.

(** ** C7: persistent Rice adaptation *)

(** C7, counterexample.  With [stat_coeff = 4] (so [k = 1]) a first
    remainder 1 decrements the statistic, and with [stat_coeff = 2]
    ([k = 0]) a first remainder 0 does, where the claim decrements only
    for [k > 0] and remainder 0; the same in a block: the
    single-coefficient branch with remainder 1 leaves [stat_coeff[2] = 3]. *)
Lemma stat_coeff_decrement_differs :
  update_rice 4 1 1 = 3 /\ spec_update_stat_coeff 4 1 1 = 4 /\
  update_rice 2 0 0 = 1 /\ spec_update_stat_coeff 2 0 0 = 2 /\
  fst (decode_single_level ex_intra_persistent 0 false 0 [0; 0; 4; 0]
         (engine_of [true; true; false; false; true])) = (4, 1, [0; 0; 3; 0]).
Proof. repeat split; reflexivity. Qed.

Lemma decode_abs_levels_stat s c_idx tsb erf ctx_set idxs stat c :
  persistent_rice_adaptation_enabled_flag (sps s) = true ->
  let n_end := Z.of_nat (length idxs) in
  let idx_delta := (if c_idx >? 0 then 4 else 0) + ctx_set in
  let idx0 := elem_offset COEFF_ABS_LEVEL_GREATER1_FLAG + (idx_delta ≪ 2) in
  let idx_gt2 := elem_offset COEFF_ABS_LEVEL_GREATER2_FLAG + idx_delta in
  let g := get_greaterx_bits n_end (repeat 0 16) idx0 idx_gt2 c in
  let hidden := sign_hidden_of s c_idx tsb erf idxs n_end in
  let c1 := snd (coeff_sign_flag_decode_alt1 (uint8 (n_end - b2z hidden)) (snd g)) in
  let p := stat_coeff_idx c_idx tsb in
  let k := stat.[p] ≫ 2 in
  let first_remainder := fst (coeff_abs_level_remaining_decode_alt1 k c1) in
  snd (fst (decode_abs_levels s c_idx tsb erf ctx_set idxs stat c)) =
  if fst (fst (fst (fst g))) =? 0 then stat
  else zset stat p (update_rice stat.[p] first_remainder k).
Proof.
  intros Hp. cbv zeta.
  pose proof (decode_abs_levels_eq s c_idx tsb erf ctx_set idxs stat c) as E.
  cbv zeta in E. rewrite Hp in E. cbn [negb] in E.
  destruct (get_greaterx_bits _ _ _ _ c) as [[[[cv lv] prev] eq2] c0].
  cbn [fst snd] in E |- *. rewrite E.
  destruct (cv =? 0); cbn [negb fst snd]; [reflexivity|].
  rewrite remaining_loop_stat. reflexivity.
Qed.

Lemma decode_single_level_stat s c_idx tsb ctx_set stat sign rest tr er :
  persistent_rice_adaptation_enabled_flag (sps s) = true ->
  let idx_delta := (if c_idx >? 0 then 4 else 0) + ctx_set in
  let p := stat_coeff_idx c_idx tsb in
  let k := stat.[p] ≫ 2 in
  let r := coeff_abs_level_remaining_decode k
             (mkCABAC rest
                (elem_offset COEFF_ABS_LEVEL_GREATER2_FLAG + idx_delta ::
                 elem_offset COEFF_ABS_LEVEL_GREATER1_FLAG + (idx_delta ≪ 2) + 1 :: tr)
                er) in
  fst (decode_single_level s c_idx tsb ctx_set stat
         (mkCABAC (true :: true :: sign :: rest) tr er)) =
  (if sign then int32 (- int32 (3 + fst r)) else int32 (3 + fst r), 1,
   zset stat p (update_rice stat.[p] (fst r) k)).
Proof.
  intros Hp. cbv zeta. unfold decode_single_level. rewrite Hp.
  unfold bind, get_cabac, get_cabac_bypass, next_bin.
  cbn [bins b2z ctx_trace av_log_errors ret Z.eqb negb].
  destruct (coeff_abs_level_remaining_decode _ _) as [rem c'].
  destruct sign; reflexivity.
Qed.

(** C7, amended.  With persistent Rice adaptation the Rice parameter of a
    subblock is seeded as [k = stat_coeff >> 2], and [stat_coeff] is
    updated at most once per subblock, from the first decoded remainder
    only (not at all when no remainder is pending): incremented if
    [remainder >> k >= 3], decremented if [remainder >> k == 0] and
    [stat_coeff > 0], and left alone otherwise.  It stays in [0, 255]
    across the update: with the seeded [k] an increment needs
    [stat_coeff <= 123], a 32-bit remainder being less than [3 << 31]. *)
Theorem persistent_rice_statistics (s : HEVCContext) (c_idx : Z)
    (trans_skip_or_bypass : bool) (explicit_rdpcm_flag ctx_set : Z)
    (significant_coeff_flag_idx stat_coeff : list Z) (c : CABACContext)
    (sign : bool) (rest : list bool) :
  persistent_rice_adaptation_enabled_flag (sps s) = true ->
  let p := stat_coeff_idx c_idx trans_skip_or_bypass in
  0 <= stat_coeff.[p] <= 255 ->
  let k := stat_coeff.[p] ≫ 2 in
  let n_end := Z.of_nat (length significant_coeff_flag_idx) in
  let idx_delta := (if c_idx >? 0 then 4 else 0) + ctx_set in
  let idx0 := elem_offset COEFF_ABS_LEVEL_GREATER1_FLAG + (idx_delta ≪ 2) in
  let idx_gt2 := elem_offset COEFF_ABS_LEVEL_GREATER2_FLAG + idx_delta in
  (* the general branch *)
  (let g := get_greaterx_bits n_end (repeat 0 16) idx0 idx_gt2 c in
   let coded_vals := fst (fst (fst (fst g))) in
   let sign_hidden :=
     sign_hidden_of s c_idx trans_skip_or_bypass explicit_rdpcm_flag
       significant_coeff_flag_idx n_end in
   let c1 := snd (coeff_sign_flag_decode_alt1 (uint8 (n_end - b2z sign_hidden)) (snd g)) in
   let first_remainder := fst (coeff_abs_level_remaining_decode_alt1 k c1) in
   snd (fst (decode_abs_levels s c_idx trans_skip_or_bypass explicit_rdpcm_flag ctx_set
               significant_coeff_flag_idx stat_coeff c)) =
   if coded_vals =? 0 then stat_coeff
   else zset stat_coeff p (update_rice stat_coeff.[p] first_remainder k)) /\
  (* the single-coefficient branch, greater-1 and greater-2 flags set *)
  (bins c = true :: true :: sign :: rest ->
   let r := coeff_abs_level_remaining_decode k
              (mkCABAC rest (idx_gt2 :: idx0 + 1 :: ctx_trace c) (av_log_errors c)) in
   fst (decode_single_level s c_idx trans_skip_or_bypass ctx_set stat_coeff c) =
   (if sign then int32 (- int32 (3 + fst r)) else int32 (3 + fst r), 1,
    zset stat_coeff p (update_rice stat_coeff.[p] (fst r) k))) /\
  (* the update *)
  (forall remainder,
     let x := uint32 remainder ≫ k in
     update_rice stat_coeff.[p] remainder k =
       (if x >=? 3 then stat_coeff.[p] + 1
        else if (x =? 0) && (stat_coeff.[p] >? 0) then stat_coeff.[p] - 1
        else stat_coeff.[p]) /\
     (3 <= x -> stat_coeff.[p] <= 123) /\
     0 <= update_rice stat_coeff.[p] remainder k <= 255).
Proof.
  intros Hp. cbv zeta. intros Hs. split; [|split].
  - apply decode_abs_levels_stat. exact Hp.
  - intros Hb. destruct c as [bs tr er]. cbn [bins ctx_trace av_log_errors] in *. subst bs.
    apply decode_single_level_stat. exact Hp.
  - intros remainder. apply update_rice_seeded. exact Hs.
Qed.

Lemma persistent_rice_statistics_witness :
  persistent_rice_adaptation_enabled_flag (sps ex_intra_persistent) = true /\
  0 <= [0; 0; 4; 0].[2] <= 255 /\
  update_rice 4 1 1 = 3.
Proof.
  assert (H : 0 <= [0; 0; 4; 0].[stat_coeff_idx 0 false] <= 255) by (split; discriminate).
  split; [reflexivity|]. split; [exact H|].
  exact (proj1 (proj2 (proj2
           (persistent_rice_statistics ex_intra_persistent 0 false 0 0 [5; 0]
              [0; 0; 4; 0] (engine_of []) false [] eq_refl H)) 1)).
Defined.

(** ** C8: saturation *)








(** ** C9: transquant bypass *)

Lemma zth_repeat v n k : 0 <= k < Z.of_nat n -> (repeat v n).[k] = v.
Proof.
  intros Hk. unfold zth. apply (repeat_spec n v).
  apply nth_In. rewrite repeat_length. lia.
Qed.

Lemma bypass_scale_m L x_cg y_cg sxo syo pos :
  2 <= L <= 5 ->
  0 <= (x_cg ≪ 2) + sxo.[pos] < 2 ^ L ->
  0 <= (y_cg ≪ 2) + syo.[pos] < 2 ^ L ->
  scale_m_of (mkDequant 2 0 unit_scale 1) L x_cg y_cg sxo syo pos = 1.
Proof.
  intros HL Hx Hy. unfold scale_m_of. cbv zeta. cbn [scale_matrix dc_scale].
  set (x := (x_cg ≪ 2) + sxo.[pos]) in *. set (y := (y_cg ≪ 2) + syo.[pos]) in *.
  destruct (negb (_ =? 0)); [|reflexivity].
  unfold unit_scale. apply zth_repeat.
  change (Z.of_nat 64) with 64.
  assert (HLc : L = 2 \/ L = 3 \/ L = 4 \/ L = 5) by lia.
  destruct HLc as [-> | [-> | [-> | ->]]].
  - change (2 - 3 >=? 0) with false. cbv iota.
    rewrite !Z.shiftl_mul_pow2 by lia. change (2 ^ 2) with 4 in *. lia.
  - change (3 - 3) with 0. change (0 >=? 0) with true. cbv iota.
    rewrite !Z.shiftr_0_r, Z.shiftl_mul_pow2 by lia.
    change (2 ^ 3) with 8 in *. lia.
  - change (4 - 3) with 1. change (1 >=? 0) with true. cbv iota.
    rewrite !Z.shiftr_div_pow2, Z.shiftl_mul_pow2 by lia.
    change (2 ^ 1) with 2. change (2 ^ 3) with 8. change (2 ^ 4) with 16 in *.
    pose proof (Z.div_pos x 2 ltac:(lia) ltac:(lia)).
    pose proof (Z.div_pos y 2 ltac:(lia) ltac:(lia)).
    assert (x / 2 < 8) by (apply Z.div_lt_upper_bound; lia).
    assert (y / 2 < 8) by (apply Z.div_lt_upper_bound; lia). lia.
  - change (5 - 3) with 2. change (2 >=? 0) with true. cbv iota.
    rewrite !Z.shiftr_div_pow2, Z.shiftl_mul_pow2 by lia.
    change (2 ^ 2) with 4. change (2 ^ 3) with 8. change (2 ^ 5) with 32 in *.
    pose proof (Z.div_pos x 4 ltac:(lia) ltac:(lia)).
    pose proof (Z.div_pos y 4 ltac:(lia) ltac:(lia)).
    assert (x / 4 < 8) by (apply Z.div_lt_upper_bound; lia).
    assert (y / 4 < 8) by (apply Z.div_lt_upper_bound; lia). lia.
Qed.

(** C9.  For every transquant-bypass block the dequantisation parameters
    are scale = 2, shift = 0, the all-ones scale matrix and dc_scale = 1
    (and the engine is left alone); the scale factor looked up for every
    position of the block is 1; and [trans_scale_sat] is the identity on
    every level representable in 16 bits, so that the value stored for a
    signed level is the level. *)
Theorem transquant_bypass_identity (s : HEVCContext) (log2_trafo_size c_idx : Z)
    (c : CABACContext) (level x_cg y_cg pos : Z) (scan_x_off scan_y_off coeffs : list Z) :
  cu_transquant_bypass_flag (cu s) = true ->
  in_int16 level ->
  2 <= log2_trafo_size <= 5 ->
  0 <= (x_cg ≪ 2) + scan_x_off.[pos] < 2 ^ log2_trafo_size ->
  0 <= (y_cg ≪ 2) + scan_y_off.[pos] < 2 ^ log2_trafo_size ->
  let dq := mkDequant 2 0 unit_scale 1 in
  derive_dequant s log2_trafo_size c_idx c = ((true, dq), c) /\
  (forall k, 0 <= k < 64 -> (scale_matrix dq).[k] = 1) /\
  trans_scale_sat level 2 1 0 = level /\
  int32 (int32 (int32 (level * 2 * 1) ≫ 0) + 1) ≫ 1 = level /\
  store_coeff dq log2_trafo_size x_cg y_cg scan_x_off scan_y_off pos level coeffs =
    zset coeffs (t_offset_of log2_trafo_size x_cg y_cg scan_x_off scan_y_off pos) level.
Proof.
  intros Hb Hl HL Hx Hy. cbv zeta.
  split; [unfold derive_dequant; rewrite Hb; reflexivity|].
  split; [intros k Hk; apply zth_repeat; exact Hk|].
  split; [apply trans_scale_sat_bypass; exact Hl|].
  split.
  - unfold in_int16 in Hl. rewrite (int32_small (level * 2 * 1)) by lia.
    rewrite Z.shiftr_0_r. rewrite (int32_small (level * 2 * 1)) by lia.
    rewrite int32_small by lia.
    rewrite Z.shiftr_div_pow2 by lia. change (2 ^ 1) with 2.
    symmetry. apply Z.div_unique with (r := 1); lia.
  - unfold store_coeff. cbv zeta. cbn [scale shift].
    rewrite bypass_scale_m by assumption.
    rewrite trans_scale_sat_bypass by exact Hl.
    rewrite int16_small by exact Hl. reflexivity.
Qed.

Lemma transquant_bypass_identity_witness :
  fst (derive_dequant ex_bypass_cross 2 1 (engine_of ex_bins_dc)) =
    (true, mkDequant 2 0 unit_scale 1) /\
  trans_scale_sat (-32768) 2 1 0 = -32768 /\
  store_coeff (mkDequant 2 0 unit_scale 1) 2 0 0 scan_1x1 scan_1x1 0 (-5) [7; 7] = [-5; 7].
Proof.
  pose proof (transquant_bypass_identity ex_bypass_cross 2 1 (engine_of ex_bins_dc)
                (-32768) 0 0 0 scan_1x1 scan_1x1 [7; 7] eq_refl
                ltac:(split; discriminate) ltac:(split; discriminate)
                ltac:(split; [discriminate | reflexivity])
                ltac:(split; [discriminate | reflexivity])) as (A & _ & B & _).
  pose proof (transquant_bypass_identity ex_bypass_cross 2 1 (engine_of ex_bins_dc)
                (-5) 0 0 0 scan_1x1 scan_1x1 [7; 7] eq_refl
                ltac:(split; discriminate) ltac:(split; discriminate)
                ltac:(split; [discriminate | reflexivity])
                ltac:(split; [discriminate | reflexivity])) as (_ & _ & _ & _ & C).
  split; [rewrite A; reflexivity|]. split; [exact B | exact C].
Defined.

(** ** C10: the zeroed buffer *)

(** C10, counterexample.  A 4x4 chroma block of a transquant-bypass
    coding unit with cross-component prediction ([res_scale_val = 8]),
    whose only coefficient is the DC one, decoded into a buffer the
    caller did not zero, over luma coefficients 8: the only offset
    assigned is 0, and on return position 1 holds (8 * 8) >> 3 = 8. *)
Lemma unassigned_position_not_zero_on_return :
  let d := fst (residual_decode ex_bypass_cross 2 SCAN_DIAG 1 [0; 0; 0; 0] (repeat 7 16)
                  (engine_of ex_bins_dc)) in
  let r := fst (ff_hevc_hls_residual_coding ex_bypass_cross 2 SCAN_DIAG 1 [0; 0; 0; 0]
                  (repeat 8 16) (repeat 7 16) (engine_of ex_bins_dc)) in
  d_assigned d = [0] /\ ~ In 1 (d_assigned d) /\
  (d_coeffs d).[1] = 0 /\
  (block_coeffs 1 r).[1] = 8 /\ (block_coeffs 1 r).[1] <> 0 /\
  block_coeffs 1 r = 9 :: repeat 8 15.
Proof.
  cbv zeta. split; [reflexivity|]. split.
  - intros [H|[]]. discriminate H.
  - repeat split; try reflexivity. discriminate.
Qed.

Lemma residual_decode_no_explicit_rdpcm s L scan c_idx stat coeffs c :
  explicit_rdpcm_enabled_flag (sps s) = false ->
  d_explicit_rdpcm_flag (fst (residual_decode s L scan c_idx stat coeffs c)) = 0.
Proof.
  intros H. unfold residual_decode, bind, ret. rewrite H.
  rewrite andb_false_r. cbn [andb].
  destruct (derive_dequant s L c_idx c) as [[tsb dq] c0]. cbv beta iota.
  repeat match goal with
         | |- context [match ?x with (_, _) => _ end] => destruct x
         end.
  reflexivity.
Qed.

(** C10, amended.  The function itself zeroes all 4^L entries of the
    coefficient buffer before decoding, so at the end of coefficient
    decoding every position of the block that was not assigned a decoded
    significant coefficient is 0 whatever the buffer held on entry, and
    the buffer outside the block is as it was.  The inverse transform and
    the cross-component addition then rewrite the block in place; on
    return the zeros are still there when neither runs: a
    transquant-bypass block without RDPCM and without cross-component
    prediction. *)
Theorem coefficient_buffer_zeroed (s : HEVCContext) (log2_trafo_size : Z)
    (scan_idx : ScanType) (c_idx : Z) (stat_coeff edge_emu_buffer edge_emu_buffer2 : list Z)
    (c : CABACContext) (p : Z) :
  let n := (1 ≪ log2_trafo_size) * (1 ≪ log2_trafo_size) in
  let coeffs := if negb (c_idx =? 0) then edge_emu_buffer2 else edge_emu_buffer in
  let d := fst (residual_decode s log2_trafo_size scan_idx c_idx stat_coeff coeffs c) in
  let r := fst (ff_hevc_hls_residual_coding s log2_trafo_size scan_idx c_idx stat_coeff
                  edge_emu_buffer edge_emu_buffer2 c) in
  ~ In p (d_assigned d) ->
  (0 <= p < n -> (memset0 coeffs n).[p] = 0) /\
  (0 <= p < n -> (d_coeffs d).[p] = 0) /\
  (n <= p -> (d_coeffs d).[p] = coeffs.[p]) /\
  (cu_transquant_bypass_flag (cu s) = true ->
   implicit_rdpcm_enabled_flag (sps s) = false ->
   explicit_rdpcm_enabled_flag (sps s) = false ->
   cross_pf (tu s) = false ->
   block_coeffs c_idx r = d_coeffs d /\
   (0 <= p < n -> (block_coeffs c_idx r).[p] = 0)).
Proof.
  cbv zeta. intros Hn.
  set (coeffs := if negb (c_idx =? 0) then edge_emu_buffer2 else edge_emu_buffer) in *.
  pose proof (residual_decode_zero s log2_trafo_size scan_idx c_idx stat_coeff coeffs c I) as HZ.
  pose proof (residual_decode_outside s log2_trafo_size scan_idx c_idx stat_coeff coeffs c I)
    as HO.
  cbv beta in HZ, HO.
  assert (Hpos : 0 <= (1 ≪ log2_trafo_size) * (1 ≪ log2_trafo_size)).
  { assert (0 <= 1 ≪ log2_trafo_size) by (apply Z.shiftl_nonneg; lia). nia. }
  split; [intros Hp; apply memset0_zth; exact Hp|].
  split; [intros Hp; apply HZ; assumption|].
  split; [intros Hp; rewrite HO by (try assumption; lia); apply memset0_keep; lia|].
  intros Hb Hi He Hx.
  assert (E : block_coeffs c_idx
                (fst (ff_hevc_hls_residual_coding s log2_trafo_size scan_idx c_idx stat_coeff
                        edge_emu_buffer edge_emu_buffer2 c)) =
              d_coeffs (fst (residual_decode s log2_trafo_size scan_idx c_idx stat_coeff
                               coeffs c))).
  { pose proof (residual_decode_no_explicit_rdpcm s log2_trafo_size scan_idx c_idx
                  stat_coeff coeffs c He) as Hf.
    unfold ff_hevc_hls_residual_coding, bind. fold coeffs.
    destruct (residual_decode s log2_trafo_size scan_idx c_idx stat_coeff coeffs c) as [d c'].
    cbn [fst snd] in Hf |- *.
    unfold apply_transform. rewrite Hb, Hi, Hx, Hf. cbn [Z.eqb negb andb orb].
    unfold block_coeffs. destruct (negb (c_idx =? 0)); reflexivity. }
  split; [exact E|]. intros Hp. rewrite E. apply HZ; assumption.
Qed.

Lemma coefficient_buffer_zeroed_witness :
  ~ In 1 (d_assigned (fst (residual_decode ex_intra 2 SCAN_DIAG 0 [0; 0; 0; 0] (repeat 7 16)
                             (engine_of ex_bins_dc)))) /\
  (d_coeffs (fst (residual_decode ex_intra 2 SCAN_DIAG 0 [0; 0; 0; 0] (repeat 7 16)
                    (engine_of ex_bins_dc)))).[1] = 0.
Proof.
  assert (H : ~ In 1 (d_assigned (fst (residual_decode ex_intra 2 SCAN_DIAG 0 [0; 0; 0; 0]
                                         (repeat 7 16) (engine_of ex_bins_dc))))).
  { intros [H|[]]. discriminate H. }
  split; [exact H|].
  exact (proj1 (proj2 (coefficient_buffer_zeroed ex_intra 2 SCAN_DIAG 0 [0; 0; 0; 0]
                         (repeat 7 16) (repeat 9 16) (engine_of ex_bins_dc) 1 H))
           ltac:(split; [discriminate | reflexivity])).
Defined.

(** * Further properties of the code *)

(** ** Contexts of the coding-tree syntax elements *)

Lemma stays_in_ret e {A : Type} (a : A) (Q : A -> Prop) : Q a -> stays_in e (ret a) Q.
Proof. intros H c. exists []. split; [reflexivity|]. split; [constructor | exact H]. Qed.

Lemma stays_in_bind e {A B : Type} (m : Dec A) (f : A -> Dec B) (R : A -> Prop) Q :
  stays_in e m R -> (forall a, R a -> stays_in e (f a) Q) -> stays_in e (bind m f) Q.
Proof.
  intros Hm Hf c. unfold bind. destruct (Hm c) as (n1 & E1 & F1 & R1).
  destruct (m c) as [a c1]. cbn [fst snd] in *.
  destruct (Hf a R1 c1) as (n2 & E2 & F2 & Q2).
  exists (n2 ++ n1). split; [rewrite E2, E1; apply app_assoc|].
  split; [apply Forall_app; split; assumption | exact Q2].
Qed.

Lemma stays_in_weaken e {A : Type} (m : Dec A) (Q Q' : A -> Prop) :
  stays_in e m Q -> (forall a, Q a -> Q' a) -> stays_in e m Q'.
Proof.
  intros H HQ c. destruct (H c) as (n & E & F & q). exists n. auto.
Qed.

Lemma stays_in_get_cabac e i : elem_range e i -> stays_in e (get_cabac i) is_bit.
Proof.
  intros Hi c. exists [i]. unfold get_cabac.
  pose proof (next_bin_is_bit c) as Hb. destruct (next_bin c) as [b r].
  cbn [fst snd ctx_trace] in *. split; [reflexivity|].
  split; [constructor; [exact Hi | constructor] | exact Hb].
Qed.

Lemma stays_in_bypass e : stays_in e get_cabac_bypass is_bit.
Proof.
  intros c. exists []. unfold get_cabac_bypass.
  pose proof (next_bin_is_bit c) as Hb. destruct (next_bin c) as [b r].
  cbn [fst snd ctx_trace] in *. split; [reflexivity|]. split; [constructor | exact Hb].
Qed.

Lemma stays_in_av_log e k : stays_in e (av_log_CABAC_MAX_BIN k) (fun _ => True).
Proof. intros c. exists []. split; [reflexivity|]. split; [constructor | exact I]. Qed.

Lemma stays_in_unary_bypass e n k :
  stays_in e (unary_bypass n k) (fun r => k <= r <= k + Z.of_nat n).
Proof.
  revert k. induction n as [|n IH]; intros k; cbn [unary_bypass].
  - apply stays_in_ret. lia.
  - eapply stays_in_bind; [apply stays_in_bypass|]. intros b _.
    destruct (b =? 0); [apply stays_in_ret; lia|].
    eapply stays_in_weaken; [apply IH|]. cbv beta. intros; lia.
Qed.

Lemma stays_in_read_suffix e n v : stays_in e (read_suffix n v) (fun _ => True).
Proof.
  revert v. induction n as [|n IH]; intros v; cbn [read_suffix].
  - apply stays_in_ret. exact I.
  - eapply stays_in_bind; [apply stays_in_bypass|]. intros b _. apply IH.
Qed.

Lemma stays_in_unary_ctx e n i ctx :
  (forall j, i <= j < i + Z.of_nat n -> elem_range e (ctx j)) ->
  stays_in e (unary_ctx n i ctx) (fun r => i <= r <= i + Z.of_nat n).
Proof.
  revert i. induction n as [|n IH]; intros i Hc; cbn [unary_ctx].
  - apply stays_in_ret. lia.
  - eapply stays_in_bind; [apply stays_in_get_cabac, Hc; lia|]. intros b _.
    destruct (b =? 0); [apply stays_in_ret; lia|].
    eapply stays_in_weaken; [apply IH; intros j Hj; apply Hc; lia|].
    cbv beta. intros; lia.
Qed.

Ltac slot :=
  unfold elem_range;
  repeat match goal with
         | |- context [num_bins ?x] =>
             let v := eval vm_compute in (num_bins x) in change (num_bins x) with v
         | |- context [elem_offset ?x] =>
             let v := eval vm_compute in (elem_offset x) in change (elem_offset x) with v
         end.

Lemma stays_in_cu_qp_delta_prefix n p inc :
  0 <= inc <= 1 ->
  stays_in CU_QP_DELTA (cu_qp_delta_prefix n p inc) (fun r => p <= r <= p + Z.of_nat n).
Proof.
  revert p inc. induction n as [|n IH]; intros p inc Hi; cbn [cu_qp_delta_prefix].
  - apply stays_in_ret. lia.
  - eapply stays_in_bind; [apply stays_in_get_cabac; slot; lia|]. intros b _.
    destruct (b =? 0); [apply stays_in_ret; lia|].
    eapply stays_in_weaken; [apply IH; lia|]. cbv beta. intros; lia.
Qed.

Lemma stays_in_cu_qp_delta_exp e n sv k : stays_in e (cu_qp_delta_exp n sv k) (fun _ => True).
Proof.
  revert sv k. induction n as [|n IH]; intros sv k; cbn [cu_qp_delta_exp].
  - apply stays_in_ret. exact I.
  - eapply stays_in_bind; [apply stays_in_bypass|]. intros b _.
    destruct (b =? 0); [apply stays_in_ret; exact I | apply IH].
Qed.

Lemma stays_in_cu_qp_delta_bits e n sv : stays_in e (cu_qp_delta_bits n sv) (fun _ => True).
Proof.
  revert sv. induction n as [|n IH]; intros sv; cbn [cu_qp_delta_bits].
  - apply stays_in_ret. exact I.
  - eapply stays_in_bind; [apply stays_in_bypass|]. intros b _. apply IH.
Qed.

Lemma stays_in_part_mode lmin amp pm lcb :
  stays_in PART_MODE (ff_hevc_part_mode_decode lmin amp pm lcb) (fun _ => True).
Proof.
  unfold ff_hevc_part_mode_decode.
  repeat first
    [ apply stays_in_ret; exact I
    | eapply stays_in_bind; [first [apply stays_in_get_cabac; slot; lia
                                   | apply stays_in_bypass]|]; intros ? _
    | match goal with |- stays_in _ (if ?b then _ else _) _ => destruct b end ].
Qed.

(** X1.  Every context-coded bin of a coding-tree syntax element is decoded
    with a context of that element: the index passed to the engine lies
    in [elem_offset[e], elem_offset[e] + num_bins_in_se[e]), whatever the
    bins are and whatever the neighbour tables hold ([ct_depth] at most 3,
    [log2_trafo_size] in 3..5, [trafo_depth] at most 3 and [idx] 0 or 1
    where the index is computed from them). *)
Theorem syntax_elements_keep_to_their_contexts
    (SAO_BAND SAO_EDGE PRED_BI : Z)
    (log2_ctb_size log2_min_cb_size min_cb_width : Z) (skip_flag tab_ct_depth : list Z)
    (ctb_left_flag ctb_up_flag x0 y0 x_cb y_cb ct_depth : Z)
    (chroma_qp_offset_list_len_minus1 max_num_merge_cand num_ref_idx_lx nPbW nPbH : Z)
    (amp_enabled_flag : bool) (cu_pred_mode : PredMode)
    (log2_cb_size log2_trafo_size trafo_depth idx : Z) :
  0 <= ct_depth <= 3 -> 3 <= log2_trafo_size <= 5 -> 0 <= trafo_depth <= 3 ->
  0 <= idx <= 1 ->
  stays_in SAO_MERGE_FLAG ff_hevc_sao_merge_flag_decode is_bit /\
  stays_in SAO_TYPE_IDX (ff_hevc_sao_type_idx_decode SAO_BAND SAO_EDGE)
    (fun r => r = 0 \/ r = SAO_BAND \/ r = SAO_EDGE) /\
  stays_in CU_TRANSQUANT_BYPASS_FLAG ff_hevc_cu_transquant_bypass_flag_decode is_bit /\
  stays_in SKIP_FLAG
    (ff_hevc_skip_flag_decode log2_ctb_size min_cb_width skip_flag
       ctb_left_flag ctb_up_flag x0 y0 x_cb y_cb) is_bit /\
  stays_in CU_QP_DELTA ff_hevc_cu_qp_delta_abs (fun _ => True) /\
  stays_in CU_CHROMA_QP_OFFSET_FLAG ff_hevc_cu_chroma_qp_offset_flag is_bit /\
  stays_in CU_CHROMA_QP_OFFSET_IDX
    (ff_hevc_cu_chroma_qp_offset_idx chroma_qp_offset_list_len_minus1)
    (fun r => 0 <= r <= FFMAX 5 chroma_qp_offset_list_len_minus1) /\
  stays_in PRED_MODE_FLAG ff_hevc_pred_mode_decode is_bit /\
  stays_in SPLIT_CODING_UNIT_FLAG
    (ff_hevc_split_coding_unit_flag_decode log2_ctb_size log2_min_cb_size min_cb_width
       tab_ct_depth ctb_left_flag ctb_up_flag ct_depth x0 y0) is_bit /\
  stays_in PART_MODE
    (ff_hevc_part_mode_decode log2_min_cb_size amp_enabled_flag cu_pred_mode log2_cb_size)
    (fun _ => True) /\
  stays_in PREV_INTRA_LUMA_PRED_FLAG ff_hevc_prev_intra_luma_pred_flag_decode is_bit /\
  stays_in INTRA_CHROMA_PRED_MODE ff_hevc_intra_chroma_pred_mode_decode (fun _ => True) /\
  stays_in MERGE_IDX (ff_hevc_merge_idx_decode max_num_merge_cand) (fun _ => True) /\
  stays_in MERGE_FLAG ff_hevc_merge_flag_decode is_bit /\
  stays_in INTER_PRED_IDC (ff_hevc_inter_pred_idc_decode PRED_BI ct_depth nPbW nPbH)
    (fun r => r = 0 \/ r = 1 \/ r = PRED_BI) /\
  stays_in REF_IDX_L0 (ff_hevc_ref_idx_lx_decode num_ref_idx_lx) (fun _ => True) /\
  stays_in MVP_LX_FLAG ff_hevc_mvp_lx_flag_decode is_bit /\
  stays_in NO_RESIDUAL_DATA_FLAG ff_hevc_no_residual_syntax_flag_decode is_bit /\
  stays_in SPLIT_TRANSFORM_FLAG (ff_hevc_split_transform_flag_decode log2_trafo_size) is_bit /\
  stays_in CBF_CB_CR (ff_hevc_cbf_cb_cr_decode trafo_depth) is_bit /\
  stays_in CBF_LUMA (ff_hevc_cbf_luma_decode trafo_depth) is_bit /\
  stays_in LOG2_RES_SCALE_ABS (ff_hevc_log2_res_scale_abs idx) (fun r => 0 <= r <= 4) /\
  stays_in RES_SCALE_SIGN_FLAG (ff_hevc_res_scale_sign_flag idx) is_bit.
Proof.
  intros Hd HL Ht Hi.
  repeat match goal with |- _ /\ _ => split end.
  - apply stays_in_get_cabac; slot; lia.
  - unfold ff_hevc_sao_type_idx_decode.
    eapply stays_in_bind; [apply stays_in_get_cabac; slot; lia|]. intros b _.
    destruct (b =? 0); [apply stays_in_ret; auto|].
    eapply stays_in_bind; [apply stays_in_bypass|]. intros b' _.
    destruct (b' =? 0); apply stays_in_ret; auto.
  - apply stays_in_get_cabac; slot; lia.
  - unfold ff_hevc_skip_flag_decode. cbv zeta.
    apply stays_in_get_cabac.
    repeat match goal with |- context [b2z ?b] => pose proof (b2z_range b); generalize dependent (b2z b); intros end.
    repeat match goal with |- context [if ?b then _ else _] => destruct b end; slot; lia.
  - unfold ff_hevc_cu_qp_delta_abs.
    eapply stays_in_bind; [apply stays_in_cu_qp_delta_prefix; lia|]. intros p _.
    destruct (p >=? 5); [|apply stays_in_ret; exact I].
    eapply stays_in_bind; [apply stays_in_cu_qp_delta_exp|]. intros [sv k] _.
    eapply stays_in_bind;
      [destruct (k =? CABAC_MAX_BIN); [apply stays_in_av_log | apply stays_in_ret; exact I]|].
    intros _ _.
    eapply stays_in_bind; [apply stays_in_cu_qp_delta_bits|]. intros sv' _.
    apply stays_in_ret. exact I.
  - apply stays_in_get_cabac; slot; lia.
  - unfold ff_hevc_cu_chroma_qp_offset_idx. cbv zeta.
    eapply stays_in_weaken; [apply stays_in_unary_ctx; intros; slot; lia|].
    cbv beta. intros a Ha.
    assert (0 <= FFMAX 5 chroma_qp_offset_list_len_minus1)
      by (unfold FFMAX; destruct (Z.gtb_spec 5 chroma_qp_offset_list_len_minus1); lia).
    lia.
  - apply stays_in_get_cabac; slot; lia.
  - unfold ff_hevc_split_coding_unit_flag_decode. cbv zeta.
    apply stays_in_get_cabac.
    repeat match goal with |- context [b2z ?b] => pose proof (b2z_range b); generalize dependent (b2z b); intros end.
    slot; lia.
  - apply stays_in_part_mode.
  - apply stays_in_get_cabac; slot; lia.
  - unfold ff_hevc_intra_chroma_pred_mode_decode.
    eapply stays_in_bind; [apply stays_in_get_cabac; slot; lia|]. intros b _.
    destruct (b =? 0); [apply stays_in_ret; exact I|].
    eapply stays_in_bind; [apply stays_in_bypass|]. intros b1 _.
    eapply stays_in_bind; [apply stays_in_bypass|]. intros b0 _.
    apply stays_in_ret. exact I.
  - unfold ff_hevc_merge_idx_decode.
    eapply stays_in_bind; [apply stays_in_get_cabac; slot; lia|]. intros b _.
    destruct (negb (b =? 0)); [|apply stays_in_ret; exact I].
    eapply stays_in_weaken; [apply stays_in_unary_bypass|]. auto.
  - apply stays_in_get_cabac; slot; lia.
  - unfold ff_hevc_inter_pred_idc_decode.
    destruct (_ =? 12).
    + eapply stays_in_weaken; [apply stays_in_get_cabac; slot; lia|].
      intros a [->| ->]; auto.
    + eapply stays_in_bind; [apply stays_in_get_cabac; slot; lia|]. intros b _.
      destruct (negb (b =? 0)); [apply stays_in_ret; auto|].
      eapply stays_in_weaken; [apply stays_in_get_cabac; slot; lia|].
      intros a [->| ->]; auto.
  - unfold ff_hevc_ref_idx_lx_decode. cbv zeta.
    eapply stays_in_bind.
    + apply stays_in_unary_ctx. intros j Hj.
      pose proof (FFMIN_le (num_ref_idx_lx - 1) 2). slot. lia.
    + intros i _. destruct (i =? 2); [|apply stays_in_ret; exact I].
      eapply stays_in_weaken; [apply stays_in_unary_bypass|]. auto.
  - apply stays_in_get_cabac; slot; lia.
  - apply stays_in_get_cabac; slot; lia.
  - apply stays_in_get_cabac; slot; lia.
  - apply stays_in_get_cabac; slot; lia.
  - apply stays_in_get_cabac. pose proof (b2z_range (trafo_depth =? 0)). slot; lia.
  - unfold ff_hevc_log2_res_scale_abs.
    eapply stays_in_weaken; [apply stays_in_unary_ctx; intros; slot; lia|].
    cbv beta. intros; lia.
  - apply stays_in_get_cabac; slot; lia.
Qed.

Lemma syntax_elements_keep_to_their_contexts_witness :
  stays_in SKIP_FLAG (ff_hevc_skip_flag_decode 4 2 [1; 0; 1; 1] 1 1 8 8 1 1) is_bit /\
  stays_in CBF_CB_CR (ff_hevc_cbf_cb_cr_decode 3) is_bit /\
  stays_in INTER_PRED_IDC (ff_hevc_inter_pred_idc_decode 2 3 8 8)
    (fun r => r = 0 \/ r = 1 \/ r = 2).
Proof.
  pose proof (syntax_elements_keep_to_their_contexts 1 2 2 4 3 2 [1; 0; 1; 1] [0; 0; 0; 0]
                1 1 8 8 1 1 3 0 5 2 8 8 true MODE_INTER 4 3 3 1
                ltac:(lia) ltac:(lia) ltac:(lia) ltac:(lia)) as H.
  destruct H as (_ & _ & _ & A & _ & _ & _ & _ & _ & _ & _ & _ & _ & _ & B & _ & _ & _ & _ &
                 C & _).
  split; [exact A|]. split; [exact C | exact B].
Defined.

(** ** Bins and the values read from them *)

Lemma lor_shiftl_bit a b : 0 <= a -> Z.lor (a ≪ 1) (b2z b) = 2 * a + b2z b.
Proof.
  intros Ha. rewrite Z.shiftl_mul_pow2 by lia. change (2 ^ 1) with 2.
  destruct b; cbn [b2z].
  - rewrite Z.mul_comm. destruct a as [|p|p]; [reflexivity | reflexivity | lia].
  - rewrite Z.lor_0_r. lia.
Qed.

Lemma bits_value_acc l acc :
  bits_value l acc = acc * 2 ^ Z.of_nat (length l) + bits_value l 0.
Proof.
  revert acc. induction l as [|b r IH]; intros acc; cbn [bits_value length].
  - change (2 ^ Z.of_nat 0) with 1. lia.
  - rewrite IH. rewrite (IH (2 * 0 + b2z b)).
    rewrite Nat2Z.inj_succ, Z.pow_succ_r by lia. lia.
Qed.

Lemma bits_value_range l : 0 <= bits_value l 0 < 2 ^ Z.of_nat (length l).
Proof.
  induction l as [|b r IH]; cbn [bits_value length].
  - change (2 ^ Z.of_nat 0) with 1. lia.
  - rewrite bits_value_acc. rewrite Nat2Z.inj_succ, Z.pow_succ_r by lia.
    pose proof (b2z_range b). nia.
Qed.

Lemma get_cabac_cons ctx b r tr er :
  get_cabac ctx (mkCABAC (b :: r) tr er) = (b2z b, mkCABAC r (ctx :: tr) er).
Proof. reflexivity. Qed.

Lemma get_cabac_bypass_cons b r tr er :
  get_cabac_bypass (mkCABAC (b :: r) tr er) = (b2z b, mkCABAC r tr er).
Proof. reflexivity. Qed.

Lemma b2z_eqb_0 b : (b2z b =? 0) = negb b.
Proof. destruct b; reflexivity. Qed.

(** [read_suffix] reads its bins most significant first. *)
Lemma read_suffix_bits l rest tr er acc :
  0 <= acc -> (acc + 1) * 2 ^ Z.of_nat (length l) <= 2 ^ 31 ->
  read_suffix (length l) acc (mkCABAC (l ++ rest) tr er) =
  (bits_value l acc, mkCABAC rest tr er).
Proof.
  revert acc. induction l as [|b r IH]; intros acc Ha Hb; cbn [length read_suffix bits_value] in *.
  - reflexivity.
  - unfold bind. cbn [app]. rewrite get_cabac_bypass_cons.
    rewrite Nat2Z.inj_succ, Z.pow_succ_r in Hb by lia.
    assert (0 < 2 ^ Z.of_nat (length r)) by (apply Z.pow_pos_nonneg; lia).
    pose proof (b2z_range b).
    rewrite lor_shiftl_bit by exact Ha.
    rewrite int32_small by nia.
    apply IH; nia.
Qed.

Lemma always_bypass : always get_cabac_bypass is_bit.
Proof.
  intros c _. unfold get_cabac_bypass. pose proof (next_bin_is_bit c) as H.
  destruct (next_bin c). exact H.
Qed.

Lemma is_bit_b2z b : is_bit b -> exists b', b = b2z b'.
Proof. intros [->| ->]; [exists false | exists true]; reflexivity. Qed.

Lemma always_read_suffix n v k :
  0 <= k -> 0 <= v < 2 ^ k -> k + Z.of_nat n <= 31 ->
  always (read_suffix n v) (fun r => 0 <= r < 2 ^ (k + Z.of_nat n)).
Proof.
  revert v k. induction n as [|n IH]; intros v k Hk Hv Hn; cbn [read_suffix].
  - apply always_ret. replace (k + Z.of_nat 0) with k by lia. exact Hv.
  - eapply always_bind_with.
    + apply always_bypass.
    + intros b Hb. cbv beta. destruct (is_bit_b2z b Hb) as [b' ->]. rewrite lor_shiftl_bit by lia.
      pose proof (b2z_range b').
      assert (Hp : 2 ^ (k + 1) = 2 * 2 ^ k) by (rewrite Z.pow_add_r by lia; lia).
      assert (Hle : 2 ^ (k + 1) <= 2 ^ 31) by (apply Z.pow_le_mono_r; lia).
      rewrite int32_small by lia.
      replace (k + Z.of_nat (Datatypes.S n)) with (k + 1 + Z.of_nat n) by lia.
      apply IH; lia.
Qed.

(** The unary loops count the leading 1 bins, up to their bound. *)
Lemma unary_bypass_ones n k c :
  fst (unary_bypass n k c) = k + Z.of_nat (Nat.min n (leading_ones (bins c))) /\
  bins (snd (unary_bypass n k c)) =
    skipn (Nat.min n (Datatypes.S (leading_ones (bins c)))) (bins c) /\
  ctx_trace (snd (unary_bypass n k c)) = ctx_trace c /\
  av_log_errors (snd (unary_bypass n k c)) = av_log_errors c.
Proof.
  revert k c. induction n as [|n IH]; intros k [bs tr er]; cbn [unary_bypass].
  - cbn. repeat split; lia.
  - unfold bind. destruct bs as [|[] r].
    + cbn. repeat split; lia.
    + rewrite get_cabac_bypass_cons. cbn [b2z Z.eqb].
      destruct (IH (k + 1) (mkCABAC r tr er)) as (A & B & C & D).
      cbn [bins ctx_trace av_log_errors leading_ones] in *.
      rewrite A, B, C, D. cbn [Nat.min skipn]. repeat split.
      rewrite Nat2Z.inj_succ. unfold Z.succ. ring.
    + rewrite get_cabac_bypass_cons.
      cbn [b2z Z.eqb ret fst snd bins ctx_trace av_log_errors leading_ones Nat.min].
      rewrite Nat.min_0_r. cbn [skipn]. repeat split. change (Z.of_nat 0) with 0. ring.
Qed.

Lemma unary_ctx_ones n i ctx c :
  fst (unary_ctx n i ctx c) = i + Z.of_nat (Nat.min n (leading_ones (bins c))) /\
  bins (snd (unary_ctx n i ctx c)) =
    skipn (Nat.min n (Datatypes.S (leading_ones (bins c)))) (bins c) /\
  av_log_errors (snd (unary_ctx n i ctx c)) = av_log_errors c.
Proof.
  revert i c. induction n as [|n IH]; intros i [bs tr er]; cbn [unary_ctx].
  - cbn. repeat split; lia.
  - unfold bind. destruct bs as [|[] r].
    + cbn. repeat split; lia.
    + rewrite get_cabac_cons. cbn [b2z Z.eqb].
      destruct (IH (i + 1) (mkCABAC r (ctx i :: tr) er)) as (A & B & C).
      cbn [bins ctx_trace av_log_errors leading_ones] in *.
      rewrite A, B, C. cbn [Nat.min skipn]. repeat split.
      rewrite Nat2Z.inj_succ. unfold Z.succ. ring.
    + rewrite get_cabac_cons.
      cbn [b2z Z.eqb ret fst snd bins ctx_trace av_log_errors leading_ones Nat.min].
      rewrite Nat.min_0_r. cbn [skipn]. repeat split. change (Z.of_nat 0) with 0. ring.
Qed.

(** ** Fixed-length and truncated-unary syntax elements *)

Lemma two_bypass_bits b1 b0 rest tr er :
  (let* x := get_cabac_bypass in
   let r := x ≪ 1 in
   let* y := get_cabac_bypass in ret (Z.lor r y)) (mkCABAC (b1 :: b0 :: rest) tr er) =
  (bits_value [b1; b0] 0, mkCABAC rest tr er).
Proof. destruct b1, b0; reflexivity. Qed.

(** X2.  The fixed-length elements are read from bypass bins, most
    significant first: [sao_band_position] and [rem_intra_luma_pred_mode]
    are the 5-bit number of the next five bins, [sao_eo_class] the 2-bit
    number of the next two, and [intra_chroma_pred_mode] is 4 when its
    context-coded bin is 0 and the 2-bit number of the next two bypass
    bins otherwise; whatever the engine yields the values are in [0,31],
    [0,31], [0,3] and [0,4]. *)
Theorem fixed_length_elements (l5 l2 rest : list bool) (tr er : list Z) (c : CABACContext) :
  length l5 = 5%nat -> length l2 = 2%nat ->
  ff_hevc_sao_band_position_decode (mkCABAC (l5 ++ rest) tr er) =
    (bits_value l5 0, mkCABAC rest tr er) /\
  ff_hevc_rem_intra_luma_pred_mode_decode (mkCABAC (l5 ++ rest) tr er) =
    (bits_value l5 0, mkCABAC rest tr er) /\
  ff_hevc_sao_eo_class_decode (mkCABAC (l2 ++ rest) tr er) =
    (bits_value l2 0, mkCABAC rest tr er) /\
  ff_hevc_intra_chroma_pred_mode_decode (mkCABAC (true :: l2 ++ rest) tr er) =
    (bits_value l2 0, mkCABAC rest (elem_offset INTRA_CHROMA_PRED_MODE :: tr) er) /\
  ff_hevc_intra_chroma_pred_mode_decode (mkCABAC (false :: rest) tr er) =
    (4, mkCABAC rest (elem_offset INTRA_CHROMA_PRED_MODE :: tr) er) /\
  0 <= fst (ff_hevc_sao_band_position_decode c) <= 31 /\
  0 <= fst (ff_hevc_rem_intra_luma_pred_mode_decode c) <= 31 /\
  0 <= fst (ff_hevc_sao_eo_class_decode c) <= 3 /\
  0 <= fst (ff_hevc_intra_chroma_pred_mode_decode c) <= 4.
Proof.
  intros H5 H2.
  assert (F5 : (let* value := get_cabac_bypass in read_suffix 4 value)
                 (mkCABAC (l5 ++ rest) tr er) = (bits_value l5 0, mkCABAC rest tr er)).
  { destruct l5 as [|b l]; [discriminate|]. injection H5 as H4.
    unfold bind. cbn [app]. rewrite get_cabac_bypass_cons.
    rewrite <- H4. pose proof (b2z_range b).
    rewrite read_suffix_bits by (rewrite ?H4; change (2 ^ Z.of_nat 4) with 16; lia).
    reflexivity. }
  assert (R5 : always (let* value := get_cabac_bypass in read_suffix 4 value)
                 (fun r => 0 <= r <= 31)).
  { eapply always_bind_with; [apply always_bypass|]. intros b Hb.
    eapply always_weaken; [apply (always_read_suffix 4 b 1); [lia| |lia]|].
    - change (2 ^ 1) with 2. destruct Hb as [->| ->]; lia.
    - cbv beta. change (2 ^ (1 + Z.of_nat 4)) with 32. intros; lia. }
  assert (R2 : always (let* x := get_cabac_bypass in
                       let r := x ≪ 1 in
                       let* y := get_cabac_bypass in ret (Z.lor r y))
                 (fun r => 0 <= r <= 3)).
  { eapply always_bind_with; [apply always_bypass|]. intros b1 Hb1. cbv zeta.
    eapply always_bind_with; [apply always_bypass|]. intros b0 Hb0.
    apply always_ret.
    destruct Hb1 as [->| ->], Hb0 as [->| ->]; split; apply Z.leb_le; reflexivity. }
  destruct l2 as [|b1 [|b0 [|? ?]]]; try discriminate H2.
  split; [exact F5|]. split; [exact F5|].
  split; [apply two_bypass_bits|].
  split.
  { unfold ff_hevc_intra_chroma_pred_mode_decode, bind at 1.
    rewrite get_cabac_cons. cbn [b2z Z.eqb]. apply two_bypass_bits. }
  split; [reflexivity|].
  split; [apply (R5 c I)|]. split; [apply (R5 c I)|]. split; [apply (R2 c I)|].
  assert (R4 : always ff_hevc_intra_chroma_pred_mode_decode (fun r => 0 <= r <= 4)).
  { unfold ff_hevc_intra_chroma_pred_mode_decode.
    apply always_bind. intros b. destruct (b =? 0); [apply always_ret; lia|].
    eapply always_weaken; [apply R2|]. cbv beta. intros; lia. }
  apply (R4 c I).
Qed.

Lemma fixed_length_elements_witness :
  ff_hevc_sao_band_position_decode (engine_of [true; false; true; true; false; true]) =
    (22, engine_of [true]) /\
  ff_hevc_intra_chroma_pred_mode_decode (engine_of [true; true; false]) =
    (2, mkCABAC [] [elem_offset INTRA_CHROMA_PRED_MODE] []).
Proof.
  pose proof (fixed_length_elements [true; false; true; true; false] [true; false]
                [true] [] [] (engine_of []) eq_refl eq_refl) as (A & _).
  pose proof (fixed_length_elements [true; false; true; true; false] [true; false]
                [] [] [] (engine_of []) eq_refl eq_refl) as (_ & _ & _ & B & _).
  split; [exact A | exact B].
Defined.

Lemma min_Z2Nat n m : 0 <= n -> Z.of_nat (Nat.min (Z.to_nat n) m) = Z.min n (Z.of_nat m).
Proof. intros H. rewrite Nat2Z.inj_min, Z2Nat.id by exact H. reflexivity. Qed.

(** X3.  The truncated-unary elements return the number of 1 bins the
    engine yields before the first 0 bin, capped at their bound, and
    consume one bin more than the value unless the cap is reached:
    [sao_offset_abs] with bound [(1 << (min(bit_depth, 10) - 5)) - 1],
    [mpm_idx] with bound 2, [cu_chroma_qp_offset_idx] with bound
    [max(5, chroma_qp_offset_list_len_minus1)] and [log2_res_scale_abs]
    with bound 4. *)
Theorem truncated_unary_elements (bit_depth chroma_qp_offset_list_len_minus1 idx : Z)
    (c : CABACContext) :
  5 <= bit_depth ->
  let ones := leading_ones (bins c) in
  let value (c_max : Z) := Z.min c_max (Z.of_nat ones) in
  let left (c_max : Z) :=
    skipn (Nat.min (Z.to_nat c_max) (Datatypes.S ones)) (bins c) in
  let sao_max := 2 ^ (Z.min bit_depth 10 - 5) - 1 in
  let qp_max := Z.max 5 chroma_qp_offset_list_len_minus1 in
  (fst (ff_hevc_sao_offset_abs_decode bit_depth c) = value sao_max /\
   bins (snd (ff_hevc_sao_offset_abs_decode bit_depth c)) = left sao_max) /\
  (fst (ff_hevc_mpm_idx_decode c) = value 2 /\
   bins (snd (ff_hevc_mpm_idx_decode c)) = left 2) /\
  (fst (ff_hevc_cu_chroma_qp_offset_idx chroma_qp_offset_list_len_minus1 c) =
     value qp_max /\
   bins (snd (ff_hevc_cu_chroma_qp_offset_idx chroma_qp_offset_list_len_minus1 c)) =
     left qp_max) /\
  (fst (ff_hevc_log2_res_scale_abs idx c) = value 4 /\
   bins (snd (ff_hevc_log2_res_scale_abs idx c)) = left 4).
Proof.
  intros Hb. cbv zeta.
  assert (Hs : (1 ≪ (FFMIN bit_depth 10 - 5)) - 1 = 2 ^ (Z.min bit_depth 10 - 5) - 1).
  { replace (FFMIN bit_depth 10) with (Z.min bit_depth 10)
      by (unfold FFMIN; destruct (Z.gtb_spec bit_depth 10); lia).
    rewrite Z.shiftl_mul_pow2 by lia. lia. }
  assert (Hs0 : 0 <= 2 ^ (Z.min bit_depth 10 - 5) - 1).
  { assert (0 < 2 ^ (Z.min bit_depth 10 - 5)) by (apply Z.pow_pos_nonneg; lia). lia. }
  assert (Hq : FFMAX 5 chroma_qp_offset_list_len_minus1 =
               Z.max 5 chroma_qp_offset_list_len_minus1).
  { unfold FFMAX. destruct (Z.gtb_spec 5 chroma_qp_offset_list_len_minus1); lia. }
  split; [|split; [|split]].
  - unfold ff_hevc_sao_offset_abs_decode. cbv zeta. rewrite Hs.
    destruct (unary_bypass_ones (Z.to_nat (2 ^ (Z.min bit_depth 10 - 5) - 1)) 0 c)
      as (A & B & _).
    rewrite A, B, min_Z2Nat by exact Hs0. split; reflexivity.
  - unfold ff_hevc_mpm_idx_decode.
    destruct (unary_bypass_ones 2 0 c) as (A & B & _).
    rewrite A, B. change 2%nat with (Z.to_nat 2) at 1. rewrite min_Z2Nat by lia.
    split; reflexivity.
  - unfold ff_hevc_cu_chroma_qp_offset_idx. cbv zeta. rewrite Hq.
    destruct (unary_ctx_ones (Z.to_nat (Z.max 5 chroma_qp_offset_list_len_minus1)) 0
                (fun _ => elem_offset CU_CHROMA_QP_OFFSET_IDX) c) as (A & B & _).
    rewrite A, B, min_Z2Nat by lia. split; reflexivity.
  - unfold ff_hevc_log2_res_scale_abs.
    destruct (unary_ctx_ones 4 0 (fun i => elem_offset LOG2_RES_SCALE_ABS + 4 * idx + i) c)
      as (A & B & _).
    rewrite A, B. change 4%nat with (Z.to_nat 4) at 1. rewrite min_Z2Nat by lia.
    split; reflexivity.
Qed.

Lemma truncated_unary_elements_witness :
  5 <= 8 /\
  fst (ff_hevc_sao_offset_abs_decode 8 (engine_of (repeat true 9))) = 7 /\
  bins (snd (ff_hevc_sao_offset_abs_decode 8 (engine_of (repeat true 9)))) = [true; true] /\
  fst (ff_hevc_mpm_idx_decode (engine_of [true; false; true])) = 1.
Proof.
  assert (H : 5 <= 8) by discriminate.
  split; [exact H|].
  pose proof (truncated_unary_elements 8 0 0 (engine_of (repeat true 9)) H)
    as ((A & B) & _).
  pose proof (truncated_unary_elements 8 0 0 (engine_of [true; false; true]) H)
    as (_ & (C & _) & _).
  split; [exact A|]. split; [exact B | exact C].
Defined.

(** X4.  [merge_idx] and [ref_idx_lX] are truncated unary over a
    context-coded start and a bypass tail: [ref_idx_lX] is the number of
    leading 1 bins capped at [num_ref_idx_lx - 1], so it is a valid
    reference index whenever there is one; [merge_idx] is 0 on a 0 bin and
    otherwise the number of leading 1 bins capped at
    [max_num_merge_cand - 1], but never less than 1: with a single merge
    candidate a first bin 1 still yields 1. *)
Theorem merge_and_ref_idx_values (max_num_merge_cand num_ref_idx_lx : Z)
    (c : CABACContext) :
  let ones := Z.of_nat (leading_ones (bins c)) in
  fst (ff_hevc_ref_idx_lx_decode num_ref_idx_lx c) =
    Z.min (Z.max (num_ref_idx_lx - 1) 0) ones /\
  fst (ff_hevc_merge_idx_decode max_num_merge_cand c) =
    Z.min (Z.max (max_num_merge_cand - 1) 1) ones /\
  (1 <= num_ref_idx_lx ->
   0 <= fst (ff_hevc_ref_idx_lx_decode num_ref_idx_lx c) < num_ref_idx_lx) /\
  (2 <= max_num_merge_cand ->
   0 <= fst (ff_hevc_merge_idx_decode max_num_merge_cand c) < max_num_merge_cand) /\
  (max_num_merge_cand = 1 -> 1 <= ones ->
   fst (ff_hevc_merge_idx_decode max_num_merge_cand c) = 1).
Proof.
  cbv zeta.
  assert (R : fst (ff_hevc_ref_idx_lx_decode num_ref_idx_lx c) =
              Z.min (Z.max (num_ref_idx_lx - 1) 0) (Z.of_nat (leading_ones (bins c)))).
  { unfold ff_hevc_ref_idx_lx_decode. cbv zeta. unfold bind.
    set (mx := num_ref_idx_lx - 1).
    assert (Hm : FFMIN mx 2 = Z.min mx 2)
      by (unfold FFMIN; destruct (Z.gtb_spec mx 2); lia).
    rewrite Hm.
    destruct (unary_ctx_ones (Z.to_nat (Z.min mx 2)) 0
                (fun i => elem_offset REF_IDX_L0 + i) c) as (A & B & _).
    destruct (unary_ctx (Z.to_nat (Z.min mx 2)) 0 (fun i => elem_offset REF_IDX_L0 + i) c)
      as [i c1]. cbn [fst snd] in A, B.
    destruct (Z.eqb_spec i 2) as [Hi|Hi].
    - destruct (unary_bypass_ones (Z.to_nat (mx - i)) i c1) as (A' & _).
      rewrite A', B. subst i.
      assert (Hmx : 2 <= mx) by lia.
      assert (Hl : (2 <= leading_ones (bins c))%nat) by lia.
      replace (Z.to_nat (Z.min mx 2)) with 2%nat in * by lia.
      replace (Nat.min 2 (Datatypes.S (leading_ones (bins c)))) with 2%nat by lia.
      assert (Hd : forall (l : list bool), (2 <= leading_ones l)%nat ->
                leading_ones (skipn 2 l) = (leading_ones l - 2)%nat).
      { intros [|[] [|[] l]] Hl'; simpl in *; try lia.
        rewrite ?drop_0, ?Nat.sub_0_r. reflexivity. }
      rewrite Hd by exact Hl. lia.
    - cbn [ret fst]. lia. }
  assert (M : fst (ff_hevc_merge_idx_decode max_num_merge_cand c) =
              Z.min (Z.max (max_num_merge_cand - 1) 1) (Z.of_nat (leading_ones (bins c)))).
  { unfold ff_hevc_merge_idx_decode, bind. destruct c as [[|[] r] tr er].
    - cbn. lia.
    - rewrite get_cabac_cons. cbn [b2z Z.eqb negb].
      destruct (unary_bypass_ones (Z.to_nat (max_num_merge_cand - 1 - 1)) 1
                  (mkCABAC r (elem_offset MERGE_IDX :: tr) er)) as (A & _).
      rewrite A. cbn [bins leading_ones]. lia.
    - rewrite get_cabac_cons. cbn. lia. }
  split; [exact R|]. split; [exact M|].
  split; [intros; rewrite R; lia|]. split; [intros; rewrite M; lia|].
  intros; rewrite M; lia.
Qed.

Lemma merge_and_ref_idx_values_witness :
  fst (ff_hevc_ref_idx_lx_decode 4 (engine_of (repeat true 6))) = 3 /\
  fst (ff_hevc_merge_idx_decode 1 (engine_of [true; true])) = 1 /\
  0 <= fst (ff_hevc_merge_idx_decode 5 (engine_of [true; true; false])) < 5.
Proof.
  pose proof (merge_and_ref_idx_values 1 4 (engine_of (repeat true 6))) as (A & _).
  pose proof (merge_and_ref_idx_values 1 4 (engine_of [true; true]))
    as (_ & _ & _ & _ & B).
  pose proof (merge_and_ref_idx_values 5 4 (engine_of [true; true; false]))
    as (_ & _ & _ & C & _).
  split; [exact A|]. split; [apply B; [reflexivity | discriminate]|].
  apply C. discriminate.
Defined.

(** ** [part_mode] *)

Ltac part_leaf :=
  apply always_ret; repeat split; intros; subst;
  try discriminate; try congruence; auto.

(** X5.  What [part_mode] can be: whatever the bins, an asymmetric
    partition is returned only with AMP enabled and above the minimum
    coding-block size; NxN only at the minimum size, and for a CU that is
    not intra only when that size is not 8x8; an intra CU at the minimum
    size gets 2Nx2N or NxN; and a first bin 1 gives 2Nx2N. *)
Theorem part_mode_shapes (log2_min_cb_size : Z) (amp_enabled_flag : bool)
    (cu_pred_mode : PredMode) (log2_cb_size : Z) (c : CABACContext) :
  let r := fst (ff_hevc_part_mode_decode log2_min_cb_size amp_enabled_flag cu_pred_mode
                  log2_cb_size c) in
  (is_amp r = true -> amp_enabled_flag = true /\ log2_cb_size <> log2_min_cb_size) /\
  (r = PART_NxN ->
   log2_cb_size = log2_min_cb_size /\ (cu_pred_mode = MODE_INTRA \/ log2_cb_size <> 3)) /\
  (log2_cb_size = log2_min_cb_size -> cu_pred_mode = MODE_INTRA ->
   r = PART_2Nx2N \/ r = PART_NxN) /\
  (nth 0 (bins c) false = true -> r = PART_2Nx2N).
Proof.
  cbv zeta.
  assert (A : always (ff_hevc_part_mode_decode log2_min_cb_size amp_enabled_flag
                        cu_pred_mode log2_cb_size)
                (fun r =>
                   (is_amp r = true ->
                    amp_enabled_flag = true /\ log2_cb_size <> log2_min_cb_size) /\
                   (r = PART_NxN ->
                    log2_cb_size = log2_min_cb_size /\
                    (cu_pred_mode = MODE_INTRA \/ log2_cb_size <> 3)) /\
                   (log2_cb_size = log2_min_cb_size -> cu_pred_mode = MODE_INTRA ->
                    r = PART_2Nx2N \/ r = PART_NxN))).
  { unfold ff_hevc_part_mode_decode.
    apply always_bind. intros b1. destruct (negb (b1 =? 0)); [part_leaf|].
    destruct (Z.eqb_spec log2_cb_size log2_min_cb_size) as [He|He].
    - destruct cu_pred_mode; cbn [is_INTRA]; try part_leaf.
      + apply always_bind. intros b2. destruct (negb (b2 =? 0)); [part_leaf|].
        destruct (Z.eqb_spec log2_cb_size 3); [part_leaf|].
        apply always_bind. intros b3. destruct (negb (b3 =? 0)); part_leaf.
      + apply always_bind. intros b2. destruct (negb (b2 =? 0)); [part_leaf|].
        destruct (Z.eqb_spec log2_cb_size 3); [part_leaf|].
        apply always_bind. intros b3. destruct (negb (b3 =? 0)); part_leaf.
    - destruct amp_enabled_flag; cbn [negb].
      + apply always_bind. intros b2. destruct (negb (b2 =? 0)).
        * apply always_bind. intros b3. destruct (negb (b3 =? 0)); [part_leaf|].
          apply always_bind. intros b4. destruct (negb (b4 =? 0)); part_leaf.
        * apply always_bind. intros b3. destruct (negb (b3 =? 0)); [part_leaf|].
          apply always_bind. intros b4. destruct (negb (b4 =? 0)); part_leaf.
      + apply always_bind. intros b2. destruct (negb (b2 =? 0)); part_leaf. }
  destruct (A c I) as (A1 & A2 & A3).
  split; [exact A1|]. split; [exact A2|]. split; [exact A3|].
  destruct c as [[|[] r] tr er]; cbn [bins nth]; intros Hb; try discriminate Hb.
  unfold ff_hevc_part_mode_decode, bind. rewrite get_cabac_cons. reflexivity.
Qed.

Lemma part_mode_shapes_witness :
  fst (ff_hevc_part_mode_decode 3 true MODE_INTRA 3 (engine_of [false; true])) = PART_NxN /\
  is_amp (fst (ff_hevc_part_mode_decode 3 true MODE_INTER 4
                 (engine_of [false; true; false; true]))) = true.
Proof.
  pose proof (part_mode_shapes 3 true MODE_INTRA 3 (engine_of [false; true]))
    as (_ & _ & A & _).
  split; [|reflexivity].
  destruct (A eq_refl eq_refl) as [H|H]; [discriminate H | exact H].
Defined.

(** ** [cu_qp_delta_abs] *)

Lemma cu_qp_delta_prefix_ones n p inc c :
  fst (cu_qp_delta_prefix n p inc c) = p + Z.of_nat (Nat.min n (leading_ones (bins c))) /\
  bins (snd (cu_qp_delta_prefix n p inc c)) =
    skipn (Nat.min n (Datatypes.S (leading_ones (bins c)))) (bins c) /\
  av_log_errors (snd (cu_qp_delta_prefix n p inc c)) = av_log_errors c.
Proof.
  revert p inc c. induction n as [|n IH]; intros p inc [bs tr er]; cbn [cu_qp_delta_prefix].
  - cbn. repeat split; lia.
  - unfold bind. destruct bs as [|[] r].
    + cbn. repeat split; lia.
    + rewrite get_cabac_cons. cbn [b2z Z.eqb].
      destruct (IH (p + 1) 1 (mkCABAC r (elem_offset CU_QP_DELTA + inc :: tr) er))
        as (A & B & C).
      cbn [bins ctx_trace av_log_errors leading_ones] in *.
      rewrite A, B, C. cbn [Nat.min skipn]. repeat split.
      rewrite Nat2Z.inj_succ. unfold Z.succ. ring.
    + rewrite get_cabac_cons.
      cbn [b2z Z.eqb ret fst snd bins ctx_trace av_log_errors leading_ones Nat.min].
      rewrite Nat.min_0_r. cbn [skipn]. repeat split. change (Z.of_nat 0) with 0. ring.
Qed.

Lemma cu_qp_delta_exp_ones j k rest tr er n :
  0 <= k -> (j < n)%nat -> k + Z.of_nat j <= 30 ->
  cu_qp_delta_exp n (2 ^ k - 1) k (mkCABAC (repeat true j ++ false :: rest) tr er) =
  ((2 ^ (k + Z.of_nat j) - 1, k + Z.of_nat j), mkCABAC rest tr er).
Proof.
  revert k n. induction j as [|j IH]; intros k n Hk Hn Hj.
  - destruct n as [|n]; [lia|]. cbn [repeat app cu_qp_delta_exp]. unfold bind.
    rewrite get_cabac_bypass_cons. cbn [b2z Z.eqb].
    replace (k + Z.of_nat 0) with k by lia. reflexivity.
  - destruct n as [|n]; [lia|]. cbn [repeat app cu_qp_delta_exp]. unfold bind.
    rewrite get_cabac_bypass_cons. cbn [b2z Z.eqb].
    rewrite Z.shiftl_mul_pow2 by lia.
    assert (Hp : 0 < 2 ^ k) by (apply Z.pow_pos_nonneg; lia).
    assert (Hle : 2 ^ (k + 1) <= 2 ^ 31) by (apply Z.pow_le_mono_r; lia).
    assert (Hk1 : 2 ^ (k + 1) = 2 * 2 ^ k) by (rewrite Z.pow_add_r by lia; lia).
    rewrite int32_small by lia.
    replace (2 ^ k - 1 + 1 * 2 ^ k) with (2 ^ (k + 1) - 1) by lia.
    replace (k + Z.of_nat (Datatypes.S j)) with (k + 1 + Z.of_nat j) in * by lia.
    apply IH; lia.
Qed.

Lemma cu_qp_delta_exp_all_ones n sv k c :
  firstn n (bins c) = repeat true n ->
  exists sv', cu_qp_delta_exp n sv k c =
    ((sv', k + Z.of_nat n), mkCABAC (skipn n (bins c)) (ctx_trace c) (av_log_errors c)).
Proof.
  revert sv k c. induction n as [|n IH]; intros sv k [bs tr er] H.
  - exists sv. cbn [cu_qp_delta_exp ret skipn bins ctx_trace av_log_errors].
    replace (k + Z.of_nat 0) with k by lia. reflexivity.
  - cbn [bins] in H. destruct (firstn_repeat_cons n bs H) as (r & -> & Hr).
    cbn [cu_qp_delta_exp]. unfold bind. rewrite get_cabac_bypass_cons. cbn [b2z Z.eqb].
    destruct (IH (int32 (sv + (1 ≪ k))) (k + 1) (mkCABAC r tr er) Hr) as (sv' & E).
    exists sv'. rewrite E. cbn [bins ctx_trace av_log_errors skipn].
    replace (k + 1 + Z.of_nat n) with (k + Z.of_nat (Datatypes.S n)) by lia. reflexivity.
Qed.

Lemma cu_qp_delta_bits_value l rest tr er sv :
  0 <= sv -> sv + 2 ^ Z.of_nat (length l) <= 2 ^ 31 ->
  cu_qp_delta_bits (length l) sv (mkCABAC (l ++ rest) tr er) =
  (sv + bits_value l 0, mkCABAC rest tr er).
Proof.
  revert sv. induction l as [|b r IH]; intros sv Hs Hb; cbn [length cu_qp_delta_bits] in *.
  - cbn. f_equal. lia.
  - unfold bind. cbn [app]. rewrite get_cabac_bypass_cons.
    rewrite Nat2Z.inj_succ, Z.pow_succ_r in Hb by lia.
    assert (0 < 2 ^ Z.of_nat (length r)) by (apply Z.pow_pos_nonneg; lia).
    pose proof (b2z_range b). pose proof (bits_value_range r).
    rewrite Z.shiftl_mul_pow2 by lia.
    rewrite int32_small by nia.
    rewrite IH by nia.
    cbn [bits_value]. rewrite (bits_value_acc r (2 * 0 + b2z b)).
    f_equal. lia.
Qed.

Lemma cu_qp_delta_bits_consumes n sv c :
  bins (snd (cu_qp_delta_bits n sv c)) = skipn n (bins c) /\
  av_log_errors (snd (cu_qp_delta_bits n sv c)) = av_log_errors c.
Proof.
  revert sv c. induction n as [|n IH]; intros sv [bs tr er]; cbn [cu_qp_delta_bits].
  - split; reflexivity.
  - unfold bind. destruct bs as [|b r].
    + destruct (IH (int32 (sv + (0 ≪ Z.of_nat n))) (mkCABAC [] tr er)) as (A & B).
      unfold get_cabac_bypass, next_bin. cbn [bins ctx_trace av_log_errors] in *.
      rewrite A, B. split; [destruct n; reflexivity | reflexivity].
    + rewrite get_cabac_bypass_cons.
      destruct (IH (int32 (sv + (b2z b ≪ Z.of_nat n))) (mkCABAC r tr er)) as (A & B).
      cbn [bins ctx_trace av_log_errors] in *. rewrite A, B. split; reflexivity.
Qed.

Lemma cu_qp_delta_prefix_trace n p inc c :
  ctx_trace (snd (cu_qp_delta_prefix (Datatypes.S n) p inc c)) =
  repeat (elem_offset CU_QP_DELTA + 1) (Nat.min n (leading_ones (bins c))) ++
  elem_offset CU_QP_DELTA + inc :: ctx_trace c.
Proof.
  revert p inc c. induction n as [|n IH]; intros p inc [bs tr er].
  - cbn [cu_qp_delta_prefix]. unfold bind, get_cabac, next_bin. cbn [bins ctx_trace].
    destruct bs as [|[] r]; reflexivity.
  - change (cu_qp_delta_prefix (Datatypes.S (Datatypes.S n)) p inc)
      with (let* b := get_cabac (elem_offset CU_QP_DELTA + inc) in
            if b =? 0 then ret p else cu_qp_delta_prefix (Datatypes.S n) (p + 1) 1).
    unfold bind. destruct bs as [|[] r].
    + reflexivity.
    + rewrite get_cabac_cons. cbn [b2z Z.eqb]. rewrite IH.
      cbn [bins ctx_trace leading_ones Nat.min].
      change (repeat (elem_offset CU_QP_DELTA + 1) (Datatypes.S (Nat.min n (leading_ones r))))
        with (elem_offset CU_QP_DELTA + 1 ::
              repeat (elem_offset CU_QP_DELTA + 1) (Nat.min n (leading_ones r))).
      rewrite repeat_cons. rewrite <- app_assoc. reflexivity.
    + rewrite get_cabac_cons. cbn [b2z Z.eqb ret snd ctx_trace bins leading_ones].
      rewrite Nat.min_0_r. reflexivity.
Qed.

Lemma cu_qp_delta_exp_trace n sv k c :
  ctx_trace (snd (cu_qp_delta_exp n sv k c)) = ctx_trace c.
Proof.
  revert sv k c. induction n as [|n IH]; intros sv k [bs tr er]; cbn [cu_qp_delta_exp].
  - reflexivity.
  - unfold bind, get_cabac_bypass, next_bin. cbn [bins ctx_trace av_log_errors].
    destruct bs as [|[] r]; cbn [b2z Z.eqb ret snd ctx_trace]; try reflexivity.
    apply IH.
Qed.

Lemma cu_qp_delta_bits_trace n sv c :
  ctx_trace (snd (cu_qp_delta_bits n sv c)) = ctx_trace c.
Proof.
  revert sv c. induction n as [|n IH]; intros sv [bs tr er]; cbn [cu_qp_delta_bits].
  - reflexivity.
  - unfold bind, get_cabac_bypass, next_bin. cbn [bins ctx_trace av_log_errors].
    destruct bs as [|b r]; rewrite IH; reflexivity.
Qed.

Lemma cu_qp_delta_abs_trace c :
  ctx_trace (snd (ff_hevc_cu_qp_delta_abs c)) =
  repeat (elem_offset CU_QP_DELTA + 1) (Nat.min 4 (leading_ones (bins c))) ++
  elem_offset CU_QP_DELTA :: ctx_trace c.
Proof.
  unfold ff_hevc_cu_qp_delta_abs. unfold bind at 1.
  pose proof (cu_qp_delta_prefix_trace 4 0 0 c) as T.
  destruct (cu_qp_delta_prefix 5 0 0 c) as [v c1]. cbn [snd] in T.
  replace (elem_offset CU_QP_DELTA + 0) with (elem_offset CU_QP_DELTA) in T by lia.
  rewrite <- T. destruct (v >=? 5); [|reflexivity].
  unfold bind at 1.
  pose proof (cu_qp_delta_exp_trace (Z.to_nat CABAC_MAX_BIN) 0 0 c1) as E.
  destruct (cu_qp_delta_exp (Z.to_nat CABAC_MAX_BIN) 0 0 c1) as [[sv k] c2].
  cbn [snd] in E. rewrite <- E. unfold bind at 1.
  assert (L : ctx_trace (snd ((if k =? CABAC_MAX_BIN then av_log_CABAC_MAX_BIN k
                               else ret tt) c2)) = ctx_trace c2).
  { destruct (k =? CABAC_MAX_BIN); reflexivity. }
  destruct ((if k =? CABAC_MAX_BIN then av_log_CABAC_MAX_BIN k else ret tt) c2) as [u c3].
  cbn [snd] in L. rewrite <- L. unfold bind.
  pose proof (cu_qp_delta_bits_trace (Z.to_nat k) sv c3) as B.
  destruct (cu_qp_delta_bits (Z.to_nat k) sv c3) as [sv' c4]. exact B.
Qed.

(** X6.  [cu_qp_delta_abs] is a truncated-unary prefix of at most five
    context-coded bins followed for a prefix of 5 by a zeroth-order
    Exp-Golomb suffix of bypass bins: fewer than five 1 bins give their
    count, and five 1 bins, [j] more 1 bins, a 0 bin and [j] bits [l] give
    [5 + (2^j - 1) + l].  A suffix of 31 one-bins is logged and, unlike in
    the other Exp-Golomb decoders, decoding goes on: 31 more bins are
    consumed as suffix bits.  Whatever the bins, the context-coded bins
    are the first and one more for each leading 1 bin up to four: the
    first with context [CU_QP_DELTA], every later one with
    [CU_QP_DELTA + 1] (the trace holds the most recent context first);
    the suffix adds none. *)
Theorem cu_qp_delta_abs_value (p j : nat) (l rest : list bool) (tr er : list Z) :
  ((p < 5)%nat ->
   let r := ff_hevc_cu_qp_delta_abs (mkCABAC (repeat true p ++ false :: rest) tr er) in
   fst r = Z.of_nat p /\ bins (snd r) = rest /\ av_log_errors (snd r) = er) /\
  ((j <= 29)%nat -> length l = j ->
   let r := ff_hevc_cu_qp_delta_abs
              (mkCABAC (repeat true 5 ++ repeat true j ++ false :: l ++ rest) tr er) in
   fst r = 5 + (2 ^ Z.of_nat j - 1) + bits_value l 0 /\
   bins (snd r) = rest /\ av_log_errors (snd r) = er) /\
  (length l = 31%nat ->
   let r := ff_hevc_cu_qp_delta_abs
              (mkCABAC (repeat true 5 ++ repeat true 31 ++ l ++ rest) tr er) in
   bins (snd r) = rest /\ av_log_errors (snd r) = 31 :: er) /\
  (forall c : CABACContext,
   ctx_trace (snd (ff_hevc_cu_qp_delta_abs c)) =
   repeat (elem_offset CU_QP_DELTA + 1) (Nat.min 4 (leading_ones (bins c))) ++
   elem_offset CU_QP_DELTA :: ctx_trace c).
Proof.
  assert (Hones : forall n (t : list bool), leading_ones (repeat true n ++ false :: t) = n).
  { induction n as [|n IH]; intros t; cbn; [reflexivity | rewrite IH; reflexivity]. }
  assert (Hones5 : forall (t : list bool), (5 <= leading_ones (repeat true 5 ++ t))%nat).
  { intros t. cbn. lia. }
  split; [|split; [|split]].
  - intros Hp. cbv zeta. unfold ff_hevc_cu_qp_delta_abs, bind.
    destruct (cu_qp_delta_prefix_ones 5 0 0
                (mkCABAC (repeat true p ++ false :: rest) tr er)) as (A & B & C).
    destruct (cu_qp_delta_prefix 5 0 0 _) as [v c1]. cbn [fst snd bins av_log_errors] in *.
    rewrite Hones in A, B.
    replace (Nat.min 5 p) with p in A by lia.
    replace (Nat.min 5 (Datatypes.S p)) with (Datatypes.S p) in B by lia.
    subst v. replace (0 + Z.of_nat p >=? 5) with false by lia.
    cbn [ret fst snd]. split; [lia|]. split; [|exact C].
    rewrite B. replace (Datatypes.S p) with (length (repeat true p ++ [false]))
      by (rewrite length_app, repeat_length; cbn; lia).
    replace (repeat true p ++ false :: rest) with ((repeat true p ++ [false]) ++ rest)
      by (rewrite <- app_assoc; reflexivity).
    apply drop_app_length.
  - intros Hj Hl. cbv zeta. unfold ff_hevc_cu_qp_delta_abs, bind.
    destruct (cu_qp_delta_prefix_ones 5 0 0
                (mkCABAC (repeat true 5 ++ repeat true j ++ false :: l ++ rest) tr er))
      as (A & B & C).
    destruct (cu_qp_delta_prefix 5 0 0 _) as [v [bs1 tr1 er1]].
    cbn [fst snd bins av_log_errors] in *.
    pose proof (Hones5 (repeat true j ++ false :: l ++ rest)) as H5.
    replace (Nat.min 5 _) with 5%nat in A by lia.
    replace (Nat.min 5 _) with 5%nat in B by lia.
    change (0 + Z.of_nat 5) with 5 in A. subst v. change (5 >=? 5) with true.
    cbv beta iota.
    change (skipn 5 (repeat true 5 ++ repeat true j ++ false :: l ++ rest))
      with (repeat true j ++ false :: l ++ rest) in B.
    subst bs1 er1.
    pose proof (cu_qp_delta_exp_ones j 0 (l ++ rest) tr1 er (Z.to_nat CABAC_MAX_BIN)
                  ltac:(lia) ltac:(unfold CABAC_MAX_BIN; lia) ltac:(lia)) as E.
    change (2 ^ 0 - 1) with 0 in E. rewrite E.
    replace (0 + Z.of_nat j =? CABAC_MAX_BIN) with false
      by (unfold CABAC_MAX_BIN; lia).
    cbn [ret fst snd]. replace (0 + Z.of_nat j) with (Z.of_nat j) by lia.
    rewrite Nat2Z.id. rewrite <- Hl.
    assert (Hpw : 2 ^ Z.of_nat (length l) <= 2 ^ 29) by (apply Z.pow_le_mono_r; lia).
    assert (0 < 2 ^ Z.of_nat (length l)) by (apply Z.pow_pos_nonneg; lia).
    rewrite cu_qp_delta_bits_value by lia.
    cbn [fst snd bins av_log_errors]. pose proof (bits_value_range l).
    set (P := 2 ^ Z.of_nat (length l)) in *. set (B := bits_value l 0) in *.
    change (2 ^ 29) with 536870912 in Hpw.
    rewrite int32_small by (change (2 ^ 31) with 2147483648; lia).
    cbn [ret fst snd bins av_log_errors]. repeat split. lia.
  - intros Hl. cbv zeta. unfold ff_hevc_cu_qp_delta_abs, bind.
    destruct (cu_qp_delta_prefix_ones 5 0 0
                (mkCABAC (repeat true 5 ++ repeat true 31 ++ l ++ rest) tr er))
      as (A & B & C).
    destruct (cu_qp_delta_prefix 5 0 0 _) as [v [bs1 tr1 er1]].
    cbn [fst snd bins av_log_errors] in *.
    pose proof (Hones5 (repeat true 31 ++ l ++ rest)) as H5.
    replace (Nat.min 5 _) with 5%nat in A by lia.
    replace (Nat.min 5 _) with 5%nat in B by lia.
    change (0 + Z.of_nat 5) with 5 in A. subst v. change (5 >=? 5) with true.
    cbv beta iota.
    change (skipn 5 (repeat true 5 ++ repeat true 31 ++ l ++ rest))
      with (repeat true 31 ++ l ++ rest) in B.
    subst bs1 er1.
    destruct (cu_qp_delta_exp_all_ones (Z.to_nat CABAC_MAX_BIN) 0 0
                (mkCABAC (repeat true 31 ++ l ++ rest) tr1 er)) as (sv & E).
    { cbn [bins]. change (Z.to_nat CABAC_MAX_BIN) with (length (repeat true 31)).
      apply take_app_length. }
    rewrite E. cbn [bins ctx_trace av_log_errors].
    change (0 + Z.of_nat (Z.to_nat CABAC_MAX_BIN) =? CABAC_MAX_BIN) with true.
    cbv iota. unfold av_log_CABAC_MAX_BIN. cbn [bins ctx_trace av_log_errors].
    destruct (cu_qp_delta_bits_consumes (Z.to_nat (0 + Z.of_nat (Z.to_nat CABAC_MAX_BIN))) sv
                (mkCABAC (skipn (Z.to_nat CABAC_MAX_BIN) (repeat true 31 ++ l ++ rest)) tr1
                   (0 + Z.of_nat (Z.to_nat CABAC_MAX_BIN) :: er))) as (A' & B').
    destruct (cu_qp_delta_bits _ sv _) as [sv' c2]. cbn [fst snd bins av_log_errors ret] in *.
    rewrite A', B'. split; [|reflexivity].
    change (Z.to_nat CABAC_MAX_BIN) with (length (repeat true 31)) at 2.
    rewrite drop_app_length.
    change (Z.to_nat (0 + Z.of_nat (Z.to_nat CABAC_MAX_BIN))) with 31%nat.
    rewrite <- Hl. apply drop_app_length.
  - apply cu_qp_delta_abs_trace.
Qed.

Lemma cu_qp_delta_abs_value_witness :
  (fst (ff_hevc_cu_qp_delta_abs (engine_of [true; true; true; false; true])) = 3 /\
   fst (ff_hevc_cu_qp_delta_abs
          (engine_of (repeat true 5 ++ repeat true 2 ++ false :: [true; false] ++ []))) = 10) /\
  ctx_trace (snd (ff_hevc_cu_qp_delta_abs (engine_of [true; true; true; true; false]))) =
    [elem_offset CU_QP_DELTA + 1; elem_offset CU_QP_DELTA + 1; elem_offset CU_QP_DELTA + 1;
     elem_offset CU_QP_DELTA + 1; elem_offset CU_QP_DELTA].
Proof.
  pose proof (cu_qp_delta_abs_value 3 2 [true; false] [true] [] []) as (A & _ & _ & T).
  pose proof (cu_qp_delta_abs_value 3 2 [true; false] [] [] []) as (_ & B & _).
  split; [split; [apply A; lia | apply B; [lia | reflexivity]]|].
  exact (T (engine_of [true; true; true; true; false])).
Defined.

(** ** Exp-Golomb values: motion-vector differences and remainders *)

Lemma pow2_double k : 0 <= k -> 2 ^ (k + 1) = 2 * 2 ^ k.
Proof. intros H. rewrite Z.pow_add_r by lia. lia. Qed.

Lemma mvd_prefix_ones j k rest tr er n :
  0 <= k -> (j < n)%nat -> k + Z.of_nat j <= 31 ->
  mvd_prefix n (2 ^ k) k (mkCABAC (repeat true j ++ false :: rest) tr er) =
  ((2 ^ (k + Z.of_nat j), k + Z.of_nat j), mkCABAC rest tr er).
Proof.
  revert k n. induction j as [|j IH]; intros k n Hk Hn Hj.
  - destruct n as [|n]; [lia|]. cbn [repeat app mvd_prefix]. unfold bind.
    rewrite get_cabac_bypass_cons. cbn [b2z Z.eqb].
    replace (k + Z.of_nat 0) with k by lia. reflexivity.
  - destruct n as [|n]; [lia|]. cbn [repeat app mvd_prefix]. unfold bind.
    rewrite get_cabac_bypass_cons. cbn [b2z Z.eqb].
    rewrite Z.shiftl_mul_pow2 by lia.
    assert (Hp : 0 < 2 ^ k) by (apply Z.pow_pos_nonneg; lia).
    assert (Hle : 2 ^ (k + 1) <= 2 ^ 31) by (apply Z.pow_le_mono_r; lia).
    pose proof (pow2_double k Hk) as Hk1.
    change (2 ^ 31) with 2147483648 in Hle.
    rewrite uint32_small by (change (2 ^ 32) with 4294967296; lia).
    replace (2 ^ k + 1 * 2 ^ k) with (2 ^ (k + 1)) by lia.
    replace (k + Z.of_nat (Datatypes.S j)) with (k + 1 + Z.of_nat j) in * by lia.
    apply IH; lia.
Qed.

Lemma mvd_suffix_value l rest tr er r :
  0 <= r -> r + 2 ^ Z.of_nat (length l) <= 2 ^ 31 ->
  mvd_suffix (length l) r (mkCABAC (l ++ rest) tr er) =
  (r + bits_value l 0, mkCABAC rest tr er).
Proof.
  revert r. induction l as [|b t IH]; intros r Hr Hb; cbn [length mvd_suffix] in *.
  - cbn. f_equal. lia.
  - unfold bind. cbn [app]. rewrite get_cabac_bypass_cons.
    rewrite Nat2Z.inj_succ, Z.pow_succ_r in Hb by lia.
    assert (0 < 2 ^ Z.of_nat (length t)) by (apply Z.pow_pos_nonneg; lia).
    pose proof (b2z_range b). pose proof (bits_value_range t).
    rewrite Z.shiftl_mul_pow2 by lia.
    rewrite int32_small by nia.
    rewrite IH by nia.
    cbn [bits_value]. rewrite (bits_value_acc t (2 * 0 + b2z b)).
    f_equal. lia.
Qed.

Lemma mvd_decode_code j l s rest tr er :
  (j <= 29)%nat -> length l = Datatypes.S j ->
  mvd_decode (mkCABAC (repeat true j ++ false :: l ++ s :: rest) tr er) =
  ((if s then - (2 ^ (Z.of_nat j + 1) + bits_value l 0)
    else 2 ^ (Z.of_nat j + 1) + bits_value l 0), mkCABAC rest tr er).
Proof.
  intros Hj Hl.
  assert (Hpw : 2 ^ (Z.of_nat j + 1) <= 2 ^ 30) by (apply Z.pow_le_mono_r; lia).
  assert (Hp2 : 2 <= 2 ^ (Z.of_nat j + 1)).
  { change 2 with (2 ^ 1) at 1. apply Z.pow_le_mono_r; lia. }
  pose proof (bits_value_range l) as Hbv. rewrite Hl in Hbv.
  replace (Z.of_nat (Datatypes.S j)) with (Z.of_nat j + 1) in Hbv by lia.
  change (2 ^ 30) with 1073741824 in Hpw.
  unfold mvd_decode, bind.
  change 2 with (2 ^ 1) at 1.
  rewrite (mvd_prefix_ones j 1 (l ++ s :: rest) tr er) by (unfold CABAC_MAX_BIN; lia).
  replace (1 + Z.of_nat j =? CABAC_MAX_BIN) with false by (unfold CABAC_MAX_BIN; lia).
  replace (1 + Z.of_nat j) with (Z.of_nat j + 1) by lia.
  rewrite int32_small by (change (2 ^ 31) with 2147483648; lia).
  replace (Z.to_nat (Z.of_nat j + 1)) with (length l) by lia.
  rewrite mvd_suffix_value;
    [|lia|rewrite Hl; replace (Z.of_nat (Datatypes.S j)) with (Z.of_nat j + 1) by lia;
          change (2 ^ 31) with 2147483648; lia].
  unfold get_cabac_bypass_sign, bind. rewrite get_cabac_bypass_cons.
  destruct s; cbn [b2z Z.eqb ret]; f_equal; lia.
Qed.

(** The greater-1 step and the [switch] of one component on its code. *)
Lemma mvd_greater1_code (m : MvdCode) rest tr er :
  (if b2z (mvd_g0 m) =? 0 then ret (b2z (mvd_g0 m))
   else let* g := abs_mvd_greater1_flag_decode in ret (b2z (mvd_g0 m) + g))
    (mkCABAC (mvd_g1 m ++ rest) tr er) =
  (Z.of_nat (length (mvd_g1 m)) + Z.of_nat (length (filter id (mvd_g1 m))),
   mkCABAC rest
     (repeat (elem_offset ABS_MVD_GREATER1_FLAG + 1) (length (mvd_g1 m)) ++ tr) er).
Proof.
  destruct m as [|s|j l s]; cbn [mvd_g0 mvd_g1 b2z Z.eqb app length repeat];
    [reflexivity| |];
    unfold abs_mvd_greater1_flag_decode, bind; rewrite get_cabac_cons; reflexivity.
Qed.

Lemma mvd_component_code (m : MvdCode) rest tr er :
  mvd_code_ok m ->
  mvd_component (Z.of_nat (length (mvd_g1 m)) + Z.of_nat (length (filter id (mvd_g1 m))))
    (mkCABAC (mvd_tail m ++ rest) tr er) =
  (mvd_value m, mkCABAC rest tr er).
Proof.
  destruct m as [|s|j l s]; intros Hok.
  - reflexivity.
  - destruct s; reflexivity.
  - destruct Hok as [Hj Hl]. cbn [mvd_g1 length filter id mvd_tail mvd_value].
    change (mvd_component (Z.of_nat 1 + Z.of_nat 1)) with mvd_decode.
    replace ((repeat true j ++ false :: l ++ [s]) ++ rest)
      with (repeat true j ++ false :: l ++ s :: rest)
      by (rewrite <- !app_assoc; cbn [app]; rewrite <- app_assoc; reflexivity).
    apply mvd_decode_code; assumption.
Qed.

Lemma mvd_coding_code (X Y : MvdCode) rest tr er :
  mvd_code_ok X -> mvd_code_ok Y ->
  ff_hevc_hls_mvd_coding
    (mkCABAC (mvd_g0 X :: mvd_g0 Y ::
              mvd_g1 X ++ mvd_g1 Y ++ mvd_tail X ++ mvd_tail Y ++ rest) tr er) =
  ((mvd_value X, mvd_value Y),
   mkCABAC rest
     (repeat (elem_offset ABS_MVD_GREATER1_FLAG + 1) (length (mvd_g1 Y)) ++
      repeat (elem_offset ABS_MVD_GREATER1_FLAG + 1) (length (mvd_g1 X)) ++
      elem_offset ABS_MVD_GREATER0_FLAG :: elem_offset ABS_MVD_GREATER0_FLAG :: tr) er).
Proof.
  intros HX HY. unfold ff_hevc_hls_mvd_coding, abs_mvd_greater0_flag_decode.
  unfold bind at 1. rewrite get_cabac_cons.
  unfold bind at 1. rewrite get_cabac_cons.
  unfold bind at 1. rewrite mvd_greater1_code.
  unfold bind at 1. rewrite mvd_greater1_code.
  unfold bind at 1. rewrite mvd_component_code by exact HX.
  unfold bind at 1. rewrite mvd_component_code by exact HY.
  reflexivity.
Qed.

(** X7.  A motion-vector difference with both greater flags set is a
    first-order Exp-Golomb code: [j] 1 bins, a 0 bin, [j + 1] bits [l] and
    a sign bin give the magnitude [2^(j+1) + l], at least 2, negated when
    the sign bin is 1.  In [ff_hevc_hls_mvd_coding] the two greater-0 flags
    come first, x before y, then the greater-1 flags of the components
    that are not 0, x before y, then the rest of the code of x and then
    that of y: whatever the two codes [X] and [Y] (zero; 1 or -1 by a sign
    bin; or an Exp-Golomb magnitude), bins in this order give
    [(mvd_value X, mvd_value Y)], nothing more is consumed, the contexts
    are those of the two flags only and nothing is logged.  Two 0 bins
    give (0, 0), and a component with greater-0 set and greater-1 clear is
    1 or -1 by its sign bin. *)
Theorem mvd_values (j : nat) (l rest : list bool) (s sx : bool) (tr er : list Z) :
  (j <= 29)%nat -> length l = Datatypes.S j ->
  let v := 2 ^ (Z.of_nat j + 1) + bits_value l 0 in
  mvd_decode (mkCABAC (repeat true j ++ false :: l ++ s :: rest) tr er) =
    ((if s then - v else v), mkCABAC rest tr er) /\
  2 <= v < 2 ^ 31 /\
  fst (ff_hevc_hls_mvd_coding (mkCABAC (false :: false :: rest) tr er)) = (0, 0) /\
  bins (snd (ff_hevc_hls_mvd_coding (mkCABAC (false :: false :: rest) tr er))) = rest /\
  fst (ff_hevc_hls_mvd_coding (mkCABAC (true :: false :: false :: sx :: rest) tr er)) =
    ((if sx then -1 else 1), 0) /\
  fst (ff_hevc_hls_mvd_coding
         (mkCABAC (true :: false :: true :: repeat true j ++ false :: l ++ s :: rest) tr er)) =
    ((if s then - v else v), 0) /\
  (forall X Y : MvdCode, mvd_code_ok X -> mvd_code_ok Y ->
   ff_hevc_hls_mvd_coding
     (mkCABAC (mvd_g0 X :: mvd_g0 Y ::
               mvd_g1 X ++ mvd_g1 Y ++ mvd_tail X ++ mvd_tail Y ++ rest) tr er) =
   ((mvd_value X, mvd_value Y),
    mkCABAC rest
      (repeat (elem_offset ABS_MVD_GREATER1_FLAG + 1) (length (mvd_g1 Y)) ++
       repeat (elem_offset ABS_MVD_GREATER1_FLAG + 1) (length (mvd_g1 X)) ++
       elem_offset ABS_MVD_GREATER0_FLAG :: elem_offset ABS_MVD_GREATER0_FLAG :: tr) er)).
Proof.
  intros Hj Hl. cbv zeta.
  assert (Hpw : 2 ^ (Z.of_nat j + 1) <= 2 ^ 30) by (apply Z.pow_le_mono_r; lia).
  assert (Hp2 : 2 <= 2 ^ (Z.of_nat j + 1)).
  { change 2 with (2 ^ 1) at 1. apply Z.pow_le_mono_r; lia. }
  pose proof (bits_value_range l) as Hbv. rewrite Hl in Hbv.
  replace (Z.of_nat (Datatypes.S j)) with (Z.of_nat j + 1) in Hbv by lia.
  change (2 ^ 30) with 1073741824 in Hpw.
  split; [apply mvd_decode_code; assumption|].
  split; [change (2 ^ 31) with 2147483648; lia|].
  split; [reflexivity|]. split; [reflexivity|].
  split; [destruct sx; reflexivity|].
  split.
  - pose proof (mvd_coding_code (MvdBig j l s) MvdZero rest tr er (conj Hj Hl) I) as E.
    cbn [mvd_g0 mvd_g1 mvd_tail mvd_value app] in E.
    replace ((repeat true j ++ false :: l ++ [s]) ++ rest)
      with (repeat true j ++ false :: l ++ s :: rest) in E
      by (rewrite <- !app_assoc; cbn [app]; rewrite <- app_assoc; reflexivity).
    rewrite E. reflexivity.
  - intros X Y HX HY. apply mvd_coding_code; assumption.
Qed.

Lemma mvd_values_witness :
  (mvd_decode (engine_of [true; false; true; false; true; true]) = (-6, engine_of [true]) /\
   fst (ff_hevc_hls_mvd_coding (engine_of [true; false; false; true])) = (-1, 0)) /\
  fst (ff_hevc_hls_mvd_coding
         (engine_of [true; true; false; true; false; true; false; true; false; true])) =
    (1, -6) /\
  fst (ff_hevc_hls_mvd_coding (engine_of [false; true; false; true])) = (0, -1).
Proof.
  pose proof (mvd_values 1 [true; false] [true] true true [] []
                ltac:(lia) eq_refl) as (A & _).
  pose proof (mvd_values 1 [true; false] [] true true [] []
                ltac:(lia) eq_refl) as (_ & _ & _ & _ & B & _ & G).
  split; [split; [exact A | exact B]|]. split.
  - exact (f_equal fst (G (MvdOne false) (MvdBig 1 [true; false] true)
                          I (conj (ltac:(lia) : (1 <= 29)%nat) eq_refl))).
  - exact (f_equal fst (G MvdZero (MvdOne true) I I)).
Defined.

Lemma unary_bypass_codeword p rest tr er n :
  (p < n)%nat ->
  unary_bypass n 0 (mkCABAC (repeat true p ++ false :: rest) tr er) =
  (Z.of_nat p, mkCABAC rest tr er).
Proof.
  intros Hp.
  assert (G : forall p n k (t : list bool), (p < n)%nat ->
    unary_bypass n k (mkCABAC (repeat true p ++ false :: t) tr er) =
    (k + Z.of_nat p, mkCABAC t tr er)).
  { clear. induction p as [|p IH]; intros n k t Hn; (destruct n as [|n]; [lia|]);
      cbn [repeat app unary_bypass]; unfold bind; rewrite get_cabac_bypass_cons;
      cbn [b2z Z.eqb].
    - cbn [ret]. f_equal. lia.
    - rewrite IH by lia. f_equal. lia. }
  rewrite G by exact Hp. reflexivity.
Qed.

(** X8.  The C fallback of [coeff_abs_level_remaining] decodes the
    Golomb-Rice / Exp-Golomb code of the standard: a unary prefix of [p]
    1 bins and a 0 bin, then for [p < 3] a suffix [l] of [k] bits giving
    [(p << k) + l], and for [p >= 3] a suffix of [p - 3 + k] bits giving
    [((2^(p-3) + 2) << k) + l].  So the values of prefix [p] fill
    [[p * 2^k, (p + 1) * 2^k)] for [p < 3] and
    [[(2^(p-3) + 2) * 2^k, (2^(p-2) + 2) * 2^k)] above, consecutive
    intervals without gaps. *)
Theorem coeff_abs_level_remaining_value (rc_rice_param : Z) (p : nat)
    (l rest : list bool) (tr er : list Z) :
  0 <= rc_rice_param -> (p <= 30)%nat -> (length l <= 28)%nat ->
  let k := rc_rice_param in
  let r := coeff_abs_level_remaining_decode k
             (mkCABAC (repeat true p ++ false :: l ++ rest) tr er) in
  ((p < 3)%nat -> Z.of_nat (length l) = k ->
   r = (Z.of_nat p * 2 ^ k + bits_value l 0, mkCABAC rest tr er) /\
   Z.of_nat p * 2 ^ k <= fst r < (Z.of_nat p + 1) * 2 ^ k) /\
  ((3 <= p)%nat -> Z.of_nat (length l) = Z.of_nat p - 3 + k ->
   r = ((2 ^ (Z.of_nat p - 3) + 2) * 2 ^ k + bits_value l 0, mkCABAC rest tr er) /\
   (2 ^ (Z.of_nat p - 3) + 2) * 2 ^ k <= fst r < (2 ^ (Z.of_nat p - 2) + 2) * 2 ^ k).
Proof.
  intros Hk Hp Hl. cbv zeta.
  pose proof (bits_value_range l) as Hbv.
  assert (Hpre : forall rest', unary_bypass (Z.to_nat CABAC_MAX_BIN) 0
            (mkCABAC (repeat true p ++ false :: rest') tr er) =
            (Z.of_nat p, mkCABAC rest' tr er)).
  { intros rest'. apply unary_bypass_codeword. unfold CABAC_MAX_BIN. lia. }
  assert (H28 : 2 ^ Z.of_nat (length l) <= 2 ^ 28) by (apply Z.pow_le_mono_r; lia).
  change (2 ^ 28) with 268435456 in H28.
  assert (Hpos : 0 < 2 ^ Z.of_nat (length l)) by (apply Z.pow_pos_nonneg; lia).
  split.
  - intros Hp3 Hlk.
    assert (E : coeff_abs_level_remaining_decode rc_rice_param
                  (mkCABAC (repeat true p ++ false :: l ++ rest) tr er) =
                (Z.of_nat p * 2 ^ rc_rice_param + bits_value l 0, mkCABAC rest tr er)).
    { unfold coeff_abs_level_remaining_decode, bind. rewrite Hpre.
      replace (Z.of_nat p =? CABAC_MAX_BIN) with false by (unfold CABAC_MAX_BIN; lia).
      replace (Z.of_nat p <? 3) with true by lia.
      replace (Z.to_nat rc_rice_param) with (length l) by lia.
      rewrite read_suffix_bits by (change (2 ^ 31) with 2147483648; lia).
      rewrite Z.shiftl_mul_pow2 by lia. rewrite <- Hlk.
      cbn [ret]. rewrite int32_small by (change (2 ^ 31) with 2147483648; nia).
      reflexivity. }
    rewrite E. split; [reflexivity|]. cbn [fst]. rewrite <- Hlk. nia.
  - intros Hp3 Hlk.
    set (m := Z.of_nat p - 3) in *.
    assert (Hm : 0 <= m) by (unfold m; lia).
    assert (Hsplit : 2 ^ Z.of_nat (length l) = 2 ^ m * 2 ^ rc_rice_param).
    { rewrite Hlk. apply Z.pow_add_r; lia. }
    assert (Hpm : 0 < 2 ^ m) by (apply Z.pow_pos_nonneg; lia).
    assert (Hpk : 0 < 2 ^ rc_rice_param) by (apply Z.pow_pos_nonneg; lia).
    assert (E : coeff_abs_level_remaining_decode rc_rice_param
                  (mkCABAC (repeat true p ++ false :: l ++ rest) tr er) =
                ((2 ^ m + 2) * 2 ^ rc_rice_param + bits_value l 0, mkCABAC rest tr er)).
    { unfold coeff_abs_level_remaining_decode, bind. rewrite Hpre.
      replace (Z.of_nat p =? CABAC_MAX_BIN) with false by (unfold CABAC_MAX_BIN; lia).
      replace (Z.of_nat p <? 3) with false by lia.
      fold m. replace (Z.to_nat (m + rc_rice_param)) with (length l) by lia.
      rewrite read_suffix_bits by (change (2 ^ 31) with 2147483648; lia).
      rewrite !Z.shiftl_mul_pow2 by lia.
      cbn [ret]. rewrite int32_small by (change (2 ^ 31) with 2147483648; nia).
      f_equal. lia. }
    rewrite E. split; [reflexivity|]. cbn [fst].
    replace (Z.of_nat p - 2) with (m + 1) by (unfold m; lia).
    rewrite pow2_double by exact Hm. nia.
Qed.

Lemma coeff_abs_level_remaining_value_witness :
  coeff_abs_level_remaining_decode 1 (engine_of [true; true; false; true; false]) =
    (5, engine_of [false]) /\
  coeff_abs_level_remaining_decode 0
    (engine_of [true; true; true; true; false; true; true]) = (5, engine_of [true]).
Proof.
  pose proof (coeff_abs_level_remaining_value 1 2 [true] [false] [] []
                ltac:(lia) ltac:(lia) ltac:(cbn; lia)) as (A & _).
  pose proof (coeff_abs_level_remaining_value 0 4 [true] [true] [] []
                ltac:(lia) ltac:(lia) ltac:(cbn; lia)) as (_ & B).
  split; [apply A; [lia | reflexivity] | apply B; [lia | reflexivity]].
Defined.

(** ** The peeking remainder decoder against the bin-by-bin one *)

Lemma length_take_pad n l : length (take_pad n l) = n.
Proof.
  revert l. induction n as [|n IH]; intros [|b r]; cbn [take_pad length];
    rewrite ?IH; reflexivity.
Qed.

Lemma take_pad_snoc n l : take_pad (Datatypes.S n) l = take_pad n l ++ [nth n l false].
Proof.
  revert l. induction n as [|n IH]; intros l.
  - destruct l; reflexivity.
  - destruct l as [|b r].
    + change (take_pad (Datatypes.S (Datatypes.S n)) [])
        with (false :: take_pad (Datatypes.S n) []).
      change (take_pad (Datatypes.S n) [] ++ [nth (Datatypes.S n) [] false])
        with (false :: (take_pad n [] ++ [false])).
      rewrite IH. destruct n; reflexivity.
    + change (take_pad (Datatypes.S (Datatypes.S n)) (b :: r))
        with (b :: take_pad (Datatypes.S n) r).
      change (take_pad (Datatypes.S n) (b :: r) ++ [nth (Datatypes.S n) (b :: r) false])
        with (b :: (take_pad n r ++ [nth n r false])).
      rewrite IH. reflexivity.
Qed.

Lemma bits_value_snoc l b acc :
  bits_value (l ++ [b]) acc = 2 * bits_value l acc + b2z b.
Proof.
  revert acc. induction l as [|x r IH]; intros acc; cbn [app bits_value].
  - reflexivity.
  - apply IH.
Qed.

Lemma read_suffix_pad n acc l tr er :
  0 <= acc -> (acc + 1) * 2 ^ Z.of_nat n <= 2 ^ 31 ->
  read_suffix n acc (mkCABAC l tr er) =
  (bits_value (take_pad n l) acc, mkCABAC (skipn n l) tr er).
Proof.
  revert acc l. induction n as [|n IH]; intros acc l Ha Hb.
  - destruct l; reflexivity.
  - rewrite Nat2Z.inj_succ, Z.pow_succ_r in Hb by lia.
    assert (0 < 2 ^ Z.of_nat n) by (apply Z.pow_pos_nonneg; lia).
    cbn [read_suffix]. unfold bind. destruct l as [|b r].
    + unfold get_cabac_bypass at 1, next_bin. cbn [bins ctx_trace av_log_errors].
      change 0 with (b2z false) at 1. rewrite lor_shiftl_bit by exact Ha.
      cbn [b2z]. rewrite int32_small by nia.
      rewrite IH by nia. cbn [take_pad bits_value b2z skipn]. destruct n; reflexivity.
    + rewrite get_cabac_bypass_cons. pose proof (b2z_range b).
      rewrite lor_shiftl_bit by exact Ha. rewrite int32_small by nia.
      rewrite IH by nia. reflexivity.
Qed.

Lemma shiftr_step x m :
  0 <= m -> x ≫ m = 2 * (x ≫ (m + 1)) + b2z (Z.testbit x m).
Proof.
  intros Hm. rewrite <- (Z.shiftr_shiftr x m 1) by lia.
  rewrite <- Z.div2_spec.
  rewrite (Z.div2_odd (x ≫ m)) at 1. f_equal.
  rewrite <- Z.bit0_odd, Z.shiftr_spec by lia. reflexivity.
Qed.

Lemma leading_ones_nth l j :
  (j < leading_ones l)%nat -> nth j l false = true.
Proof.
  revert j. induction l as [|[] r IH]; intros j Hj; cbn [leading_ones] in Hj; try lia.
  destruct j as [|j]; cbn [nth]; [reflexivity | apply IH; lia].
Qed.

Lemma leading_ones_stop l : nth (leading_ones l) l false = false.
Proof. induction l as [|[] r IH]; cbn [leading_ones nth]; auto. Qed.

Lemma leading_ones_skipn l :
  skipn (Datatypes.S (leading_ones l)) l = skipn 1 (skipn (leading_ones l) l).
Proof. rewrite skipn_skipn. reflexivity. Qed.

(** The bits of the peeked word: bin [j] is bit [31 - j], for [j < 22]. *)
Lemma peek22_msb l j :
  0 <= j <= 31 ->
  msb_bit (peek_bits 22 31 l) j = (j <? 22) && nth (Z.to_nat j) l false.
Proof.
  intros Hj. unfold msb_bit. rewrite peek_bits_testbit by (cbn; lia).
  replace (31 - j <=? 31) with true by lia.
  replace (31 - (31 - j)) with j by lia.
  change (Z.of_nat 22) with 22. reflexivity.
Qed.

Lemma peek22_range l : 0 <= peek_bits 22 31 l < 2 ^ 32.
Proof.
  assert (G : forall n bit (t : list bool), 0 <= peek_bits n bit t).
  { induction n as [|n IH]; intros bit t; cbn [peek_bits]; [lia|].
    destruct t as [|b r]; [lia|].
    apply Z.lor_nonneg. split; [|apply IH].
    apply Z.shiftl_nonneg. pose proof (b2z_range b). lia. }
  split; [apply G|].
  apply lt_pow2_of_bits; [apply G | lia |].
  intros m Hm. rewrite peek_bits_testbit by (cbn; lia).
  replace (m <=? 31) with false by lia. reflexivity.
Qed.

Lemma lmbd1_peek l :
  (leading_ones l <= 21)%nat ->
  lmbd1 (Z.lnot (peek_bits 22 31 l)) = Z.of_nat (leading_ones l).
Proof.
  intros Hp. unfold lmbd1.
  set (y := peek_bits 22 31 l). set (x := uint32 (Z.lnot y)).
  assert (Hbit : forall j, 0 <= j <= 31 ->
            msb_bit x j = negb ((j <? 22) && nth (Z.to_nat j) l false)).
  { intros j Hj. unfold msb_bit, x. rewrite testbit_uint32.
    replace (31 - j <? 32) with true by lia. rewrite andb_true_l.
    rewrite Z.lnot_spec by lia. fold (msb_bit y j). unfold y.
    rewrite peek22_msb by exact Hj. reflexivity. }
  assert (Hset : msb_bit x (Z.of_nat (leading_ones l)) = true).
  { rewrite Hbit by lia. rewrite Nat2Z.id, leading_ones_stop, andb_false_r. reflexivity. }
  assert (Hclr : forall j, 0 <= j < Z.of_nat (leading_ones l) -> msb_bit x j = false).
  { intros j Hj. rewrite Hbit by lia.
    rewrite leading_ones_nth by lia.
    replace (j <? 22) with true by lia. reflexivity. }
  assert (Hx : 0 < x < 2 ^ 32).
  { pose proof (uint32_range (Z.lnot y)) as Hr. fold x in Hr.
    split; [|lia]. destruct (Z.eq_dec x 0) as [H0|H0]; [|lia].
    rewrite H0 in Hset. unfold msb_bit in Hset. rewrite Z.bits_0 in Hset. discriminate. }
  destruct (clz32_spec x Hx) as (Hr & Hc1 & Hc2).
  destruct (Z.lt_trichotomy (clz32 x) (Z.of_nat (leading_ones l))) as [Hlt|[Heq|Hgt]].
  - rewrite Hclr in Hc1 by lia. discriminate.
  - exact Heq.
  - rewrite Hc2 in Hset by lia. discriminate.
Qed.

Lemma LSR32M_0 x : LSR32M x 0 = 0.
Proof.
  unfold LSR32M. change (32 - 0) with 32.
  rewrite Z.shiftr_div_pow2 by lia. apply Z.div_small. apply uint32_range.
Qed.

Lemma LSR32M_peek l (s n : nat) :
  (s + n <= 22)%nat ->
  LSR32M (peek_bits 22 31 l ≪ Z.of_nat s) (Z.of_nat n) =
  bits_value (take_pad n (skipn s l)) 0.
Proof.
  induction n as [|n IH]; intros Hn.
  - apply LSR32M_0.
  - rewrite take_pad_snoc, bits_value_snoc, <- IH by lia.
    unfold LSR32M.
    rewrite (shiftr_step _ (32 - Z.of_nat (Datatypes.S n))) by lia.
    replace (32 - Z.of_nat (Datatypes.S n) + 1) with (32 - Z.of_nat n) by lia.
    f_equal. f_equal.
    rewrite testbit_uint32.
    replace (32 - Z.of_nat (Datatypes.S n) <? 32) with true
      by (symmetry; apply Z.ltb_lt; lia). rewrite andb_true_l.
    rewrite Z.shiftl_spec by lia.
    rewrite peek_bits_testbit by (cbn; lia).
    replace (32 - Z.of_nat (Datatypes.S n) - Z.of_nat s <=? 31) with true
      by (symmetry; apply Z.leb_le; lia).
    replace (31 - (32 - Z.of_nat (Datatypes.S n) - Z.of_nat s) <? Z.of_nat 22) with true
      by (symmetry; apply Z.ltb_lt; lia).
    rewrite !andb_true_l. rewrite nth_skipn. f_equal. lia.
Qed.

Lemma LSR32M_uint32 x n : LSR32M (uint32 x) n = LSR32M x n.
Proof. unfold LSR32M, uint32. rewrite Z.mod_mod by lia. reflexivity. Qed.

(** X9.  The two remainder decoders of the file agree: for every Rice
    parameter and every engine state whose next bins hold fewer than 22
    1 bins before the first 0 bin, with a suffix that the 22 peeked bins
    cover ([prefix + 1 + rc_rice_param <= 22] for a prefix below 3) or
    that a second peek covers ([prefix - 3 + rc_rice_param <= 22] above),
    [coeff_abs_level_remaining_decode_alt1] returns the value of the
    bin-by-bin [coeff_abs_level_remaining_decode] and leaves the engine
    in the same state. *)
Theorem remaining_decoders_agree (rc_rice_param : Z) (c : CABACContext) :
  0 <= rc_rice_param ->
  let prefix := Z.of_nat (leading_ones (bins c)) in
  prefix <= 21 ->
  (prefix < 3 -> prefix + 1 + rc_rice_param <= 22) ->
  (3 <= prefix -> prefix - 3 + rc_rice_param <= 22) ->
  coeff_abs_level_remaining_decode_alt1 rc_rice_param c =
  coeff_abs_level_remaining_decode rc_rice_param c.
Proof.
  intros Hk. cbv zeta. intros Hp Hlo Hhi.
  destruct c as [l tr er]. cbn [bins] in *.
  set (p := leading_ones l) in *.
  (* the bin-by-bin decoder *)
  assert (Hpre : unary_bypass (Z.to_nat CABAC_MAX_BIN) 0 (mkCABAC l tr er) =
                 (Z.of_nat p, mkCABAC (skipn (Datatypes.S p) l) tr er)).
  { destruct (unary_bypass_ones (Z.to_nat CABAC_MAX_BIN) 0 (mkCABAC l tr er))
      as (A & B & C & D).
    destruct (unary_bypass _ 0 _) as [v [b t e]].
    cbn [fst snd bins ctx_trace av_log_errors] in *. fold p in A, B.
    change (Z.to_nat CABAC_MAX_BIN) with 31%nat in *.
    replace (Nat.min 31 p) with p in A by lia.
    replace (Nat.min 31 (Datatypes.S p)) with (Datatypes.S p) in B by lia.
    subst. reflexivity. }
  assert (Hsuf : forall n : Z, 0 <= n <= 22 -> (0 + 1) * 2 ^ Z.of_nat (Z.to_nat n) <= 2 ^ 31).
  { intros n Hn.
    assert (2 ^ Z.of_nat (Z.to_nat n) <= 2 ^ 22) by (apply Z.pow_le_mono_r; lia).
    change (2 ^ 22) with 4194304 in *. change (2 ^ 31) with 2147483648. lia. }
  assert (Hmax : (Z.of_nat p =? CABAC_MAX_BIN) = false)
    by (apply Z.eqb_neq; unfold CABAC_MAX_BIN; lia).
  assert (Hlm : lmbd1 (Z.lnot (peek_bits 22 31 l)) = Z.of_nat p)
    by (apply lmbd1_peek; fold p; lia).
  destruct (Z.ltb_spec (Z.of_nat p) 3) as [H3|H3].
  - (* prefix < 3 *)
    assert (F : coeff_abs_level_remaining_decode rc_rice_param (mkCABAC l tr er) =
                (int32 ((Z.of_nat p ≪ rc_rice_param) +
                        bits_value (take_pad (Z.to_nat rc_rice_param)
                                      (skipn (Datatypes.S p) l)) 0),
                 mkCABAC (skipn (Z.to_nat rc_rice_param) (skipn (Datatypes.S p) l)) tr er)).
    { unfold coeff_abs_level_remaining_decode, bind. rewrite Hpre, Hmax.
      replace (Z.of_nat p <? 3) with true by (symmetry; apply Z.ltb_lt; lia).
      rewrite read_suffix_pad by (try apply Hsuf; lia). reflexivity. }
    rewrite F.
    unfold coeff_abs_level_remaining_decode_alt1, bind, get_alt1cabac_bypeek22,
      get_alt1cabac_byflush22. cbn [bins ctx_trace av_log_errors ret].
    rewrite Hlm.
    replace (Z.of_nat p <? 3) with true by (symmetry; apply Z.ltb_lt; lia).
    replace (Z.of_nat p + 1) with (Z.of_nat (Datatypes.S p)) by lia.
    rewrite <- (Z2Nat.id rc_rice_param) at 2 by exact Hk.
    rewrite LSR32M_peek by lia.
    rewrite skipn_skipn.
    replace (Z.to_nat (Z.of_nat (Datatypes.S p) + rc_rice_param))
      with (Z.to_nat rc_rice_param + Datatypes.S p)%nat by lia.
    reflexivity.
  - set (n := Z.of_nat p - 3 + rc_rice_param) in *.
    assert (F : coeff_abs_level_remaining_decode rc_rice_param (mkCABAC l tr er) =
                (int32 ((((1 ≪ (Z.of_nat p - 3)) + 3 - 1) ≪ rc_rice_param) +
                        bits_value (take_pad (Z.to_nat n) (skipn (Datatypes.S p) l)) 0),
                 mkCABAC (skipn (Z.to_nat n) (skipn (Datatypes.S p) l)) tr er)).
    { unfold coeff_abs_level_remaining_decode, bind. rewrite Hpre, Hmax.
      replace (Z.of_nat p <? 3) with false by (symmetry; apply Z.ltb_ge; lia).
      fold n. rewrite read_suffix_pad by (try apply Hsuf; lia). reflexivity. }
    rewrite F.
    unfold coeff_abs_level_remaining_decode_alt1, bind, get_alt1cabac_bypeek22,
      get_alt1cabac_byflush22. cbn [bins ctx_trace av_log_errors ret].
    rewrite Hlm.
    replace (Z.of_nat p <? 3) with false by (symmetry; apply Z.ltb_ge; lia).
    fold n.
    destruct (Z.leb_spec (Z.of_nat p + 1 + Z.of_nat p - 3 + rc_rice_param) 22) as [H22|H22].
    + (* the suffix is among the peeked bins *)
      cbn [bins ctx_trace av_log_errors ret]. rewrite LSR32M_uint32.
      replace (Z.of_nat p + 1) with (Z.of_nat (Datatypes.S p)) by lia.
      rewrite <- (Z2Nat.id n) at 1 by (unfold n; lia).
      rewrite LSR32M_peek by (unfold n in *; lia).
      rewrite skipn_skipn.
      replace (Z.to_nat (Z.of_nat (Datatypes.S p) + Z.of_nat p - 3 + rc_rice_param))
        with (Z.to_nat n + Datatypes.S p)%nat by (unfold n; lia).
      reflexivity.
    + (* a second peek *)
      replace (Z.to_nat (Z.of_nat p + 1)) with (Datatypes.S p) by lia.
      cbn [bins ctx_trace av_log_errors ret].
      rewrite <- (Z.shiftl_0_r (peek_bits 22 31 (skipn (Datatypes.S p) l))).
      change 0 with (Z.of_nat 0) at 1.
      rewrite <- (Z2Nat.id n) at 1 by (unfold n; lia).
      rewrite LSR32M_peek by (unfold n in *; lia).
      cbn [skipn]. reflexivity.
Qed.

Lemma remaining_decoders_agree_witness :
  coeff_abs_level_remaining_decode_alt1 2
    (engine_of [true; true; true; true; false; true; false; true; true]) =
  (21, engine_of [true]).
Proof.
  rewrite (remaining_decoders_agree 2
             (engine_of [true; true; true; true; false; true; false; true; true])
             ltac:(lia) ltac:(cbn; lia) ltac:(cbn; lia) ltac:(cbn; lia)).
  reflexivity.
Defined.

(** ** The position of the last significant coefficient *)

Lemma always_last_prefix_loop n i base off sh :
  always (last_prefix_loop n i base off sh) (fun r => i <= r <= i + Z.of_nat n).
Proof.
  revert i. induction n as [|n IH]; intros i; cbn [last_prefix_loop].
  - apply always_ret. lia.
  - apply always_bind. intros b. destruct (b =? 0); [apply always_ret; lia|].
    eapply always_weaken; [apply IH|]. cbv beta. intros; lia.
Qed.

Lemma always_last_xy_prefix c_idx L :
  2 <= L ->
  always (last_significant_coeff_xy_prefix_decode c_idx L)
    (fun '(x, y) => 0 <= x <= 2 * L - 1 /\ 0 <= y <= 2 * L - 1).
Proof.
  intros HL. unfold last_significant_coeff_xy_prefix_decode. cbv zeta.
  rewrite Z.shiftl_mul_pow2 by lia. change (2 ^ 1) with 2.
  destruct (if c_idx =? 0 then _ else _) as [off sh].
  eapply always_bind_with; [apply always_last_prefix_loop|]. intros x Hx.
  eapply always_bind_with; [apply always_last_prefix_loop|]. intros y Hy.
  apply always_ret. cbv beta iota in *. lia.
Qed.

Lemma always_last_significant_coeff p L :
  2 <= L <= 29 -> 0 <= p <= 2 * L - 1 ->
  always (last_significant_coeff p) (fun r => 0 <= r < 2 ^ L).
Proof.
  intros HL Hp. unfold last_significant_coeff.
  assert (H4 : 4 <= 2 ^ L).
  { change 4 with (2 ^ 2). apply Z.pow_le_mono_r; lia. }
  destruct (Z.gtb_spec p 3) as [H3|H3]; [|apply always_ret; lia].
  set (len := (p ≫ 1) - 1).
  assert (Hlen : 1 <= len /\ len + 2 <= L).
  { unfold len. rewrite Z.shiftr_div_pow2 by lia. change (2 ^ 1) with 2.
    pose proof (Z.div_mod p 2 ltac:(lia)). pose proof (Z.mod_pos_bound p 2 ltac:(lia)). lia. }
  unfold last_significant_coeff_suffix_decode. fold len.
  eapply always_bind_with.
  - eapply always_bind_with; [apply always_bypass|]. intros b Hb.
    apply (always_read_suffix (Z.to_nat (len - 1)) b 1); [lia| |lia].
    change (2 ^ 1) with 2. destruct Hb as [->| ->]; lia.
  - cbv beta. intros suffix Hs. apply always_ret.
    replace (1 + Z.of_nat (Z.to_nat (len - 1))) with len in Hs by lia.
    rewrite Z.shiftl_mul_pow2 by lia.
    pose proof (Zland_1_range p).
    assert (Hpl : 0 < 2 ^ len) by (apply Z.pow_pos_nonneg; lia).
    assert (Hle : 2 ^ (len + 2) <= 2 ^ L) by (apply Z.pow_le_mono_r; lia).
    rewrite Z.pow_add_r in Hle by lia. change (2 ^ 2) with 4 in Hle.
    nia.
Qed.

(** X10.  The decoded position of the last significant coefficient lies
    inside the block: for a transform block of size [2^L], [2 <= L <= 5],
    whatever the bins, both coordinates that [ff_hevc_hls_residual_coding]
    derives from the prefixes and suffixes (after the swap for the
    vertical scan) are in [0, 2^L). *)
Theorem last_significant_coeff_in_block (s : HEVCContext) (log2_trafo_size : Z)
    (scan_idx : ScanType) (c_idx : Z) (stat_coeff coeffs : list Z) (c : CABACContext) :
  2 <= log2_trafo_size <= 5 ->
  let d := fst (residual_decode s log2_trafo_size scan_idx c_idx stat_coeff coeffs c) in
  0 <= d_last_significant_coeff_x d < 2 ^ log2_trafo_size /\
  0 <= d_last_significant_coeff_y d < 2 ^ log2_trafo_size.
Proof.
  intros HL. cbv zeta.
  assert (A : always (residual_decode s log2_trafo_size scan_idx c_idx stat_coeff coeffs)
                (fun d => 0 <= d_last_significant_coeff_x d < 2 ^ log2_trafo_size /\
                          0 <= d_last_significant_coeff_y d < 2 ^ log2_trafo_size)).
  { unfold residual_decode. cbv zeta.
    apply always_bind. intros [tsb dq].
    apply always_bind. intros [erf erd].
    eapply always_bind_with; [apply always_last_xy_prefix; lia|]. intros [px py] [Hx Hy].
    eapply always_bind_with; [apply (always_last_significant_coeff px log2_trafo_size); lia|].
    intros x Hx'.
    eapply always_bind_with; [apply (always_last_significant_coeff py log2_trafo_size); lia|].
    intros y Hy'.
    destruct scan_idx; apply always_bind; intros st; apply always_ret;
      cbn [d_last_significant_coeff_x d_last_significant_coeff_y]; split; assumption. }
  apply (A c I).
Qed.

Lemma last_significant_coeff_in_block_witness :
  2 <= 3 <= 5 /\
  0 <= d_last_significant_coeff_x
         (fst (residual_decode ex_intra 3 SCAN_DIAG 0 [0; 0; 0; 0] (repeat 0 64)
                 (engine_of (repeat true 12)))) < 2 ^ 3.
Proof.
  assert (H : 2 <= 3 <= 5) by lia.
  split; [exact H|].
  exact (proj1 (last_significant_coeff_in_block ex_intra 3 SCAN_DIAG 0 [0; 0; 0; 0]
                  (repeat 0 64) (engine_of (repeat true 12)) H)).
Defined.

(** ** Quantisation parameter and scaling *)

Lemma forallb_below (P : Z -> bool) (n : nat) :
  forallb P (map Z.of_nat (seq 0 n)) = true ->
  forall k, 0 <= k < Z.of_nat n -> P k = true.
Proof.
  intros H k Hk. rewrite forallb_forall in H. apply H.
  apply in_map_iff. exists (Z.to_nat k). split; [lia|]. apply in_seq. lia.
Qed.

Lemma rem6_div6_tables q :
  0 <= q <= 73 -> rem6.[q] = q mod 6 /\ div6.[q] = q / 6.
Proof.
  intros Hq.
  pose proof (forallb_below
                (fun q => (rem6.[q] =? q mod 6) && (div6.[q] =? q / 6)) 74
                ltac:(vm_compute; reflexivity) q ltac:(lia)) as H.
  cbv beta in H. apply andb_true_iff in H. destruct H as [H1 H2].
  split; apply Z.eqb_eq; assumption.
Qed.

Lemma qp_c_range j : 0 <= j <= 13 -> 29 <= qp_c.[j] <= 37.
Proof.
  intros Hj.
  pose proof (forallb_below (fun j => (29 <=? qp_c.[j]) && (qp_c.[j] <=? 37)) 14 ltac:(vm_compute; reflexivity) j
                ltac:(lia)) as H.
  cbv beta in H. apply andb_true_iff in H. destruct H as [H1 H2].
  split; apply Z.leb_le; assumption.
Qed.

Lemma level_scale_range j : 0 <= j <= 5 -> 40 <= level_scale.[j] <= 72.
Proof.
  intros Hj.
  pose proof (forallb_below (fun j => (40 <=? level_scale.[j]) && (level_scale.[j] <=? 72))
                6 ltac:(vm_compute; reflexivity) j ltac:(lia)) as H.
  cbv beta in H. apply andb_true_iff in H. destruct H as [H1 H2].
  split; apply Z.leb_le; assumption.
Qed.

Lemma derive_qp_range s c_idx :
  0 <= qp_bd_offset (sps s) -> - qp_bd_offset (sps s) <= qp_y s <= 51 ->
  0 <= derive_qp s c_idx <= 51 + qp_bd_offset (sps s).
Proof.
  intros Hb Hq. unfold derive_qp.
  destruct (c_idx =? 0); [lia|].
  set (off := if c_idx =? 1 then _ else _).
  pose proof (av_clip_range (qp_y s + off) (- qp_bd_offset (sps s)) 57 ltac:(lia)) as Hc.
  set (qp_i := av_clip (qp_y s + off) (- qp_bd_offset (sps s)) 57) in *.
  destruct (chroma_format_idc (sps s) =? 1).
  - destruct (Z.ltb_spec qp_i 30); [lia|].
    destruct (Z.gtb_spec qp_i 43); [lia|].
    pose proof (qp_c_range (qp_i - 30) ltac:(lia)). lia.
  - destruct (Z.gtb_spec qp_i 51); lia.
Qed.

(** X11.  The quantisation parameter the residual decoder derives for a
    block: with [qp_bd_offset] in [0, 24] (bit depths up to 12) and [qp_y]
    in [-qp_bd_offset, 51], for luma and for chroma with any chroma QP
    offsets, the derived [qp] is in [0, 51 + qp_bd_offset], inside the 76
    entries that [rem6] and [div6] are declared with.  Up to 73 the two
    tables give [qp % 6] and [qp / 6] and the scale looked up is one of
    the six level scales; the tables have 74 initialisers, so at 74 and 75
    (12-bit video at the two highest QPs) both read 0. *)
Theorem derive_qp_in_tables (s : HEVCContext) (c_idx : Z) :
  0 <= qp_bd_offset (sps s) <= 24 ->
  - qp_bd_offset (sps s) <= qp_y s <= 51 ->
  let qp := derive_qp s c_idx in
  0 <= qp <= 51 + qp_bd_offset (sps s) /\
  qp < 51 + 4 * 6 + 1 /\
  (qp <= 73 ->
   rem6.[qp] = qp mod 6 /\ div6.[qp] = qp / 6 /\ 40 <= level_scale.[rem6.[qp]] <= 72) /\
  (74 <= qp -> rem6.[qp] = 0 /\ div6.[qp] = 0).
Proof.
  intros Hb Hq. cbv zeta.
  pose proof (derive_qp_range s c_idx ltac:(lia) Hq) as Hr.
  split; [exact Hr|]. split; [lia|]. split.
  - intros H73.
    destruct (rem6_div6_tables (derive_qp s c_idx) ltac:(lia)) as [H6 Hd].
    split; [exact H6|]. split; [exact Hd|].
    rewrite H6. apply level_scale_range.
    pose proof (Z.mod_pos_bound (derive_qp s c_idx) 6 ltac:(lia)). lia.
  - intros H74. split; apply zth_overflow; cbn; lia.
Qed.

Lemma derive_qp_in_tables_witness :
  0 <= qp_bd_offset (sps ex_intra) <= 24 /\
  - qp_bd_offset (sps ex_intra) <= qp_y ex_intra <= 51 /\
  rem6.[derive_qp ex_intra 1] = derive_qp ex_intra 1 mod 6.
Proof.
  assert (H1 : 0 <= qp_bd_offset (sps ex_intra) <= 24) by (cbn; lia).
  assert (H2 : - qp_bd_offset (sps ex_intra) <= qp_y ex_intra <= 51) by (cbn; lia).
  split; [exact H1|]. split; [exact H2|].
  exact (proj1 (proj1 (proj2 (proj2 (derive_qp_in_tables ex_intra 1 H1 H2)))
                  ltac:(vm_compute; discriminate))).
Defined.

(** X12.  [trans_scale_sat] rounds to nearest and saturates: [shift] is
    one less than the shift wanted, and as long as the 32-bit product
    [level * (scale * scale_m)] does not overflow the result is
    [(level * scale * scale_m + 2^shift) >> (shift + 1)] clipped to
    [-32768, 32767]. *)
Theorem trans_scale_sat_rounds (level scale scale_m shift : Z) :
  0 <= shift -> 0 <= scale < 2 ^ 32 -> 0 <= scale_m < 2 ^ 32 ->
  scale * scale_m < 2 ^ 31 ->
  - 2 ^ 31 <= level * (scale * scale_m) < 2 ^ 31 - 1 ->
  trans_scale_sat level scale scale_m shift =
  av_clip ((level * scale * scale_m + 2 ^ shift) / 2 ^ (shift + 1)) (-32768) 32767.
Proof.
  intros Hs Hsc Hm Hsm HP. unfold trans_scale_sat. cbv zeta.
  rewrite (trans_coeff_level_rounded level scale scale_m shift Hs Hsc Hm Hsm HP).
  unfold av_clip.
  set (v := (level * scale * scale_m + 2 ^ shift) / 2 ^ (shift + 1)).
  reflexivity.
Qed.

Lemma trans_scale_sat_rounds_witness :
  trans_scale_sat 3 45 16 2 = av_clip ((3 * 45 * 16 + 2 ^ 2) / 2 ^ (2 + 1)) (-32768) 32767.
Proof.
  apply trans_scale_sat_rounds; cbn; lia.
Defined.

(** X13.  The scale and shift derived for a block that is not
    transquant-bypass stand for the standard's dequantisation: with
    [qp] at most 73 and [bdShift = bit_depth + log2_trafo_size - 5],
    [scale * 2^(bdShift - 1) = level_scale[qp % 6] * 2^(qp / 6) * 2^shift]
    with [shift >= 0], so that, as long as the 32-bit product does not
    overflow, the stored coefficient is
    [(level * m * level_scale[qp % 6] * 2^(qp / 6) + 2^(bdShift - 1)) >> bdShift]
    clipped to 16 bits; without scaling lists the factor [m] is the flat 16. *)
Theorem derived_scale_and_shift (s : HEVCContext) (log2_trafo_size c_idx : Z)
    (c : CABACContext) (level scale_m : Z) :
  cu_transquant_bypass_flag (cu s) = false ->
  0 <= qp_bd_offset (sps s) <= 24 ->
  - qp_bd_offset (sps s) <= qp_y s <= 51 ->
  0 <= bit_depth (sps s) + log2_trafo_size - 6 ->
  derive_qp s c_idx <= 73 ->
  let qp := derive_qp s c_idx in
  let bd_shift := bit_depth (sps s) + log2_trafo_size - 5 in
  let dq := snd (fst (derive_dequant s log2_trafo_size c_idx c)) in
  0 <= shift dq /\
  scale dq * 2 ^ (bd_shift - 1) = level_scale.[qp mod 6] * 2 ^ (qp / 6) * 2 ^ shift dq /\
  (scaling_list_enable_flag (sps s) = false ->
   scale_matrix dq = sixteen_scale /\ dc_scale dq = 16) /\
  (0 <= scale_m <= 255 -> scale dq * scale_m < 2 ^ 31 ->
   - 2 ^ 31 <= level * (scale dq * scale_m) < 2 ^ 31 - 1 ->
   trans_scale_sat level (scale dq) scale_m (shift dq) =
   av_clip ((level * scale_m * level_scale.[qp mod 6] * 2 ^ (qp / 6) + 2 ^ (bd_shift - 1))
            / 2 ^ bd_shift) (-32768) 32767).
Proof.
  intros Hb Hbd Hq Hs0 H73. cbv zeta.
  pose proof (derive_qp_range s c_idx ltac:(lia) Hq) as Hr.
  destruct (rem6_div6_tables (derive_qp s c_idx) ltac:(lia)) as [H6 Hd].
  pose proof (level_scale_range (derive_qp s c_idx mod 6)
                ltac:(pose proof (Z.mod_pos_bound (derive_qp s c_idx) 6 ltac:(lia)); lia))
    as Hls.
  set (qp := derive_qp s c_idx) in *.
  set (s0 := bit_depth (sps s) + log2_trafo_size - 6) in *.
  replace (bit_depth (sps s) + log2_trafo_size - 5 - 1) with s0 by (unfold s0; lia).
  replace (bit_depth (sps s) + log2_trafo_size - 5) with (s0 + 1) by (unfold s0; lia).
  set (ls := level_scale.[qp mod 6]) in *.
  set (d := qp / 6) in *.
  assert (Hdr : 0 <= d <= 12).
  { unfold d. split; [apply Z.div_pos; lia|].
    assert (qp / 6 < 13) by (apply Z.div_lt_upper_bound; lia). lia. }
  (* the pair chosen by the comparison of div6[qp] with shift *)
  set (sc := if d >=? s0 then int32 (ls ≪ (d - s0)) else ls).
  set (sh := if d >=? s0 then 0 else s0 - d).
  assert (Hpair : 0 <= sh /\ sc * 2 ^ s0 = ls * 2 ^ d * 2 ^ sh /\ 0 < sc).
  { unfold sc, sh. destruct (Z.geb_spec d s0) as [Hge|Hlt].
    - rewrite Z.shiftl_mul_pow2 by lia.
      assert (Hp : 0 < 2 ^ (d - s0)) by (apply Z.pow_pos_nonneg; lia).
      assert (Hle : 2 ^ (d - s0) <= 2 ^ 12) by (apply Z.pow_le_mono_r; lia).
      change (2 ^ 12) with 4096 in Hle.
      rewrite int32_small by (change (2 ^ 31) with 2147483648; nia).
      split; [lia|]. split; [|nia].
      change (2 ^ 0) with 1. replace d with ((d - s0) + s0) at 2 by lia.
      rewrite Z.pow_add_r by lia. ring.
    - split; [lia|]. split; [|lia].
      replace s0 with (d + (s0 - d)) at 1 by lia.
      rewrite Z.pow_add_r by lia. ring. }
  destruct Hpair as (Hsh & Hrel & Hscp).
  assert (A : always (derive_dequant s log2_trafo_size c_idx)
                (fun r => scale (snd r) = sc /\ shift (snd r) = sh /\
                          (scaling_list_enable_flag (sps s) = false ->
                           scale_matrix (snd r) = sixteen_scale /\ dc_scale (snd r) = 16))).
  { unfold derive_dequant. rewrite Hb. cbn [negb].
    apply always_bind. intros tsb. cbv zeta.
    fold qp. rewrite H6, Hd. fold ls d s0.
    fold sc sh.
    replace (if d >=? s0 then (int32 (ls ≪ (d - s0)), 0) else (ls, s0 - d))
      with (sc, sh) by (unfold sc, sh; destruct (d >=? s0); reflexivity).
    destruct (scaling_list_enable_flag (sps s)); cbn [andb].
    - destruct (negb _); apply always_ret; cbn [snd scale shift scale_matrix dc_scale];
        (split; [reflexivity|]; split; [reflexivity|]; intros; try discriminate; auto).
    - apply always_ret. cbn [snd scale shift scale_matrix dc_scale]. auto. }
  destruct (A c I) as (Esc & Esh & Eflat).
  rewrite Esc, Esh.
  split; [exact Hsh|]. split; [exact Hrel|]. split; [exact Eflat|].
  intros Hm Hsm HP.
  assert (Hscr : 0 <= sc < 2 ^ 32).
  { unfold sc. destruct (d >=? s0); [pose proof (int32_range (ls ≪ (d - s0)))|];
      change (2 ^ 32) with 4294967296; change (2 ^ 31) with 2147483648 in *; lia. }
  unfold trans_scale_sat. cbv zeta.
  rewrite (trans_coeff_level_rounded level sc scale_m sh Hsh Hscr
             ltac:(change (2 ^ 32) with 4294967296; lia) Hsm HP).
  change (av_clip ?a (-32768) 32767) with
    (if a <? -32768 then -32768 else if a >? 32767 then 32767 else a).
  match goal with |- (if ?a <? _ then _ else _) = (if ?b <? _ then _ else _) =>
    replace b with a; [reflexivity|] end.
  assert (Hps : 0 < 2 ^ s0) by (apply Z.pow_pos_nonneg; lia).
  assert (Hph : 0 < 2 ^ sh) by (apply Z.pow_pos_nonneg; lia).
  assert (Hpd : 0 < 2 ^ d) by (apply Z.pow_pos_nonneg; lia).
  unfold sc, sh in *. destruct (Z.geb_spec d s0) as [Hge|Hlt].
  - (* shift = 0 *)
    change (2 ^ 0) with 1 in *. change (2 ^ (0 + 1)) with 2.
    rewrite Z.pow_add_r by lia. change (2 ^ 1) with 2.
    replace (level * scale_m * ls * 2 ^ d + 2 ^ s0)
      with (2 ^ s0 * (level * int32 (ls ≪ (d - s0)) * scale_m + 1)) by nia.
    rewrite Z.div_mul_cancel_l by lia. reflexivity.
  - replace (s0 + 1) with (d + (s0 - d + 1)) by lia.
    rewrite (Z.pow_add_r 2 d) by lia.
    replace (level * scale_m * ls * 2 ^ d + 2 ^ s0)
      with (2 ^ d * (level * ls * scale_m + 2 ^ (s0 - d))).
    + rewrite Z.div_mul_cancel_l by lia. reflexivity.
    + replace s0 with (d + (s0 - d)) at 2 by lia.
      rewrite (Z.pow_add_r 2 d) by lia. ring.
Qed.

Lemma derived_scale_and_shift_witness :
  scale (snd (fst (derive_dequant ex_intra 2 0 (engine_of [])))) * 2 ^ 4 =
    level_scale.[26 mod 6] * 2 ^ (26 / 6) * 2 ^ 0 /\
  trans_scale_sat 1 51 16 0 = 408.
Proof.
  pose proof (derived_scale_and_shift ex_intra 2 0 (engine_of []) 1 16 eq_refl
                ltac:(cbn; lia) ltac:(cbn; lia) ltac:(cbn; lia)
                ltac:(vm_compute; discriminate)) as (_ & A & _ & B).
  split; [exact A|].
  exact (B ltac:(lia) ltac:(vm_compute; reflexivity)
           ltac:(split; vm_compute; [discriminate | reflexivity])).
Defined.

(** ** Context initialisation and the WPP snapshot *)

Lemma zth_ext (l l' : list Z) :
  length l = length l' ->
  (forall i, 0 <= i < Z.of_nat (length l) -> l.[i] = l'.[i]) -> l = l'.
Proof.
  intros Hl H. apply (nth_ext l l' 0 0 Hl). intros n Hn.
  specialize (H (Z.of_nat n) ltac:(lia)). unfold zth in H.
  rewrite Nat2Z.id in H. exact H.
Qed.

Lemma cabac_init_state_lengths st flag qp t :
  length (cabac_state (cabac_init_state st flag qp t)) = length (cabac_state t) /\
  length (stat_coeff (cabac_init_state st flag qp t)) = length (stat_coeff t).
Proof.
  unfold cabac_init_state. cbn [cabac_state stat_coeff].
  split.
  - apply (for_loop_zset_length _ 0
             (fun i _ => init_state_value (init_value_at (init_type_of st flag) i) qp)).
  - apply (for_loop_zset_length 4 0 (fun _ _ => 0)).
Qed.

Lemma init_state_value_range v qp : 0 <= v <= 255 -> 0 <= init_state_value v qp <= 125.
Proof.
  intros Hv. rewrite init_state_value_formula by exact Hv. cbv zeta.
  match goal with |- context [if ?a >? 124 then _ else _] =>
    pose proof (Zland_1_range a); destruct (Z.gtb_spec a 124) end; [lia|].
  match goal with |- context [if ?a <? 0 then _ else _] => destruct (Z.ltb_spec a 0) end; lia.
Qed.

(** X14.  [cabac_init_state] leaves every one of the [HEVC_CONTEXTS]
    context states in [0, 125] and the four [stat_coeff] counters at 0,
    and what it leaves depends on the slice type, [cabac_init_flag] and
    [slice_qp] only, not on what the tables held. *)
Theorem cabac_init_state_resets (slice_type : SliceType) (cabac_init_flag : bool)
    (slice_qp : Z) (t t' : CabacTables) (i : Z) :
  length (cabac_state t) = Z.to_nat HEVC_CONTEXTS -> length (stat_coeff t) = 4%nat ->
  length (cabac_state t') = Z.to_nat HEVC_CONTEXTS -> length (stat_coeff t') = 4%nat ->
  let r := cabac_init_state slice_type cabac_init_flag slice_qp t in
  (0 <= i < HEVC_CONTEXTS -> 0 <= (cabac_state r).[i] <= 125) /\
  stat_coeff r = [0; 0; 0; 0] /\
  r = cabac_init_state slice_type cabac_init_flag slice_qp t' /\
  cabac_init_state slice_type cabac_init_flag slice_qp r = r.
Proof.
  intros H1 H2 H3 H4. cbv zeta.
  assert (Hind : forall a b,
    length (cabac_state a) = Z.to_nat HEVC_CONTEXTS -> length (stat_coeff a) = 4%nat ->
    length (cabac_state b) = Z.to_nat HEVC_CONTEXTS -> length (stat_coeff b) = 4%nat ->
    cabac_init_state slice_type cabac_init_flag slice_qp a =
    cabac_init_state slice_type cabac_init_flag slice_qp b).
  { intros a b Ha1 Ha2 Hb1 Hb2.
    destruct (cabac_init_state_lengths slice_type cabac_init_flag slice_qp a) as [La1 La2].
    destruct (cabac_init_state_lengths slice_type cabac_init_flag slice_qp b) as [Lb1 Lb2].
    assert (E1 : cabac_state (cabac_init_state slice_type cabac_init_flag slice_qp a) =
                 cabac_state (cabac_init_state slice_type cabac_init_flag slice_qp b)).
    { apply zth_ext; [congruence|]. intros k Hk.
      rewrite !cabac_init_state_zth by (try assumption; lia). reflexivity. }
    assert (E2 : stat_coeff (cabac_init_state slice_type cabac_init_flag slice_qp a) =
                 stat_coeff (cabac_init_state slice_type cabac_init_flag slice_qp b)).
    { apply zth_ext; [congruence|]. intros k Hk.
      rewrite !cabac_init_state_stat_coeff by (try assumption; lia). reflexivity. }
    destruct (cabac_init_state _ _ _ a) as [sa ca], (cabac_init_state _ _ _ b) as [sb cb].
    cbn [cabac_state stat_coeff] in E1, E2. congruence. }
  destruct (cabac_init_state_lengths slice_type cabac_init_flag slice_qp t) as [L1 L2].
  split; [|split; [|split]].
  - intros Hi. rewrite cabac_init_state_zth by assumption.
    apply init_state_value_range, init_value_at_byte.
  - apply zth_ext; [rewrite L2, H2; reflexivity|].
    intros k Hk. rewrite L2, H2 in Hk.
    rewrite cabac_init_state_stat_coeff by (try assumption; lia).
    assert (Hc : k = 0 \/ k = 1 \/ k = 2 \/ k = 3) by lia.
    destruct Hc as [->|[->|[->| ->]]]; reflexivity.
  - apply Hind; assumption.
  - apply Hind; congruence.
Qed.

Lemma cabac_init_state_resets_witness :
  0 <= (cabac_state (cabac_init_state B_SLICE true 40
                       (mkCabacTables (repeat 7 188) [1; 2; 3; 4]))).[100] <= 125 /\
  stat_coeff (cabac_init_state B_SLICE true 40 (mkCabacTables (repeat 7 188) [1; 2; 3; 4])) =
    [0; 0; 0; 0].
Proof.
  pose proof (cabac_init_state_resets B_SLICE true 40
                (mkCabacTables (repeat 7 188) [1; 2; 3; 4])
                (mkCabacTables (repeat 0 188) [0; 0; 0; 0]) 100
                eq_refl eq_refl eq_refl eq_refl) as (A & B & _).
  split; [apply A; split; [discriminate | reflexivity] | exact B].
Defined.

Lemma memcpy_whole (dst src : list Z) n :
  length dst = Z.to_nat n -> length src = Z.to_nat n -> memcpy dst src n = src.
Proof.
  intros Hd Hs. unfold memcpy.
  rewrite firstn_all2 by lia. rewrite skipn_all2 by lia. apply app_nil_r.
Qed.

(** X15.  The wavefront snapshot round trip.  At the first CTB of a row
    that is not the first CTB of the slice segment and not at a tile
    boundary, with [entropy_coding_sync_enabled_flag], [ff_hevc_cabac_init]
    terminates the engine and then reinitialises it, and leaves the saved
    table alone.  With more than one CTB per row, the context table saved
    by [ff_hevc_save_states] after the CTB at column 2 of a row (or at
    column 0 when the picture is two CTBs wide) is the table the local
    context holds afterwards, whatever the local table became in between,
    and the [stat_coeff] counters are not restored but kept.  With one CTB
    per row (where every CTB starts a row) nothing is loaded: the tables
    are those of [cabac_init_state], whatever was saved. *)
Theorem wpp_snapshot_round_trip (p : CabacInitParams) (ctb_addr_saved ctb_addr_ts : Z)
    (st later : CabacInitState) :
  entropy_coding_sync_enabled_flag p = true ->
  ctb_addr_ts <> slice_ctb_addr_ts p ->
  tile_boundary p ctb_addr_ts = false ->
  Z.rem ctb_addr_ts (ctb_width p) = 0 ->
  let r := ff_hevc_cabac_init p ctb_addr_ts later in
  (ctb_width p <> 1 ->
   length (cabac_state (local_tables st)) = Z.to_nat HEVC_CONTEXTS ->
   length (saved_cabac_state st) = Z.to_nat HEVC_CONTEXTS ->
   length (cabac_state (local_tables later)) = Z.to_nat HEVC_CONTEXTS ->
   (Z.rem ctb_addr_saved (ctb_width p) = 2 \/
    (ctb_width p = 2 /\ Z.rem ctb_addr_saved (ctb_width p) = 0)) ->
   saved_cabac_state later =
     saved_cabac_state (ff_hevc_save_states_st p ctb_addr_saved st) ->
   cabac_state (local_tables r) = cabac_state (local_tables st) /\
   stat_coeff (local_tables r) = stat_coeff (local_tables later)) /\
  (ctb_width p = 1 ->
   local_tables r =
   cabac_init_state (ci_slice_type p) (ci_cabac_init_flag p) (ci_slice_qp p)
     (local_tables later)) /\
  saved_cabac_state r = saved_cabac_state later /\
  engine_calls r =
    (if threads_number p =? 1 then CALL_cabac_reinit else CALL_cabac_init_decoder) ::
    CALL_get_cabac_terminate :: engine_calls later.
Proof.
  intros Hsync Hne Htile Hrow. cbv zeta.
  unfold ff_hevc_cabac_init.
  replace (ctb_addr_ts =? slice_ctb_addr_ts p) with false
    by (symmetry; apply Z.eqb_neq; exact Hne).
  rewrite Htile, Hsync, Hrow. cbn [Z.eqb].
  split; [|split; [|split]].
  - intros Hw Hl Hs Hll Hsave Hkeep.
    assert (Hsaved : saved_cabac_state later = cabac_state (local_tables st)).
    { rewrite Hkeep. unfold ff_hevc_save_states_st, ff_hevc_save_states.
      cbn [saved_cabac_state]. rewrite Hsync. cbn [andb].
      replace ((Z.rem ctb_addr_saved (ctb_width p) =? 2) ||
               ((ctb_width p =? 2) && (Z.rem ctb_addr_saved (ctb_width p) =? 0)))
        with true.
      - apply memcpy_whole; assumption.
      - symmetry. apply orb_true_iff. destruct Hsave as [H|[H1 H2]].
        + left. apply Z.eqb_eq. exact H.
        + right. apply andb_true_iff. split; apply Z.eqb_eq; assumption. }
    replace (ctb_width p =? 1) with false by (symmetry; apply Z.eqb_neq; exact Hw).
    unfold load_states_st, load_states.
    destruct (threads_number p =? 1);
      cbn [local_tables cabac_state stat_coeff engine_call saved_cabac_state];
      (split; [rewrite Hsaved; apply memcpy_whole; congruence | reflexivity]).
  - intros Hw. rewrite Hw. cbn [Z.eqb Pos.eqb].
    destruct (threads_number p =? 1); reflexivity.
  - destruct (ctb_width p =? 1), (threads_number p =? 1); reflexivity.
  - destruct (ctb_width p =? 1), (threads_number p =? 1); reflexivity.
Qed.

Lemma wpp_snapshot_round_trip_witness :
  let p := mkCabacInitParams 0 0 false false [] true 4 1 P_SLICE false 30 in
  let p1 := mkCabacInitParams 0 0 false false [] true 1 1 P_SLICE false 30 in
  let later :=
    mkCabacInitState (mkCabacTables (repeat 9 188) [2; 0; 1; 0]) (repeat 5 188) [] in
  (cabac_state (local_tables (ff_hevc_cabac_init p 4 later)) = repeat 5 188 /\
   stat_coeff (local_tables (ff_hevc_cabac_init p 4 later)) = [2; 0; 1; 0]) /\
  local_tables (ff_hevc_cabac_init p1 3 later) =
    cabac_init_state P_SLICE false 30 (local_tables later).
Proof.
  cbv zeta. split.
  - apply (wpp_snapshot_round_trip
             (mkCabacInitParams 0 0 false false [] true 4 1 P_SLICE false 30) 2 4
             (mkCabacInitState (mkCabacTables (repeat 5 188) [1; 2; 3; 4]) (repeat 0 188) [])
             (mkCabacInitState (mkCabacTables (repeat 9 188) [2; 0; 1; 0]) (repeat 5 188) [])
             eq_refl ltac:(discriminate) eq_refl eq_refl);
      [discriminate | reflexivity | reflexivity | reflexivity
      | left; reflexivity | reflexivity].
  - apply (wpp_snapshot_round_trip
             (mkCabacInitParams 0 0 false false [] true 1 1 P_SLICE false 30) 2 3
             (mkCabacInitState (mkCabacTables (repeat 5 188) [1; 2; 3; 4]) (repeat 0 188) [])
             (mkCabacInitState (mkCabacTables (repeat 9 188) [2; 0; 1; 0]) (repeat 5 188) [])
             eq_refl ltac:(discriminate) eq_refl eq_refl).
    reflexivity.
Defined.

(** X16.  What [ff_hevc_cabac_init] does to the context table at the
    start of a CTB.  At the first CTB of an independent slice segment the
    decoder is initialised and the tables are those of [cabac_init_state].
    At the first CTB of a dependent slice segment that is neither at a tile
    boundary nor at a row start under wavefront processing the tables are
    inherited as they are.  At any other CTB that is neither at a tile
    boundary nor at a row start under wavefront processing nothing is
    touched. *)
Theorem cabac_init_cases (p : CabacInitParams) (ctb_addr_ts : Z) (st : CabacInitState) :
  let r := ff_hevc_cabac_init p ctb_addr_ts st in
  let no_row_start :=
    entropy_coding_sync_enabled_flag p = false \/
    Z.rem ctb_addr_ts (ctb_width p) <> 0 in
  (ctb_addr_ts = slice_ctb_addr_ts p -> dependent_slice_segment_flag p = 0 ->
   local_tables r =
     cabac_init_state (ci_slice_type p) (ci_cabac_init_flag p) (ci_slice_qp p)
       (local_tables st) /\
   engine_calls r = CALL_cabac_init_decoder :: engine_calls st /\
   saved_cabac_state r = saved_cabac_state st) /\
  (ctb_addr_ts = slice_ctb_addr_ts p -> dependent_slice_segment_flag p <> 0 ->
   tile_boundary p ctb_addr_ts = false -> no_row_start ->
   local_tables r = local_tables st /\
   engine_calls r = CALL_cabac_init_decoder :: engine_calls st) /\
  (ctb_addr_ts <> slice_ctb_addr_ts p ->
   tile_boundary p ctb_addr_ts = false -> no_row_start -> r = st).
Proof.
  cbv zeta. unfold ff_hevc_cabac_init.
  split; [|split].
  - intros -> Hd. rewrite Z.eqb_refl, Hd. cbn [Z.eqb orb].
    assert (Hidem : forall t,
      cabac_init_state (ci_slice_type p) (ci_cabac_init_flag p) (ci_slice_qp p)
        (cabac_init_state (ci_slice_type p) (ci_cabac_init_flag p) (ci_slice_qp p) t) =
      cabac_init_state (ci_slice_type p) (ci_cabac_init_flag p) (ci_slice_qp p) t).
    { intros t. unfold cabac_init_state at 1 3. cbn [cabac_state stat_coeff].
      f_equal.
      - unfold cabac_init_state. cbn [cabac_state].
        apply zth_ext.
        + rewrite !(for_loop_zset_length _ 0
             (fun i _ => init_state_value
                           (init_value_at (init_type_of (ci_slice_type p)
                                             (ci_cabac_init_flag p)) i) (ci_slice_qp p))).
          reflexivity.
        + intros i Hi.
          rewrite !(for_loop_zset_length _ 0
             (fun i _ => init_state_value
                           (init_value_at (init_type_of (ci_slice_type p)
                                             (ci_cabac_init_flag p)) i) (ci_slice_qp p)))
            in Hi.
          destruct (Z.lt_ge_cases i HEVC_CONTEXTS) as [Hlt|Hge].
          * rewrite (for_loop_zset_zth _ 0
               (fun k => init_state_value
                           (init_value_at (init_type_of (ci_slice_type p)
                                             (ci_cabac_init_flag p)) k) (ci_slice_qp p)))
              by (rewrite ?(for_loop_zset_length _ 0
                    (fun i _ => init_state_value
                       (init_value_at (init_type_of (ci_slice_type p)
                                         (ci_cabac_init_flag p)) i) (ci_slice_qp p))); lia).
            rewrite (for_loop_zset_zth _ 0
               (fun k => init_state_value
                           (init_value_at (init_type_of (ci_slice_type p)
                                             (ci_cabac_init_flag p)) k) (ci_slice_qp p)))
              by lia.
            reflexivity.
          * rewrite (for_loop_zset_keep _ 0
               (fun i _ => init_state_value
                           (init_value_at (init_type_of (ci_slice_type p)
                                             (ci_cabac_init_flag p)) i) (ci_slice_qp p)))
              by lia.
            reflexivity.
      - unfold cabac_init_state. cbn [stat_coeff].
        apply zth_ext.
        + rewrite !(for_loop_zset_length 4 0 (fun _ _ => 0)). reflexivity.
        + intros i Hi. rewrite !(for_loop_zset_length 4 0 (fun _ _ => 0)) in Hi.
          destruct (Z.lt_ge_cases i 4) as [Hlt|Hge].
          * rewrite (for_loop_zset_zth 4 0 (fun _ => 0))
              by (rewrite ?(for_loop_zset_length 4 0 (fun _ _ => 0)); lia).
            rewrite (for_loop_zset_zth 4 0 (fun _ => 0)) by lia. reflexivity.
          * rewrite (for_loop_zset_keep 4 0 (fun _ _ => 0)) by lia. reflexivity. }
    destruct (negb (first_slice_in_pic_flag p) && entropy_coding_sync_enabled_flag p);
      [destruct (Z.rem (slice_ctb_addr_ts p) (ctb_width p) =? 0);
         [destruct (ctb_width p =? 1);
            [|replace (0 =? 1) with false by reflexivity]|]|];
      cbn [cabac_init_state_st engine_call local_tables engine_calls saved_cabac_state];
      rewrite ?Hidem; repeat split; reflexivity.
  - intros -> Hd Htile Hrow. rewrite Z.eqb_refl, Htile.
    replace (dependent_slice_segment_flag p =? 0) with false
      by (symmetry; apply Z.eqb_neq; exact Hd).
    cbn [orb].
    destruct Hrow as [Hsync|Hrow].
    + rewrite Hsync, andb_false_r. split; reflexivity.
    + replace (Z.rem (slice_ctb_addr_ts p) (ctb_width p) =? 0) with false
        by (symmetry; apply Z.eqb_neq; exact Hrow).
      destruct (_ && _); split; reflexivity.
  - intros Hne Htile Hrow.
    replace (ctb_addr_ts =? slice_ctb_addr_ts p) with false
      by (symmetry; apply Z.eqb_neq; exact Hne).
    rewrite Htile. destruct Hrow as [Hsync|Hrow].
    + rewrite Hsync. reflexivity.
    + replace (Z.rem ctb_addr_ts (ctb_width p) =? 0) with false
        by (symmetry; apply Z.eqb_neq; exact Hrow).
      destruct (entropy_coding_sync_enabled_flag p); reflexivity.
Qed.

Lemma cabac_init_cases_witness :
  let p := mkCabacInitParams 8 1 false false [] false 4 1 P_SLICE false 30 in
  let st := mkCabacInitState (mkCabacTables (repeat 5 188) [1; 2; 3; 4]) (repeat 0 188) [] in
  ff_hevc_cabac_init p 9 st = st /\
  local_tables (ff_hevc_cabac_init p 8 st) = local_tables st.
Proof.
  cbv zeta.
  split.
  - apply (cabac_init_cases (mkCabacInitParams 8 1 false false [] false 4 1 P_SLICE false 30) 9).
    + discriminate.
    + reflexivity.
    + left. reflexivity.
  - apply (cabac_init_cases (mkCabacInitParams 8 1 false false [] false 4 1 P_SLICE false 30) 8).
    + reflexivity.
    + discriminate.
    + reflexivity.
    + left. reflexivity.
Defined.

(** ** Where the residual decoder stores *)

Lemma chain_weaken lo hi lo' hi' l :
  lo' <= lo -> hi <= hi' -> chain lo hi l -> chain lo' hi' l.
Proof.
  revert hi hi'. induction l as [|a r IH]; intros hi hi' Hlo Hhi H; simpl in *; [exact I|].
  destruct H as [Ha Hr]. split; [lia|]. apply (IH (a - 1) (a - 1)); [lia | lia | exact Hr].
Qed.

Lemma chain_app lo m hi l1 l2 :
  lo <= m -> m - 1 <= hi ->
  chain m hi l1 -> chain lo (m - 1) l2 -> chain lo hi (l1 ++ l2).
Proof.
  intros Hlo. revert hi. induction l1 as [|a r IH]; intros hi Hhi H1 H2; simpl in *.
  - apply (chain_weaken lo (m - 1)); [lia | lia | exact H2].
  - destruct H1 as [Ha Hr]. split; [lia|]. apply IH; [lia | exact Hr | exact H2].
Qed.

Lemma chain_In lo hi l x : chain lo hi l -> In x l -> lo <= x <= hi.
Proof.
  revert hi. induction l as [|a r IH]; intros hi H Hx; simpl in *; [contradiction|].
  destruct H as [Ha Hr]. destruct Hx as [<-|Hx]; [exact Ha|].
  specialize (IH _ Hr Hx). lia.
Qed.

Lemma chain_NoDup lo hi l : chain lo hi l -> NoDup l.
Proof.
  revert hi. induction l as [|a r IH]; intros hi H; simpl in *; [constructor|].
  destruct H as [Ha Hr]. constructor; [|apply (IH _ Hr)].
  intros Hin. pose proof (chain_In _ _ _ _ Hr Hin). lia.
Qed.

Lemma nodupb_NoDup l : nodupb l = true -> NoDup l.
Proof.
  induction l as [|a r IH]; simpl; intros H; [constructor|].
  apply andb_true_iff in H. destruct H as [H1 H2].
  constructor; [|apply IH; exact H2].
  intros Hin. apply negb_true_iff in H1.
  assert (E : existsb (Z.eqb a) r = true).
  { apply existsb_exists. exists a. split; [exact Hin | apply Z.eqb_refl]. }
  congruence.
Qed.

Lemma NoDup_map_in {A B : Type} (f : A -> B) (l : list A) :
  (forall x y, In x l -> In y l -> f x = f y -> x = y) -> NoDup l -> NoDup (map f l).
Proof.
  induction l as [|a r IH]; intros Hinj Hnd; simpl; [constructor|].
  inversion Hnd as [|? ? Hna Hr]; subst.
  constructor.
  - intros Hin. apply in_map_iff in Hin. destruct Hin as (b & E & Hb).
    apply Hna. rewrite <- (Hinj b a); [exact Hb | right; exact Hb | left; reflexivity | exact E].
  - apply IH; [|exact Hr]. intros x y Hx Hy. apply Hinj; right; assumption.
Qed.

(** The scan tables do not depend on the last significant position. *)
Lemma select_scan_tables scan L lx ly :
  scan_x_cg (select_scan scan L lx ly) = scan_x_cg (select_scan scan L 0 0) /\
  scan_y_cg (select_scan scan L lx ly) = scan_y_cg (select_scan scan L 0 0) /\
  scan_x_off (select_scan scan L lx ly) = scan_x_off (select_scan scan L 0 0) /\
  scan_y_off (select_scan scan L lx ly) = scan_y_off (select_scan scan L 0 0).
Proof.
  unfold select_scan. cbv zeta.
  destruct scan; cbn [scan_x_cg scan_y_cg scan_x_off scan_y_off];
    [destruct (1 ≪ L =? 4), (1 ≪ L =? 8), (1 ≪ L =? 16)| |];
    repeat split; reflexivity.
Qed.

Lemma t_offset_scan_offset scan L lx ly i pos :
  0 <= pos <= 15 ->
  t_offset_of L (scan_x_cg (select_scan scan L lx ly)).[i]
    (scan_y_cg (select_scan scan L lx ly)).[i]
    (scan_x_off (select_scan scan L lx ly)) (scan_y_off (select_scan scan L lx ly)) pos =
  scan_offset scan L (16 * i + pos).
Proof.
  intros Hp. unfold scan_offset. cbv zeta.
  destruct (select_scan_tables scan L lx ly) as (-> & -> & -> & ->).
  replace ((16 * i + pos) / 16) with i
    by (apply (Z.div_unique (16 * i + pos) 16 i pos); lia).
  replace ((16 * i + pos) mod 16) with pos
    by (apply (Z.mod_unique (16 * i + pos) 16 i pos); lia).
  reflexivity.
Qed.

Lemma scan_tables_checked scan L :
  2 <= L <= 5 -> (scan <> SCAN_DIAG -> L <= 3) -> scan_tables_check scan L = true.
Proof.
  intros HL Hs.
  assert (HL' : L = 2 \/ L = 3 \/ L = 4 \/ L = 5) by lia.
  destruct scan.
  - destruct HL' as [-> | [-> | [-> | ->]]]; vm_compute; reflexivity.
  - specialize (Hs ltac:(discriminate)).
    assert (HL'' : L = 2 \/ L = 3) by lia.
    destruct HL'' as [-> | ->]; vm_compute; reflexivity.
  - specialize (Hs ltac:(discriminate)).
    assert (HL'' : L = 2 \/ L = 3) by lia.
    destruct HL'' as [-> | ->]; vm_compute; reflexivity.
Qed.

Lemma pow4_nat L : 0 <= L -> Z.of_nat (Z.to_nat (4 ^ L)) = 4 ^ L.
Proof. intros H. apply Z2Nat.id. apply Z.pow_nonneg. lia. Qed.

Lemma scan_offset_range scan L k :
  2 <= L <= 5 -> (scan <> SCAN_DIAG -> L <= 3) -> 0 <= k < 4 ^ L ->
  0 <= scan_offset scan L k < 4 ^ L.
Proof.
  intros HL Hs Hk. pose proof (scan_tables_checked scan L HL Hs) as H.
  unfold scan_tables_check in H. cbv zeta in H.
  apply andb_true_iff in H. destruct H as [H _].
  apply andb_true_iff in H. destruct H as [H _].
  pose proof (forallb_below _ _ H k ltac:(rewrite pow4_nat; lia)) as Hk'.
  cbv beta in Hk'. apply andb_true_iff in Hk'. destruct Hk' as [H1 H2].
  apply Z.leb_le in H1. apply Z.ltb_lt in H2. lia.
Qed.

Lemma scan_offset_inj scan L k1 k2 :
  2 <= L <= 5 -> (scan <> SCAN_DIAG -> L <= 3) ->
  0 <= k1 < 4 ^ L -> 0 <= k2 < 4 ^ L ->
  scan_offset scan L k1 = scan_offset scan L k2 -> k1 = k2.
Proof.
  intros HL Hs H1 H2 E. pose proof (scan_tables_checked scan L HL Hs) as H.
  unfold scan_tables_check in H. cbv zeta in H.
  apply andb_true_iff in H. destruct H as [H _].
  apply andb_true_iff in H. destruct H as [_ H].
  apply nodupb_NoDup in H.
  rewrite List.map_map in H.
  pose proof (proj1 (NoDup_nth _ 0) H (Z.to_nat k1) (Z.to_nat k2)) as N.
  rewrite length_map, length_seq in N.
  assert (Hn : forall k, 0 <= k < 4 ^ L ->
            nth (Z.to_nat k)
              (map (fun x => scan_offset scan L (Z.of_nat x)) (seq 0 (Z.to_nat (4 ^ L)))) 0 =
            scan_offset scan L k).
  { intros k Hk.
    rewrite (nth_indep _ 0 (scan_offset scan L (Z.of_nat 0)))
      by (rewrite length_map, length_seq; lia).
    rewrite (map_nth (fun x => scan_offset scan L (Z.of_nat x))).
    rewrite seq_nth by lia. simpl. rewrite Z2Nat.id by lia. reflexivity. }
  rewrite !Hn in N by assumption.
  specialize (N ltac:(lia) ltac:(lia) E). lia.
Qed.

Lemma num_coeff_last scan L lx ly :
  2 <= L <= 5 -> (scan <> SCAN_DIAG -> L <= 3) ->
  0 <= lx < 2 ^ L -> 0 <= ly < 2 ^ L ->
  1 <= num_coeff (select_scan scan L lx ly) <= 4 ^ L /\
  scan_offset scan L (num_coeff (select_scan scan L lx ly) - 1) = (ly ≪ L) + lx.
Proof.
  intros HL Hs Hx Hy. pose proof (scan_tables_checked scan L HL Hs) as H.
  unfold scan_tables_check in H. cbv zeta in H.
  apply andb_true_iff in H. destruct H as [_ H].
  assert (H4 : 4 ^ L = 2 ^ L * 2 ^ L).
  { change 4 with (2 ^ 2). rewrite <- Z.pow_mul_r by lia. rewrite <- Z.pow_add_r by lia.
    f_equal. lia. }
  pose proof (forallb_below _ _ H (ly * 2 ^ L + lx) ltac:(rewrite pow4_nat; nia)) as Hm.
  cbv beta in Hm.
  replace ((ly * 2 ^ L + lx) mod 2 ^ L) with lx in Hm
    by (apply (Z.mod_unique (ly * 2 ^ L + lx) (2 ^ L) ly lx); lia).
  replace ((ly * 2 ^ L + lx) / 2 ^ L) with ly in Hm
    by (apply (Z.div_unique (ly * 2 ^ L + lx) (2 ^ L) ly lx); lia).
  apply andb_true_iff in Hm. destruct Hm as [Hm H3].
  apply andb_true_iff in Hm. destruct Hm as [H1 H2].
  apply Z.leb_le in H1. apply Z.leb_le in H2. apply Z.eqb_eq in H3.
  split; [lia | exact H3].
Qed.

(** *** The significance map of a subblock *)

Lemma always_sig_idxs n state0 ctx_map :
  always (get_sig_coeff_flag_idxs n state0 ctx_map) (chain 1 (Z.of_nat n)).
Proof.
  induction n as [|n IH].
  - simpl. apply always_ret. exact I.
  - cbn [get_sig_coeff_flag_idxs].
    apply always_bind. intros b.
    eapply always_bind_with; [exact IH|]. intros r Hr.
    apply always_ret. destruct (b =? 0).
    + apply (chain_weaken 1 (Z.of_nat n)); [lia | lia | exact Hr].
    + simpl. split; [lia|].
      replace (Z.of_nat (Datatypes.S n) - 1) with (Z.of_nat n) by lia. exact Hr.
Qed.

Lemma always_decode_sig_flags s L scan c_idx tsb i x_cg y_cg prev_sig n_end inz idxs :
  0 <= n_end ->
  always (decode_sig_flags s L scan c_idx tsb i x_cg y_cg prev_sig n_end inz idxs)
    (fun r => exists rest, r = idxs ++ rest /\ chain 0 n_end rest).
Proof.
  intros Hn. unfold decode_sig_flags.
  destruct (sig_ctx s L scan c_idx tsb x_cg y_cg prev_sig) as [scf cmap].
  assert (H0 : chain 0 0 [0]) by (simpl; lia).
  assert (Hadd : forall rest, chain 1 n_end rest -> chain 0 n_end (rest ++ [0])).
  { intros rest Hc. apply (chain_app 0 1 n_end); [lia | lia | exact Hc | exact H0]. }
  eapply always_bind_with
    with (R := fun p => exists rest, fst p = idxs ++ rest /\ chain 1 n_end rest).
  - destruct (Z.gtb_spec n_end 0).
    + eapply always_bind_with; [apply always_sig_idxs|]. intros found Hf. apply always_ret.
      exists found. split; [reflexivity|]. rewrite Z2Nat.id in Hf by lia. exact Hf.
    + apply always_ret. exists []. rewrite app_nil_r. split; [reflexivity | exact I].
  - intros [r inz'] (rest & E & Hc). cbn [fst] in E. subst r.
    destruct (inz' =? 0).
    + apply always_bind. intros f. apply always_ret. destruct (f =? 1).
      * exists (rest ++ [0]). rewrite app_assoc. split; [reflexivity | apply Hadd; exact Hc].
      * exists rest. split; [reflexivity|].
        apply (chain_weaken 1 n_end); [lia | lia | exact Hc].
    + apply always_ret. exists (rest ++ [0]). rewrite app_assoc.
      split; [reflexivity | apply Hadd; exact Hc].
Qed.

(** The offsets one subblock adds: those of a strictly decreasing list of
    scan positions of the subblock, starting with the last significant
    position in the first subblock decoded. *)
Lemma residual_subblock_assigned s L scan c_idx tsb erf dq sc nls i st :
  (i = nls -> 0 <= num_coeff sc - (i ≪ 4) - 1 <= 15) ->
  always (residual_subblock s L scan c_idx tsb erf dq sc nls i st)
    (fun st' => exists idxs,
       rs_assigned st' =
         map (t_offset_of L (scan_x_cg sc).[i] (scan_y_cg sc).[i]
                (scan_x_off sc) (scan_y_off sc)) idxs ++ rs_assigned st /\
       chain 0 (if i =? nls then num_coeff sc - (i ≪ 4) - 1 else 15) idxs /\
       (i = nls -> In (num_coeff sc - (i ≪ 4) - 1) idxs)).
Proof.
  intros Hlsp. unfold residual_subblock.
  apply always_bind. intros [g inz].
  set (lsp := num_coeff sc - (i ≪ 4) - 1) in *.
  set (T := t_offset_of L (scan_x_cg sc).[i] (scan_y_cg sc).[i]
              (scan_x_off sc) (scan_y_off sc)).
  set (top := if i =? nls then lsp else 15).
  assert (Hfin : forall idxs,
    chain 0 top idxs -> (i = nls -> In lsp idxs) ->
    always
      (if negb (Z.of_nat (length idxs) =? 0)
       then
         if Z.of_nat (length idxs) =? 1
         then
           bind
             (decode_single_level s c_idx tsb
                ((if (i >? 0) && (c_idx =? 0) then 2 else 0) +
                 b2z (negb (i =? nls) && negb (rs_prev_subset_coded st =? 0)))
                (rs_stat_coeff st))
             (fun '(trans_coeff_level, prev_subset_coded, stat_coeff) =>
                ret (mkRS g prev_subset_coded stat_coeff
                       (store_coeff dq L (scan_x_cg sc).[i] (scan_y_cg sc).[i]
                          (scan_x_off sc) (scan_y_off sc) idxs.[0] trans_coeff_level
                          (rs_coeffs st))
                       (t_offset_of L (scan_x_cg sc).[i] (scan_y_cg sc).[i]
                          (scan_x_off sc) (scan_y_off sc) idxs.[0] :: rs_assigned st)))
         else
           bind
             (decode_levels s c_idx tsb erf
                ((if (i >? 0) && (c_idx =? 0) then 2 else 0) +
                 b2z (negb (i =? nls) && negb (rs_prev_subset_coded st =? 0)))
                idxs (rs_stat_coeff st))
             (fun '(levels, coeff_sign_flags, prev_subset_coded, stat_coeff) =>
                ret (mkRS g prev_subset_coded stat_coeff
                       (store_levels dq L (scan_x_cg sc).[i] (scan_y_cg sc).[i]
                          (scan_x_off sc) (scan_y_off sc) idxs levels coeff_sign_flags
                          (rs_coeffs st))
                       (map (t_offset_of L (scan_x_cg sc).[i] (scan_y_cg sc).[i]
                               (scan_x_off sc) (scan_y_off sc)) idxs ++ rs_assigned st)))
       else ret (mkRS g (rs_prev_subset_coded st) (rs_stat_coeff st) (rs_coeffs st)
                   (rs_assigned st)))
      (fun st' => exists idxs,
         rs_assigned st' = map T idxs ++ rs_assigned st /\
         chain 0 top idxs /\ (i = nls -> In lsp idxs))).
  { intros idxs Hc Hin.
    destruct idxs as [|a [|b r]].
    - cbn [length]. change (Z.of_nat 0 =? 0) with true. cbn [negb].
      apply always_ret. exists []. split; [reflexivity | split; assumption].
    - cbn [length]. change (negb (Z.of_nat 1 =? 0)) with true.
      change (Z.of_nat 1 =? 1) with true. cbv iota.
      apply always_bind. intros [[lvl p] stc]. apply always_ret.
      exists [a]. cbn [rs_assigned]. split; [reflexivity | split; assumption].
    - replace (negb (Z.of_nat (length (a :: b :: r)) =? 0)) with true
        by (symmetry; apply negb_true_iff, Z.eqb_neq; cbn [length]; lia).
      replace (Z.of_nat (length (a :: b :: r)) =? 1) with false
        by (symmetry; apply Z.eqb_neq; cbn [length]; lia).
      cbv iota.
      apply always_bind. intros [[[lv fl] p] stc]. apply always_ret.
      exists (a :: b :: r). cbn [rs_assigned]. split; [reflexivity | split; assumption]. }
  unfold top in *. clear top.
  destruct (Z.eqb_spec i nls) as [E|Hne]; cbv iota beta.
  - specialize (Hlsp E).
    eapply always_bind_with
      with (R := fun r => exists rest, r = [lsp] ++ rest /\ chain 0 (lsp - 1) rest).
    + match goal with |- always (if ?c then _ else _) _ => destruct c eqn:Hcall end.
      * apply always_decode_sig_flags.
        apply andb_true_iff in Hcall. destruct Hcall as [_ Hcall].
        apply Z.geb_le in Hcall. exact Hcall.
      * apply always_ret. exists []. split; [reflexivity | exact I].
    + intros idxs (rest & -> & Hc). apply Hfin.
      * simpl. split; [lia | exact Hc].
      * intros _. left. reflexivity.
  - eapply always_bind_with
      with (R := fun r => exists rest, r = [] ++ rest /\ chain 0 15 rest).
    + match goal with |- always (if ?c then _ else _) _ => destruct c end.
      * apply always_decode_sig_flags. lia.
      * apply always_ret. exists []. split; [reflexivity | exact I].
    + intros idxs (rest & -> & Hc). apply Hfin; [exact Hc | intros; contradiction].
Qed.

Lemma always_subblock_loop_down n body (Inv : Z -> ResidualState -> Prop) st :
  (forall i t, 0 <= i < Z.of_nat n -> Inv (i + 1) t -> always (body i t) (Inv i)) ->
  Inv (Z.of_nat n) st -> always (subblock_loop n body st) (Inv 0).
Proof.
  revert st. induction n as [|n IH]; intros st Hb Hst; cbn [subblock_loop].
  - apply always_ret. exact Hst.
  - eapply always_bind_with with (R := Inv (Z.of_nat n)).
    + apply Hb; [lia|]. replace (Z.of_nat n + 1) with (Z.of_nat (Datatypes.S n)) by lia.
      exact Hst.
    + intros st' Hst'. apply IH; [|exact Hst'].
      intros i t Hi Ht. apply Hb; [lia | exact Ht].
Qed.

(** The scan positions stored by the residual decoder. *)
Lemma residual_decode_positions s L scan c_idx stat coeffs :
  2 <= L <= 5 -> (scan <> SCAN_DIAG -> L <= 3) ->
  always (residual_decode s L scan c_idx stat coeffs)
    (fun d =>
       let last :=
         num_coeff (select_scan scan L (d_last_significant_coeff_x d)
                      (d_last_significant_coeff_y d)) - 1 in
       0 <= d_last_significant_coeff_x d < 2 ^ L /\
       0 <= d_last_significant_coeff_y d < 2 ^ L /\
       exists ks,
         d_assigned d = map (scan_offset scan L) ks /\ NoDup ks /\
         Forall (fun k => 0 <= k <= last) ks /\ In last ks).
Proof.
  intros HL Hs. unfold residual_decode. cbv zeta.
  apply always_bind. intros [tsb dq].
  apply always_bind. intros [erf erd].
  eapply always_bind_with; [apply always_last_xy_prefix; lia|]. intros [px py] [Hpx Hpy].
  eapply always_bind_with; [apply (always_last_significant_coeff px L); lia|].
  intros x Hx.
  eapply always_bind_with; [apply (always_last_significant_coeff py L); lia|].
  intros y Hy.
  assert (G : forall lx ly, 0 <= lx < 2 ^ L -> 0 <= ly < 2 ^ L ->
    always
      (bind (subblock_loop (Z.to_nat ((num_coeff (select_scan scan L lx ly) - 1) ≫ 4 + 1))
               (residual_subblock s L scan c_idx tsb erf dq (select_scan scan L lx ly)
                  ((num_coeff (select_scan scan L lx ly) - 1) ≫ 4))
               (mkRS (repeat 0 64) 0 stat (memset0 coeffs ((1 ≪ L) * (1 ≪ L))) []))
            (fun st => ret (mkDecoded (rs_coeffs st) (rs_stat_coeff st) (rs_assigned st)
                              tsb erf erd lx ly dq)))
      (fun d =>
         let last :=
           num_coeff (select_scan scan L (d_last_significant_coeff_x d)
                        (d_last_significant_coeff_y d)) - 1 in
         0 <= d_last_significant_coeff_x d < 2 ^ L /\
         0 <= d_last_significant_coeff_y d < 2 ^ L /\
         exists ks,
           d_assigned d = map (scan_offset scan L) ks /\ NoDup ks /\
           Forall (fun k => 0 <= k <= last) ks /\ In last ks)).
  { intros lx ly Hlx Hly.
    destruct (num_coeff_last scan L lx ly HL Hs Hlx Hly) as [Hnc _].
    set (sc := select_scan scan L lx ly) in *.
    set (last := num_coeff sc - 1) in *.
    set (nls := last ≫ 4).
    assert (Hnls : nls = last / 16).
    { unfold nls. rewrite Z.shiftr_div_pow2 by lia. reflexivity. }
    pose proof (Z.div_mod last 16 ltac:(lia)) as Hdm.
    pose proof (Z.mod_pos_bound last 16 ltac:(lia)) as Hmb.
    assert (Hnls0 : 0 <= nls) by (rewrite Hnls; apply Z.div_pos; lia).
    eapply always_bind_with
      with (R := fun st => exists ks,
                   rs_assigned st = map (scan_offset scan L) ks /\ NoDup ks /\
                   Forall (fun k => 16 * 0 <= k <= last) ks /\ (0 <= nls -> In last ks)).
    - apply (always_subblock_loop_down _ _
               (fun j st => exists ks,
                   rs_assigned st = map (scan_offset scan L) ks /\ NoDup ks /\
                   Forall (fun k => 16 * j <= k <= last) ks /\ (j <= nls -> In last ks))).
      + intros i t Hi (ks & Eks & Hnd & Hall & Hin).
        rewrite Z2Nat.id in Hi by lia.
        eapply always_weaken.
        * apply residual_subblock_assigned.
          intros ->. rewrite Z.shiftl_mul_pow2 by lia. change (2 ^ 4) with 16.
          fold last. lia.
        * cbv beta. intros st' (idxs & Eas & Hc & Hil).
          rewrite Z.shiftl_mul_pow2 in Hc, Hil by lia. change (2 ^ 4) with 16 in Hc, Hil.
          fold last in Hc, Hil.
          assert (Hc15 : chain 0 15 idxs).
          { destruct (Z.eqb_spec i nls) as [E|]; [|exact Hc].
            eapply chain_weaken; [ | | exact Hc]; unfold last in *; lia. }
          exists (map (fun pos => 16 * i + pos) idxs ++ ks).
          split; [|split; [|split]].
          -- rewrite Eas, Eks, List.map_app, List.map_map. f_equal.
             apply map_ext_in. intros pos Hpos.
             apply t_offset_scan_offset. apply (chain_In _ _ _ _ Hc15 Hpos).
          -- apply NoDup_app.
             ++ apply NoDup_map_in; [intros a b _ _; lia|]. apply (chain_NoDup _ _ _ Hc15).
             ++ exact Hnd.
             ++ intros k Hk1 Hk2.
                apply in_map_iff in Hk1. destruct Hk1 as (pos & <- & Hpos).
                pose proof (chain_In _ _ _ _ Hc15 Hpos).
                rewrite Forall_forall in Hall. specialize (Hall _ Hk2). lia.
          -- apply Forall_app. split.
             ++ apply Forall_forall. intros k Hk. apply in_map_iff in Hk.
                destruct Hk as (pos & <- & Hpos).
                pose proof (chain_In _ _ _ _ Hc Hpos) as Hp.
                destruct (Z.eqb_spec i nls); lia.
             ++ eapply List.Forall_impl; [|exact Hall]. cbv beta. intros; lia.
          -- intros _. apply in_or_app.
             destruct (Z.eq_dec i nls) as [E|Hne].
             ++ left. apply in_map_iff. exists (num_coeff sc - i * 16 - 1).
                split; [unfold last; lia | apply Hil; exact E].
             ++ right. apply Hin. lia.
      + exists []. cbn [rs_assigned]. repeat split; [constructor | constructor | lia].
    - intros st (ks & Eks & Hnd & Hall & Hin). apply always_ret.
      cbn [d_last_significant_coeff_x d_last_significant_coeff_y d_assigned].
      split; [exact Hlx|]. split; [exact Hly|].
      exists ks. fold sc. fold last.
      split; [exact Eks | split; [exact Hnd | split; [|apply Hin; exact Hnls0]]].
      eapply List.Forall_impl; [|exact Hall]. cbv beta. intros; lia. }
  destruct scan; apply G; assumption.
Qed.

(** X17.  Every store [coeffs[t_offset] = ...] of the residual decoder
    hits the block, and no position is stored twice: for a transform block
    with [2 <= log2_trafo_size <= 5] (at most 3 for the horizontal and the
    vertical scan, whose tables cover 8x8), whatever the bins, all the
    offsets stored are in [0, 4^log2_trafo_size) and they are pairwise
    different. *)
Theorem stores_inside_block_once (s : HEVCContext) (log2_trafo_size : Z)
    (scan_idx : ScanType) (c_idx : Z) (stat_coeff coeffs : list Z) (c : CABACContext) :
  2 <= log2_trafo_size <= 5 ->
  (scan_idx <> SCAN_DIAG -> log2_trafo_size <= 3) ->
  let d := fst (residual_decode s log2_trafo_size scan_idx c_idx stat_coeff coeffs c) in
  Forall (fun t => 0 <= t < 4 ^ log2_trafo_size) (d_assigned d) /\
  NoDup (d_assigned d).
Proof.
  intros HL Hs. cbv zeta.
  pose proof (residual_decode_positions s log2_trafo_size scan_idx c_idx stat_coeff coeffs
                HL Hs c I) as H.
  cbv beta zeta in H. destruct H as (Hx & Hy & ks & E & Hnd & Hall & Hin).
  destruct (num_coeff_last scan_idx log2_trafo_size _ _ HL Hs Hx Hy) as [Hnc _].
  rewrite Forall_forall in Hall.
  rewrite E. split.
  - apply Forall_forall. intros t Ht. apply in_map_iff in Ht.
    destruct Ht as (k & <- & Hk). specialize (Hall _ Hk).
    apply scan_offset_range; [exact HL | exact Hs | lia].
  - apply NoDup_map_in; [|exact Hnd].
    intros k1 k2 H1 H2. pose proof (Hall _ H1). pose proof (Hall _ H2).
    apply scan_offset_inj; [exact HL | exact Hs | lia | lia].
Qed.

Lemma stores_inside_block_once_witness :
  NoDup (d_assigned (fst (residual_decode ex_intra 3 SCAN_HORIZ 0 [0; 0; 0; 0]
                            (repeat 0 64) (engine_of (repeat true 40))))).
Proof.
  exact (proj2 (stores_inside_block_once ex_intra 3 SCAN_HORIZ 0 [0; 0; 0; 0]
                  (repeat 0 64) (engine_of (repeat true 40))
                  ltac:(lia) (fun _ => ltac:(lia)))).
Defined.

(** X18.  The inverse scan tables agree with the scan tables, and the
    decoder keeps to the scan order: under the same conditions, the
    coefficient at the decoded last significant position [(x, y)] is
    stored (offset [(y << log2_trafo_size) + x], which is where the scan
    tables put scan position [num_coeff - 1]), and every other offset
    stored belongs to a scan position before it. *)
Theorem last_position_stored (s : HEVCContext) (log2_trafo_size : Z)
    (scan_idx : ScanType) (c_idx : Z) (stat_coeff coeffs : list Z) (c : CABACContext) :
  2 <= log2_trafo_size <= 5 ->
  (scan_idx <> SCAN_DIAG -> log2_trafo_size <= 3) ->
  let d := fst (residual_decode s log2_trafo_size scan_idx c_idx stat_coeff coeffs c) in
  let x := d_last_significant_coeff_x d in
  let y := d_last_significant_coeff_y d in
  let last := num_coeff (select_scan scan_idx log2_trafo_size x y) - 1 in
  scan_offset scan_idx log2_trafo_size last = (y ≪ log2_trafo_size) + x /\
  In ((y ≪ log2_trafo_size) + x) (d_assigned d) /\
  forall t, In t (d_assigned d) ->
    exists k, 0 <= k <= last /\ t = scan_offset scan_idx log2_trafo_size k.
Proof.
  intros HL Hs. cbv zeta.
  pose proof (residual_decode_positions s log2_trafo_size scan_idx c_idx stat_coeff coeffs
                HL Hs c I) as H.
  cbv beta zeta in H. destruct H as (Hx & Hy & ks & E & Hnd & Hall & Hin).
  destruct (num_coeff_last scan_idx log2_trafo_size _ _ HL Hs Hx Hy) as [Hnc Hlast].
  rewrite Forall_forall in Hall.
  split; [exact Hlast|]. split.
  - rewrite <- Hlast, E. apply in_map. exact Hin.
  - intros t Ht. rewrite E in Ht. apply in_map_iff in Ht.
    destruct Ht as (k & <- & Hk). exists k. split; [apply Hall; exact Hk | reflexivity].
Qed.

Lemma last_position_stored_witness :
  let d := fst (residual_decode ex_intra 4 SCAN_DIAG 0 [0; 0; 0; 0] (repeat 0 256)
                  (engine_of (repeat true 40))) in
  In ((d_last_significant_coeff_y d ≪ 4) + d_last_significant_coeff_x d) (d_assigned d).
Proof.
  exact (proj1 (proj2 (last_position_stored ex_intra 4 SCAN_DIAG 0 [0; 0; 0; 0]
                         (repeat 0 256) (engine_of (repeat true 40))
                         ltac:(lia) (fun H => match H eq_refl with end)))).
Defined.

(** ** v4l2_m2m_dec.c: track numbers and time stamps *)

Lemma int64_small z : -9223372036854775808 <= z < 9223372036854775808 -> int64 z = z.
Proof.
  intros H. unfold int64. change (2 ^ 63) with 9223372036854775808.
  change (2 ^ 64) with 18446744073709551616.
  rewrite Z.mod_small by lia. lia.
Qed.

(** X19.  Track number to time stamp and back.  For a track number [n]
    below 2^32 and a time base of [int] fields: with a zero numerator or
    denominator (microsecond fallback) [pts_to_track (track_to_pts n)] is
    [n]; with a positive time base it is [n] when [num] divides
    [n * den], and [n - 1] otherwise as long as [num <= den]. *)
Theorem pts_track_round_trip (avctx : AVCodecContext) (n : Z) :
  0 <= n < 2 ^ 32 ->
  - 2 ^ 31 <= num (timebase_of avctx) < 2 ^ 31 ->
  - 2 ^ 31 <= den (timebase_of avctx) < 2 ^ 31 ->
  let t := timebase_of avctx in
  let back := pts_to_track avctx (track_to_pts avctx n) in
  (num t = 0 \/ den t = 0 -> back = n) /\
  (0 < num t -> 0 < den t -> (n * den t) mod num t = 0 -> back = n) /\
  (0 < num t <= den t -> (n * den t) mod num t <> 0 -> back = n - 1).
Proof.
  intros Hn Hnum Hden. cbv zeta. unfold pts_to_track, track_to_pts. cbv zeta.
  set (t := timebase_of avctx) in *.
  change (2 ^ 32) with 4294967296 in *. change (2 ^ 31) with 2147483648 in *.
  split; [|split].
  - intros Hz.
    replace ((num t =? 0) || (den t =? 0)) with true
      by (symmetry; apply orb_true_iff; destruct Hz as [-> | ->]; auto).
    rewrite int64_small by lia.
    rewrite Z.quot_mul by lia. apply uint32_small. change (2 ^ 32) with 4294967296. lia.
  - intros Hnp Hdp Hdiv.
    replace ((num t =? 0) || (den t =? 0)) with false
      by (symmetry; apply orb_false_iff; split; apply Z.eqb_neq; lia).
    assert (Hprod : 0 <= n * den t <= 4294967295 * 2147483647)
      by (split; [apply Z.mul_nonneg_nonneg; lia | apply Z.mul_le_mono_nonneg; lia]).
    rewrite (int64_small (n * den t)) by lia.
    rewrite (Z.quot_div_nonneg (n * den t) (num t)) by lia.
    pose proof (Z.div_mod (n * den t) (num t) ltac:(lia)) as Hdm.
    rewrite Hdiv, Z.add_0_r in Hdm.
    replace (n * den t / num t * num t) with (n * den t) by lia.
    rewrite (int64_small (n * den t)) by lia.
    rewrite Z.quot_mul by lia. apply uint32_small. change (2 ^ 32) with 4294967296. lia.
  - intros Hnd Hrem.
    replace ((num t =? 0) || (den t =? 0)) with false
      by (symmetry; apply orb_false_iff; split; apply Z.eqb_neq; lia).
    assert (Hprod : 0 <= n * den t <= 4294967295 * 2147483647)
      by (split; [apply Z.mul_nonneg_nonneg; lia | apply Z.mul_le_mono_nonneg; lia]).
    rewrite (int64_small (n * den t)) by lia.
    rewrite (Z.quot_div_nonneg (n * den t) (num t)) by lia.
    pose proof (Z.div_mod (n * den t) (num t) ltac:(lia)) as Hdm.
    pose proof (Z.mod_pos_bound (n * den t) (num t) ltac:(lia)) as Hmb.
    set (p := n * den t / num t) in *. set (r := (n * den t) mod num t) in *.
    assert (Hp : 0 <= p) by (apply Z.div_pos; lia).
    assert (Hn1 : 1 <= n) by (destruct (Z.eq_dec n 0) as [E|]; [|lia];
                              exfalso; apply Hrem; unfold r; rewrite E; apply Z.mod_0_l; lia).
    assert (Hpn : 0 <= p * num t) by (apply Z.mul_nonneg_nonneg; lia).
    rewrite (int64_small (p * num t)) by lia.
    rewrite Z.quot_div_nonneg by lia.
    replace (p * num t / den t) with (n - 1).
    + apply uint32_small. change (2 ^ 32) with 4294967296. lia.
    + apply (Z.div_unique (p * num t) (den t) (n - 1) (den t - r)); nia.
Qed.

Lemma pts_track_round_trip_witness :
  pts_to_track (mkAVCodecContext (mkAVRational 1 90000) (mkAVRational 1 25) 0)
    (track_to_pts (mkAVCodecContext (mkAVRational 1 90000) (mkAVRational 1 25) 0) 7) = 7 /\
  pts_to_track (mkAVCodecContext (mkAVRational 0 1) (mkAVRational 1001 30000) 0)
    (track_to_pts (mkAVCodecContext (mkAVRational 0 1) (mkAVRational 1001 30000) 0) 1) = 1 - 1.
Proof.
  split.
  - apply (pts_track_round_trip
             (mkAVCodecContext (mkAVRational 1 90000) (mkAVRational 1 25) 0) 7
             ltac:(vm_compute; split; [discriminate | reflexivity])
             ltac:(vm_compute; split; [discriminate | reflexivity])
             ltac:(vm_compute; split; [discriminate | reflexivity])).
    + vm_compute. reflexivity.
    + vm_compute. reflexivity.
    + vm_compute. reflexivity.
  - apply (pts_track_round_trip
             (mkAVCodecContext (mkAVRational 0 1) (mkAVRational 1001 30000) 0) 1
             ltac:(vm_compute; split; [discriminate | reflexivity])
             ltac:(vm_compute; split; [discriminate | reflexivity])
             ltac:(vm_compute; split; [discriminate | reflexivity])).
    + vm_compute. split; [reflexivity | discriminate].
    + vm_compute. discriminate.
Defined.

(** ** v4l2_m2m_dec.c: [v4l2_receive_frame] *)

Lemma nth_insert_eq {A : Type} (l : list A) (n : nat) (e d : A) :
  (n < length l)%nat -> nth n (<[n := e]> l) d = e.
Proof.
  revert n. induction l as [|a l IH]; intros [|n] H; simpl in *; try lia; [reflexivity|].
  apply IH. lia.
Qed.

Lemma nth_insert_ne {A : Type} (l : list A) (n m : nat) (e d : A) :
  n <> m -> nth m (<[n := e]> l) d = nth m l d.
Proof.
  revert n m. induction l as [|a l IH]; intros [|n] [|m] H; simpl in *;
    try reflexivity; try lia.
  apply IH. lia.
Qed.

Lemma el_at_insert_eq els n e :
  0 <= n < Z.of_nat (length els) -> el_at (<[Z.to_nat n := e]> els) n = e.
Proof. intros H. unfold el_at. apply nth_insert_eq. lia. Qed.

Lemma el_at_insert_ne els n m e :
  0 <= n -> 0 <= m -> n <> m -> el_at (<[Z.to_nat n := e]> els) m = el_at els m.
Proof. intros Hn Hm H. unfold el_at. apply nth_insert_ne. lia. Qed.

Lemma next_track_no_range t : 1 <= next_track_no t < 2 ^ 32.
Proof.
  unfold next_track_no, uint32. cbv zeta.
  pose proof (Z.mod_pos_bound (t + 1) (2 ^ 32) ltac:(lia)).
  destruct (Z.eqb_spec ((t + 1) mod 2 ^ 32) 0); lia.
Qed.

Lemma next_track_no_succ t : 0 <= t < 2 ^ 32 - 1 -> next_track_no t = t + 1.
Proof.
  intros H. unfold next_track_no, uint32. cbv zeta.
  rewrite Z.mod_small by lia.
  destruct (Z.eqb_spec (t + 1) 0); lia.
Qed.

Lemma succ_slot_differs n size : 2 <= size -> (n + 1) mod size <> n mod size.
Proof.
  intros Hs E.
  pose proof (Zminus_mod (n + 1) n size) as H.
  rewrite E, Z.sub_diag, Z.mod_0_l in H by lia.
  replace (n + 1 - n) with 1 in H by lia.
  rewrite Z.mod_small in H by lia. lia.
Qed.

Section V4L2DecProofs.
Variable FF_V4L2_M2M_TRACK_SIZE : Z.
Variable AV_NOPTS_VALUE : Z.
Variables AVERROR_EOF AVERROR_EAGAIN AVERROR_ENOMEM : Z.

(** [send_packet] never writes the tracking fields. *)
Lemma send_packet_tracks k avpkt s :
  let s' := snd (send_packet AVERROR_EAGAIN AVERROR_ENOMEM k avpkt s) in
  track_els s' = track_els s /\ track_no s' = track_no s /\
  last_pkt_dts s' = last_pkt_dts s /\ last_opaque s' = last_opaque s.
Proof.
  cbv zeta. unfold send_packet. cbv zeta.
  destruct (_ && _); [cbn; auto|].
  destruct (enqueue_packet_ret k <? 0), (negb (avpkt_size avpkt =? 0));
    try destruct (negb (try_start_ret k =? 0)); try destruct (try_start_ret k =? AVERROR_ENOMEM);
    cbn; auto.
Qed.

Lemma send_packet_reaches k avpkt s :
  0 <= enqueue_packet_ret k -> try_start_ret k = 0 ->
  fst (send_packet AVERROR_EAGAIN AVERROR_ENOMEM k avpkt s) = None.
Proof.
  intros He Ht. unfold send_packet. cbv zeta.
  replace (enqueue_packet_ret k <? 0) with false by (symmetry; apply Z.ltb_ge; exact He).
  rewrite Ht. cbn. destruct (negb (avpkt_size avpkt =? 0)); reflexivity.
Qed.

(** [dequeue_frame] writes one slot at most, the one of the frame. *)
Lemma dequeue_frame_tracks avctx k s slot :
  0 < FF_V4L2_M2M_TRACK_SIZE -> 0 <= slot ->
  (dequeue_frame_ret k = 0 ->
   pts_to_track avctx (frame_pts (dequeue_frame_out k)) mod FF_V4L2_M2M_TRACK_SIZE <> slot) ->
  let s' := snd (dequeue_frame FF_V4L2_M2M_TRACK_SIZE AV_NOPTS_VALUE avctx k s) in
  el_at (track_els s') slot = el_at (track_els s) slot /\
  length (track_els s') = length (track_els s) /\ track_no s' = track_no s.
Proof.
  intros Hsz Hslot Hne. cbv zeta. unfold dequeue_frame. cbv zeta.
  destruct (Z.eqb_spec (dequeue_frame_ret k) 0) as [E|]; [|cbn; auto].
  specialize (Hne E).
  destruct (_ || _); cbn [snd track_els track_no]; [auto|].
  split; [|split; [apply length_insert | reflexivity]].
  apply el_at_insert_ne; [|exact Hslot | exact Hne].
  apply Z.mod_pos_bound. exact Hsz.
Qed.

(** A frame whose time stamp is the one recorded in its slot gets the
    slot's [pts] and [opaque_reorder]. *)
Lemma dequeue_frame_hit avctx k s n P O T :
  0 < FF_V4L2_M2M_TRACK_SIZE ->
  Z.of_nat (length (track_els s)) = FF_V4L2_M2M_TRACK_SIZE ->
  dequeue_frame_ret k = 0 -> frame_pts (dequeue_frame_out k) = T ->
  T <> AV_NOPTS_VALUE -> pts_to_track avctx T = n ->
  el_at (track_els s) (n mod FF_V4L2_M2M_TRACK_SIZE) = mkTrackEl P O T ->
  let r := dequeue_frame FF_V4L2_M2M_TRACK_SIZE AV_NOPTS_VALUE avctx k s in
  fst (fst r) = 0 /\
  snd (fst r) = mkAVFrame P P (last_pkt_dts s) O /\
  last_opaque (snd r) = O /\
  el_at (track_els (snd r)) (n mod FF_V4L2_M2M_TRACK_SIZE) = mkTrackEl AV_NOPTS_VALUE O T.
Proof.
  intros Hsz Hlen Hret Hpts Hnp Hback Hel. cbv zeta. unfold dequeue_frame. cbv zeta.
  rewrite Hret, Hpts, Hback, Hel. cbn [Z.eqb el_track_pts el_pts el_opaque_reorder].
  replace (T =? AV_NOPTS_VALUE) with false by (symmetry; apply Z.eqb_neq; exact Hnp).
  rewrite Z.eqb_refl. cbn [orb negb fst snd last_opaque track_els].
  repeat split.
  apply el_at_insert_eq. rewrite Hlen. apply Z.mod_pos_bound. exact Hsz.
Qed.

(** The packet part: a new packet is numbered and recorded. *)
Lemma receive_packet_new avctx k s :
  avpkt_size (buf_pkt s) = 0 -> get_packet_ret k = 0 ->
  receive_packet FF_V4L2_M2M_TRACK_SIZE AV_NOPTS_VALUE AVERROR_EOF AVERROR_EAGAIN avctx k s =
  let n := next_track_no (track_no s) in
  let T := track_to_pts avctx n in
  inr (0, mkAVPacket (avpkt_size (get_packet_pkt k)) T (avpkt_dts (get_packet_pkt k)),
       mkV4L2m2mContext (buf_pkt s) n (avpkt_dts (get_packet_pkt k)) (last_opaque s)
         (<[Z.to_nat (n mod FF_V4L2_M2M_TRACK_SIZE) :=
              mkTrackEl (avpkt_pts (get_packet_pkt k)) (reordered_opaque avctx) T]>
            (track_els s))
         (extdata_sent s)).
Proof.
  intros Hb Hr. unfold receive_packet. rewrite Hb, Hr. reflexivity.
Qed.

(** The packet part writes one slot at most, the one of the next number. *)
Lemma receive_packet_tracks avctx k s ret avpkt s' slot :
  0 < FF_V4L2_M2M_TRACK_SIZE -> 0 <= slot ->
  slot <> next_track_no (track_no s) mod FF_V4L2_M2M_TRACK_SIZE ->
  receive_packet FF_V4L2_M2M_TRACK_SIZE AV_NOPTS_VALUE AVERROR_EOF AVERROR_EAGAIN avctx k s =
    inr (ret, avpkt, s') ->
  el_at (track_els s') slot = el_at (track_els s) slot /\
  length (track_els s') = length (track_els s).
Proof.
  intros Hsz Hslot Hne. unfold receive_packet. cbv zeta.
  destruct (negb (avpkt_size (buf_pkt s) =? 0)).
  - intros E. inversion E; subst. cbn. auto.
  - destruct (_ && _); [discriminate|].
    destruct (get_packet_ret k =? 0); intros E; inversion E; subst; [|auto].
    cbn [track_els]. split; [|apply length_insert].
    apply el_at_insert_ne; [|exact Hslot | lia].
    apply Z.mod_pos_bound. exact Hsz.
Qed.

(** A call that is given no fatal error, no enqueue failure and a started
    decoder reaches the label [dequeue]. *)
Lemma receive_reaches_dequeue avctx k s frame slot :
  0 < FF_V4L2_M2M_TRACK_SIZE -> 0 <= slot ->
  slot <> next_track_no (track_no s) mod FF_V4L2_M2M_TRACK_SIZE ->
  ~ (get_packet_ret k < 0 /\ get_packet_ret k <> AVERROR_EOF /\
     get_packet_ret k <> AVERROR_EAGAIN) ->
  0 <= enqueue_packet_ret k -> try_start_ret k = 0 ->
  exists s',
    v4l2_receive_frame FF_V4L2_M2M_TRACK_SIZE AV_NOPTS_VALUE AVERROR_EOF AVERROR_EAGAIN
      AVERROR_ENOMEM avctx k s frame =
    dequeue_frame FF_V4L2_M2M_TRACK_SIZE AV_NOPTS_VALUE avctx k s' /\
    el_at (track_els s') slot = el_at (track_els s) slot /\
    length (track_els s') = length (track_els s).
Proof.
  intros Hsz Hslot Hne Hfatal Henq Hts. unfold v4l2_receive_frame.
  destruct (receive_packet _ _ _ _ avctx k s) as [r|[[ret avpkt] s1]] eqn:E.
  - exfalso. apply Hfatal. unfold receive_packet in E. cbv zeta in E.
    destruct (negb (avpkt_size (buf_pkt s) =? 0)); [discriminate|].
    destruct (_ && _) eqn:C; [|destruct (get_packet_ret k =? 0); discriminate].
    apply andb_true_iff in C. destruct C as [C C3].
    apply andb_true_iff in C. destruct C as [C1 C2].
    apply Z.ltb_lt in C1. apply negb_true_iff, Z.eqb_neq in C2.
    apply negb_true_iff, Z.eqb_neq in C3. auto.
  - destruct (receive_packet_tracks avctx k s ret avpkt s1 slot Hsz Hslot Hne E) as [H1 H2].
    destruct (negb (ret =? 0)).
    + exists s1. auto.
    + pose proof (send_packet_reaches k avpkt s1 Henq Hts) as Hr.
      pose proof (send_packet_tracks k avpkt s1) as Ht. cbv zeta in Ht.
      destruct (send_packet AVERROR_EAGAIN AVERROR_ENOMEM k avpkt s1) as [o s2].
      cbn [fst snd] in *. subst o. destruct Ht as (Ht & _).
      exists s2. rewrite Ht. auto.
Qed.



(** X20.  A packet's time stamp comes back on its frame.  A call that
    reads a new packet with time stamp [pts] records it under the next
    track number [n] and sends the packet with the track time stamp [T];
    when a later call dequeues a frame stamped [T], the frame gets [pts]
    back (in [pts] and [pkt_pts]) and the [reordered_opaque] of the first
    call, and the slot is marked so that a frame stamped [T] again is not
    given a time stamp.  Stated for two calls in a row, the first of which
    does not dequeue a frame of the same slot; for a track number that
    survives the round trip through the time base. *)
Theorem tracked_pts_restored (avctx1 : AVCodecContext) (opaque2 : Z)
    (k1 k2 : ReceiveCalls) (s : V4L2m2mContext) (frame : AVFrame) :
  let avctx2 := mkAVCodecContext (pkt_timebase avctx1) (time_base avctx1) opaque2 in
  let n := next_track_no (track_no s) in
  let T := track_to_pts avctx1 n in
  let v4l2_receive_frame' :=
    v4l2_receive_frame FF_V4L2_M2M_TRACK_SIZE AV_NOPTS_VALUE AVERROR_EOF AVERROR_EAGAIN
      AVERROR_ENOMEM in
  2 <= FF_V4L2_M2M_TRACK_SIZE ->
  Z.of_nat (length (track_els s)) = FF_V4L2_M2M_TRACK_SIZE ->
  avpkt_size (buf_pkt s) = 0 -> 0 <= track_no s < 2 ^ 32 - 2 ->
  get_packet_ret k1 = 0 ->
  (dequeue_frame_ret k1 = 0 ->
   pts_to_track avctx1 (frame_pts (dequeue_frame_out k1)) mod FF_V4L2_M2M_TRACK_SIZE <>
   n mod FF_V4L2_M2M_TRACK_SIZE) ->
  pts_to_track avctx1 T = n -> T <> AV_NOPTS_VALUE ->
  ~ (get_packet_ret k2 < 0 /\ get_packet_ret k2 <> AVERROR_EOF /\
     get_packet_ret k2 <> AVERROR_EAGAIN) ->
  0 <= enqueue_packet_ret k2 -> try_start_ret k2 = 0 ->
  dequeue_frame_ret k2 = 0 -> frame_pts (dequeue_frame_out k2) = T ->
  let c1 := v4l2_receive_frame' avctx1 k1 s frame in
  let c2 := v4l2_receive_frame' avctx2 k2 (snd c1) (snd (fst c1)) in
  fst (fst c2) = 0 /\
  frame_pts (snd (fst c2)) = avpkt_pts (get_packet_pkt k1) /\
  frame_pkt_pts (snd (fst c2)) = avpkt_pts (get_packet_pkt k1) /\
  frame_reordered_opaque (snd (fst c2)) = reordered_opaque avctx1 /\
  last_opaque (snd c2) = reordered_opaque avctx1 /\
  el_at (track_els (snd c2)) (n mod FF_V4L2_M2M_TRACK_SIZE) =
    mkTrackEl AV_NOPTS_VALUE (reordered_opaque avctx1) T.
Proof.
  cbv zeta. intros Hsz Hlen Hbuf Htn Hget Hnc Hback Hnp Hfatal Henq Hts Hdq Hfp.
  set (n := next_track_no (track_no s)) in *.
  set (T := track_to_pts avctx1 n) in *.
  set (P := avpkt_pts (get_packet_pkt k1)).
  set (O := reordered_opaque avctx1).
  assert (Hn : n = track_no s + 1) by (apply next_track_no_succ; lia).
  assert (Hslot : 0 <= n mod FF_V4L2_M2M_TRACK_SIZE < FF_V4L2_M2M_TRACK_SIZE)
    by (apply Z.mod_pos_bound; lia).
  (* the first call *)
  assert (H1 : forall c1,
    c1 = v4l2_receive_frame FF_V4L2_M2M_TRACK_SIZE AV_NOPTS_VALUE AVERROR_EOF
           AVERROR_EAGAIN AVERROR_ENOMEM avctx1 k1 s frame ->
    el_at (track_els (snd c1)) (n mod FF_V4L2_M2M_TRACK_SIZE) = mkTrackEl P O T /\
    Z.of_nat (length (track_els (snd c1))) = FF_V4L2_M2M_TRACK_SIZE /\
    track_no (snd c1) = n).
  { intros c1 ->. unfold v4l2_receive_frame.
    rewrite (receive_packet_new avctx1 k1 s Hbuf Hget). cbv zeta. fold n. fold T. fold P. fold O.
    cbv beta iota. rewrite Z.eqb_refl. cbn [negb].
    set (s1 := mkV4L2m2mContext _ _ _ _ _ _).
    assert (Hs1 : el_at (track_els s1) (n mod FF_V4L2_M2M_TRACK_SIZE) = mkTrackEl P O T /\
                  Z.of_nat (length (track_els s1)) = FF_V4L2_M2M_TRACK_SIZE /\
                  track_no s1 = n).
    { unfold s1. cbn [track_els track_no]. split; [|split; [|reflexivity]].
      - apply el_at_insert_eq. lia.
      - rewrite length_insert. exact Hlen. }
    pose proof (send_packet_tracks k1
                  (mkAVPacket (avpkt_size (get_packet_pkt k1)) T
                     (avpkt_dts (get_packet_pkt k1))) s1) as Ht.
    cbv zeta in Ht.
    destruct (send_packet AVERROR_EAGAIN AVERROR_ENOMEM k1 _ s1) as [[r|] s2];
      cbn [fst snd] in *; destruct Ht as (Ht1 & Ht2 & _).
    - rewrite Ht1, Ht2. exact Hs1.
    - destruct (dequeue_frame_tracks avctx1 k1 s2 (n mod FF_V4L2_M2M_TRACK_SIZE)
                  ltac:(lia) ltac:(lia) Hnc) as (D1 & D2 & D3).
      rewrite D1, D2, D3, Ht1, Ht2. exact Hs1. }
  destruct (H1 _ eq_refl) as (Hel & Hlen1 & Htn1).
  set (c1 := v4l2_receive_frame _ _ _ _ _ avctx1 k1 s frame) in *.
  (* the second call *)
  destruct (receive_reaches_dequeue
              (mkAVCodecContext (pkt_timebase avctx1) (time_base avctx1) opaque2)
              k2 (snd c1) (snd (fst c1)) (n mod FF_V4L2_M2M_TRACK_SIZE)
              ltac:(lia) ltac:(lia)) as (s' & E & Hel' & Hlen'); try assumption.
  { rewrite Htn1, next_track_no_succ by lia. intros Heq.
    apply (succ_slot_differs n FF_V4L2_M2M_TRACK_SIZE Hsz). symmetry. exact Heq. }
  rewrite E.
  assert (Hback2 : pts_to_track
                     (mkAVCodecContext (pkt_timebase avctx1) (time_base avctx1) opaque2) T = n).
  { rewrite <- Hback. reflexivity. }
  destruct (dequeue_frame_hit
              (mkAVCodecContext (pkt_timebase avctx1) (time_base avctx1) opaque2)
              k2 s' n P O T ltac:(lia) ltac:(lia) Hdq Hfp Hnp Hback2
              ltac:(rewrite Hel'; exact Hel)) as (R1 & R2 & R3 & R4).
  rewrite R1, R2, R3, R4. cbn [frame_pts frame_pkt_pts frame_reordered_opaque].
  repeat split.
Qed.

(** X22.  How [v4l2_receive_frame] ends without a frame.  With no packet
    held back: an error of [ff_decode_get_packet] other than [AVERROR_EOF]
    and [AVERROR(EAGAIN)] is returned with the context untouched; for a
    packet read, an enqueue error other than [AVERROR(EAGAIN)] is
    returned; and for a non-empty packet enqueued, a failure of
    [v4l2_try_start] ends the call with [AVERROR(ENOMEM)] if that is the
    error and with 0 for any other error.  In all three cases no frame is
    dequeued: the caller's frame is as it was, also when 0 is returned. *)
Theorem receive_frame_without_frame (avctx : AVCodecContext) (k : ReceiveCalls)
    (s : V4L2m2mContext) (frame : AVFrame) :
  let c :=
    v4l2_receive_frame FF_V4L2_M2M_TRACK_SIZE AV_NOPTS_VALUE AVERROR_EOF AVERROR_EAGAIN
      AVERROR_ENOMEM avctx k s frame in
  avpkt_size (buf_pkt s) = 0 ->
  (get_packet_ret k < 0 -> get_packet_ret k <> AVERROR_EOF ->
   get_packet_ret k <> AVERROR_EAGAIN -> c = (get_packet_ret k, frame, s)) /\
  (get_packet_ret k = 0 -> enqueue_packet_ret k < 0 ->
   enqueue_packet_ret k <> AVERROR_EAGAIN ->
   fst c = (enqueue_packet_ret k, frame) /\ extdata_sent (snd c) = 1) /\
  (get_packet_ret k = 0 -> 0 <= enqueue_packet_ret k ->
   avpkt_size (get_packet_pkt k) <> 0 -> try_start_ret k <> 0 ->
   fst c = (if try_start_ret k =? AVERROR_ENOMEM then AVERROR_ENOMEM else 0, frame)).
Proof.
  cbv zeta. intros Hbuf. split; [|split].
  - intros H1 H2 H3. unfold v4l2_receive_frame, receive_packet. rewrite Hbuf.
    change (negb (0 =? 0)) with false. cbv iota.
    replace (get_packet_ret k <? 0) with true by (symmetry; apply Z.ltb_lt; exact H1).
    replace (get_packet_ret k =? AVERROR_EOF) with false
      by (symmetry; apply Z.eqb_neq; exact H2).
    replace (get_packet_ret k =? AVERROR_EAGAIN) with false
      by (symmetry; apply Z.eqb_neq; exact H3).
    reflexivity.
  - intros Hget H1 H2. unfold v4l2_receive_frame.
    rewrite (receive_packet_new avctx k s Hbuf Hget). cbv beta iota zeta.
    rewrite Z.eqb_refl. cbn [negb]. unfold send_packet. cbv zeta.
    replace (enqueue_packet_ret k <? 0) with true by (symmetry; apply Z.ltb_lt; exact H1).
    replace (enqueue_packet_ret k =? AVERROR_EAGAIN) with false
      by (symmetry; apply Z.eqb_neq; exact H2).
    cbn. split; reflexivity.
  - intros Hget H1 H2 H3. unfold v4l2_receive_frame.
    rewrite (receive_packet_new avctx k s Hbuf Hget). cbv beta iota zeta.
    rewrite Z.eqb_refl. cbn [negb]. unfold send_packet. cbv zeta.
    replace (enqueue_packet_ret k <? 0) with false by (symmetry; apply Z.ltb_ge; exact H1).
    cbn [andb avpkt_size].
    replace (avpkt_size (get_packet_pkt k) =? 0) with false
      by (symmetry; apply Z.eqb_neq; exact H2).
    replace (try_start_ret k =? 0) with false by (symmetry; apply Z.eqb_neq; exact H3).
    cbn [negb].
    destruct (Z.eqb_spec (try_start_ret k) AVERROR_ENOMEM) as [->|]; reflexivity.
Qed.
End V4L2DecProofs.

Lemma tracked_pts_restored_witness :
  let avctx := mkAVCodecContext (mkAVRational 1 90000) (mkAVRational 1 25) 5 in
  let s := mkV4L2m2mContext (mkAVPacket 0 0 0) 0 0 0 (repeat (mkTrackEl 0 0 0) 4) 0 in
  let k1 := mkReceiveCalls 0 (mkAVPacket 10 1234 1200) 0 0 (-11) (mkAVFrame 0 0 0 0) in
  let k2 := mkReceiveCalls (-11) (mkAVPacket 0 0 0) 0 0 0 (mkAVFrame 90000 0 0 0) in
  let c1 := v4l2_receive_frame 4 (-9223372036854775808) (-541478725) (-11) (-12)
              avctx k1 s (mkAVFrame 0 0 0 0) in
  let c2 := v4l2_receive_frame 4 (-9223372036854775808) (-541478725) (-11) (-12)
              (mkAVCodecContext (mkAVRational 1 90000) (mkAVRational 1 25) 9)
              k2 (snd c1) (snd (fst c1)) in
  frame_pts (snd (fst c2)) = 1234 /\ frame_reordered_opaque (snd (fst c2)) = 5.
Proof.
  cbv zeta.
  pose proof (tracked_pts_restored 4 (-9223372036854775808) (-541478725) (-11) (-12)
                (mkAVCodecContext (mkAVRational 1 90000) (mkAVRational 1 25) 5) 9
                (mkReceiveCalls 0 (mkAVPacket 10 1234 1200) 0 0 (-11) (mkAVFrame 0 0 0 0))
                (mkReceiveCalls (-11) (mkAVPacket 0 0 0) 0 0 0 (mkAVFrame 90000 0 0 0))
                (mkV4L2m2mContext (mkAVPacket 0 0 0) 0 0 0 (repeat (mkTrackEl 0 0 0) 4) 0)
                (mkAVFrame 0 0 0 0)) as H.
  cbv zeta in H.
  specialize (H ltac:(vm_compute; discriminate) eq_refl eq_refl
                ltac:(vm_compute; split; [discriminate | reflexivity]) eq_refl
                ltac:(intros E; discriminate E)
                ltac:(vm_compute; reflexivity) ltac:(vm_compute; discriminate)
                ltac:(intros [_ [_ E]]; apply E; reflexivity)
                ltac:(vm_compute; discriminate) eq_refl eq_refl
                ltac:(vm_compute; reflexivity)).
  destruct H as (_ & H2 & _ & H4 & _).
  split; [exact H2 | exact H4].
Defined.


Lemma receive_frame_without_frame_witness :
  fst (v4l2_receive_frame 4 (-9223372036854775808) (-541478725) (-11) (-12)
         (mkAVCodecContext (mkAVRational 1 90000) (mkAVRational 1 25) 5)
         (mkReceiveCalls 0 (mkAVPacket 10 1234 1200) 0 (-22) 0 (mkAVFrame 90000 0 0 0))
         (mkV4L2m2mContext (mkAVPacket 0 0 0) 0 0 0 (repeat (mkTrackEl 0 0 0) 4) 0)
         (mkAVFrame 7 7 7 7)) = (0, mkAVFrame 7 7 7 7).
Proof.
  pose proof (receive_frame_without_frame 4 (-9223372036854775808) (-541478725) (-11) (-12)
                (mkAVCodecContext (mkAVRational 1 90000) (mkAVRational 1 25) 5)
                (mkReceiveCalls 0 (mkAVPacket 10 1234 1200) 0 (-22) 0 (mkAVFrame 90000 0 0 0))
                (mkV4L2m2mContext (mkAVPacket 0 0 0) 0 0 0 (repeat (mkTrackEl 0 0 0) 4) 0)
                (mkAVFrame 7 7 7 7)) as H.
  cbv zeta in H. specialize (H eq_refl). destruct H as (_ & _ & H).
  exact (H eq_refl ltac:(vm_compute; discriminate) ltac:(discriminate) ltac:(discriminate)).
Defined.

(** ** The context-coded bins of residual decoding *)

Lemma bypass_only_ret {A : Type} (a : A) : bypass_only (ret a).
Proof. intros c. reflexivity. Qed.

Lemma bypass_only_bind {A B : Type} (m : Dec A) (f : A -> Dec B) :
  bypass_only m -> (forall a, bypass_only (f a)) -> bypass_only (bind m f).
Proof.
  intros Hm Hf c. unfold bind. specialize (Hm c). destruct (m c) as [a c1].
  cbn [snd] in Hm. rewrite <- Hm. apply Hf.
Qed.

Lemma bypass_only_bypass : bypass_only get_cabac_bypass.
Proof. intros c. unfold get_cabac_bypass. destruct (next_bin c). reflexivity. Qed.

Lemma bypass_only_av_log k : bypass_only (av_log_CABAC_MAX_BIN k).
Proof. intros c. reflexivity. Qed.

Lemma bypass_only_peek : bypass_only get_alt1cabac_bypeek22.
Proof. intros c. reflexivity. Qed.

Lemma bypass_only_flush n : bypass_only (get_alt1cabac_byflush22 n).
Proof. intros c. reflexivity. Qed.

Ltac bypass_step :=
  match goal with
  | |- bypass_only (ret _) => apply bypass_only_ret
  | |- bypass_only get_cabac_bypass => apply bypass_only_bypass
  | |- bypass_only (av_log_CABAC_MAX_BIN _) => apply bypass_only_av_log
  | |- bypass_only get_alt1cabac_bypeek22 => apply bypass_only_peek
  | |- bypass_only (get_alt1cabac_byflush22 _) => apply bypass_only_flush
  | |- bypass_only (bind _ _) => apply bypass_only_bind; [|intros ?]
  | |- bypass_only (if ?b then _ else _) => destruct b
  | |- bypass_only (match ?p with (_, _) => _ end) => destruct p
  end.

Lemma bypass_only_unary_bypass n k : bypass_only (unary_bypass n k).
Proof.
  revert k. induction n as [|n IH]; intros k; cbn [unary_bypass];
    repeat bypass_step; apply IH.
Qed.

Lemma bypass_only_read_suffix n v : bypass_only (read_suffix n v).
Proof.
  revert v. induction n as [|n IH]; intros v; cbn [read_suffix];
    repeat bypass_step; apply IH.
Qed.

Lemma bypass_only_remaining k : bypass_only (coeff_abs_level_remaining_decode k).
Proof.
  unfold coeff_abs_level_remaining_decode.
  apply bypass_only_bind; [apply bypass_only_unary_bypass|]. intros prefix.
  repeat bypass_step; apply bypass_only_read_suffix.
Qed.

Lemma bypass_only_remaining_alt1 k : bypass_only (coeff_abs_level_remaining_decode_alt1 k).
Proof. unfold coeff_abs_level_remaining_decode_alt1. repeat bypass_step. Qed.

Lemma bypass_only_sign_alt1 nb : bypass_only (coeff_sign_flag_decode_alt1 nb).
Proof. unfold coeff_sign_flag_decode_alt1. repeat bypass_step. Qed.

Lemma bypass_only_remaining_loop fuel pers r : bypass_only (remaining_loop fuel pers r).
Proof.
  revert r. induction fuel as [|fuel IH]; intros r; cbn [remaining_loop].
  - apply bypass_only_ret.
  - apply bypass_only_bind.
    + unfold remaining_step. apply bypass_only_bind; [apply bypass_only_remaining_alt1|].
      intros; apply bypass_only_ret.
    + intros r'. destruct (negb _); [apply IH | apply bypass_only_ret].
Qed.

Lemma bypass_only_last_significant_coeff p : bypass_only (last_significant_coeff p).
Proof.
  unfold last_significant_coeff, last_significant_coeff_suffix_decode.
  repeat bypass_step. apply bypass_only_read_suffix.
Qed.

Lemma ctx_bins_ret e N {A : Type} (a : A) : ctx_bins e N (ret a).
Proof. intros c. exists []. split; [reflexivity|]. split; [constructor | simpl; lia]. Qed.

Lemma ctx_bins_bind e N1 N2 N {A B : Type} (m : Dec A) (f : A -> Dec B) :
  (N1 + N2 <= N)%nat ->
  ctx_bins e N1 m -> (forall a, ctx_bins e N2 (f a)) -> ctx_bins e N (bind m f).
Proof.
  intros HN Hm Hf c. unfold bind. destruct (Hm c) as (n1 & E1 & F1 & L1).
  destruct (m c) as [a c1]. cbn [snd] in *.
  destruct (Hf a c1) as (n2 & E2 & F2 & L2).
  exists (n2 ++ n1). split; [rewrite E2, E1; apply app_assoc|].
  split; [apply Forall_app; split; assumption | rewrite length_app; lia].
Qed.

Lemma ctx_bins_weaken e N N' {A : Type} (m : Dec A) :
  (N <= N')%nat -> ctx_bins e N m -> ctx_bins e N' m.
Proof. intros H Hm c. destruct (Hm c) as (n & E & F & L). exists n. repeat split; auto; lia. Qed.

Lemma ctx_bins_get_cabac e i : elem_range e i -> ctx_bins e 1 (get_cabac i).
Proof.
  intros Hi c. exists [i]. unfold get_cabac. destruct (next_bin c) as [b r].
  cbn [snd ctx_trace]. split; [reflexivity|].
  split; [constructor; [exact Hi | constructor] | simpl; lia].
Qed.

Lemma ctx_bins_bypass_only e {A : Type} (m : Dec A) : bypass_only m -> ctx_bins e 0 m.
Proof.
  intros H c. exists []. split; [apply H|]. split; [constructor | simpl; lia].
Qed.

(** *** Significance flags *)

Lemma ctx_idx_maps_small :
  Forall (Forall (Forall (fun v => 0 <= v <= 2))) ctx_idx_maps.
Proof. repeat constructor; lia. Qed.

Lemma sig_ctx_slots s L scan c_idx tsb i x_cg y_cg prev_sig :
  let '(scf_offset, map) := sig_ctx s L scan c_idx tsb x_cg y_cg prev_sig in
  (forall k, 0 <= scf_offset + map.[k] <= 43) /\
  0 <= sig_ctx_dc s c_idx tsb i scf_offset <= 43.
Proof.
  destruct ctx_idx_maps_range as [_ Hts].
  assert (Hat : forall a b k, 0 <= (ctx_idx_map_at a b).[k] <= 2).
  { intros a b k. unfold ctx_idx_map_at.
    apply (zth_Forall (fun v => 0 <= v <= 2)); [|lia].
    apply (nth_Forall_default (Forall (fun v => 0 <= v <= 2))); [|constructor].
    apply (nth_Forall_default (Forall (Forall (fun v => 0 <= v <= 2))));
      [exact ctx_idx_maps_small | constructor]. }
  assert (Hts2 : forall a k, 0 <= (nth a ctx_idx_maps_ts2 []).[k] <= 8).
  { intros a k. apply (zth_Forall (fun v => 0 <= v <= 8)); [|lia].
    apply (nth_Forall_default (Forall (fun v => 0 <= v <= 8))); [exact Hts|constructor]. }
  unfold sig_ctx, sig_ctx_dc.
  destruct (_ && _).
  - split.
    + intros k. pose proof (Hat 0 3 k). destruct (c_idx =? 0); lia.
    + destruct (c_idx =? 0); lia.
  - destruct (L =? 2).
    + split.
      * intros k. pose proof (Hts2 (Z.to_nat (scan_val scan)) k).
        destruct (negb (c_idx =? 0)); lia.
      * destruct (i =? 0), (c_idx =? 0); cbn; lia.
    + split.
      * intros k. pose proof (Hat (scan_val scan) prev_sig k).
        destruct (c_idx =? 0); cbn [negb]; destruct (L =? 3); try lia;
          destruct (_ || _); try destruct scan; lia.
      * destruct (i =? 0); [destruct (c_idx =? 0); lia|].
        destruct (c_idx =? 0); cbn [negb]; destruct (L =? 3); try lia;
          destruct (_ || _); try destruct scan; lia.
Qed.

Lemma ctx_bins_sig_idxs n state0 ctx_map :
  (forall k, elem_range SIGNIFICANT_COEFF_FLAG (state0 + ctx_map.[k])) ->
  ctx_bins SIGNIFICANT_COEFF_FLAG n (get_sig_coeff_flag_idxs n state0 ctx_map).
Proof.
  intros Hmap. induction n as [|n IH]; cbn [get_sig_coeff_flag_idxs].
  - apply ctx_bins_ret.
  - apply (ctx_bins_bind _ 1 n); [lia | apply ctx_bins_get_cabac, Hmap|]. intros b.
    apply (ctx_bins_bind _ n 0); [lia | exact IH|]. intros r. apply ctx_bins_ret.
Qed.

Lemma ctx_bins_decode_sig_flags s L scan c_idx tsb i x_cg y_cg prev_sig n_end inz idxs :
  ctx_bins SIGNIFICANT_COEFF_FLAG (Z.to_nat n_end + 1)
    (decode_sig_flags s L scan c_idx tsb i x_cg y_cg prev_sig n_end inz idxs).
Proof.
  unfold decode_sig_flags.
  pose proof (sig_ctx_slots s L scan c_idx tsb i x_cg y_cg prev_sig) as Hsc.
  destruct (sig_ctx s L scan c_idx tsb x_cg y_cg prev_sig) as [scf cmap].
  destruct Hsc as [Hmap Hdc].
  apply (ctx_bins_bind _ (Z.to_nat n_end) 1); [lia | |].
  - destruct (n_end >? 0); [|apply ctx_bins_ret].
    apply (ctx_bins_bind _ (Z.to_nat n_end) 0); [lia | |intros; apply ctx_bins_ret].
    apply ctx_bins_sig_idxs. intros k. specialize (Hmap k). slot. lia.
  - intros [idxs' inz'].
    destruct (inz' =? 0); [|apply ctx_bins_ret].
    apply (ctx_bins_bind _ 1 0); [lia | |intros; apply ctx_bins_ret].
    unfold significant_coeff_flag_decode_0. apply ctx_bins_get_cabac. slot. lia.
Qed.

Lemma ctx_bins_sig_group c_idx ctx_cg :
  0 <= ctx_cg ->
  ctx_bins SIGNIFICANT_COEFF_GROUP_FLAG 1 (significant_coeff_group_flag_decode c_idx ctx_cg).
Proof.
  intros H. unfold significant_coeff_group_flag_decode. apply ctx_bins_get_cabac.
  pose proof (FFMIN_le ctx_cg 1). pose proof (FFMIN_range ctx_cg 1).
  slot. destruct (c_idx >? 0); lia.
Qed.

(** *** Greater-1 and greater-2 flags *)

Lemma ctx_bins2_first e1 N1 N1' e2 N2 {A B : Type} (m : Dec A) (f : A -> Dec B) :
  ctx_bins e1 N1 m -> (forall a, ctx_bins2 e1 N1' e2 N2 (f a)) ->
  ctx_bins2 e1 (N1 + N1') e2 N2 (bind m f).
Proof.
  intros Hm Hf c. unfold bind. destruct (Hm c) as (n1 & E1 & F1 & L1).
  destruct (m c) as [a c1]. cbn [snd] in *.
  destruct (Hf a c1) as (n1' & n2 & E2 & F1' & L1' & F2 & L2).
  exists (n1' ++ n1), n2. split; [rewrite E2, E1, <- app_assoc; reflexivity|].
  split; [apply Forall_app; split; assumption|].
  split; [rewrite length_app; lia | auto].
Qed.

Lemma ctx_bins2_second e1 e2 N2 {A : Type} (m : Dec A) :
  ctx_bins e2 N2 m -> ctx_bins2 e1 0 e2 N2 m.
Proof.
  intros Hm c. destruct (Hm c) as (n2 & E & F & L).
  exists [], n2. split; [exact E|]. split; [constructor|]. split; [simpl; lia | auto].
Qed.

Lemma ctx_bins2_bypass e1 N1 e2 N2 {A B : Type} (m : Dec A) (f : A -> Dec B) :
  ctx_bins2 e1 N1 e2 N2 m -> (forall a, bypass_only (f a)) ->
  ctx_bins2 e1 N1 e2 N2 (bind m f).
Proof.
  intros Hm Hf c. unfold bind. destruct (Hm c) as (n1 & n2 & E & H).
  destruct (m c) as [a c1]. cbn [snd] in *.
  exists n1, n2. split; [rewrite Hf; exact E | exact H].
Qed.

Lemma ctx_bins2_seq e1 N1 e2 N2 {A B : Type} (m : Dec A) (f : A -> Dec B) :
  ctx_bins e1 N1 m -> (forall a, ctx_bins e2 N2 (f a)) ->
  ctx_bins2 e1 N1 e2 N2 (bind m f).
Proof.
  intros Hm Hf c. unfold bind. destruct (Hm c) as (n1 & E1 & F1 & L1).
  destruct (m c) as [a c1]. cbn [snd] in *.
  destruct (Hf a c1) as (n2 & E2 & F2 & L2).
  exists n1, n2. split; [rewrite E2, E1; reflexivity | auto].
Qed.

Lemma gt_slots c_idx ctx_set :
  0 <= ctx_set <= 3 -> (0 < c_idx -> ctx_set <= 1) ->
  let idx_delta := (if c_idx >? 0 then 4 else 0) + ctx_set in
  (forall k, 0 <= k <= 3 ->
     elem_range COEFF_ABS_LEVEL_GREATER1_FLAG
       (elem_offset COEFF_ABS_LEVEL_GREATER1_FLAG + (idx_delta ≪ 2) + k)) /\
  elem_range COEFF_ABS_LEVEL_GREATER2_FLAG
    (elem_offset COEFF_ABS_LEVEL_GREATER2_FLAG + idx_delta).
Proof.
  intros H Hc. cbv zeta. rewrite Z.shiftl_mul_pow2 by lia. change (2 ^ 2) with 4.
  split; [intros k Hk|]; slot; destruct (Z.gtb_spec c_idx 0); lia.
Qed.

Lemma ctx_bins2_greaterx n_end levels state0 state_gt2 :
  (forall k, 0 <= k <= 3 -> elem_range COEFF_ABS_LEVEL_GREATER1_FLAG (state0 + k)) ->
  elem_range COEFF_ABS_LEVEL_GREATER2_FLAG state_gt2 ->
  ctx_bins2 COEFF_ABS_LEVEL_GREATER1_FLAG 8 COEFF_ABS_LEVEL_GREATER2_FLAG 1
    (get_greaterx_bits n_end levels state0 state_gt2).
Proof.
  intros H1 H2. unfold get_greaterx_bits. cbv zeta.
  apply ctx_bins2_seq.
  - apply (ctx_bins_weaken _ (Z.to_nat (if n_end >? 8 then 8 else n_end)));
      [destruct (Z.gtb_spec n_end 8); lia|].
    assert (G : forall n i st,
      0 <= i ->
      ctx_bins COEFF_ABS_LEVEL_GREATER1_FLAG n
        (for_loopM n i
           (fun i '(rv, levels) =>
              let idx := if negb (rv =? 0) then 0 else if i <? 3 then i + 1 else 3 in
              bind (get_cabac (state0 + idx))
                (fun b => ret (uint32 (Z.lor (rv ≪ 1) b), zset levels i (1 + b)))) st)).
    { induction n as [|n IH]; intros i [rv lv] Hi; cbn [for_loopM].
      - apply ctx_bins_ret.
      - apply (ctx_bins_bind _ 1 n); [lia | |intros t; apply IH; lia].
        apply (ctx_bins_bind _ 1 0); [lia | |intros; apply ctx_bins_ret].
        apply ctx_bins_get_cabac, H1.
        destruct (negb (rv =? 0)); [lia|]. destruct (Z.ltb_spec i 3); lia. }
    apply G. lia.
  - intros [rv lv].
    apply (ctx_bins_bind _ 1 0); [lia | |].
    + destruct (negb _); [|apply ctx_bins_ret].
      apply (ctx_bins_bind _ 1 0); [lia | apply ctx_bins_get_cabac, H2|].
      intros g. destruct (g =? 0); apply ctx_bins_ret.
    + intros [[[rv' lv'] p] e]. destruct (n_end >? 8); apply ctx_bins_ret.
Qed.

Lemma ctx_bins2_decode_levels s c_idx tsb erf ctx_set idxs stat :
  0 <= ctx_set <= 3 -> (0 < c_idx -> ctx_set <= 1) ->
  ctx_bins2 COEFF_ABS_LEVEL_GREATER1_FLAG 8 COEFF_ABS_LEVEL_GREATER2_FLAG 1
    (decode_levels s c_idx tsb erf ctx_set idxs stat).
Proof.
  intros H Hc. destruct (gt_slots c_idx ctx_set H Hc) as [G1 G2].
  unfold decode_levels. apply ctx_bins2_bypass; [|intros [[[[[lv sa] sh] fl] p] st];
                                                  apply bypass_only_ret].
  unfold decode_abs_levels. cbv zeta.
  apply ctx_bins2_bypass; [apply ctx_bins2_greaterx; assumption|].
  intros [[[cv lv] p] e].
  apply bypass_only_bind; [apply bypass_only_sign_alt1|]. intros fl.
  destruct (negb (cv =? 0)); [|apply bypass_only_ret].
  apply bypass_only_bind; [apply bypass_only_remaining_loop|].
  intros; apply bypass_only_ret.
Qed.

Lemma ctx_bins2_decode_single_level s c_idx tsb ctx_set stat :
  0 <= ctx_set <= 3 -> (0 < c_idx -> ctx_set <= 1) ->
  ctx_bins2 COEFF_ABS_LEVEL_GREATER1_FLAG 1 COEFF_ABS_LEVEL_GREATER2_FLAG 1
    (decode_single_level s c_idx tsb ctx_set stat).
Proof.
  intros H Hc. destruct (gt_slots c_idx ctx_set H Hc) as [G1 G2].
  unfold decode_single_level. cbv zeta.
  apply (ctx_bins2_first _ 1 0); [apply ctx_bins_get_cabac, G1; lia|]. intros g1.
  apply ctx_bins2_bypass.
  - apply ctx_bins2_second.
    destruct (negb (g1 =? 0)); [|apply ctx_bins_ret].
    apply (ctx_bins_bind _ 1 0); [lia | apply ctx_bins_get_cabac, G2|].
    intros; apply ctx_bins_ret.
  - intros [[lvl p] cv].
    apply bypass_only_bind; [apply bypass_only_bypass|]. intros sg.
    apply bypass_only_bind; [|intros [lvl' st']; apply bypass_only_ret].
    destruct (negb (cv =? 0)); [|apply bypass_only_ret].
    destruct (negb _);
      (apply bypass_only_bind; [apply bypass_only_remaining|]; intros; apply bypass_only_ret).
Qed.

Lemma ctx_bins2_weaken e1 N1 N1' e2 N2 N2' {A : Type} (m : Dec A) :
  (N1 <= N1')%nat -> (N2 <= N2')%nat ->
  ctx_bins2 e1 N1 e2 N2 m -> ctx_bins2 e1 N1' e2 N2' m.
Proof.
  intros H1 H2 Hm c. destruct (Hm c) as (n1 & n2 & E & F1 & L1 & F2 & L2).
  exists n1, n2. repeat split; auto; lia.
Qed.

Lemma ctx_bins2_ret e1 N1 e2 N2 {A : Type} (a : A) : ctx_bins2 e1 N1 e2 N2 (ret a).
Proof.
  intros c. exists [], []. split; [reflexivity|].
  repeat split; try constructor; simpl; lia.
Qed.

Lemma bind_run {A B : Type} (m : Dec A) (f : A -> Dec B) c :
  bind m f c = f (fst (m c)) (snd (m c)).
Proof. unfold bind. destruct (m c). reflexivity. Qed.

(** X23.  The context-coded bins of one subblock.  In one pass of the
    subblock loop of [ff_hevc_hls_residual_coding] the engine is given, in
    this order, at most one context of SIGNIFICANT_COEFF_GROUP_FLAG, at
    most 16 of SIGNIFICANT_COEFF_FLAG, at most 8 of
    COEFF_ABS_LEVEL_GREATER1_FLAG and at most one of
    COEFF_ABS_LEVEL_GREATER2_FLAG, each inside the slots of its syntax
    element; signs and remainders are bypass bins.  The group flags held
    are 0 or 1, and in the first subblock decoded the last significant
    position is one of its 16. *)
Theorem subblock_context_bins (s : HEVCContext) (log2_trafo_size : Z)
    (scan_idx : ScanType) (c_idx : Z) (trans_skip_or_bypass : bool)
    (explicit_rdpcm_flag : Z) (dq : Dequant) (sc : ScanSel) (num_last_subset i : Z)
    (st : ResidualState) (c : CABACContext) :
  cg_bits (significant_coeff_group_flag st) ->
  (i = num_last_subset -> num_coeff sc - (i ≪ 4) - 1 <= 15) ->
  exists ng ns n1 n2,
    ctx_trace (snd (residual_subblock s log2_trafo_size scan_idx c_idx
                      trans_skip_or_bypass explicit_rdpcm_flag dq sc num_last_subset
                      i st c)) =
      n2 ++ n1 ++ ns ++ ng ++ ctx_trace c /\
    Forall (elem_range SIGNIFICANT_COEFF_GROUP_FLAG) ng /\ (length ng <= 1)%nat /\
    Forall (elem_range SIGNIFICANT_COEFF_FLAG) ns /\ (length ns <= 16)%nat /\
    Forall (elem_range COEFF_ABS_LEVEL_GREATER1_FLAG) n1 /\ (length n1 <= 8)%nat /\
    Forall (elem_range COEFF_ABS_LEVEL_GREATER2_FLAG) n2 /\ (length n2 <= 1)%nat.
Proof.
  intros Hg Hlsp. unfold residual_subblock. rewrite bind_run.
  set (x_cg := (scan_x_cg sc).[i]). set (y_cg := (scan_y_cg sc).[i]).
  set (g0 := significant_coeff_group_flag st) in *.
  (* the group flag *)
  match goal with |- context [fst (?m c)] =>
    assert (HA : ctx_bins SIGNIFICANT_COEFF_GROUP_FLAG 1 m);
      [| destruct (HA c) as (ng & Eg & Fg & Lg); destruct (m c) as [[g inz] c1] ]
  end.
  { match goal with |- ctx_bins _ _ (if ?b then _ else _) => destruct b end;
      [|apply ctx_bins_ret].
    apply (ctx_bins_bind _ 1 0); [lia | |intros; apply ctx_bins_ret].
    apply ctx_bins_sig_group.
    pose proof (cg_flag_range g0 (x_cg + 1) y_cg Hg).
    pose proof (cg_flag_range g0 x_cg (y_cg + 1) Hg).
    destruct (_ <? _); destruct (_ <? _); lia. }
  cbn [fst snd] in *. clear HA.
  (* the significance map *)
  assert (HB : forall n_end idxs ps inz',
    n_end <= 15 ->
    ctx_bins SIGNIFICANT_COEFF_FLAG 16
      (if negb (cg_flag g x_cg y_cg =? 0) && (n_end >=? 0)
       then decode_sig_flags s log2_trafo_size scan_idx c_idx trans_skip_or_bypass
              i x_cg y_cg ps n_end inz' idxs
       else ret idxs)).
  { intros n_end idxs ps inz' Hn.
    match goal with |- ctx_bins _ _ (if ?b then _ else _) => destruct b end;
      [|apply ctx_bins_ret].
    apply (ctx_bins_weaken _ (Z.to_nat n_end + 1)); [lia|].
    apply ctx_bins_decode_sig_flags. }
  (* the levels *)
  assert (HC : forall idxs,
    ctx_bins2 COEFF_ABS_LEVEL_GREATER1_FLAG 8 COEFF_ABS_LEVEL_GREATER2_FLAG 1
      (if negb (Z.of_nat (length idxs) =? 0)
       then
         if Z.of_nat (length idxs) =? 1
         then
           bind
             (decode_single_level s c_idx trans_skip_or_bypass
                ((if (i >? 0) && (c_idx =? 0) then 2 else 0) +
                 b2z (negb (i =? num_last_subset) && negb (rs_prev_subset_coded st =? 0)))
                (rs_stat_coeff st))
             (fun '(trans_coeff_level, prev_subset_coded, stat_coeff) =>
                ret (mkRS g prev_subset_coded stat_coeff
                       (store_coeff dq log2_trafo_size x_cg y_cg
                          (scan_x_off sc) (scan_y_off sc) idxs.[0] trans_coeff_level
                          (rs_coeffs st))
                       (t_offset_of log2_trafo_size x_cg y_cg
                          (scan_x_off sc) (scan_y_off sc) idxs.[0] :: rs_assigned st)))
         else
           bind
             (decode_levels s c_idx trans_skip_or_bypass explicit_rdpcm_flag
                ((if (i >? 0) && (c_idx =? 0) then 2 else 0) +
                 b2z (negb (i =? num_last_subset) && negb (rs_prev_subset_coded st =? 0)))
                idxs (rs_stat_coeff st))
             (fun '(levels, coeff_sign_flags, prev_subset_coded, stat_coeff) =>
                ret (mkRS g prev_subset_coded stat_coeff
                       (store_levels dq log2_trafo_size x_cg y_cg
                          (scan_x_off sc) (scan_y_off sc) idxs levels coeff_sign_flags
                          (rs_coeffs st))
                       (map (t_offset_of log2_trafo_size x_cg y_cg
                               (scan_x_off sc) (scan_y_off sc)) idxs ++ rs_assigned st)))
       else ret (mkRS g (rs_prev_subset_coded st) (rs_stat_coeff st) (rs_coeffs st)
                   (rs_assigned st)))).
  { intros idxs.
    assert (Hcs : 0 <= (if (i >? 0) && (c_idx =? 0) then 2 else 0) +
                       b2z (negb (i =? num_last_subset) &&
                            negb (rs_prev_subset_coded st =? 0)) <= 3 /\
                  (0 < c_idx ->
                   (if (i >? 0) && (c_idx =? 0) then 2 else 0) +
                   b2z (negb (i =? num_last_subset) &&
                        negb (rs_prev_subset_coded st =? 0)) <= 1)).
    { match goal with |- context [b2z ?b] => pose proof (b2z_range b) end.
      destruct (Z.eqb_spec c_idx 0); rewrite ?andb_false_r; destruct (i >? 0);
        cbn [andb]; lia. }
    destruct Hcs as [Hcs1 Hcs2].
    match goal with |- ctx_bins2 _ _ _ _ (if ?b then _ else _) => destruct b end;
      [|apply ctx_bins2_ret].
    match goal with |- ctx_bins2 _ _ _ _ (if ?b then _ else _) => destruct b end.
    - apply (ctx_bins2_weaken _ 1 8 _ 1 1); [lia | lia|].
      apply ctx_bins2_bypass; [apply ctx_bins2_decode_single_level; assumption|].
      intros [[a b] d]. apply bypass_only_ret.
    - apply ctx_bins2_bypass; [apply ctx_bins2_decode_levels; assumption|].
      intros [[[a b] d] e]. apply bypass_only_ret. }
  assert (Hfin : forall n_end idxs ps,
    n_end <= 15 ->
    exists ns n1 n2,
      ctx_trace
        (snd (bind
                (if negb (cg_flag g x_cg y_cg =? 0) && (n_end >=? 0)
                 then decode_sig_flags s log2_trafo_size scan_idx c_idx
                        trans_skip_or_bypass i x_cg y_cg ps n_end inz idxs
                 else ret idxs)
                (fun idxs =>
                   if negb (Z.of_nat (length idxs) =? 0)
                   then
                     if Z.of_nat (length idxs) =? 1
                     then
                       bind
                         (decode_single_level s c_idx trans_skip_or_bypass
                            ((if (i >? 0) && (c_idx =? 0) then 2 else 0) +
                             b2z (negb (i =? num_last_subset) &&
                                  negb (rs_prev_subset_coded st =? 0)))
                            (rs_stat_coeff st))
                         (fun '(trans_coeff_level, prev_subset_coded, stat_coeff) =>
                            ret (mkRS g prev_subset_coded stat_coeff
                                   (store_coeff dq log2_trafo_size x_cg y_cg
                                      (scan_x_off sc) (scan_y_off sc) idxs.[0]
                                      trans_coeff_level (rs_coeffs st))
                                   (t_offset_of log2_trafo_size x_cg y_cg
                                      (scan_x_off sc) (scan_y_off sc) idxs.[0]
                                    :: rs_assigned st)))
                     else
                       bind
                         (decode_levels s c_idx trans_skip_or_bypass explicit_rdpcm_flag
                            ((if (i >? 0) && (c_idx =? 0) then 2 else 0) +
                             b2z (negb (i =? num_last_subset) &&
                                  negb (rs_prev_subset_coded st =? 0)))
                            idxs (rs_stat_coeff st))
                         (fun '(levels, coeff_sign_flags, prev_subset_coded, stat_coeff) =>
                            ret (mkRS g prev_subset_coded stat_coeff
                                   (store_levels dq log2_trafo_size x_cg y_cg
                                      (scan_x_off sc) (scan_y_off sc) idxs levels
                                      coeff_sign_flags (rs_coeffs st))
                                   (map (t_offset_of log2_trafo_size x_cg y_cg
                                           (scan_x_off sc) (scan_y_off sc)) idxs ++
                                    rs_assigned st)))
                   else ret (mkRS g (rs_prev_subset_coded st) (rs_stat_coeff st)
                               (rs_coeffs st) (rs_assigned st))) c1)) =
        n2 ++ n1 ++ ns ++ ctx_trace c1 /\
      Forall (elem_range SIGNIFICANT_COEFF_FLAG) ns /\ (length ns <= 16)%nat /\
      Forall (elem_range COEFF_ABS_LEVEL_GREATER1_FLAG) n1 /\ (length n1 <= 8)%nat /\
      Forall (elem_range COEFF_ABS_LEVEL_GREATER2_FLAG) n2 /\ (length n2 <= 1)%nat).
  { intros n_end idxs ps Hn. rewrite bind_run.
    destruct (HB n_end idxs ps inz Hn c1) as (ns & Es & Fs & Ls).
    match goal with |- context [fst (?m c1)] => destruct (m c1) as [idxs' c2] end.
    cbn [fst snd] in *.
    destruct (HC idxs' c2) as (n1 & n2 & E12 & F1 & L1 & F2 & L2).
    exists ns, n1, n2. rewrite E12, Es. repeat split; assumption. }
  destruct (Z.eqb_spec i num_last_subset) as [E|Hne]; cbv beta iota.
  - destruct (Hfin (num_coeff sc - (i ≪ 4) - 1 - 1) [num_coeff sc - (i ≪ 4) - 1]
                (let prev_sig := 0 in
                 let prev_sig :=
                   if x_cg <? ((1 ≪ log2_trafo_size) - 1) ≫ 2
                   then b2z (negb (cg_flag g (x_cg + 1) y_cg =? 0)) else prev_sig in
                 if y_cg <? ((1 ≪ log2_trafo_size) - 1) ≫ 2
                 then prev_sig + (b2z (negb (cg_flag g x_cg (y_cg + 1) =? 0)) ≪ 1)
                 else prev_sig)
                ltac:(specialize (Hlsp E); lia))
      as (ns & n1 & n2 & Et & H).
    exists ng, ns, n1, n2. split; [|split; [exact Fg | split; [exact Lg | exact H]]].
    rewrite <- Eg. exact Et.
  - destruct (Hfin 15 []
                (let prev_sig := 0 in
                 let prev_sig :=
                   if x_cg <? ((1 ≪ log2_trafo_size) - 1) ≫ 2
                   then b2z (negb (cg_flag g (x_cg + 1) y_cg =? 0)) else prev_sig in
                 if y_cg <? ((1 ≪ log2_trafo_size) - 1) ≫ 2
                 then prev_sig + (b2z (negb (cg_flag g x_cg (y_cg + 1) =? 0)) ≪ 1)
                 else prev_sig)
                ltac:(lia))
      as (ns & n1 & n2 & Et & H).
    exists ng, ns, n1, n2. split; [|split; [exact Fg | split; [exact Lg | exact H]]].
    rewrite <- Eg. exact Et.
Qed.

Lemma subblock_context_bins_witness :
  exists ng ns n1 n2,
    ctx_trace (snd (residual_subblock ex_intra 3 SCAN_DIAG 0 false 0
                      (mkDequant 40 2 sixteen_scale 16) (select_scan SCAN_DIAG 3 2 1) 0 0
                      (mkRS (repeat 0 64) 0 [0; 0; 0; 0] (repeat 0 64) [])
                      (engine_of (repeat true 30)))) =
      n2 ++ n1 ++ ns ++ ng ++ ctx_trace (engine_of (repeat true 30)) /\
    Forall (elem_range SIGNIFICANT_COEFF_GROUP_FLAG) ng /\ (length ng <= 1)%nat /\
    Forall (elem_range SIGNIFICANT_COEFF_FLAG) ns /\ (length ns <= 16)%nat /\
    Forall (elem_range COEFF_ABS_LEVEL_GREATER1_FLAG) n1 /\ (length n1 <= 8)%nat /\
    Forall (elem_range COEFF_ABS_LEVEL_GREATER2_FLAG) n2 /\ (length n2 <= 1)%nat.
Proof.
  apply (subblock_context_bins ex_intra 3 SCAN_DIAG 0 false 0
           (mkDequant 40 2 sixteen_scale 16) (select_scan SCAN_DIAG 3 2 1) 0 0
           (mkRS (repeat 0 64) 0 [0; 0; 0; 0] (repeat 0 64) [])
           (engine_of (repeat true 30))).
  - unfold cg_bits. cbn [significant_coeff_group_flag].
    apply Forall_forall. intros v Hv. apply repeat_spec in Hv. lia.
  - intros _. vm_compute. discriminate.
Defined.

(** ** The context-coded bins ahead of the subblocks *)

Lemma ctx_bins_last_prefix_loop e n i base off sh :
  (forall j, i <= j < i + Z.of_nat n -> elem_range e (base + (j ≫ sh) + off)) ->
  ctx_bins e n (last_prefix_loop n i base off sh).
Proof.
  revert i. induction n as [|n IH]; intros i H; cbn [last_prefix_loop].
  - apply ctx_bins_ret.
  - apply (ctx_bins_bind _ 1 n); [lia | apply ctx_bins_get_cabac, H; lia|].
    intros b. destruct (b =? 0); [apply ctx_bins_ret|].
    apply IH. intros j Hj. apply H. lia.
Qed.

Lemma last_prefix_slots c_idx L j :
  2 <= L <= 5 -> 0 <= j < 2 * L - 1 ->
  let '(ctx_offset, ctx_shift) :=
    if c_idx =? 0
    then (3 * (L - 2) + ((L - 1) ≫ 2), (L + 1) ≫ 2)
    else (15, L - 2) in
  0 <= (j ≫ ctx_shift) + ctx_offset < 18.
Proof.
  intros HL Hj.
  assert (HL' : L = 2 \/ L = 3 \/ L = 4 \/ L = 5) by lia.
  assert (Hj' : j = 0 \/ j = 1 \/ j = 2 \/ j = 3 \/ j = 4 \/ j = 5 \/ j = 6 \/ j = 7 \/
                j = 8) by lia.
  destruct (c_idx =? 0);
    destruct HL' as [-> | [-> | [-> | ->]]];
    repeat (destruct Hj' as [-> | Hj']); try subst j;
    first [lia | vm_compute; split; [discriminate | reflexivity]].
Qed.

(** X24.  The context-coded bins ahead of the subblocks.
    [transform_skip_flag], [explicit_rdpcm_flag] and
    [explicit_rdpcm_dir_flag] take one bin each with a context of their
    own element.  For [2 <= log2_trafo_size <= 5] the two prefixes of the
    last significant position take at most [2 * log2_trafo_size - 1] bins
    each, first those of LAST_SIGNIFICANT_COEFF_X_PREFIX, then those of
    LAST_SIGNIFICANT_COEFF_Y_PREFIX, each inside the 18 slots of its
    element; the suffixes are bypass bins. *)
Theorem residual_header_context_bins (c_idx log2_trafo_size prefix : Z) :
  2 <= log2_trafo_size <= 5 ->
  ctx_bins TRANSFORM_SKIP_FLAG 1 (hevc_transform_skip_flag_decode c_idx) /\
  ctx_bins EXPLICIT_RDPCM_FLAG 1 (explicit_rdpcm_flag_decode c_idx) /\
  ctx_bins EXPLICIT_RDPCM_DIR_FLAG 1 (explicit_rdpcm_dir_flag_decode c_idx) /\
  ctx_bins2 LAST_SIGNIFICANT_COEFF_X_PREFIX (Z.to_nat (2 * log2_trafo_size - 1))
    LAST_SIGNIFICANT_COEFF_Y_PREFIX (Z.to_nat (2 * log2_trafo_size - 1))
    (last_significant_coeff_xy_prefix_decode c_idx log2_trafo_size) /\
  bypass_only (last_significant_coeff prefix).
Proof.
  intros HL.
  split; [|split; [|split; [|split]]].
  - apply ctx_bins_get_cabac. pose proof (b2z_range (negb (c_idx =? 0))). slot. lia.
  - apply ctx_bins_get_cabac. pose proof (b2z_range (negb (c_idx =? 0))). slot. lia.
  - apply ctx_bins_get_cabac. pose proof (b2z_range (negb (c_idx =? 0))). slot. lia.
  - unfold last_significant_coeff_xy_prefix_decode. cbv zeta.
    rewrite Z.shiftl_mul_pow2 by lia. change (2 ^ 1) with 2.
    replace (log2_trafo_size * 2 - 1) with (2 * log2_trafo_size - 1) by lia.
    assert (Hs : forall j, 0 <= j < 0 + Z.of_nat (Z.to_nat (2 * log2_trafo_size - 1)) ->
              let '(ctx_offset, ctx_shift) :=
                if c_idx =? 0
                then (3 * (log2_trafo_size - 2) + ((log2_trafo_size - 1) ≫ 2),
                      (log2_trafo_size + 1) ≫ 2)
                else (15, log2_trafo_size - 2) in
              0 <= (j ≫ ctx_shift) + ctx_offset < 18).
    { intros j Hj. apply last_prefix_slots; lia. }
    destruct (c_idx =? 0); cbv beta iota in Hs |- *.
    all: apply ctx_bins2_seq;
      [ apply ctx_bins_last_prefix_loop; intros j Hj; specialize (Hs j Hj); slot; lia
      | intros x; apply (ctx_bins_bind _ (Z.to_nat (2 * log2_trafo_size - 1)) 0);
        [ lia
        | apply ctx_bins_last_prefix_loop; intros j Hj; specialize (Hs j Hj); slot; lia
        | intros y; apply ctx_bins_ret ] ].
  - apply bypass_only_last_significant_coeff.
Qed.

Lemma residual_header_context_bins_witness :
  ctx_bins2 LAST_SIGNIFICANT_COEFF_X_PREFIX (Z.to_nat (2 * 5 - 1))
    LAST_SIGNIFICANT_COEFF_Y_PREFIX (Z.to_nat (2 * 5 - 1))
    (last_significant_coeff_xy_prefix_decode 0 5).
Proof.
  exact (proj1 (proj2 (proj2 (proj2
           (residual_header_context_bins 0 5 0 ltac:(lia)))))).
Defined.

(** ** The rotation of transform-skip blocks *)

(** X25.  The swap loop applied to 4x4 transform-skip blocks when
    [transform_skip_rotation_enabled_flag] is set turns the block by 180
    degrees: the coefficient at [(x, y)] comes from [(3 - x, 3 - y)],
    nothing beyond the 16 coefficients is touched, and applying it twice
    gives the block back. *)
Theorem rotate_4x4_half_turn (coeffs : list Z) :
  (16 <= length coeffs)%nat ->
  (forall x y, 0 <= x < 4 -> 0 <= y < 4 ->
     (rotate_4x4 coeffs).[4 * y + x] = coeffs.[4 * (3 - y) + (3 - x)]) /\
  skipn 16 (rotate_4x4 coeffs) = skipn 16 coeffs /\
  rotate_4x4 (rotate_4x4 coeffs) = coeffs.
Proof.
  intros H.
  do 16 (destruct coeffs as [|? coeffs]; [simpl in H; lia|]).
  clear H.
  split; [|split].
  - intros x y Hx Hy.
    assert (Hx' : x = 0 \/ x = 1 \/ x = 2 \/ x = 3) by lia.
    assert (Hy' : y = 0 \/ y = 1 \/ y = 2 \/ y = 3) by lia.
    destruct Hx' as [-> | [-> | [-> | ->]]]; destruct Hy' as [-> | [-> | [-> | ->]]];
      reflexivity.
  - reflexivity.
  - reflexivity.
Qed.

Lemma rotate_4x4_half_turn_witness :
  rotate_4x4 (rotate_4x4 [1; 2; 3; 4; 5; 6; 7; 8; 9; 10; 11; 12; 13; 14; 15; 16; 17]) =
  [1; 2; 3; 4; 5; 6; 7; 8; 9; 10; 11; 12; 13; 14; 15; 16; 17].
Proof.
  exact (proj2 (proj2 (rotate_4x4_half_turn
                         [1; 2; 3; 4; 5; 6; 7; 8; 9; 10; 11; 12; 13; 14; 15; 16; 17]
                         ltac:(simpl; lia)))).
Defined.
